(** * A shallow embedding of the cedar double-array trie (package [cedar])

    The file follows [api.go]: the slot array and the node-info array are
    lists indexed by Go [int]s (here [Z]), the value side-table is a finite
    map, every method threads the cedar explicitly, and a Go run-time panic
    (an index out of range) is an outcome of its own.  The trie engine that
    [api.go] calls ([get], [vKey], [pushEnode], [popSibling], [hasLabel],
    [child], [isEnd], [base], [NewCedar]) is not part of the sources at hand
    and is modelled from the specification. *)

From Stdlib Require Import ZArith Lia.
From Stdlib Require Import Strings.Byte Strings.String.
From stdpp Require Import base tactics option list sorting gmap.

Local Open Scope Z_scope.

(** ** Outcomes of a call *)

(** A call returns ([Ret]), panics ([Crash], Go's index out of range) or is
    still running when the fuel of one of its loops is used up ([Loop]). *)
Inductive run (A : Type) : Type :=
| Ret (a : A)
| Crash
| Loop.
Arguments Ret {A} a.
Arguments Crash {A}.
Arguments Loop {A}.

Definition bind {A B : Type} (m : run A) (f : A -> run B) : run B :=
  match m with
  | Ret a => f a
  | Crash => Crash
  | Loop => Loop
  end.

Notation "x <- y ; z" := (bind y (fun x => z))
  (at level 20, y at level 100, z at level 200, only parsing).
Notation "' x <- y ; z" := (bind y (fun x => z))
  (at level 20, x pattern, y at level 100, z at level 200, only parsing).

(** ** Bytes and machine integers *)

Abbreviation byte := Byte.byte.

(** [int(b)] for a byte [b]. *)
Definition ord (b : byte) : Z := Z.of_N (Byte.to_N b).

(** [byte(z)] for an int [z]: the low eight bits. *)
Definition chr (z : Z) : byte :=
  match Byte.of_N (Z.to_N (z mod 256)) with
  | Some b => b
  | None => x00
  end.

Definition byte_eqb (a b : byte) : bool := Byte.eqb a b.

#[global] Instance byte_eq_decision : EqDecision byte := Byte.byte_eq_dec.

(** Go's [int] is 64 bits wide; [wrap64] is the value an arithmetic result
    takes after wrap-around. *)
Definition wrap64 (z : Z) : Z := (z + 2 ^ 63) mod 2 ^ 64 - 2 ^ 63.

Definition NUL : byte := x00.
Definition STAR : byte := "*"%byte.

(** ** Data model *)

Inductive error : Type :=
| ErrNoPath
| ErrNoValue
| ErrInvalidKey
| ErrInvalidValue.

(** [interface{}] payloads: the nil interface or an int. *)
Inductive iface : Type :=
| INil
| IInt (n : Z).

Record node : Type := mkNode { Value : Z; Check : Z }.

Record ninfo : Type := mkInfo { Sibling : byte; Child : byte; End : bool }.

Record nvalue : Type := mkNValue { Len : Z; Val : iface }.

Record Cedar : Type := mkCedar {
  array : list node;
  info : list ninfo;
  vals : gmap Z nvalue;
  vkey : Z
}.

#[global] Instance error_eq_dec : EqDecision error.
Proof. solve_decision. Defined.
#[global] Instance iface_eq_dec : EqDecision iface.
Proof. solve_decision. Defined.
#[global] Instance node_eq_dec : EqDecision node.
Proof. solve_decision. Defined.

(** Modelled from the spec: the method [base()] of a slot, which the
    sources call but do not define.  A slot has one signed integer for its
    value and its base (spec 3.1 and the note on [Update] in 9): a
    non-negative [Value] is a value-key, a negative one encodes the XOR-base
    of the node's children. *)
Definition base (n : node) : Z := - (Value n + 1).

(** Modelled from the spec: the constant [valueLimit] (spec 6: at least
    2^31-1); the largest Go [int]. *)
Definition valueLimit : Z := 2 ^ 63 - 1.

(** ** Indexing *)

(** [l[i]] for a Go slice: [None] stands for the index-out-of-range panic. *)
Definition at_ {A} (l : list A) (i : Z) : option A :=
  if decide (0 <= i) then l !! Z.to_nat i else None.

Definition rd {A} (l : list A) (i : Z) : run A :=
  match at_ l i with
  | Some x => Ret x
  | None => Crash
  end.

(** [l[i] = x]. *)
Definition wr {A} (l : list A) (i : Z) (x : A) : run (list A) :=
  match at_ l i with
  | Some _ => Ret (<[Z.to_nat i := x]> l)
  | None => Crash
  end.

Definition set_array (da : Cedar) (a : list node) : Cedar :=
  mkCedar a (info da) (vals da) (vkey da).
Definition set_info (da : Cedar) (i : list ninfo) : Cedar :=
  mkCedar (array da) i (vals da) (vkey da).
Definition set_vals (da : Cedar) (v : gmap Z nvalue) : Cedar :=
  mkCedar (array da) (info da) v (vkey da).
Definition set_vkey (da : Cedar) (k : Z) : Cedar :=
  mkCedar (array da) (info da) (vals da) k.

(** [da.array[i].Value = v] *)
Definition setValue (da : Cedar) (i v : Z) : run Cedar :=
  n <- rd (array da) i;
  a <- wr (array da) i (mkNode v (Check n));
  Ret (set_array da a).

(** [da.array[i].Check = c] *)
Definition setCheck (da : Cedar) (i c : Z) : run Cedar :=
  n <- rd (array da) i;
  a <- wr (array da) i (mkNode (Value n) c);
  Ret (set_array da a).

Definition setSibling (da : Cedar) (i : Z) (s : byte) : run Cedar :=
  n <- rd (info da) i;
  a <- wr (info da) i (mkInfo s (Child n) (End n));
  Ret (set_info da a).

Definition setChild (da : Cedar) (i : Z) (c : byte) : run Cedar :=
  n <- rd (info da) i;
  a <- wr (info da) i (mkInfo (Sibling n) c (End n));
  Ret (set_info da a).

Definition setEnd (da : Cedar) (i : Z) (e : bool) : run Cedar :=
  n <- rd (info da) i;
  a <- wr (info da) i (mkInfo (Sibling n) (Child n) e);
  Ret (set_info da a).

(** ** The trie engine (modelled from the specification) *)

Definition free_node : node := mkNode (-1) (-1).
Definition empty_info : ninfo := mkInfo NUL NUL false.

(** Modelled from the spec: the constructor [NewCedar] (spec 3.5, Create):
    two blocks of 256 slots, slot 0 the root with the non-parent check -1
    (spec 3.1), every other slot free.  The block directory and the in-band
    links of the free rings serve only to find free slots and are not
    represented: a slot other than the root is free when its check is
    negative, and a free slot is found by scanning. *)
Definition NewCedar : Cedar :=
  mkCedar (mkNode (-1) (-1) :: replicate 511 free_node)
          (replicate 512 empty_info) ∅ 0.

Definition is_free (a : list node) (i : Z) : bool :=
  negb (i =? 0) &&
  match at_ a i with
  | Some n => Check n <? 0
  | None => false
  end.

(** Modelled from the spec: array growth (spec 4.A): a new block of free
    slots is appended to both arrays. *)
Definition grow (da : Cedar) : Cedar :=
  mkCedar (array da ++ replicate 256 free_node)
          (info da ++ replicate 256 empty_info) (vals da) (vkey da).

Definition fits (a : list node) (labels : list byte) (b : Z) : bool :=
  forallb (fun c => is_free a (Z.lxor b (ord c))) labels.

Fixpoint scan (P : Z -> bool) (b : Z) (n : nat) : option Z :=
  match n with
  | O => None
  | S n' => if P b then Some b else scan P (b + 1) n'
  end.

(** Modelled from the spec: the search for a base (spec 4.E): a base [b]
    such that [b XOR c] is free for every label [c] of the set; when the
    array has none, it grows and the new block is used. *)
Definition findBase (da : Cedar) (labels : list byte) : Cedar * Z :=
  match scan (fits (array da) labels) 0 (length (array da)) with
  | Some b => (da, b)
  | None => (grow da, Z.of_nat (length (array da)))
  end.

(** Modelled from the spec: whether node [p] has children (spec 4.E, step
    1).  The label 0 is a label too, so the test looks at the slot of the
    designated child. *)
Definition hasChild (da : Cedar) (p : Z) : run bool :=
  n <- rd (array da) p;
  i <- rd (info da) p;
  if base n <? 0 then Ret false
  else match at_ (array da) (Z.lxor (base n) (ord (Child i))) with
       | Some nc => Ret (Check nc =? p)
       | None => Ret false
       end.

Fixpoint ring_from (fuel : nat) (da : Cedar) (b : Z) (c : byte)
  : run (list byte) :=
  match fuel with
  | O => Loop
  | S fuel' =>
    i <- rd (info da) (Z.lxor b (ord c));
    if byte_eqb (Sibling i) NUL then Ret [c]
    else rest <- ring_from fuel' da b (Sibling i); Ret (c :: rest)
  end.

(** Modelled from the spec: the child set of a node, scanned by ring
    traversal of labels (spec 3.2 and 4.E). *)
Definition children (da : Cedar) (p : Z) : run (list byte) :=
  hc <- hasChild da p;
  if hc then
    n <- rd (array da) p;
    i <- rd (info da) p;
    ring_from 256 da (base n) (Child i)
  else Ret [].

Fixpoint pushSibling_walk (fuel : nat) (da : Cedar) (b : Z) (c label : byte)
  : run Cedar :=
  match fuel with
  | O => Loop
  | S fuel' =>
    i <- rd (info da) (Z.lxor b (ord c));
    let s := Sibling i in
    if negb (byte_eqb s NUL) && (ord s <? ord label)
    then pushSibling_walk fuel' da b s label
    else da <- setSibling da (Z.lxor b (ord label)) s;
         setSibling da (Z.lxor b (ord c)) label
  end.

(** Modelled from the spec: insertion of [label] into the child ring of
    [from], labels ascending and [Child] at the smallest (spec 4.E, step
    2). *)
Definition pushSibling (da : Cedar) (from b : Z) (label : byte) (hc : bool)
  : run Cedar :=
  i <- rd (info da) from;
  let c := Child i in
  if hc && (ord c <? ord label) then pushSibling_walk 256 da b c label
  else da <- setSibling da (Z.lxor b (ord label)) c;
       setChild da from label.

Fixpoint popSibling_walk (fuel : nat) (da : Cedar) (b : Z) (c label : byte)
  : run Cedar :=
  match fuel with
  | O => Loop
  | S fuel' =>
    i <- rd (info da) (Z.lxor b (ord c));
    if byte_eqb (Sibling i) label then
      il <- rd (info da) (Z.lxor b (ord label));
      setSibling da (Z.lxor b (ord c)) (Sibling il)
    else popSibling_walk fuel' da b (Sibling i) label
  end.

(** Modelled from the spec: [popSibling(parent, base, label)] (spec 4.E):
    walk the ring of [parent] to the predecessor of [label] and rewire it
    to skip [label]; when [label] is [parent.child], the next sibling
    becomes the child. *)
Definition popSibling (da : Cedar) (from b : Z) (label : byte) : run Cedar :=
  i <- rd (info da) from;
  if byte_eqb (Child i) label then
    il <- rd (info da) (Z.lxor b (ord label));
    setChild da from (Sibling il)
  else popSibling_walk 256 da b (Child i) label.

(** Modelled from the spec: [pushEnode] (spec 4.C/D, push free slot): the
    slot returns to the free slots, its node-info is cleared. *)
Definition pushEnode (da : Cedar) (e : Z) : run Cedar :=
  a <- wr (array da) e free_node;
  i <- wr (info da) e empty_info;
  Ret (set_info (set_array da a) i).

(** Modelled from the spec: step 2 of [get] (spec 4.E): claim the free
    slot [b XOR label] for [from] and insert the label into the ring of
    [from].  A claimed slot that holds neither a base nor a value-key
    carries [valueLimit], the one non-negative integer that is never a
    stored value (spec 6). *)
Definition link (da : Cedar) (from b : Z) (label : byte) : run (Cedar * Z) :=
  hc <- hasChild da from;
  let to := Z.lxor b (ord label) in
  a <- wr (array da) to (mkNode valueLimit from);
  da <- pushSibling (set_array da a) from b label hc;
  Ret (da, to).

Fixpoint redirect (da : Cedar) (b : Z) (gcs : list byte) (new : Z)
  : run Cedar :=
  match gcs with
  | [] => Ret da
  | g :: gcs' =>
    da <- setCheck da (Z.lxor b (ord g)) new;
    redirect da b gcs' new
  end.

(** One child of [p] moves from [ob XOR c] to [nb XOR c]: the slot's
    contents move, the checks of its own children are rewritten to the new
    id, the old slot is freed. *)
Definition move_child (da : Cedar) (p ob nb : Z) (c : byte) : run Cedar :=
  let old := Z.lxor ob (ord c) in
  let new := Z.lxor nb (ord c) in
  n <- rd (array da) old;
  i <- rd (info da) old;
  gcs <- children da old;
  a <- wr (array da) new (mkNode (Value n) p);
  inf <- wr (info da) new i;
  da <- redirect (set_info (set_array da a) inf) (base n) gcs new;
  pushEnode da old.

Fixpoint move_children (da : Cedar) (p ob nb : Z) (cs : list byte)
  : run Cedar :=
  match cs with
  | [] => Ret da
  | c :: cs' =>
    da <- move_child da p ob nb c;
    move_children da p ob nb cs'
  end.

(** Modelled from the spec: relocation (spec 4.E, resolve conflict): the
    whole child set of [p] moves to the base [nb]. *)
Definition relocate (da : Cedar) (p nb : Z) : run Cedar :=
  n <- rd (array da) p;
  cs <- children da p;
  da <- move_children da p (base n) nb cs;
  setValue da p (- nb - 1).

(** Modelled from the spec: step 3 of [get] (spec 4.E): of the inserting
    node [from] and the parent of the occupant of [b XOR label], the one
    whose child set (with [label] added on the inserting side) is smaller
    is relocated; then step 2 is retried.  The root has no parent, so a
    conflict with slot 0 relocates the children of [from]. *)
Definition resolve (da : Cedar) (from b : Z) (label : byte)
  : run (Cedar * Z) :=
  let q := Z.lxor b (ord label) in
  nq <- rd (array da) q;
  let occ := Check nq in
  cs_n <- children da from;
  cs_p <- (if q =? 0 then Ret [] else children da occ);
  if (q =? 0) || (Z.of_nat (length cs_n) + 1 <=? Z.of_nat (length cs_p)) then
    let '(da, nb) := findBase da (label :: cs_n) in
    da <- relocate da from nb;
    link da from nb label
  else
    let '(da, nb) := findBase da cs_p in
    nf <- rd (array da) from;
    no <- rd (array da) occ;
    let from' := if Check nf =? occ
                 then Z.lxor nb (Z.lxor (base no) from) else from in
    da <- relocate da occ nb;
    link da from' b label.

(** Modelled from the spec: one step of the insert-mode walk (spec 4.E,
    steps 1 to 3). *)
Definition follow (da : Cedar) (from : Z) (label : byte) : run (Cedar * Z) :=
  hc <- hasChild da from;
  if negb hc then
    let '(da, b) := findBase da [label] in
    da <- setValue da from (- b - 1);
    link da from b label
  else
    n <- rd (array da) from;
    let b := base n in
    let to := Z.lxor b (ord label) in
    nt <- rd (array da) to;
    if Check nt =? from then Ret (da, to)
    else if is_free (array da) to then link da from b label
    else resolve da from b label.

(** Modelled from the spec: [get(key, from, i)] (spec 4.E), the
    insert-mode walk over [key[i..]], here over the remaining bytes.  A
    value lives at a leaf: before the walk descends below a node that
    stores a value-key, the value-key moves to the child with label 0, and
    a key that ends at a node with children ends at that node's child with
    label 0 (the convention of spec 4.E, Deletion, and 4.G, Value and
    begin). *)
Fixpoint get (da : Cedar) (key : list byte) (from : Z) : run (Cedar * Z) :=
  match key with
  | [] =>
    n <- rd (array da) from;
    if Value n <? 0 then follow da from NUL else Ret (da, from)
  | b :: rest =>
    n <- rd (array da) from;
    da <- (if (0 <=? Value n) && negb (Value n =? valueLimit) then
            '(da, to) <- follow da from NUL;
            setValue da to (Value n)
          else Ret da);
    '(da, to) <- follow da from b;
    get da rest to
  end.

(** Modelled from the spec: [vKey] (spec 4.E, vKey allocation): a counter
    produces the next value-key at each insert. *)
Definition vKey (da : Cedar) : Cedar * Z :=
  (set_vkey da (wrap64 (vkey da + 1)), vkey da).

(** Modelled from the spec: [child(id, label)], the child of [id] by
    [label]: the slot [base XOR label] when its check names [id]. *)
Definition child (da : Cedar) (id : Z) (label : byte)
  : run (Z * option error) :=
  n <- rd (array da) id;
  match at_ (array da) (Z.lxor (base n) (ord label)) with
  | Some nc =>
    if Check nc =? id then Ret (Z.lxor (base n) (ord label), None)
    else Ret (-1, Some ErrNoPath)
  | None => Ret (-1, Some ErrNoPath)
  end.

(** Modelled from the spec: [hasLabel(id, label)]. *)
Definition hasLabel (da : Cedar) (id : Z) (label : byte) : run bool :=
  '(_, err) <- child da id label;
  Ret (bool_decide (err = None)).

(** Modelled from the spec: [isEnd(id)], the terminal flag of the node-info
    record (spec 3.2). *)
Definition isEnd (da : Cedar) (id : Z) : run bool :=
  i <- rd (info da) id;
  Ret (End i).

(** ** The query surface of [api.go] *)

(** The loop of [Status] over the slots [ids]: a slot with a non-negative
    check counts as a node, and as a key when its value is non-negative
    too. *)
Fixpoint Status_loop (a : list node) (ids : list Z) (keys nodes : Z)
  : run (Z * Z) :=
  match ids with
  | [] => Ret (keys, nodes)
  | i :: ids' =>
    n <- rd a i;
    if Check n >=? 0 then
      Status_loop a ids' (if Value n >=? 0 then wrap64 (keys + 1) else keys)
                  (wrap64 (nodes + 1))
    else Status_loop a ids' keys nodes
  end.

(** [Status].  The fields [size] and [capacity] of the cedar, which no
    other method of [api.go] reads, are not in the record [Cedar]; the
    call takes them as arguments. *)
Definition Status (da : Cedar) (size capacity : Z) : run (Z * Z * Z * Z) :=
  '(keys, nodes) <- Status_loop (array da) (seqZ 0 size) 0 0;
  Ret (keys, nodes, size, capacity).

(** [Jump]: the named result [to] starts at 0 and is only assigned inside
    the loop. *)
Fixpoint Jump_loop (da : Cedar) (path : list byte) (from to : Z)
  : run (Z * option error) :=
  match path with
  | [] => Ret (to, None)
  | b :: path' =>
    nf <- rd (array da) from;
    if Value nf >=? 0 then Ret (from, Some ErrNoPath)
    else
      let to := Z.lxor (base nf) (ord b) in
      nt <- rd (array da) to;
      if negb (Check nt =? from) then Ret (from, Some ErrNoPath)
      else Jump_loop da path' to to
  end.

Definition Jump (da : Cedar) (path : list byte) (from : Z)
  : run (Z * option error) :=
  Jump_loop da path from 0.

(** The climbing loop of [Key]; [None] is the return of [ErrNoPath] from
    inside the loop. *)
Fixpoint Key_loop (fuel : nat) (da : Cedar) (id : Z) (key : list byte)
  : run (option (Z * list byte)) :=
  match fuel with
  | O => Loop
  | S fuel' =>
    if id >? 0 then
      n <- rd (array da) id;
      let from := Check n in
      if from <? 0 then Ret None
      else
        nf <- rd (array da) from;
        let char := chr (Z.lxor (base nf) id) in
        let key := if byte_eqb char NUL then key else key ++ [char] in
        Key_loop fuel' da from key
    else Ret (Some (id, key))
  end.

(** [Key]; the swapping loop at its end reverses the collected bytes. *)
Definition Key (fuel : nat) (da : Cedar) (id : Z)
  : run (list byte * option error) :=
  r <- Key_loop fuel da id [];
  match r with
  | None => Ret ([], Some ErrNoPath)
  | Some (id, key) =>
    if negb (id =? 0) || (Z.of_nat (length key) =? 0)
    then Ret ([], Some ErrInvalidKey)
    else Ret (rev key, None)
  end.

Definition vKeyOf (da : Cedar) (id : Z) : run (Z * option error) :=
  n <- rd (array da) id;
  if Value n >=? 0 then Ret (Value n, None)
  else
    let to := base n in
    nt <- rd (array da) to;
    if (Check nt =? id) && (Value nt >=? 0) then Ret (Value nt, None)
    else Ret (0, Some ErrNoValue).

Definition Insert (da : Cedar) (key : list byte) (value : iface)
  : run (Cedar * option error) :=
  let '(da, k) := vKey da in
  let klen := Z.of_nat (length key) in
  '(da, p) <- get da key 0;
  da <- setValue da p k;
  da <- setEnd da p true;
  Ret (set_vals da (<[k := mkNValue klen value]> (vals da)), None).

Definition Update (da : Cedar) (key : list byte) (value : Z)
  : run (Cedar * option error) :=
  '(da, id) <- get da key 0;
  n <- rd (array da) id;
  let p := Value n in
  if (wrap64 (p + value) <? 0) || (wrap64 (p + value) >=? valueLimit)
  then Ret (da, Some ErrInvalidValue)
  else
    da <- setValue da id (wrap64 (p + value));
    Ret (da, None).

Fixpoint Delete_loop (fuel : nat) (da : Cedar) (to : Z) : run Cedar :=
  match fuel with
  | O => Loop
  | S fuel' =>
    nt <- rd (array da) to;
    let from := Check nt in
    nf <- rd (array da) from;
    let base := base nf in
    let label := chr (Z.lxor to base) in
    it <- rd (info da) to;
    stop <- (if negb (byte_eqb (Sibling it) NUL) then Ret true
             else ifr <- rd (info da) from;
                  Ret (negb (byte_eqb (Child ifr) label)));
    if (stop : bool) then
      da <- popSibling da from base label;
      pushEnode da to
    else
      da <- pushEnode da to;
      Delete_loop fuel' da from
  end.

Definition Delete (fuel : nat) (da : Cedar) (key : list byte)
  : run (Cedar * option error) :=
  '(to, err) <- Jump da key 0;
  match err with
  | Some e => Ret (da, Some e)
  | None =>
    '(vk, err) <- vKeyOf da to;
    match err with
    | Some e => Ret (da, Some e)
    | None =>
      match vals da !! vk with
      | None => Ret (da, Some ErrNoValue)
      | Some _ =>
        nt <- rd (array da) to;
        to <- (if Value nt <? 0 then
                 nb <- rd (array da) (base nt);
                 Ret (if Check nb =? to then base nt else to)
               else Ret to);
        da <- Delete_loop fuel da to;
        Ret (da, None)
      end
    end
  end.

Definition Get (da : Cedar) (key : list byte) : run (iface * option error) :=
  '(to, err) <- Jump da key 0;
  match err with
  | Some e => Ret (IInt 0, Some e)
  | None =>
    '(vk, err) <- vKeyOf da to;
    match err with
    | Some _ => Ret (INil, Some ErrNoValue)
    | None =>
      match vals da !! vk with
      | Some v => Ret (Val v, None)
      | None => Ret (INil, Some ErrNoValue)
      end
    end
  end.

(** ** Prefixes of a key *)

(** The loop of [PrefixMatch]: one byte of the key per round, by
    [Jump(key[i:i+1], from)]; a node on which [vKeyOf] succeeds is appended
    and counted down from [num]. *)
Fixpoint PrefixMatch_loop (da : Cedar) (key : list byte) (from num : Z)
  (ids : list Z) : run (list Z) :=
  match key with
  | [] => Ret ids
  | b :: key' =>
    '(to, err) <- Jump da [b] from;
    match err with
    | Some _ => Ret ids
    | None =>
      '(_, err) <- vKeyOf da to;
      match err with
      | None =>
        let ids := ids ++ [to] in
        let num := wrap64 (num - 1) in
        if num =? 0 then Ret ids
        else PrefixMatch_loop da key' to num ids
      | Some _ => PrefixMatch_loop da key' to num ids
      end
    end
  end.

Definition PrefixMatch (da : Cedar) (key : list byte) (num : Z)
  : run (list Z) :=
  PrefixMatch_loop da key 0 num [].

(** ** Predictive enumeration *)

Fixpoint begin_loop (fuel : nat) (da : Cedar) (from : Z) (c : byte) : run Z :=
  match fuel with
  | O => Loop
  | S fuel' =>
    if byte_eqb c NUL then Ret from
    else
      n <- rd (array da) from;
      let to := Z.lxor (base n) (ord c) in
      i <- rd (info da) to;
      begin_loop fuel' da to (Child i)
  end.

Definition begin (fuel : nat) (da : Cedar) (from : Z)
  : run (Z * option error) :=
  i <- rd (info da) from;
  from <- begin_loop fuel da from (Child i);
  n <- rd (array da) from;
  if base n >? 0 then Ret (base n, None) else Ret (from, None).

Fixpoint next_loop (fuel : nat) (da : Cedar) (from root : Z) (c : byte)
  : run (Z * byte) :=
  match fuel with
  | O => Loop
  | S fuel' =>
    if byte_eqb c NUL && negb (from =? root) then
      n <- rd (array da) from;
      if Check n >=? 0 then
        i <- rd (info da) (Check n);
        next_loop fuel' da (Check n) root (Sibling i)
      else Ret (from, c)
    else Ret (from, c)
  end.

Definition next (fuel : nat) (da : Cedar) (from root : Z)
  : run (Z * option error) :=
  i <- rd (info da) from;
  '(from, c) <- next_loop fuel da from root (Sibling i);
  if from =? root then Ret (0, Some ErrNoPath)
  else
    n <- rd (array da) from;
    np <- rd (array da) (Check n);
    begin fuel da (Z.lxor (base np) (ord c)).

Fixpoint PrefixPredict_loop (fuel : nat) (da : Cedar) (root from num : Z)
  (ids : list Z) : run (list Z) :=
  match fuel with
  | O => Loop
  | S fuel' =>
    let ids := ids ++ [from] in
    let num := wrap64 (num - 1) in
    if num =? 0 then Ret ids
    else
      '(from, err) <- next fuel da from root;
      match err with
      | None => PrefixPredict_loop fuel' da root from num ids
      | Some _ => Ret ids
      end
  end.

Definition PrefixPredict (fuel : nat) (da : Cedar) (key : list byte) (num : Z)
  : run (list Z) :=
  '(root, err) <- Jump da key 0;
  match err with
  | Some _ => Ret []
  | None =>
    '(from, err) <- begin fuel da root;
    match err with
    | None => PrefixPredict_loop fuel da root from num []
    | Some _ => Ret []
    end
  end.

(** ** The wildcard engine *)

(** A frame of the frontier stack, [snidpos]: node id and position.  The
    stack [ss] has its top at the end of the list; the pooled buffers are
    handed back emptied, so each call starts from an empty stack and an
    empty visited set. *)
Definition frame : Type := Z * Z.

(** [getsnidpos(ss)] together with the two stores of its caller,
    [sp.nid = ...] and [sp.pos = ...], into the frame it returns; [cap] is
    the capacity of the slice.  While the slice is not full it is extended
    by one frame, and that frame is the one returned and written.  When
    the slice is full (its length [l] is its capacity), [append] puts a
    zero frame on top, and since [l] is not incremented on this path the
    frame returned and written is the old top, at index [l-1]; on an
    empty slice without capacity that index is out of range.  [append]
    moves a full slice to a larger array; how much larger is the choice
    of the runtime: [extra c] is the number of slots, beyond the one
    appended, that it adds to a full slice of capacity [c].  The result
    is the new capacity and the new stack. *)
Definition getsnidpos (extra : Z -> nat) (cap : Z) (ss : list frame)
  (f : frame) : run (Z * list frame) :=
  if Z.of_nat (length ss) =? cap then
    match ss with
    | [] => Crash
    | _ :: _ =>
      Ret (cap + 1 + Z.of_nat (extra cap),
           <[(length ss - 1)%nat := f]> ss ++ [(0, 0)])
    end
  else Ret (cap, ss ++ [f]).

(** A growth as Go's runtime has it for short slices: a full slice gets
    twice its capacity. *)
Definition doubling (c : Z) : nat := Z.to_nat (c - 1).

Definition pop (ss : list frame) : list frame :=
  take (length ss - 1)%nat ss.

(** [sp.pos++] through the pointer [sp], which names the frame at index
    [idx] of the stack. *)
Definition bump (ss : list frame) (idx : nat) : list frame :=
  match ss !! idx with
  | Some (n, p) => <[idx := (n, wrap64 (p + 1))]> ss
  | None => ss
  end.

Definition pos_of (ss : list frame) (idx : nat) : Z :=
  match ss !! idx with
  | Some (_, p) => p
  | None => 0
  end.

(** [sp.pos++; if sp.pos > e { pop }] when [sp] is not nil. *)
Definition advance (ss : list frame) (sp : option nat) (e : Z) : list frame :=
  match sp with
  | Some idx =>
    let ss := bump ss idx in
    if pos_of ss idx >? e then pop ss else ss
  | None => ss
  end.

(** How a round of the inner loop ends: [break ssLoop] with a terminal, or
    back to the outer loop. *)
Inductive round : Type :=
| Found (tnid : Z)
| Again (cap : Z) (ss : list frame) (m : gset Z).

(** The loop [for { ... }] of [FindOne] that chases ['*'] edges below
    [snid]. *)
Fixpoint FindOne_chase (fuel : nat) (da : Cedar) (snid : Z)
  : run (option Z) :=
  match fuel with
  | O => Loop
  | S fuel' =>
    hl <- hasLabel da snid STAR;
    if negb hl then Ret None
    else
      '(snid, _) <- child da snid STAR;
      en <- isEnd da snid;
      if (en : bool) then Ret (Some snid)
      else FindOne_chase fuel' da snid
  end.

Fixpoint FindOne_inner (extra : Z -> nat) (fuel : nat) (da : Cedar)
  (key : list byte) (e : Z) (sp : option nat) (nid i : Z) (cap : Z)
  (ss : list frame) (m : gset Z) : run round :=
  match fuel with
  | O => Loop
  | S fuel' =>
    if negb (i <=? e) then Ret (Again cap ss m)
    else
      '(hit, cap, ss, m) <-
        (if bool_decide (nid ∈ m) then Ret (None, cap, ss, m)
         else
           hl <- hasLabel da nid STAR;
           if (hl : bool) then
             let m := {[nid]} ∪ m in
             '(spnid, _) <- child da nid STAR;
             en <- isEnd da spnid;
             if (en : bool) then Ret (Some spnid, cap, ss, m)
             else if i <? e then
                    '(cap, ss) <- getsnidpos extra cap ss (spnid, i + 1);
                    Ret (None, cap, ss, m)
                  else Ret (None, cap, ss, m)
           else Ret (None, cap, ss, m));
      match hit with
      | Some t => Ret (Found t)
      | None =>
        b <- rd key i;
        hb <- (if byte_eqb b STAR then Ret false else hasLabel da nid b);
        if (hb : bool) then
          '(nid, _) <- child da nid b;
          if i =? e then
            en <- isEnd da nid;
            if (en : bool) then Ret (Found nid)
            else
              let ss := match sp with Some _ => pop ss | None => ss end in
              r <- FindOne_chase fuel da nid;
              match r with
              | Some t => Ret (Found t)
              | None => Ret (Again cap ss m)
              end
          else FindOne_inner extra fuel' da key e sp nid (i + 1) cap ss m
        else Ret (Again cap (advance ss sp e) m)
      end
  end.

Fixpoint FindOne_loop (extra : Z -> nat) (fuel : nat) (da : Cedar)
  (key : list byte) (e : Z) (cap : Z) (ss : list frame) (m : gset Z)
  : run (option Z) :=
  match fuel with
  | O => Loop
  | S fuel' =>
    match last ss with
    | None => Ret None
    | Some (nid, pos) =>
      let '(ss, sp) := if nid =? 0 then (pop ss, None)
                       else (ss, Some (length ss - 1)%nat) in
      r <- FindOne_inner extra fuel da key e sp nid pos cap ss m;
      match r with
      | Found t => Ret (Some t)
      | Again cap ss m => FindOne_loop extra fuel' da key e cap ss m
      end
    end
  end.

(** [FindOne].  The stack is a slice from [ssPool]: [New] makes it with
    capacity 30, [append] only enlarges it, and a call hands it back to
    the pool with the capacity it has reached.  So the buffer that
    [ssPool.Get()] hands out is empty and has the capacity [30 + grown],
    where [grown] is by how much earlier calls have enlarged it (0 for a
    new buffer). *)
Definition FindOne (extra : Z -> nat) (grown : nat) (fuel : nat) (da : Cedar)
  (key : list byte) : run (iface * option error) :=
  let e := Z.of_nat (length key) - 1 in
  '(cap, ss) <- getsnidpos extra (30 + Z.of_nat grown) [] (0, 0);
  tnid <- FindOne_loop extra fuel da key e cap ss ∅;
  match tnid with
  | None => Ret (INil, Some ErrNoPath)
  | Some tnid =>
    '(vk, err) <- vKeyOf da tnid;
    match err with
    | Some _ => Ret (INil, Some ErrNoValue)
    | None =>
      match vals da !! vk with
      | Some v => Ret (Val v, None)
      | None => Ret (INil, Some ErrNoValue)
      end
    end
  end.

(** The calls of the callback [valCb], in order. *)
Definition calls : Type := list (iface * list byte).

(** [vk, err := vKeyOf(id)]; on success and when [vals] has the key, the
    callback is called with the value and the rule [Key(id)].  The boolean
    is [err == nil]. *)
Definition report (fuel : nat) (da : Cedar) (id : Z) (cb : calls)
  : run (bool * calls) :=
  '(vk, err) <- vKeyOf da id;
  match err with
  | Some _ => Ret (false, cb)
  | None =>
    match vals da !! vk with
    | Some v =>
      '(rule, _) <- Key fuel da id;
      Ret (true, cb ++ [(Val v, rule)])
    | None => Ret (true, cb)
    end
  end.

Fixpoint FindAll_chase (fuel : nat) (da : Cedar) (snid : Z) (cb : calls)
  : run calls :=
  match fuel with
  | O => Loop
  | S fuel' =>
    hl <- hasLabel da snid STAR;
    if negb hl then Ret cb
    else
      '(snid, _) <- child da snid STAR;
      en <- isEnd da snid;
      if (en : bool) then
        '(_, cb) <- report fuel da snid cb;
        FindAll_chase fuel' da snid cb
      else FindAll_chase fuel' da snid cb
  end.

Fixpoint FindAll_inner (extra : Z -> nat) (fuel : nat) (da : Cedar)
  (key : list byte) (e : Z) (sp : option nat) (nid i : Z) (cap : Z)
  (ss : list frame) (m : gset Z) (cb : calls)
  : run (Z * list frame * gset Z * calls) :=
  match fuel with
  | O => Loop
  | S fuel' =>
    if negb (i <=? e) then Ret (cap, ss, m, cb)
    else
      '(stop, cap, ss, m, cb) <-
        (if bool_decide (nid ∈ m) then Ret (false, cap, ss, m, cb)
         else
           hl <- hasLabel da nid STAR;
           if (hl : bool) then
             let m := {[nid]} ∪ m in
             '(spnid, _) <- child da nid STAR;
             en <- isEnd da spnid;
             if (en : bool) then
               '(_, cb) <- report fuel da spnid cb;
               Ret (true, cap, ss, m, cb)
             else if i <? e then
                    '(cap, ss) <- getsnidpos extra cap ss (spnid, i + 1);
                    Ret (false, cap, ss, m, cb)
                  else Ret (false, cap, ss, m, cb)
           else Ret (false, cap, ss, m, cb));
      if (stop : bool) then Ret (cap, ss, m, cb)
      else
        b <- rd key i;
        hb <- (if byte_eqb b STAR then Ret false else hasLabel da nid b);
        if (hb : bool) then
          '(nid, _) <- child da nid b;
          if i =? e then
            cb <- FindAll_chase fuel da nid cb;
            en <- isEnd da nid;
            if (en : bool) then
              let ss := match sp with Some _ => pop ss | None => ss end in
              '(_, cb) <- report fuel da nid cb;
              Ret (cap, ss, m, cb)
            else
              FindAll_inner extra fuel' da key e sp nid (i + 1) cap
                            (advance ss sp e) m cb
          else FindAll_inner extra fuel' da key e sp nid (i + 1) cap ss m cb
        else Ret (cap, advance ss sp e, m, cb)
  end.

Fixpoint FindAll_loop (extra : Z -> nat) (fuel : nat) (da : Cedar)
  (key : list byte) (e : Z) (cap : Z) (ss : list frame) (m : gset Z)
  (cb : calls) : run calls :=
  match fuel with
  | O => Loop
  | S fuel' =>
    match last ss with
    | None => Ret cb
    | Some (nid, pos) =>
      let '(ss, sp) := if nid =? 0 then (pop ss, None)
                       else (ss, Some (length ss - 1)%nat) in
      '(cap, ss, m, cb) <- FindAll_inner extra fuel da key e sp nid pos cap ss m cb;
      FindAll_loop extra fuel' da key e cap ss m cb
    end
  end.

(** [FindAll]; the stack is the pooled slice of [FindOne], of capacity
    [30 + grown]. *)
Definition FindAll (extra : Z -> nat) (grown : nat) (fuel : nat) (da : Cedar)
  (key : list byte) : run calls :=
  let e := Z.of_nat (length key) - 1 in
  '(cap, ss) <- getsnidpos extra (30 + Z.of_nat grown) [] (0, 0);
  FindAll_loop extra fuel da key e cap ss ∅ [].

(** ** Histories *)

(** The bytes of a string literal, [[]byte("...")]. *)
Definition bytes (s : string) : list byte := list_byte_of_string s.

Definition insert_all (kvs : list (list byte * iface)) (da : Cedar)
  : run Cedar :=
  foldl (fun r kv => da <- r; '(da, _) <- Insert da kv.1 kv.2; Ret da)
        (Ret da) kvs.

(** The cedar that holds the single key "a". *)
Definition cedar_a : run Cedar := insert_all [(bytes "a", IInt 1)] NewCedar.

(** ** Walks *)

(** [walk da from path to]: every byte of [path] is an edge that [Jump]
    accepts, from [from] down to [to]. *)
Inductive walk (da : Cedar) : Z -> list byte -> Z -> Prop :=
| walk_nil (from : Z) : walk da from [] from
| walk_cons (from : Z) (b : byte) (path : list byte) (to : Z) (n nt : node) :
    at_ (array da) from = Some n ->
    Value n < 0 ->
    at_ (array da) (Z.lxor (base n) (ord b)) = Some nt ->
    Check nt = from ->
    walk da (Z.lxor (base n) (ord b)) path to ->
    walk da from (b :: path) to.

(** ** The representation invariant *)

(** A placement names, for every path of labels from the root that exists
    in the trie, the slot of the node it leads to. *)
Definition placement : Type := list byte -> option Z.

Definition ascending (l : list byte) : Prop :=
  StronglySorted (fun a b => ord a < ord b) l.

(** The sibling links along the labels [l] of the children at base [b]:
    each child names the next label, the last one names 0. *)
Fixpoint chain (inf : list ninfo) (b : Z) (l : list byte) : Prop :=
  match l with
  | [] => True
  | c :: l' =>
    (exists i, at_ inf (Z.lxor b (ord c)) = Some i /\ Sibling i = hd NUL l')
    /\ chain inf b l'
  end.

(** The child ring of the node [p] at path [ks] (spec 3.2): [l] lists the
    labels of its children in ascending order, [Child] is the first of
    them, the sibling links follow the list. *)
Record ring (da : Cedar) (T : placement) (ks : list byte) (p : Z)
    (l : list byte) : Prop := {
  ring_sorted : ascending l;
  ring_dom : forall c, c ∈ l <-> is_Some (T (ks ++ [c]));
  ring_child : exists i, at_ (info da) p = Some i /\ Child i = hd NUL l;
  ring_chain : forall n, at_ (array da) p = Some n -> chain (info da) (base n) l
}.

Record Inv (da : Cedar) (T : placement) : Prop := {
  inv_len : length (info da) = length (array da);
  inv_blocks : exists k : nat, length (array da) = (256 * k)%nat;
  inv_root : T [] = Some 0;
  inv_root_node :
    exists n, at_ (array da) 0 = Some n /\ Value n < 0 /\ Check n = -1;
  inv_inj : forall ks1 ks2 t, T ks1 = Some t -> T ks2 = Some t -> ks1 = ks2;
  inv_edge : forall ks c t, T (ks ++ [c]) = Some t ->
    exists p np nt,
      T ks = Some p /\ at_ (array da) p = Some np /\ Value np < 0 /\
      t = Z.lxor (base np) (ord c) /\
      at_ (array da) t = Some nt /\ Check nt = p;
  inv_occ : forall t nt, at_ (array da) t = Some nt -> 0 <= Check nt ->
    exists ks, T ks = Some t;
  inv_free_info : forall t nt, t <> 0 -> at_ (array da) t = Some nt ->
    Check nt < 0 -> at_ (info da) t = Some empty_info;
  inv_base : forall ks p np, T ks = Some p -> at_ (array da) p = Some np ->
    Value np < 0 -> base np < Z.of_nat (length (array da));
  inv_ring : forall ks p, T ks = Some p -> exists l, ring da T ks p l
}.

(** The placement of the empty cedar. *)
Definition T_root : placement := fun ks =>
  match ks with
  | [] => Some 0
  | _ => None
  end.

(** Every node below the root that holds a base has a child. *)
Definition Strict (da : Cedar) (T : placement) : Prop :=
  forall ks p np, ks <> [] -> T ks = Some p -> at_ (array da) p = Some np ->
    Value np < 0 -> exists c, is_Some (T (ks ++ [c])).

(** Insertion of a label into an ascending list of labels. *)
Fixpoint ins (c : byte) (l : list byte) : list byte :=
  match l with
  | [] => [c]
  | d :: l' => if ord c <? ord d then c :: l else d :: ins c l'
  end.

(** What an update of the node-info array leaves alone: the terminal
    flags, the [Child] fields outside [chs], the [Sibling] fields outside
    [sibs]. *)
Definition info_frame (inf inf' : list ninfo) (sibs chs : Z -> Prop) : Prop :=
  length inf' = length inf /\
  forall j i, at_ inf j = Some i ->
    exists i', at_ inf' j = Some i' /\ End i' = End i /\
               (~ chs j -> Child i' = Child i) /\
               (~ sibs j -> Sibling i' = Sibling i).

(** The slots of the children with labels [ds] at base [b]. *)
Definition slots (b : Z) (ds : list byte) : Z -> Prop :=
  fun j => exists d, d ∈ ds /\ j = Z.lxor b (ord d).

(** The placement [T] with the path [ks] placed at slot [t]. *)
Definition T_add (T : placement) (ks : list byte) (t : Z) : placement :=
  fun ks' => if decide (ks' = ks) then Some t else T ks'.

(** The renaming of slots by a relocation from base [ob] to base [nb] of
    the children with labels [D]. *)
Definition tau (ob nb : Z) (D : list byte) (x : Z) : Z :=
  let c := chr (Z.lxor x ob) in
  if decide (c ∈ D /\ x = Z.lxor ob (ord c)) then Z.lxor nb (ord c) else x.

(** The placement after a relocation. *)
Definition T_move (T : placement) (ob nb : Z) (D : list byte) : placement :=
  fun ks => tau ob nb D <$> T ks.

(** The arrays [da'] after the children [D] of [p] have moved, in terms of
    the arrays [da] before. *)
Record moved (da da' : Cedar) (p ob nb : Z) (D : list byte) : Prop := {
  mv_len_a : length (array da') = length (array da);
  mv_len_i : length (info da') = length (info da);
  mv_vals : vals da' = vals da;
  mv_vkey : vkey da' = vkey da;
  mv_new : forall c, c ∈ D ->
    exists n, at_ (array da) (Z.lxor ob (ord c)) = Some n /\
      at_ (array da') (Z.lxor nb (ord c)) = Some (mkNode (Value n) p) /\
      at_ (info da') (Z.lxor nb (ord c)) = at_ (info da) (Z.lxor ob (ord c));
  mv_old : forall c, c ∈ D ->
    at_ (array da') (Z.lxor ob (ord c)) = Some free_node /\
    at_ (info da') (Z.lxor ob (ord c)) = Some empty_info;
  mv_rest : forall j, ~ slots nb D j -> ~ slots ob D j ->
    at_ (info da') j = at_ (info da) j /\
    forall n, at_ (array da) j = Some n ->
      at_ (array da') j = Some (mkNode (Value n) (tau ob nb D (Check n)))
}.

(** The value a placed node holds when it is a leaf. *)
Definition leafv (da : Cedar) (T : placement) (ks : list byte) : option Z :=
  match T ks with
  | Some t =>
    match at_ (array da) t with
    | Some n => if decide (0 <= Value n) then Some (Value n) else None
    | None => None
    end
  | None => None
  end.

(** [da2] with [T2] has the paths of [da] with [T], and the same leaf
    values except at the path [ks]. *)
Definition same_leaves (da : Cedar) (T : placement) (da2 : Cedar) (T2 : placement)
    (ks : list byte) : Prop :=
  (forall ks', is_Some (T2 ks') <-> is_Some (T ks')) /\
  (forall ks', ks' <> ks -> leafv da2 T2 ks' = leafv da T ks') /\
  vals da2 = vals da /\ vkey da2 = vkey da.

(** What one step of the insert-mode walk from the node at path [ks] by
    the label [c] achieves: the path [ks ++ [c]] exists and leads to [to];
    no other path appears or disappears; the leaves keep their values,
    except that the node at [ks] holds a base afterwards and that a node
    created at [ks ++ [c]] holds [valueLimit]. *)
Record follow_post (da : Cedar) (T : placement) (ks : list byte) (c : byte)
    (da' : Cedar) (T' : placement) (to : Z) : Prop := {
  fp_inv : Inv da' T';
  fp_to : T' (ks ++ [c]) = Some to;
  fp_dom : forall ks', is_Some (T' ks') <-> is_Some (T ks') \/ ks' = ks ++ [c];
  fp_leaves : forall ks', ks' <> ks -> ks' <> ks ++ [c] ->
    leafv da' T' ks' = leafv da T ks';
  fp_here : leafv da' T' ks = None;
  fp_new : leafv da' T' (ks ++ [c])
           = match T (ks ++ [c]) with
             | Some _ => leafv da T (ks ++ [c])
             | None => Some valueLimit
             end;
  fp_vals : vals da' = vals da;
  fp_vkey : vkey da' = vkey da
}.

(** ** Keys and stored values *)

(** The integer the trie stores for the key [k]: the value of the node at
    [k] when that node is a leaf, else the value of its child with label
    0. *)
Definition stored (da : Cedar) (T : placement) (k : list byte) : option Z :=
  match leafv da T k with
  | Some v => Some v
  | None => leafv da T (k ++ [NUL])
  end.

(** The same, where a node that holds [valueLimit] stores nothing. *)
Definition storedv (da : Cedar) (T : placement) (k : list byte) : option Z :=
  match stored da T k with
  | Some v => if decide (v = valueLimit) then None else Some v
  | None => None
  end.

(** [Jump(k, 0)] followed by [vKeyOf]: the integer found for [k], if
    any. *)
Definition lookup_key (da : Cedar) (k : list byte) : run (option Z) :=
  '(to, err) <- Jump da k 0;
  match err with
  | Some _ => Ret None
  | None =>
    '(vk, err) <- vKeyOf da to;
    match err with
    | Some _ => Ret None
    | None => Ret (Some vk)
    end
  end.

(** The values of the leaves are Go [int]s: none exceeds [valueLimit], the
    largest of them. *)
Definition Bounded (da : Cedar) (T : placement) : Prop :=
  forall ks v, leafv da T ks = Some v -> v <= valueLimit.

(** A node reached by the label 0 is a leaf. *)
Definition NulLeaf (da : Cedar) (T : placement) : Prop :=
  forall ks y, T (ks ++ [NUL]) = Some y -> is_Some (leafv da T (ks ++ [NUL])).

(** What [get(key, from, 0)] achieves from the node [from] at path [ks],
    with [K] the path [ks ++ key]: the node [id] it returns is the leaf
    that stores the integer of [K]; what the trie stores for the keys
    without a 0 byte is as before. *)
Record get_post (da : Cedar) (T : placement) (K : list byte)
    (da' : Cedar) (T' : placement) (id : Z) : Prop := {
  gp_inv : Inv da' T';
  gp_strict : Strict da T -> Strict da' T';
  gp_nul : NulLeaf da T -> NulLeaf da' T';
  gp_stored : forall k', NUL ∉ k' -> storedv da' T' k' = storedv da T k';
  gp_holder : exists kk v,
    (kk = K \/ kk = K ++ [NUL]) /\ T' kk = Some id /\
    leafv da' T' kk = Some v /\ stored da' T' K = Some v;
  gp_vals : vals da' = vals da;
  gp_vkey : vkey da' = vkey da;
  gp_bound : Bounded da T -> Bounded da' T'
}.

(** ** Deletion *)

(** Removal of a label from a list of labels. *)
Fixpoint del (c : byte) (l : list byte) : list byte :=
  match l with
  | [] => []
  | d :: l' => if decide (d = c) then l' else d :: del c l'
  end.

(** The placement [T] without the path [ks]. *)
Definition T_del (T : placement) (ks : list byte) : placement :=
  fun ks' => if decide (ks' = ks) then None else T ks'.

(** Two cedars that differ at most in the [Child] field of the node-info
    of slot [t]. *)
Definition eqmod (t : Z) (da1 da2 : Cedar) : Prop :=
  array da1 = array da2 /\ vals da1 = vals da2 /\ vkey da1 = vkey da2 /\
  forall j,
    match at_ (info da1) j, at_ (info da2) j with
    | Some i1, Some i2 =>
      Sibling i1 = Sibling i2 /\ End i1 = End i2 /\ (j <> t -> Child i1 = Child i2)
    | None, None => True
    | _, _ => False
    end.

(** The path [tk] leaves, at one of its nodes, a node with another child. *)
Definition branching (T : placement) (tk : list byte) : Prop :=
  exists pk c rest d, tk = pk ++ c :: rest /\ d <> c /\ is_Some (T (pk ++ [d])).

(** [Strict], except at the path [tk]. *)
Definition StrictBut (da : Cedar) (T : placement) (tk : list byte) : Prop :=
  forall ks p np, ks <> [] -> ks <> tk -> T ks = Some p ->
    at_ (array da) p = Some np -> Value np < 0 -> exists c, is_Some (T (ks ++ [c])).

(** ** Histories of mutating calls *)

Inductive op : Type :=
| OpInsert (key : list byte) (value : iface)
| OpUpdate (key : list byte) (value : Z)
| OpDelete (key : list byte).

Definition op_key (o : op) : list byte :=
  match o with
  | OpInsert k _ => k
  | OpUpdate k _ => k
  | OpDelete k => k
  end.

(** One call of a history; the caller goes on after an error result. *)
Definition apply_op (fuel : nat) (da : Cedar) (o : op) : run Cedar :=
  match o with
  | OpInsert k v => '(da, _) <- Insert da k v; Ret da
  | OpUpdate k d => '(da, _) <- Update da k d; Ret da
  | OpDelete k => '(da, _) <- Delete fuel da k; Ret da
  end.

Fixpoint run_ops (fuel : nat) (ops : list op) (da : Cedar) : run Cedar :=
  match ops with
  | [] => Ret da
  | o :: ops' => da <- apply_op fuel da o; run_ops fuel ops' da
  end.

(** The keys of the example in the comments of [Jump], [PrefixMatch] and
    [PrefixPredict], inserted in the order of the table, each with the
    number of the table as its value. *)
Definition example_ops : list op :=
  [OpInsert (bytes "abc") (IInt 19); OpInsert (bytes "ab") (IInt 23);
   OpInsert (bytes "abcd") (IInt 37)].

(** A literal pattern and the bare wildcard. *)
Definition star_ops : list op :=
  [OpInsert (bytes "abc") (IInt 19); OpInsert (bytes "*") (IInt 7)].

(** A pattern that ends in a wildcard and a literal pattern that it
    matches. *)
Definition prefix_star_ops : list op :=
  [OpInsert (bytes "ab*") (IInt 1); OpInsert (bytes "abc") (IInt 2)].

(** What a history tells about a key: the value of its last [Insert], its
    absence after a [Delete], or nothing once [Update] has touched it. *)
Inductive known : Type :=
| Unknown
| Absent
| Holds (v : iface).

Definition model : Type := list byte -> known.

Definition model_step (m : model) (o : op) : model :=
  fun k =>
    if decide (k = op_key o) then
      match o with
      | OpInsert _ v => Holds v
      | OpUpdate _ _ => Unknown
      | OpDelete _ => match m k with Unknown => Unknown | _ => Absent end
      end
    else m k.

Definition model_of (ops : list op) : model :=
  foldl model_step (fun _ => Absent) ops.

(** The state invariant of histories over keys without a 0 byte: the
    representation invariant, the value-keys handed out so far, and the
    agreement of the trie with what the history tells. *)
Definition Good (da : Cedar) (m : model) : Prop :=
  exists T,
    Inv da T /\ Strict da T /\ NulLeaf da T /\ Bounded da T /\
    0 <= vkey da <= valueLimit /\
    (forall j, is_Some (vals da !! j) -> 0 <= j < vkey da) /\
    forall k, NUL ∉ k ->
      match m k with
      | Holds v =>
        exists vk nv, storedv da T k = Some vk /\ vals da !! vk = Some nv /\ Val nv = v
      | Absent => storedv da T k = None
      | Unknown => True
      end.

(** ** The keys in the trie *)

(** No slot in use holds [valueLimit], the value of a node that was
    created and has not been written since. *)
Definition NoSent (da : Cedar) : Prop :=
  forall i n, at_ (array da) i = Some n -> 0 <= Check n -> Value n <> valueLimit.

(** A slot that [Status] counts as a key. *)
Definition key_slot (a : list node) (i : Z) : bool :=
  match at_ a i with
  | Some n => (Check n >=? 0) && (Value n >=? 0)
  | None => false
  end.

(** The keys that a history of [Insert] and [Delete] calls holds, each
    once. *)
Definition live_step (ks : list (list byte)) (o : op) : list (list byte) :=
  match o with
  | OpInsert k _ => if decide (k ∈ ks) then ks else k :: ks
  | OpUpdate _ _ => ks
  | OpDelete k => filter (fun k' => k' <> k) ks
  end.

Definition live_keys (ops : list op) : list (list byte) :=
  foldl live_step [] ops.

(** A history without calls of [Update]. *)
Definition update_free (ops : list op) : Prop :=
  Forall (fun o => match o with OpUpdate _ _ => False | _ => True end) ops.

(** ** The leaves below a node, in the order of the labels *)

(** Every node that holds a base has a child: [Strict], and the root has
    a child too. *)
Definition Full (da : Cedar) (T : placement) : Prop :=
  forall ks x n, T ks = Some x -> at_ (array da) x = Some n -> Value n < 0 ->
    exists c, is_Some (T (ks ++ [c])).

(** [enum da T h ks L]: [L] lists the childless nodes at or below the path
    [ks], each with its path, children taken in the order of their labels;
    [h] bounds the height of the subtree. *)
Fixpoint enum (da : Cedar) (T : placement) (h : nat) (ks : list byte)
    (L : list (list byte * Z)) : Prop :=
  match h with
  | O => False
  | S h' =>
    exists x, T ks = Some x /\
      ((forall d, T (ks ++ [d]) = None) /\ L = [(ks, x)] \/
       exists l Ls,
         ring da T ks x l /\ l <> [] /\
         Forall2 (fun c Lc => enum da T h' (ks ++ [c]) Lc) l Ls /\
         L = concat Ls)
  end.

(** The lexicographic order of byte strings. *)
Inductive lex_lt : list byte -> list byte -> Prop :=
| lex_lt_nil (b : byte) (q : list byte) : lex_lt [] (b :: q)
| lex_lt_head (a b : byte) (p q : list byte) :
    ord a < ord b -> lex_lt (a :: p) (b :: q)
| lex_lt_tail (a : byte) (p q : list byte) :
    lex_lt p q -> lex_lt (a :: p) (a :: q).

(** The node [id] is terminal and [path] leads to it from the root. *)
Definition terminal_at (da : Cedar) (path : list byte) (id : Z) : Prop :=
  Jump da path 0 = Ret (id, None) /\
  exists n, at_ (array da) id = Some n /\ 0 <= Value n.

(** A history is safe when each [Delete] has fuel for the climb from its
    key and leaves in the trie a key that the history holds. *)
Fixpoint safe_run (fuel : nat) (m : model) (ops : list op) : Prop :=
  match ops with
  | [] => True
  | o :: ops' =>
    match o with
    | OpDelete k =>
      (length k < fuel)%nat /\
      exists k0 v0, k0 <> k /\ (NUL ∉ k0) /\ m k0 = Holds v0
    | _ => True
    end /\ safe_run fuel (model_step m o) ops'
  end.

(** The node [id] holds the value of the key [key]: it is the node
    [vKeyOf] reads after [Jump(key, 0)], the node of the key itself or its
    child with label 0. *)
Definition holds_value (da : Cedar) (key : list byte) (id : Z) : Prop :=
  exists j nj,
    Jump da key 0 = Ret (j, None) /\ at_ (array da) j = Some nj /\
    (0 <= Value nj /\ id = j \/
     Value nj < 0 /\ id = base nj /\
     exists n, at_ (array da) id = Some n /\ Check n = j /\ 0 <= Value n).

(** A path without its 0 bytes. *)
Definition strip (p : list byte) : list byte := filter (fun b => b <> NUL) p.

(** The [Insert] calls of a history, in order: the key and the value of
    each. *)
Definition inserts (ops : list op) : list (list byte * iface) :=
  omap (fun o => match o with
                 | OpInsert k v => Some (k, v)
                 | _ => None
                 end) ops.

(** The value table holds, under the value-keys handed out so far, the
    values of the [Insert] calls [ins], in the order of the calls. *)
Definition Table (da : Cedar) (ins : list (list byte * iface)) : Prop :=
  vkey da = Z.of_nat (length ins) /\
  forall j kv, ins !! j = Some kv ->
    vals da !! Z.of_nat j = Some (mkNValue (Z.of_nat (length kv.1)) kv.2).

(** * Properties *)

(** ** Reading and writing slots *)

Lemma rd_Ret {A} (l : list A) (i : Z) (x : A) :
  rd l i = Ret x <-> at_ l i = Some x.
Proof.
  unfold rd. destruct (at_ l i); split; intros H; congruence.
Qed.

Lemma at_Some_range {A} (l : list A) (i : Z) (x : A) :
  at_ l i = Some x -> 0 <= i < Z.of_nat (length l).
Proof.
  unfold at_. destruct (decide (0 <= i)); [|discriminate].
  intros H. apply lookup_lt_Some in H. lia.
Qed.

(** ** [Jump] *)

Lemma Jump_loop_walk (da : Cedar) (path : list byte) :
  forall from to t0, walk da from path to -> path <> [] ->
    Jump_loop da path from t0 = Ret (to, None).
Proof.
  induction path as [|b path IH]; intros from to t0 Hw Hne; [done|].
  inversion Hw as [|? ? ? ? n nt Hn Hv Hnt Hc Hrest]; subst.
  cbn [Jump_loop]. unfold rd. rewrite Hn. cbn [bind].
  destruct (Z.geb_spec (Value n) 0) as [?|_]; [lia|].
  rewrite Hnt. cbn [bind]. rewrite Z.eqb_refl. cbn [negb].
  destruct path as [|b' path'].
  - inversion Hrest; subst. reflexivity.
  - apply IH; [assumption|discriminate].
Qed.

Lemma Jump_loop_terminal (da : Cedar) (pre : list byte) :
  forall from mid t0 n b rest, walk da from pre mid ->
    at_ (array da) mid = Some n -> 0 <= Value n ->
    Jump_loop da (pre ++ b :: rest) from t0 = Ret (mid, Some ErrNoPath).
Proof.
  induction pre as [|c pre IH]; intros from mid t0 n b rest Hw Hn Hv.
  - inversion Hw; subst. cbn [app Jump_loop]. unfold rd. rewrite Hn.
    cbn [bind]. destruct (Z.geb_spec (Value n) 0); [reflexivity|lia].
  - inversion Hw as [|? ? ? ? m mt Hm Hmv Hmt Hc Hrest]; subst.
    cbn [app Jump_loop]. unfold rd. rewrite Hm. cbn [bind].
    destruct (Z.geb_spec (Value m) 0) as [?|_]; [lia|].
    rewrite Hmt. cbn [bind]. rewrite Z.eqb_refl. cbn [negb].
    eapply IH; eassumption.
Qed.

(** ** Bytes and XOR *)

Lemma ord_range (c : byte) : 0 <= ord c < 256.
Proof.
  unfold ord. pose proof (Byte.to_N_bounded c) as H. lia.
Qed.

Lemma ord_inj (a b : byte) : ord a = ord b -> a = b.
Proof.
  unfold ord. intros H. apply N2Z.inj in H.
  pose proof (Byte.of_to_N a) as Ha. pose proof (Byte.of_to_N b) as Hb.
  rewrite H in Ha. congruence.
Qed.

Lemma chr_ord (c : byte) : chr (ord c) = c.
Proof.
  unfold chr. pose proof (ord_range c) as H.
  rewrite Z.mod_small by lia. unfold ord. rewrite N2Z.id.
  now rewrite Byte.of_to_N.
Qed.

Lemma ord_NUL (c : byte) : ord c = 0 <-> c = NUL.
Proof.
  split; [|now intros ->]. intros H. apply ord_inj. now rewrite H.
Qed.

Lemma byte_eqb_spec (a b : byte) : reflect (a = b) (byte_eqb a b).
Proof.
  unfold byte_eqb. destruct (Byte.eqb a b) eqn:E; constructor.
  - now apply Byte.byte_dec_bl.
  - intros ->. rewrite Byte.byte_dec_lb in E; [discriminate|reflexivity].
Qed.

Lemma lxor_inj (b x y : Z) : Z.lxor b x = Z.lxor b y -> x = y.
Proof.
  intros H. rewrite <- (Z.lxor_0_l x), <- (Z.lxor_nilpotent b), Z.lxor_assoc, H.
  now rewrite <- Z.lxor_assoc, Z.lxor_nilpotent, Z.lxor_0_l.
Qed.

Lemma lxor_lxor_l (b x : Z) : Z.lxor (Z.lxor b x) b = x.
Proof.
  now rewrite (Z.lxor_comm b x), Z.lxor_assoc, Z.lxor_nilpotent, Z.lxor_0_r.
Qed.

Lemma lxor_lxor_r (b x : Z) : Z.lxor b (Z.lxor b x) = x.
Proof.
  now rewrite <- Z.lxor_assoc, Z.lxor_nilpotent, Z.lxor_0_l.
Qed.

Lemma chr_lxor (b : Z) (c : byte) : chr (Z.lxor (Z.lxor b (ord c)) b) = c.
Proof. rewrite lxor_lxor_l. apply chr_ord. Qed.

(** A label changes only the low eight bits of a base. *)
Lemma lxor_block (b : Z) (c : byte) :
  0 <= b -> 0 <= Z.lxor b (ord c) /\ Z.lxor b (ord c) / 256 = b / 256.
Proof.
  intros Hb. pose proof (ord_range c) as Hc. split.
  - apply Z.lxor_nonneg. lia.
  - change 256 with (2 ^ 8). rewrite <- !Z.shiftr_div_pow2 by lia.
    rewrite Z.shiftr_lxor. rewrite (Z.shiftr_div_pow2 (ord c)) by lia.
    rewrite (Z.div_small (ord c)) by (change (2 ^ 8) with 256; lia).
    apply Z.lxor_0_r.
Qed.

Lemma lxor_lt_blocks (b : Z) (c : byte) (k : nat) :
  0 <= b < Z.of_nat (256 * k) -> 0 <= Z.lxor b (ord c) < Z.of_nat (256 * k).
Proof.
  intros [Hb Hlt]. destruct (lxor_block b c Hb) as [H0 Hdiv]. split; [assumption|].
  assert (Hk : b / 256 < Z.of_nat k) by (apply Z.div_lt_upper_bound; lia).
  rewrite <- Hdiv in Hk.
  pose proof (Z.mul_succ_div_gt (Z.lxor b (ord c)) 256 ltac:(lia)) as H. nia.
Qed.

Lemma lxor_ord_neq (b : Z) (c d : byte) :
  c <> d -> Z.lxor b (ord c) <> Z.lxor b (ord d).
Proof.
  intros Hne H. apply Hne, ord_inj. eapply lxor_inj; eassumption.
Qed.

(** ** More on slots *)

Lemma at_neg {A} (l : list A) (i : Z) : i < 0 -> at_ l i = None.
Proof. unfold at_. intros H. destruct (decide (0 <= i)); [lia|reflexivity]. Qed.

Lemma at_is_Some {A} (l : list A) (i : Z) :
  is_Some (at_ l i) <-> 0 <= i < Z.of_nat (length l).
Proof.
  split.
  - intros [x Hx]. eapply at_Some_range; eassumption.
  - intros [H0 H1]. unfold at_. destruct (decide (0 <= i)); [|lia].
    apply lookup_lt_is_Some. lia.
Qed.

Lemma at_upd {A} (l : list A) (i j : Z) (x y : A) :
  at_ l i = Some y ->
  at_ (<[Z.to_nat i := x]> l) j = if decide (j = i) then Some x else at_ l j.
Proof.
  intros Hi. pose proof (at_Some_range _ _ _ Hi) as Hr. unfold at_.
  destruct (decide (j = i)) as [->|Hne].
  - destruct (decide (0 <= i)); [|lia].
    apply list_lookup_insert_eq. lia.
  - destruct (decide (0 <= j)); [|reflexivity].
    apply list_lookup_insert_ne. lia.
Qed.

Lemma at_app_l {A} (l l' : list A) (i : Z) :
  i < Z.of_nat (length l) -> at_ (l ++ l') i = at_ l i.
Proof.
  intros H. unfold at_. destruct (decide (0 <= i)); [|reflexivity].
  apply lookup_app_l. lia.
Qed.

Lemma at_app_r_replicate {A} (l : list A) (n : nat) (x : A) (i : Z) :
  Z.of_nat (length l) <= i < Z.of_nat (length l + n) ->
  at_ (l ++ replicate n x) i = Some x.
Proof.
  intros H. unfold at_. destruct (decide (0 <= i)); [|lia].
  rewrite lookup_app_r by lia. apply lookup_replicate_2. lia.
Qed.

Lemma bind_Ret {A B} (m : run A) (f : A -> run B) (r : B) :
  bind m f = Ret r <-> exists a, m = Ret a /\ f a = Ret r.
Proof.
  destruct m; cbn; split; try (intros [a [H _]]; discriminate); try discriminate.
  - intros H. eauto.
  - intros [a' [[= ->] H]]. assumption.
Qed.

Lemma wr_Ret {A} (l : list A) (i : Z) (x y : A) :
  at_ l i = Some y -> wr l i x = Ret (<[Z.to_nat i := x]> l).
Proof. intros H. unfold wr. now rewrite H. Qed.

Lemma snoc_cases {A} (l : list A) : l = [] \/ exists l' x, l = l' ++ [x].
Proof.
  induction l as [|x l _] using rev_ind; [now left|right; eauto].
Qed.

Lemma walk_snoc (da : Cedar) (from mid : Z) (path : list byte) (c : byte)
    (n nt : node) :
  walk da from path mid ->
  at_ (array da) mid = Some n -> Value n < 0 ->
  at_ (array da) (Z.lxor (base n) (ord c)) = Some nt -> Check nt = mid ->
  walk da from (path ++ [c]) (Z.lxor (base n) (ord c)).
Proof.
  intros Hw Hn Hv Hnt Hc.
  induction Hw as [from|from b path to m mt Hm Hvm Hmt Hcm Hw IHw].
  - econstructor; try eassumption. constructor.
  - cbn [app]. econstructor; try eassumption. apply IHw; assumption.
Qed.

(** ** Consequences of the invariant *)

Section InvFacts.
Context (da : Cedar) (T : placement) (HI : Inv da T).

Lemma inv_info_Some (t : Z) (n : node) :
  at_ (array da) t = Some n -> exists i, at_ (info da) t = Some i.
Proof.
  intros H. apply at_Some_range in H.
  apply at_is_Some. rewrite (inv_len _ _ HI). assumption.
Qed.

Lemma inv_root_only (ks : list byte) : T ks = Some 0 -> ks = [].
Proof. intros H. eapply (inv_inj _ _ HI); [eassumption|apply (inv_root _ _ HI)]. Qed.

Lemma inv_placed (ks : list byte) (t : Z) :
  T ks = Some t ->
  exists nt, at_ (array da) t = Some nt /\
             (ks = [] /\ t = 0 \/ ks <> [] /\ t <> 0 /\ 0 <= Check nt).
Proof.
  intros Ht. destruct (snoc_cases ks) as [->|(ks' & c & ->)].
  - rewrite (inv_root _ _ HI) in Ht. injection Ht as <-.
    destruct (inv_root_node _ _ HI) as (n & Hn & _). eauto.
  - destruct (inv_edge _ _ HI _ _ _ Ht) as (p & np & nt & Hp & Hnp & Hv & -> & Hnt & Hc).
    exists nt. split; [assumption|]. right.
    assert (H0 : 0 <= Check nt).
    { rewrite Hc. apply at_Some_range in Hnp. lia. }
    split; [by destruct ks'|]. split; [|assumption].
    intros E. rewrite E in Hnt.
    destruct (inv_root_node _ _ HI) as (n & Hn & _ & Hcn). rewrite Hn in Hnt.
    injection Hnt as <-. lia.
Qed.

Lemma inv_child_range (ks : list byte) (p : Z) (np : node) (c : byte) :
  T ks = Some p -> at_ (array da) p = Some np -> Value np < 0 ->
  0 <= Z.lxor (base np) (ord c) < Z.of_nat (length (array da)).
Proof.
  intros Hp Hnp Hv. pose proof (inv_base _ _ HI _ _ _ Hp Hnp Hv) as Hb.
  destruct (inv_blocks _ _ HI) as [k Hk]. rewrite Hk in *.
  apply lxor_lt_blocks. unfold base in *. lia.
Qed.

Lemma inv_child_Some (ks : list byte) (p : Z) (np : node) (c : byte) :
  T ks = Some p -> at_ (array da) p = Some np -> Value np < 0 ->
  exists nt it, at_ (array da) (Z.lxor (base np) (ord c)) = Some nt /\
                at_ (info da) (Z.lxor (base np) (ord c)) = Some it.
Proof.
  intros Hp Hnp Hv. pose proof (inv_child_range _ _ _ c Hp Hnp Hv) as Hr.
  destruct (proj2 (at_is_Some (array da) _) Hr) as [nt Hnt].
  destruct (inv_info_Some _ _ Hnt) as [it Hit]. eauto.
Qed.

(** A slot whose check names [p] and that sits at [p]'s base is placed
    as a child of [p]. *)
Lemma inv_child_placed (ks : list byte) (p : Z) (np nt : node) (c : byte) :
  T ks = Some p -> at_ (array da) p = Some np ->
  at_ (array da) (Z.lxor (base np) (ord c)) = Some nt -> Check nt = p ->
  T (ks ++ [c]) = Some (Z.lxor (base np) (ord c)).
Proof.
  intros Hp Hnp Hnt Hc.
  assert (H0 : 0 <= Check nt) by (rewrite Hc; apply at_Some_range in Hnp; lia).
  destruct (inv_occ _ _ HI _ _ Hnt H0) as [ks' Hks'].
  destruct (snoc_cases ks') as [->|(ks'' & c' & ->)].
  - rewrite (inv_root _ _ HI) in Hks'. injection Hks' as E.
    destruct (inv_root_node _ _ HI) as (n & Hn & _ & Hcn).
    rewrite <- E, Hn in Hnt. injection Hnt as <-. lia.
  - destruct (inv_edge _ _ HI _ _ _ Hks') as (p' & np' & nt' & Hp' & Hnp' & Hv' & E & Hnt' & Hc').
    rewrite Hnt in Hnt'. injection Hnt' as <-.
    rewrite Hc in Hc'. subst p'.
    assert (ks'' = ks) by (eapply (inv_inj _ _ HI); eassumption). subst ks''.
    rewrite Hnp in Hnp'. injection Hnp' as <-.
    apply lxor_inj, ord_inj in E. subst c'. assumption.
Qed.

Lemma inv_walk (ks : list byte) (t : Z) : T ks = Some t -> walk da 0 ks t.
Proof.
  revert t. induction ks as [|c ks IH] using rev_ind; intros t Ht.
  - rewrite (inv_root _ _ HI) in Ht. injection Ht as <-. constructor.
  - destruct (inv_edge _ _ HI _ _ _ Ht) as (p & np & nt & Hp & Hnp & Hv & -> & Hnt & Hc).
    eapply walk_snoc; eauto.
Qed.

Lemma walk_placed (ks path : list byte) (from to : Z) :
  T ks = Some from -> walk da from path to -> T (ks ++ path) = Some to.
Proof.
  intros Hf Hw. revert ks Hf.
  induction Hw as [from|from b path to n nt Hn Hv Hnt Hc Hw IH]; intros ks Hf.
  - now rewrite app_nil_r.
  - replace (ks ++ b :: path) with ((ks ++ [b]) ++ path) by now rewrite <- app_assoc.
    apply IH. eapply inv_child_placed; eassumption.
Qed.

End InvFacts.

(** ** The empty cedar *)

Lemma at_NewCedar_array (t : Z) (n : node) :
  at_ (array NewCedar) t = Some n -> n = mkNode (-1) (-1).
Proof.
  unfold at_. destruct (decide (0 <= t)); [|discriminate].
  cbn [array NewCedar]. destruct (Z.to_nat t) as [|k]; cbn [lookup list_lookup].
  - congruence.
  - intros H. apply lookup_replicate in H. now destruct H.
Qed.

Lemma at_NewCedar_info (t : Z) (i : ninfo) :
  at_ (info NewCedar) t = Some i -> i = empty_info.
Proof.
  unfold at_. destruct (decide (0 <= t)); [|discriminate].
  cbn [info NewCedar]. intros H. apply lookup_replicate in H. now destruct H.
Qed.

Lemma T_root_snoc (ks : list byte) (c : byte) : T_root (ks ++ [c]) = None.
Proof. now destruct ks. Qed.

Lemma Inv_NewCedar : Inv NewCedar T_root.
Proof.
  split.
  - reflexivity.
  - exists 2%nat. reflexivity.
  - reflexivity.
  - exists (mkNode (-1) (-1)). split; [reflexivity|]. cbn. split; [lia|reflexivity].
  - intros [|] [|]; cbn; congruence.
  - intros ks c t H. rewrite T_root_snoc in H. discriminate.
  - intros t nt H Hc. apply at_NewCedar_array in H. subst. cbn in Hc. lia.
  - intros t nt _ H _. apply at_Some_range in H.
    assert (Hi : is_Some (at_ (info NewCedar) t)) by (apply at_is_Some; exact H).
    destruct Hi as [i Hi]. rewrite Hi. f_equal. eapply at_NewCedar_info; eassumption.
  - intros ks p np _ H Hv. apply at_NewCedar_array in H. subst. vm_compute. reflexivity.
  - intros ks p Hp. exists []. split.
    + constructor.
    + intros c. rewrite T_root_snoc. split; [intros H; inversion H|intros [? ?]; discriminate].
    + destruct ks; [|discriminate]. injection Hp as <-. exists empty_info. split; reflexivity.
    + intros; exact I.
Qed.

Lemma Strict_NewCedar : Strict NewCedar T_root.
Proof. intros [|] p np H; [done|discriminate]. Qed.

(** ** Rings under changes elsewhere *)

Lemma chain_frame (inf inf' : list ninfo) (b : Z) (l : list byte) :
  chain inf b l ->
  (forall c i, c ∈ l -> at_ inf (Z.lxor b (ord c)) = Some i ->
     exists i', at_ inf' (Z.lxor b (ord c)) = Some i' /\ Sibling i' = Sibling i) ->
  chain inf' b l.
Proof.
  induction l as [|c l IH]; intros Hch Hf; [exact I|].
  destruct Hch as [(i & Hi & Hs) Hch]. split.
  - destruct (Hf c i) as (i' & Hi' & Hs'); [left|assumption|].
    exists i'. split; [assumption|congruence].
  - apply IH; [assumption|]. intros c' i' Hc'. apply Hf. now right.
Qed.

Lemma ring_frame (da da' : Cedar) (T T' : placement) (ks : list byte)
    (p p' : Z) (l : list byte) :
  ring da T ks p l ->
  (forall c, is_Some (T' (ks ++ [c])) <-> is_Some (T (ks ++ [c]))) ->
  (forall i, at_ (info da) p = Some i ->
     exists i', at_ (info da') p' = Some i' /\ Child i' = Child i) ->
  (forall n', at_ (array da') p' = Some n' ->
     exists n, at_ (array da) p = Some n /\
       forall c i, c ∈ l -> at_ (info da) (Z.lxor (base n) (ord c)) = Some i ->
         exists i', at_ (info da') (Z.lxor (base n') (ord c)) = Some i' /\
                    Sibling i' = Sibling i) ->
  ring da' T' ks p' l.
Proof.
  intros [Hs Hd (i & Hi & Hc) Hch] HT Hinfo Harr. split.
  - assumption.
  - intros c. rewrite HT. apply Hd.
  - destruct (Hinfo _ Hi) as (i' & Hi' & Hc'). exists i'. split; [assumption|congruence].
  - intros n' Hn'. destruct (Harr _ Hn') as (n & Hn & Hf).
    specialize (Hch _ Hn). clear -Hch Hf.
    induction l as [|c l IH]; [exact I|].
    destruct Hch as [(i & Hi & Hs) Hch]. split.
    + destruct (Hf c i) as (i' & Hi' & Hs'); [left|assumption|].
      exists i'. split; [assumption|congruence].
    + apply IH; [assumption|]. intros c' i' Hc'. apply Hf. now right.
Qed.

(** ** Growth and the search for a base *)

Lemma at_grow_array (da : Cedar) (j : Z) (n : node) :
  at_ (array da) j = Some n -> at_ (array (grow da)) j = Some n.
Proof.
  intros H. cbn [grow array]. rewrite at_app_l; [assumption|].
  apply at_Some_range in H. lia.
Qed.

Lemma at_grow_info (da : Cedar) (j : Z) (i : ninfo) :
  at_ (info da) j = Some i -> at_ (info (grow da)) j = Some i.
Proof.
  intros H. cbn [grow info]. rewrite at_app_l; [assumption|].
  apply at_Some_range in H. lia.
Qed.

Lemma at_grow_array_inv (da : Cedar) (j : Z) (n : node) :
  at_ (array (grow da)) j = Some n ->
  at_ (array da) j = Some n \/
  (Z.of_nat (length (array da)) <= j < Z.of_nat (length (array da)) + 256 /\
   n = free_node).
Proof.
  intros H. cbn [grow array] in H.
  destruct (Z.lt_ge_cases j (Z.of_nat (length (array da)))) as [Hlt|Hge].
  - left. now rewrite at_app_l in H.
  - right. pose proof (at_Some_range _ _ _ H) as Hr.
    rewrite length_app, length_replicate in Hr.
    rewrite at_app_r_replicate in H by lia. split; [lia|congruence].
Qed.

Lemma at_grow_info_inv (da : Cedar) (j : Z) (i : ninfo) :
  at_ (info (grow da)) j = Some i ->
  at_ (info da) j = Some i \/
  (Z.of_nat (length (info da)) <= j /\ i = empty_info).
Proof.
  intros H. cbn [grow info] in H.
  destruct (Z.lt_ge_cases j (Z.of_nat (length (info da)))) as [Hlt|Hge].
  - left. now rewrite at_app_l in H.
  - right. pose proof (at_Some_range _ _ _ H) as Hr.
    rewrite length_app, length_replicate in Hr.
    rewrite at_app_r_replicate in H by lia. split; [lia|congruence].
Qed.

Lemma Inv_grow (da : Cedar) (T : placement) : Inv da T -> Inv (grow da) T.
Proof.
  intros HI. split.
  - cbn [grow info array]. rewrite !length_app, !length_replicate.
    now rewrite (inv_len _ _ HI).
  - destruct (inv_blocks _ _ HI) as [k Hk]. exists (S k).
    cbn [grow array]. rewrite length_app, length_replicate. lia.
  - apply (inv_root _ _ HI).
  - destruct (inv_root_node _ _ HI) as (n & Hn & H). exists n.
    split; [now apply at_grow_array|assumption].
  - apply (inv_inj _ _ HI).
  - intros ks c t Ht.
    destruct (inv_edge _ _ HI _ _ _ Ht) as (p & np & nt & Hp & Hnp & Hv & E & Hnt & Hc).
    exists p, np, nt. repeat split; try assumption; now apply at_grow_array.
  - intros t nt Hnt Hc. destruct (at_grow_array_inv _ _ _ Hnt) as [H|[_ ->]].
    + eapply (inv_occ _ _ HI); eassumption.
    + cbn in Hc. lia.
  - intros t nt Ht0 Hnt Hc. destruct (at_grow_array_inv _ _ _ Hnt) as [H|[Hr ->]].
    + apply at_grow_info. eapply (inv_free_info _ _ HI); eassumption.
    + cbn [grow info]. rewrite at_app_r_replicate; [reflexivity|].
      rewrite (inv_len _ _ HI). lia.
  - intros ks p np Hp Hnp Hv. destruct (inv_placed _ _ HI _ _ Hp) as (n & Hn & _).
    rewrite (at_grow_array _ _ _ Hn) in Hnp. injection Hnp as <-.
    pose proof (inv_base _ _ HI _ _ _ Hp Hn Hv) as Hb.
    cbn [grow array]. rewrite length_app. lia.
  - intros ks p Hp. destruct (inv_ring _ _ HI _ _ Hp) as [l Hl]. exists l.
    destruct (inv_placed _ _ HI _ _ Hp) as (n & Hn & _).
    eapply ring_frame; [exact Hl|reflexivity| |].
    + intros i Hi. exists i. split; [now apply at_grow_info|reflexivity].
    + intros n' Hn'. rewrite (at_grow_array _ _ _ Hn) in Hn'. injection Hn' as <-.
      exists n. split; [assumption|]. intros c i _ Hi. exists i.
      split; [now apply at_grow_info|reflexivity].
Qed.

Lemma scan_Some (P : Z -> bool) (n : nat) :
  forall b r, scan P b n = Some r -> P r = true /\ b <= r < b + Z.of_nat n.
Proof.
  induction n as [|n IH]; intros b r H; [discriminate|].
  cbn [scan] in H. destruct (P b) eqn:E.
  - injection H as <-. split; [assumption|lia].
  - apply IH in H. destruct H. split; [assumption|lia].
Qed.

Lemma is_free_true (a : list node) (i : Z) :
  is_free a i = true <-> i <> 0 /\ exists n, at_ a i = Some n /\ Check n < 0.
Proof.
  unfold is_free. rewrite andb_true_iff, negb_true_iff, Z.eqb_neq.
  destruct (at_ a i) as [n|].
  - rewrite Z.ltb_lt. split.
    + intros [H0 Hc]. eauto.
    + intros [H0 (n' & [= <-] & Hc)]. auto.
  - split; [intros [_ H]; discriminate|intros [_ (n & H & _)]; discriminate].
Qed.

Lemma fits_true (a : list node) (labels : list byte) (b : Z) :
  fits a labels b = true <->
  forall c, c ∈ labels -> is_free a (Z.lxor b (ord c)) = true.
Proof.
  unfold fits. rewrite forallb_forall. split.
  - intros H c Hc. apply H. now apply list_elem_of_In.
  - intros H c Hc. apply H. now apply list_elem_of_In.
Qed.

(** The outcome of [findBase]: the cedar may have grown, nothing that was
    there has changed, and the base fits. *)
Lemma findBase_spec (da da1 : Cedar) (T : placement) (labels : list byte) (b : Z) :
  Inv da T -> findBase da labels = (da1, b) ->
  Inv da1 T /\
  0 <= b < Z.of_nat (length (array da1)) /\
  (forall c, c ∈ labels -> is_free (array da1) (Z.lxor b (ord c)) = true) /\
  (forall j n, at_ (array da) j = Some n -> at_ (array da1) j = Some n) /\
  (forall j i, at_ (info da) j = Some i -> at_ (info da1) j = Some i) /\
  vals da1 = vals da /\ vkey da1 = vkey da.
Proof.
  intros HI. unfold findBase.
  destruct (scan _ _ _) as [r|] eqn:E; intros [= <- <-].
  - apply scan_Some in E. destruct E as [Hf Hr].
    split; [assumption|]. split; [lia|]. split; [now apply fits_true|]. auto.
  - split; [now apply Inv_grow|].
    destruct (inv_blocks _ _ HI) as [k Hk].
    split; [cbn [grow array]; rewrite length_app, length_replicate; lia|].
    split; [|split; [apply at_grow_array|split; [apply at_grow_info|auto]]].
    intros c _. apply is_free_true.
    assert (Hlen : 0 < Z.of_nat (length (array da))).
    { destruct (inv_root_node _ _ HI) as (n & Hn & _). apply at_Some_range in Hn. lia. }
    destruct (lxor_block (Z.of_nat (length (array da))) c ltac:(lia)) as [H0 Hdiv].
    rewrite Hk in Hdiv at 2.
    replace (Z.of_nat (256 * k)) with (Z.of_nat k * 256) in Hdiv by lia.
    rewrite Z.div_mul in Hdiv by lia.
    pose proof (Z.mul_div_le (Z.lxor (Z.of_nat (length (array da))) (ord c)) 256 ltac:(lia)) as Hle.
    pose proof (Z.mul_succ_div_gt (Z.lxor (Z.of_nat (length (array da))) (ord c)) 256 ltac:(lia)) as Hgt.
    rewrite Hdiv in Hle, Hgt.
    split; [lia|]. exists free_node. split; [|cbn; lia].
    cbn [grow array]. apply at_app_r_replicate. lia.
Qed.

(** ** Reading the child ring *)

Lemma ascending_cons_inv (c : byte) (l : list byte) :
  ascending (c :: l) -> ascending l /\ forall d, d ∈ l -> ord c < ord d.
Proof.
  intros H. apply StronglySorted_inv in H. destruct H as [H1 H2].
  split; [assumption|]. intros d Hd. rewrite Forall_forall in H2.
  apply H2. assumption.
Qed.

Lemma ascending_NoDup (l : list byte) : ascending l -> NoDup l.
Proof.
  induction l as [|c l IH]; intros H; [constructor|].
  apply ascending_cons_inv in H. destruct H as [H1 H2].
  constructor; [|auto]. intros Hc. specialize (H2 _ Hc). lia.
Qed.

Lemma ascending_length (c : byte) (l : list byte) :
  ascending (c :: l) -> Z.of_nat (length (c :: l)) <= 256 - ord c.
Proof.
  revert c. induction l as [|d l IH]; intros c H.
  - pose proof (ord_range c). cbn. lia.
  - apply ascending_cons_inv in H. destruct H as [H1 H2].
    specialize (IH _ H1). specialize (H2 d ltac:(left)).
    cbn [length] in *. lia.
Qed.

Lemma ascending_length_256 (l : list byte) : ascending l -> (length l <= 256)%nat.
Proof.
  destruct l as [|c l]; intros H; [cbn; lia|].
  apply ascending_length in H. pose proof (ord_range c). lia.
Qed.

Lemma ascending_tail_not_NUL (c d : byte) (l : list byte) :
  ascending (c :: d :: l) -> d <> NUL.
Proof.
  intros H. apply ascending_cons_inv in H. destruct H as [_ H].
  specialize (H d ltac:(left)). intros ->. pose proof (ord_range c).
  change (ord NUL) with 0 in H. lia.
Qed.

Lemma ring_from_spec (da : Cedar) (b : Z) (l : list byte) :
  forall fuel c, chain (info da) b (c :: l) -> ascending (c :: l) ->
    (length (c :: l) <= fuel)%nat -> ring_from fuel da b c = Ret (c :: l).
Proof.
  induction l as [|d l IH]; intros fuel c Hch Hasc Hfuel;
    (destruct fuel as [|fuel]; [cbn in Hfuel; lia|]);
    destruct Hch as [(i & Hi & Hs) Hch]; cbn [ring_from];
    unfold rd; rewrite Hi; cbn [bind hd] in *; rewrite Hs.
  - destruct (byte_eqb_spec NUL NUL); [reflexivity|congruence].
  - destruct (byte_eqb_spec d NUL) as [E|_].
    + exfalso. eapply ascending_tail_not_NUL; eassumption.
    + rewrite (IH fuel d); [reflexivity|assumption| |cbn in *; lia].
      apply ascending_cons_inv in Hasc. tauto.
Qed.

Lemma ring_internal (da : Cedar) (T : placement) (ks : list byte) (p : Z)
    (l : list byte) (np : node) :
  Inv da T -> T ks = Some p -> ring da T ks p l ->
  at_ (array da) p = Some np -> l <> [] -> Value np < 0.
Proof.
  intros HI Hp Hl Hnp Hne. destruct l as [|c0 l0]; [done|].
  destruct (proj1 (ring_dom _ _ _ _ _ Hl c0) ltac:(left)) as [t Ht].
  destruct (inv_edge _ _ HI _ _ _ Ht) as (p' & np' & nt & Hp' & Hnp' & Hv & _).
  rewrite Hp in Hp'. injection Hp' as <-. congruence.
Qed.

Lemma ring_child_slot (da : Cedar) (T : placement) (ks : list byte) (p : Z)
    (l : list byte) (np : node) (c : byte) :
  Inv da T -> T ks = Some p -> ring da T ks p l ->
  at_ (array da) p = Some np -> c ∈ l ->
  T (ks ++ [c]) = Some (Z.lxor (base np) (ord c)) /\
  exists nt, at_ (array da) (Z.lxor (base np) (ord c)) = Some nt /\ Check nt = p.
Proof.
  intros HI Hp Hl Hnp Hc. destruct (proj1 (ring_dom _ _ _ _ _ Hl c) Hc) as [t Ht].
  destruct (inv_edge _ _ HI _ _ _ Ht) as (p' & np' & nt & Hp' & Hnp' & Hv & E & Hnt & Hcn).
  rewrite Hp in Hp'. injection Hp' as <-. rewrite Hnp in Hnp'. injection Hnp' as <-.
  subst t. split; [assumption|]. eauto.
Qed.

Lemma ring_not_child (da : Cedar) (T : placement) (ks : list byte) (p : Z)
    (l : list byte) (np nt : node) (c : byte) :
  Inv da T -> T ks = Some p -> ring da T ks p l ->
  at_ (array da) p = Some np -> c ∉ l ->
  at_ (array da) (Z.lxor (base np) (ord c)) = Some nt -> Check nt <> p.
Proof.
  intros HI Hp Hl Hnp Hc Hnt E. apply Hc. apply (ring_dom _ _ _ _ _ Hl).
  rewrite (inv_child_placed _ _ HI _ _ _ _ _ Hp Hnp Hnt E). eauto.
Qed.

Lemma hasChild_spec (da : Cedar) (T : placement) (ks : list byte) (p : Z)
    (l : list byte) :
  Inv da T -> T ks = Some p -> ring da T ks p l ->
  hasChild da p = Ret (match l with [] => false | _ => true end).
Proof.
  intros HI Hp Hl.
  destruct (inv_placed _ _ HI _ _ Hp) as (np & Hnp & _).
  destruct (ring_child _ _ _ _ _ Hl) as (i & Hi & Hc).
  unfold hasChild, rd. rewrite Hnp, Hi. cbn [bind].
  destruct (Z.ltb_spec (base np) 0) as [Hb|Hb].
  - destruct l as [|c0 l0]; [reflexivity|].
    pose proof (ring_internal _ _ _ _ _ np HI Hp Hl Hnp ltac:(discriminate)) as Hv.
    unfold base in Hb. lia.
  - destruct (at_ (array da) (Z.lxor (base np) (ord (Child i)))) as [nc|] eqn:Hnc.
    + destruct l as [|c0 l0].
      * f_equal. apply Z.eqb_neq. eapply ring_not_child; try eassumption.
        apply not_elem_of_nil.
      * cbn [hd] in Hc. rewrite Hc in Hnc.
        destruct (ring_child_slot _ _ _ _ _ np c0 HI Hp Hl Hnp ltac:(left))
          as (_ & nt & Hnt & Hcn).
        rewrite Hnc in Hnt. injection Hnt as <-. f_equal. now apply Z.eqb_eq.
    + destruct l as [|c0 l0]; [reflexivity|].
      cbn [hd] in Hc. rewrite Hc in Hnc.
      destruct (ring_child_slot _ _ _ _ _ np c0 HI Hp Hl Hnp ltac:(left))
        as (_ & nt & Hnt & _).
      congruence.
Qed.

Lemma children_spec (da : Cedar) (T : placement) (ks : list byte) (p : Z)
    (l : list byte) :
  Inv da T -> T ks = Some p -> ring da T ks p l -> children da p = Ret l.
Proof.
  intros HI Hp Hl.
  unfold children. rewrite (hasChild_spec _ _ _ _ _ HI Hp Hl). cbn [bind].
  destruct (inv_placed _ _ HI _ _ Hp) as (np & Hnp & _).
  destruct (ring_child _ _ _ _ _ Hl) as (i & Hi & Hc).
  pose proof (ring_chain _ _ _ _ _ Hl _ Hnp) as Hch.
  pose proof (ring_sorted _ _ _ _ _ Hl) as Hs.
  destruct l as [|c0 l0]; [reflexivity|].
  unfold rd. rewrite Hnp, Hi. cbn [bind hd] in *. rewrite Hc.
  apply ring_from_spec; [assumption|assumption|].
  now apply ascending_length_256.
Qed.

(** ** Field updates *)

Lemma setValue_Ret (da : Cedar) (i v : Z) (n : node) :
  at_ (array da) i = Some n ->
  setValue da i v = Ret (set_array da (<[Z.to_nat i := mkNode v (Check n)]> (array da))).
Proof. intros H. unfold setValue, rd, wr. rewrite H. reflexivity. Qed.

Lemma setCheck_Ret (da : Cedar) (i c : Z) (n : node) :
  at_ (array da) i = Some n ->
  setCheck da i c = Ret (set_array da (<[Z.to_nat i := mkNode (Value n) c]> (array da))).
Proof. intros H. unfold setCheck, rd, wr. rewrite H. reflexivity. Qed.

Lemma setSibling_Ret (da : Cedar) (i : Z) (s : byte) (x : ninfo) :
  at_ (info da) i = Some x ->
  setSibling da i s
  = Ret (set_info da (<[Z.to_nat i := mkInfo s (Child x) (End x)]> (info da))).
Proof. intros H. unfold setSibling, rd, wr. rewrite H. reflexivity. Qed.

Lemma setChild_Ret (da : Cedar) (i : Z) (c : byte) (x : ninfo) :
  at_ (info da) i = Some x ->
  setChild da i c
  = Ret (set_info da (<[Z.to_nat i := mkInfo (Sibling x) c (End x)]> (info da))).
Proof. intros H. unfold setChild, rd, wr. rewrite H. reflexivity. Qed.

Lemma setEnd_Ret (da : Cedar) (i : Z) (e : bool) (x : ninfo) :
  at_ (info da) i = Some x ->
  setEnd da i e
  = Ret (set_info da (<[Z.to_nat i := mkInfo (Sibling x) (Child x) e]> (info da))).
Proof. intros H. unfold setEnd, rd, wr. rewrite H. reflexivity. Qed.

(** ** Frames of the node-info array *)

Lemma info_frame_refl (inf : list ninfo) (sibs chs : Z -> Prop) :
  info_frame inf inf sibs chs.
Proof. split; [reflexivity|]. intros j i H. exists i. auto. Qed.

Lemma info_frame_trans (inf1 inf2 inf3 : list ninfo) (sibs chs : Z -> Prop) :
  info_frame inf1 inf2 sibs chs -> info_frame inf2 inf3 sibs chs ->
  info_frame inf1 inf3 sibs chs.
Proof.
  intros [L1 F1] [L2 F2]. split; [congruence|]. intros j i H.
  destruct (F1 _ _ H) as (i2 & H2 & E2 & C2 & S2).
  destruct (F2 _ _ H2) as (i3 & H3 & E3 & C3 & S3).
  exists i3. split; [assumption|]. split; [congruence|].
  split; intros Hn; [rewrite C3, C2|rewrite S3, S2]; auto.
Qed.

Lemma info_frame_weaken (inf inf' : list ninfo) (sibs sibs' chs chs' : Z -> Prop) :
  info_frame inf inf' sibs chs ->
  (forall j, sibs j -> sibs' j) -> (forall j, chs j -> chs' j) ->
  info_frame inf inf' sibs' chs'.
Proof.
  intros [L F] Hs Hc. split; [assumption|]. intros j i H.
  destruct (F _ _ H) as (i' & H' & E & C & S). exists i'.
  split; [assumption|]. split; [assumption|]. split; intros Hn; auto.
Qed.

Lemma info_frame_sibling (inf : list ninfo) (i : Z) (s : byte) (x : ninfo)
    (sibs chs : Z -> Prop) :
  at_ inf i = Some x -> sibs i ->
  info_frame inf (<[Z.to_nat i := mkInfo s (Child x) (End x)]> inf) sibs chs.
Proof.
  intros Hx Hs. split; [apply length_insert|]. intros j y Hy.
  rewrite (at_upd _ _ _ _ _ Hx). destruct (decide (j = i)) as [->|Hne].
  - rewrite Hx in Hy. injection Hy as <-. eexists. split; [reflexivity|].
    cbn. split; [reflexivity|]. split; [reflexivity|]. intros Hn. contradiction.
  - exists y. auto.
Qed.

Lemma info_frame_child (inf : list ninfo) (i : Z) (c : byte) (x : ninfo)
    (sibs chs : Z -> Prop) :
  at_ inf i = Some x -> chs i ->
  info_frame inf (<[Z.to_nat i := mkInfo (Sibling x) c (End x)]> inf) sibs chs.
Proof.
  intros Hx Hs. split; [apply length_insert|]. intros j y Hy.
  rewrite (at_upd _ _ _ _ _ Hx). destruct (decide (j = i)) as [->|Hne].
  - rewrite Hx in Hy. injection Hy as <-. eexists. split; [reflexivity|].
    cbn. split; [reflexivity|]. split; [|reflexivity]. intros Hn. contradiction.
  - exists y. auto.
Qed.

Lemma chain_info_frame (inf inf' : list ninfo) (b : Z) (l : list byte)
    (sibs chs : Z -> Prop) :
  chain inf b l -> info_frame inf inf' sibs chs ->
  (forall d, d ∈ l -> ~ sibs (Z.lxor b (ord d))) ->
  chain inf' b l.
Proof.
  intros Hch [_ F] Hn. eapply chain_frame; [eassumption|].
  intros c i Hc Hi. destruct (F _ _ Hi) as (i' & Hi' & _ & _ & S).
  exists i'. split; [assumption|]. apply S. now apply Hn.
Qed.

Lemma ins_elem (c d : byte) (l : list byte) : d ∈ ins c l <-> d = c \/ d ∈ l.
Proof.
  induction l as [|e l IH]; cbn [ins].
  - rewrite list_elem_of_singleton. split; [auto|]. intros [H|H]; [assumption|inversion H].
  - destruct (ord c <? ord e); rewrite !elem_of_cons; [tauto|].
    rewrite IH. tauto.
Qed.

Lemma ins_ascending (c : byte) (l : list byte) :
  ascending l -> c ∉ l -> ascending (ins c l).
Proof.
  induction l as [|e l IH]; intros Hasc Hc; cbn [ins].
  - repeat constructor.
  - destruct (Z.ltb_spec (ord c) (ord e)) as [Hlt|Hge].
    + constructor; [assumption|]. apply ascending_cons_inv in Hasc.
      destruct Hasc as [_ H]. apply Forall_forall. intros d Hd.
      apply elem_of_cons in Hd. destruct Hd as [->|Hd]; [assumption|].
      specialize (H _ Hd). lia.
    + apply ascending_cons_inv in Hasc. destruct Hasc as [Hl H].
      constructor.
      * apply IH; [assumption|]. intros Hin. apply Hc. now right.
      * apply Forall_forall. intros d Hd. apply ins_elem in Hd.
        destruct Hd as [->|Hd]; [|auto].
        assert (ord c <> ord e); [|lia].
        intros E. apply ord_inj in E. subst. apply Hc. now left.
Qed.

(** ** Insertion into a ring *)

Lemma slots_cons (b : Z) (d : byte) (ds : list byte) (j : Z) :
  slots b (d :: ds) j <-> j = Z.lxor b (ord d) \/ slots b ds j.
Proof.
  unfold slots. split.
  - intros (e & He & ->). apply elem_of_cons in He. destruct He as [->|He]; eauto.
  - intros [->|(e & He & ->)]; [exists d|exists e]; split; auto; now constructor.
Qed.

Lemma slots_lxor (b : Z) (d : byte) (ds : list byte) :
  slots b ds (Z.lxor b (ord d)) <-> d ∈ ds.
Proof.
  unfold slots. split.
  - intros (e & He & E). apply lxor_inj, ord_inj in E. now subst.
  - intros H. eauto.
Qed.

Lemma push_two (da : Cedar) (b : Z) (c0 c s : byte) (ic i0 : ninfo) :
  at_ (info da) (Z.lxor b (ord c)) = Some ic ->
  at_ (info da) (Z.lxor b (ord c0)) = Some i0 ->
  c0 <> c ->
  exists inf',
    (da1 <- setSibling da (Z.lxor b (ord c)) s;
     setSibling da1 (Z.lxor b (ord c0)) c) = Ret (set_info da inf') /\
    at_ inf' (Z.lxor b (ord c0)) = Some (mkInfo c (Child i0) (End i0)) /\
    at_ inf' (Z.lxor b (ord c)) = Some (mkInfo s (Child ic) (End ic)) /\
    info_frame (info da) inf' (slots b [c; c0]) (fun _ => False).
Proof.
  intros Hic Hi0 Hne.
  assert (Hslot : Z.lxor b (ord c0) <> Z.lxor b (ord c)) by now apply lxor_ord_neq.
  rewrite (setSibling_Ret _ _ _ _ Hic). cbn [bind].
  set (inf1 := <[Z.to_nat (Z.lxor b (ord c)) := mkInfo s (Child ic) (End ic)]> (info da)).
  assert (H1 : at_ inf1 (Z.lxor b (ord c0)) = Some i0).
  { unfold inf1. rewrite (at_upd _ _ _ _ _ Hic). now destruct (decide _). }
  assert (H1c : at_ inf1 (Z.lxor b (ord c)) = Some (mkInfo s (Child ic) (End ic))).
  { unfold inf1. rewrite (at_upd _ _ _ _ _ Hic). now destruct (decide _). }
  rewrite (setSibling_Ret (set_info da inf1) (Z.lxor b (ord c0)) c i0 H1).
  cbn [set_info info array vals vkey].
  eexists. split; [reflexivity|]. split; [|split].
  - rewrite (at_upd _ _ _ _ _ H1). now destruct (decide _).
  - rewrite (at_upd _ _ _ _ _ H1). destruct (decide _) as [E|_]; [|exact H1c].
    symmetry in E. contradiction.
  - eapply info_frame_trans.
    + apply (info_frame_sibling (info da) (Z.lxor b (ord c)) s ic); [exact Hic|].
      apply slots_lxor. now left.
    + apply (info_frame_sibling inf1 (Z.lxor b (ord c0)) c i0); [exact H1|].
      apply slots_lxor. right. now left.
Qed.

Lemma pushSibling_walk_spec (da : Cedar) (b : Z) (c : byte) (ic : ninfo) (l0 : list byte) :
  at_ (info da) (Z.lxor b (ord c)) = Some ic ->
  forall fuel c0,
    chain (info da) b (c0 :: l0) -> ascending (c0 :: l0) ->
    ord c0 < ord c -> c ∉ l0 -> (length l0 < fuel)%nat ->
    exists inf',
      pushSibling_walk fuel da b c0 c = Ret (set_info da inf') /\
      chain inf' b (c0 :: ins c l0) /\
      info_frame (info da) inf' (slots b (c :: c0 :: l0)) (fun _ => False).
Proof.
  intros Hic. induction l0 as [|s l1 IH]; intros fuel c0 Hch Hasc Hlt Hc Hfuel;
    (destruct fuel as [|fuel]; [cbn in Hfuel; lia|]);
    destruct Hch as [(i0 & Hi0 & Hs0) Hch]; cbn [hd] in Hs0;
    cbn [pushSibling_walk]; unfold rd at 1; rewrite Hi0; cbn [bind]; rewrite Hs0.
  - destruct (byte_eqb_spec NUL NUL) as [_|]; [|congruence]. cbn [negb andb].
    assert (Hne : c0 <> c) by (intros ->; lia).
    destruct (push_two da b c0 c NUL ic i0 Hic Hi0 Hne) as (inf' & Hr & H0 & H1 & Hf).
    exists inf'. split; [exact Hr|]. split.
    + cbn [ins chain hd]. split; [eauto|]. split; [eauto|exact I].
    + eapply info_frame_weaken; [exact Hf| |auto].
      intros j Hj. apply slots_cons in Hj. apply slots_cons.
      destruct Hj as [->|Hj]; [now left|]. right.
      apply slots_cons in Hj. destruct Hj as [->|Hj]; [|destruct Hj as (d & Hd & _); inversion Hd].
      apply slots_lxor. now left.
  - pose proof (ascending_tail_not_NUL _ _ _ Hasc) as Hs.
    destruct (byte_eqb_spec s NUL) as [|_]; [contradiction|]. cbn [negb andb].
    pose proof (ascending_cons_inv _ _ Hasc) as [Hasc1 Hall].
    assert (Hne : c0 <> c) by (intros ->; lia).
    assert (Hcs : c <> s) by (intros ->; apply Hc; now left).
    destruct (Z.ltb_spec (ord s) (ord c)) as [Hsc|Hsc].
    + destruct (IH fuel s) as (inf' & Hr & Hch' & Hf); try assumption.
      { intros Hin. apply Hc. now right. }
      { cbn in Hfuel. lia. }
      exists inf'. split; [exact Hr|]. split.
      * cbn [ins]. destruct (Z.ltb_spec (ord c) (ord s)); [lia|].
        split; [|exact Hch'].
        destruct Hf as [_ F]. destruct (F _ _ Hi0) as (i' & Hi' & _ & _ & S).
        exists i'. split; [assumption|]. cbn [hd]. rewrite S; [assumption|].
        intros Hsl. apply slots_lxor in Hsl.
        apply elem_of_cons in Hsl. destruct Hsl as [->|Hsl]; [lia|].
        specialize (Hall _ Hsl). lia.
      * eapply info_frame_weaken; [exact Hf| |auto].
        intros j Hj. apply slots_cons in Hj. apply slots_cons.
        destruct Hj as [->|Hj]; [now left|]. right. apply slots_cons. now right.
    + assert (Hlt' : ord c < ord s).
      { assert (ord c <> ord s) by (intros E; apply ord_inj in E; contradiction). lia. }
      destruct (push_two da b c0 c s ic i0 Hic Hi0 Hne) as (inf' & Hr & H0 & H1 & Hf).
      exists inf'. split; [exact Hr|]. split.
      * cbn [ins]. destruct (Z.ltb_spec (ord c) (ord s)); [|lia].
        split; [eauto|]. split; [eauto|].
        eapply chain_info_frame; [exact Hch|exact Hf|].
        intros d Hd Hsl. apply slots_lxor in Hsl.
        apply elem_of_cons in Hsl. destruct Hsl as [->|Hsl]; [contradiction|].
        apply list_elem_of_singleton in Hsl. subst d.
        specialize (Hall _ Hd). lia.
      * eapply info_frame_weaken; [exact Hf| |auto].
        intros j Hj. apply slots_cons in Hj. apply slots_cons.
        destruct Hj as [->|Hj]; [now left|]. right.
        apply slots_cons in Hj. destruct Hj as [->|Hj]; [|destruct Hj as (d & Hd & _); inversion Hd].
        apply slots_lxor. now left.
Qed.

Lemma chain_cons (inf : list ninfo) (b : Z) (c : byte) (l : list byte) :
  chain inf b (c :: l) <->
  (exists i, at_ inf (Z.lxor b (ord c)) = Some i /\ Sibling i = hd NUL l) /\
  chain inf b l.
Proof. reflexivity. Qed.

Lemma push_head (da : Cedar) (b p : Z) (c s : byte) (ic ip : ninfo) :
  at_ (info da) (Z.lxor b (ord c)) = Some ic ->
  at_ (info da) p = Some ip ->
  exists inf',
    (da1 <- setSibling da (Z.lxor b (ord c)) s; setChild da1 p c)
    = Ret (set_info da inf') /\
    (exists i', at_ inf' (Z.lxor b (ord c)) = Some i' /\ Sibling i' = s) /\
    (exists i', at_ inf' p = Some i' /\ Child i' = c) /\
    info_frame (info da) inf' (slots b [c]) (eq p).
Proof.
  intros Hic Hip.
  rewrite (setSibling_Ret _ _ _ _ Hic). cbn [bind].
  set (inf1 := <[Z.to_nat (Z.lxor b (ord c)) := mkInfo s (Child ic) (End ic)]> (info da)).
  assert (H1c : at_ inf1 (Z.lxor b (ord c)) = Some (mkInfo s (Child ic) (End ic))).
  { unfold inf1. rewrite (at_upd _ _ _ _ _ Hic). now destruct (decide _). }
  assert (Hx : exists x1, at_ inf1 p = Some x1).
  { unfold inf1. rewrite (at_upd _ _ _ _ _ Hic). destruct (decide _); eauto. }
  destruct Hx as [x1 H1].
  rewrite (setChild_Ret (set_info da inf1) p c x1 H1).
  cbn [set_info info array vals vkey].
  eexists. split; [reflexivity|]. split; [|split].
  - rewrite (at_upd _ _ _ _ _ H1). destruct (decide _) as [E|_].
    + eexists. split; [reflexivity|]. cbn. rewrite E, H1 in H1c.
      injection H1c as ->. reflexivity.
    + eauto.
  - rewrite (at_upd _ _ _ _ _ H1). destruct (decide _) as [_|]; [|congruence].
    eexists. split; reflexivity.
  - eapply info_frame_trans.
    + apply (info_frame_sibling (info da) (Z.lxor b (ord c)) s ic); [exact Hic|].
      apply slots_lxor. now left.
    + apply (info_frame_child inf1 p c x1); [exact H1|reflexivity].
Qed.

Lemma pushSibling_spec (da : Cedar) (b p : Z) (c : byte) (l : list byte)
    (ic ip : ninfo) :
  at_ (info da) p = Some ip -> Child ip = hd NUL l ->
  at_ (info da) (Z.lxor b (ord c)) = Some ic ->
  chain (info da) b l -> ascending l -> c ∉ l ->
  exists inf',
    pushSibling da p b c (match l with [] => false | _ => true end)
    = Ret (set_info da inf') /\
    chain inf' b (ins c l) /\
    (exists i', at_ inf' p = Some i' /\ Child i' = hd NUL (ins c l)) /\
    info_frame (info da) inf' (slots b (c :: l)) (eq p).
Proof.
  intros Hip Hch0 Hic Hch Hasc Hc. unfold pushSibling, rd. rewrite Hip. cbn [bind].
  destruct l as [|c0 l0].
  - cbn [andb hd] in *.
    destruct (push_head da b p c (Child ip) ic ip Hic Hip) as (inf' & Hr & (i1 & Hi1 & Hs1) & Hp' & Hf).
    exists inf'. split; [exact Hr|]. split; [|split; [exact Hp'|exact Hf]].
    cbn [ins chain hd]. split; [|exact I]. exists i1. split; [assumption|congruence].
  - cbn [andb hd] in *. rewrite Hch0.
    assert (Hne : c <> c0) by (intros ->; apply Hc; now left).
    destruct (Z.ltb_spec (ord c0) (ord c)) as [Hlt|Hge].
    + destruct (pushSibling_walk_spec da b c ic l0 Hic 256%nat c0) as (inf' & Hr & Hch' & Hf);
        try assumption.
      { intros Hin. apply Hc. now right. }
      { apply ascending_length_256 in Hasc. cbn in Hasc. lia. }
      exists inf'. split; [exact Hr|].
      cbn [ins]. destruct (Z.ltb_spec (ord c) (ord c0)); [lia|].
      split; [exact Hch'|]. split.
      * destruct Hf as [_ F]. destruct (F _ _ Hip) as (i' & Hi' & _ & C & _).
        exists i'. split; [assumption|]. cbn [hd]. rewrite C; [assumption|intros []].
      * eapply info_frame_weaken; [exact Hf|auto|intros j []].
    + assert (Hlt : ord c < ord c0).
      { assert (ord c <> ord c0) by (intros E; apply ord_inj in E; contradiction). lia. }
      destruct (push_head da b p c c0 ic ip Hic Hip) as (inf' & Hr & (i1 & Hi1 & Hs1) & Hp' & Hf).
      exists inf'. split; [exact Hr|].
      cbn [ins]. destruct (Z.ltb_spec (ord c) (ord c0)); [|lia].
      split; [|split; [exact Hp'|]].
      * apply chain_cons. split; [eauto|].
        eapply chain_info_frame; [exact Hch|exact Hf|].
        intros d Hd Hsl. apply slots_lxor in Hsl.
        apply list_elem_of_singleton in Hsl. subst d. contradiction.
      * eapply info_frame_weaken; [exact Hf| |auto].
        intros j Hj. apply slots_cons in Hj. apply slots_cons.
        destruct Hj as [->|Hj]; [now left|].
        destruct Hj as (d & Hd & _); inversion Hd.
Qed.

(** ** Claiming a slot for a new child *)

Lemma info_eta (i : ninfo) (s c : byte) (e : bool) :
  Sibling i = s -> Child i = c -> End i = e -> i = mkInfo s c e.
Proof. destruct i. cbn. congruence. Qed.

Lemma snoc_neq_self {A} (ks : list A) (c : A) : ks <> ks ++ [c].
Proof.
  intros E. apply (f_equal length) in E. rewrite length_app in E. cbn in E. lia.
Qed.

Section Link.
Context (da : Cedar) (T : placement) (HI : Inv da T).
Context (ks : list byte) (p : Z) (np : node) (c : byte) (l : list byte).
Context (Hp : T ks = Some p) (Hnp : at_ (array da) p = Some np).
Context (Hv : Value np < 0) (Hl : ring da T ks p l) (Hc : c ∉ l).
Context (Hfree : is_free (array da) (Z.lxor (base np) (ord c)) = true).

Let t := Z.lxor (base np) (ord c).
Let T' := T_add T (ks ++ [c]) t.

Lemma link_t_free : t <> 0 /\ exists nf, at_ (array da) t = Some nf /\ Check nf < 0.
Proof. apply is_free_true. exact Hfree. Qed.

Lemma link_t_unplaced (ks' : list byte) : T ks' <> Some t.
Proof.
  intros H. destruct link_t_free as (H0 & nf & Hnf & Hcf).
  destruct (inv_placed _ _ HI _ _ H) as (n & Hn & [[_ E]|(_ & _ & Hcn)]).
  - contradiction.
  - rewrite Hnf in Hn. injection Hn as <-. lia.
Qed.

Lemma link_new_None : T (ks ++ [c]) = None.
Proof.
  destruct (T (ks ++ [c])) eqn:E; [|reflexivity]. exfalso. apply Hc.
  apply (ring_dom _ _ _ _ _ Hl). rewrite E. eauto.
Qed.

Lemma link_T'_old (ks' : list byte) (x : Z) : T ks' = Some x -> T' ks' = Some x.
Proof.
  intros H. unfold T', T_add. destruct (decide _) as [->|_]; [|assumption].
  rewrite link_new_None in H. discriminate.
Qed.

Lemma link_T'_inv (ks' : list byte) (x : Z) :
  T' ks' = Some x -> ks' = ks ++ [c] /\ x = t \/ ks' <> ks ++ [c] /\ T ks' = Some x.
Proof.
  unfold T', T_add. destruct (decide _) as [->|Hne]; intros H.
  - left. split; congruence.
  - right. auto.
Qed.

Lemma link_child_dom (ks' : list byte) (d : byte) :
  ks' <> ks -> (is_Some (T' (ks' ++ [d])) <-> is_Some (T (ks' ++ [d]))).
Proof.
  intros Hne. unfold T', T_add. destruct (decide _) as [E|_]; [|reflexivity].
  apply app_inj_tail in E. destruct E. contradiction.
Qed.

Lemma link_p_neq_t : p <> t.
Proof. intros E. apply (link_t_unplaced ks). now rewrite <- E. Qed.

Lemma link_placed_neq_t (ks' : list byte) (x : Z) : T ks' = Some x -> x <> t.
Proof. intros H E. apply (link_t_unplaced ks'). now rewrite <- E. Qed.

(** The outcome on the arrays. *)
Lemma link_ret :
  exists inf',
    link da p (base np) c
    = Ret (set_info (set_array da (<[Z.to_nat t := mkNode valueLimit p]> (array da))) inf', t) /\
    chain inf' (base np) (ins c l) /\
    (exists i', at_ inf' p = Some i' /\ Child i' = hd NUL (ins c l)) /\
    info_frame (info da) inf' (slots (base np) (c :: l)) (eq p).
Proof.
  destruct link_t_free as (H0 & nf & Hnf & Hcf).
  destruct (ring_child _ _ _ _ _ Hl) as (ip & Hip & Hch0).
  destruct (inv_info_Some _ _ HI _ _ Hnf) as [ic Hic].
  unfold link. rewrite (hasChild_spec _ _ _ _ _ HI Hp Hl). cbn [bind].
  rewrite (wr_Ret _ _ _ _ Hnf). cbn [bind].
  destruct (pushSibling_spec
              (set_array da (<[Z.to_nat t := mkNode valueLimit p]> (array da)))
              (base np) p c l ic ip Hip Hch0 Hic)
    as (inf' & Hr & Hch' & Hp' & Hf).
  - apply (ring_chain _ _ _ _ _ Hl). assumption.
  - apply (ring_sorted _ _ _ _ _ Hl).
  - assumption.
  - exists inf'. fold t in Hr |- *. rewrite Hr. cbn [bind].
    split; [reflexivity|]. auto.
Qed.

Context (inf' : list ninfo).
Context (Hch' : chain inf' (base np) (ins c l)).
Context (Hp' : exists i', at_ inf' p = Some i' /\ Child i' = hd NUL (ins c l)).
Context (Hf : info_frame (info da) inf' (slots (base np) (c :: l)) (eq p)).

Let da' :=
  set_info (set_array da (<[Z.to_nat t := mkNode valueLimit p]> (array da))) inf'.

Lemma link_array' (j : Z) :
  at_ (array da') j = if decide (j = t) then Some (mkNode valueLimit p)
                      else at_ (array da) j.
Proof.
  destruct link_t_free as (_ & nf & Hnf & _).
  unfold da'. cbn [set_info set_array array]. apply (at_upd _ _ _ _ _ Hnf).
Qed.

Lemma link_array'_old (ks' : list byte) (x : Z) :
  T ks' = Some x -> at_ (array da') x = at_ (array da) x.
Proof.
  intros H. rewrite link_array'. destruct (decide _) as [E|_]; [|reflexivity].
  exfalso. eapply link_placed_neq_t; eassumption.
Qed.

(** The slot of a child of another node is none of the slots whose
    sibling link may have changed. *)
Lemma link_other_slot (ks' : list byte) (p' : Z) (np' : node) (l' : list byte)
    (d : byte) :
  T ks' = Some p' -> p' <> p -> at_ (array da) p' = Some np' ->
  ring da T ks' p' l' -> d ∈ l' ->
  ~ slots (base np) (c :: l) (Z.lxor (base np') (ord d)).
Proof.
  intros Hp0 Hne Hnp0 Hl0 Hd Hs.
  destruct (ring_child_slot _ _ _ _ _ _ _ HI Hp0 Hl0 Hnp0 Hd) as (Hpl & nt & Hnt & Hcn).
  apply slots_cons in Hs. destruct Hs as [E|(e & He & E)].
  - eapply link_placed_neq_t; [exact Hpl|exact E].
  - destruct (ring_child_slot _ _ _ _ _ _ _ HI Hp Hl Hnp He) as (_ & nt' & Hnt' & Hcn').
    rewrite E, Hnt' in Hnt. injection Hnt as <-. congruence.
Qed.

Lemma Inv_link : Inv da' T'.
Proof.
  destruct link_t_free as (Ht0 & nf & Hnf & Hcf).
  pose proof Hf as [HfL HfF].
  split.
  - unfold da'. cbn [set_info set_array array info]. rewrite length_insert.
    rewrite HfL. apply (inv_len _ _ HI).
  - unfold da'. cbn [set_info set_array array info]. rewrite length_insert.
    apply (inv_blocks _ _ HI).
  - apply link_T'_old. apply (inv_root _ _ HI).
  - destruct (inv_root_node _ _ HI) as (n & Hn & H). exists n. split; [|assumption].
    rewrite link_array'. destruct (decide _) as [E|_]; [|assumption].
    symmetry in E. contradiction.
  - intros ks1 ks2 x H1 H2.
    apply link_T'_inv in H1. apply link_T'_inv in H2.
    destruct H1 as [[-> ->]|[N1 H1]], H2 as [[-> E2]|[N2 H2]].
    + reflexivity.
    + exfalso. eapply link_t_unplaced; eassumption.
    + subst x. exfalso. eapply link_t_unplaced; eassumption.
    + eapply (inv_inj _ _ HI); eassumption.
  - intros ks' c' x H. apply link_T'_inv in H. destruct H as [[E ->]|[N H]].
    + apply app_inj_tail in E. destruct E as [-> ->].
      exists p, np, (mkNode valueLimit p).
      split; [now apply link_T'_old|].
      split; [now rewrite (link_array'_old _ _ Hp)|].
      split; [assumption|]. split; [reflexivity|].
      split; [|reflexivity]. rewrite link_array'. now destruct (decide _).
    + destruct (inv_edge _ _ HI _ _ _ H) as (p0 & np0 & nt0 & Hp0 & Hnp0 & Hv0 & -> & Hnt0 & Hc0).
      exists p0, np0, nt0. split; [now apply link_T'_old|].
      split; [now rewrite (link_array'_old _ _ Hp0)|].
      split; [assumption|]. split; [reflexivity|].
      split; [|assumption]. now rewrite (link_array'_old _ _ H).
  - intros x nx Hx Hcx. rewrite link_array' in Hx.
    destruct (decide _) as [->|N].
    + exists (ks ++ [c]). unfold T', T_add. now destruct (decide _).
    + destruct (inv_occ _ _ HI _ _ Hx Hcx) as [ks' Hks'].
      exists ks'. now apply link_T'_old.
  - intros x nx Hx0 Hx Hcx. rewrite link_array' in Hx.
    destruct (decide _) as [->|N].
    { injection Hx as <-. cbn in Hcx. apply at_Some_range in Hnp. lia. }
    pose proof (inv_free_info _ _ HI _ _ Hx0 Hx Hcx) as Hix.
    destruct (HfF _ _ Hix) as (i' & Hi' & E & C & S).
    unfold da'. cbn [set_info info]. rewrite Hi'. f_equal. apply info_eta.
    + rewrite S; [reflexivity|]. intros Hs. apply slots_cons in Hs.
      destruct Hs as [|(e & He & ->)]; [contradiction|].
      destruct (ring_child_slot _ _ _ _ _ _ _ HI Hp Hl Hnp He) as (_ & nt' & Hnt' & Hcn').
      rewrite Hx in Hnt'. injection Hnt' as <-.
      apply at_Some_range in Hnp. lia.
    + rewrite C; [reflexivity|]. intros <-.
      rewrite Hx in Hnp. injection Hnp as <-.
      destruct (inv_placed _ _ HI _ _ Hp) as (n & Hn & [[_ E0]|(_ & _ & Hcn)]).
      * contradiction.
      * rewrite Hx in Hn. injection Hn as <-. lia.
    + rewrite E. reflexivity.
  - intros ks' x nx H Hx Hvx. apply link_T'_inv in H. destruct H as [[-> ->]|[N H]].
    + rewrite link_array' in Hx. destruct (decide _); [|contradiction].
      injection Hx as <-. cbn in Hvx. unfold valueLimit in Hvx. lia.
    + rewrite (link_array'_old _ _ H) in Hx.
      unfold da'. cbn [set_info set_array array]. rewrite length_insert.
      eapply (inv_base _ _ HI); eassumption.
  - intros ks' x H. apply link_T'_inv in H. destruct H as [[-> ->]|[N H]].
    + exists []. split.
      * constructor.
      * intros d. split; [intros Hd; inversion Hd|]. intros [y Hy].
        apply link_T'_inv in Hy. destruct Hy as [[E _]|[_ Hy]].
        { apply app_inj_tail in E. destruct E as [E _].
          exfalso. symmetry in E. eapply snoc_neq_self; eassumption. }
        destruct (inv_edge _ _ HI _ _ _ Hy) as (p0 & _ & _ & Hp0 & _).
        rewrite link_new_None in Hp0. discriminate.
      * pose proof (inv_free_info _ _ HI _ _ Ht0 Hnf Hcf) as Hit.
        destruct (HfF _ _ Hit) as (i' & Hi' & _ & C & _).
        exists i'. split; [exact Hi'|]. rewrite C; [reflexivity|].
        intros E. exact (link_p_neq_t E).
      * intros; exact I.
    + destruct (decide (ks' = ks)) as [->|Nks].
      * assert (x = p) by congruence. subst x.
        exists (ins c l). split.
        -- apply ins_ascending; [apply (ring_sorted _ _ _ _ _ Hl)|assumption].
        -- intros d. rewrite ins_elem. unfold T', T_add.
           destruct (decide (ks ++ [d] = ks ++ [c])) as [E|NE].
           ++ apply app_inj_tail in E. destruct E as [_ ->].
              split; [eauto|auto].
           ++ rewrite <- (ring_dom _ _ _ _ _ Hl). split; [|auto].
              intros [->|Hd]; [congruence|assumption].
        -- exact Hp'.
        -- intros n Hn. rewrite (link_array'_old _ _ Hp) in Hn.
           rewrite Hnp in Hn. injection Hn as <-. exact Hch'.
      * destruct (inv_ring _ _ HI _ _ H) as [l' Hl'].
        assert (Nx : x <> p).
        { intros ->. apply Nks. eapply (inv_inj _ _ HI); eassumption. }
        exists l'. eapply ring_frame; [exact Hl'| | |].
        -- intros d. now apply link_child_dom.
        -- intros i Hi. destruct (HfF _ _ Hi) as (i' & Hi' & _ & C & _).
           exists i'. split; [exact Hi'|]. apply C. congruence.
        -- intros n' Hn'. rewrite (link_array'_old _ _ H) in Hn'.
           exists n'. split; [assumption|]. intros d i Hd Hi.
           destruct (HfF _ _ Hi) as (i' & Hi' & _ & _ & S).
           exists i'. split; [exact Hi'|]. apply S.
           eapply link_other_slot; eassumption.
Qed.

End Link.

(** ** Writing the value of a childless node *)

Section SetValue.
Context (da : Cedar) (T : placement) (HI : Inv da T).
Context (ks : list byte) (p : Z) (np : node) (v : Z).
Context (Hp : T ks = Some p) (Hnp : at_ (array da) p = Some np).
Context (Hl : ring da T ks p []).
Context (Hroot : p = 0 -> v < 0).
Context (Hbase : v < 0 -> - (v + 1) < Z.of_nat (length (array da))).

Let da' := set_array da (<[Z.to_nat p := mkNode v (Check np)]> (array da)).

Lemma setValue_array' (j : Z) :
  at_ (array da') j = if decide (j = p) then Some (mkNode v (Check np))
                      else at_ (array da) j.
Proof. unfold da'. cbn [set_array array]. apply (at_upd _ _ _ _ _ Hnp). Qed.

Lemma setValue_check (j : Z) (n' : node) :
  at_ (array da') j = Some n' ->
  exists n, at_ (array da) j = Some n /\ Check n' = Check n /\
            (j <> p -> n' = n).
Proof.
  rewrite setValue_array'. destruct (decide _) as [->|N]; intros H.
  - injection H as <-. exists np. cbn. split; [assumption|]. split; [reflexivity|]. intros N; contradiction.
  - exists n'. auto.
Qed.

Lemma setValue_no_child (c : byte) : T (ks ++ [c]) = None.
Proof.
  destruct (T (ks ++ [c])) eqn:E; [|reflexivity]. exfalso.
  assert (H : c ∈ []) by (apply (ring_dom _ _ _ _ _ Hl); rewrite E; eauto).
  inversion H.
Qed.

Lemma Inv_setValue_childless : Inv da' T.
Proof.
  split.
  - unfold da'. cbn [set_array array info]. rewrite length_insert. apply (inv_len _ _ HI).
  - unfold da'. cbn [set_array array info]. rewrite length_insert. apply (inv_blocks _ _ HI).
  - apply (inv_root _ _ HI).
  - destruct (inv_root_node _ _ HI) as (n & Hn & Hvn & Hcn).
    rewrite setValue_array'. destruct (decide _) as [E|_].
    + subst p. rewrite Hn in Hnp. injection Hnp as <-.
      eexists. split; [reflexivity|]. cbn. auto.
    + eauto.
  - apply (inv_inj _ _ HI).
  - intros ks' c x H.
    destruct (inv_edge _ _ HI _ _ _ H) as (p0 & np0 & nt0 & Hp0 & Hnp0 & Hv0 & -> & Hnt0 & Hc0).
    assert (N : p0 <> p).
    { intros ->. assert (ks' = ks) by (eapply (inv_inj _ _ HI); eassumption). subst ks'.
      rewrite setValue_no_child in H. discriminate. }
    exists p0, np0. rewrite !setValue_array'.
    destruct (decide (p0 = p)); [contradiction|].
    destruct (decide (_ = p)) as [E|_].
    + eexists. repeat split; try eassumption; try reflexivity.
      cbn. rewrite E in Hnt0. congruence.
    + exists nt0. auto 10.
  - intros x nx Hx Hcx. apply setValue_check in Hx.
    destruct Hx as (n & Hn & E & _). rewrite E in Hcx.
    eapply (inv_occ _ _ HI); eassumption.
  - intros x nx Hx0 Hx Hcx. apply setValue_check in Hx.
    destruct Hx as (n & Hn & E & _). rewrite E in Hcx.
    unfold da'. cbn [set_array info]. eapply (inv_free_info _ _ HI); eassumption.
  - intros ks' x nx H Hx Hvx. unfold da'. cbn [set_array array].
    rewrite length_insert. rewrite setValue_array' in Hx.
    destruct (decide _) as [->|N].
    + injection Hx as <-. cbn in *. unfold base. cbn. auto.
    + eapply (inv_base _ _ HI); eassumption.
  - intros ks' x H. destruct (inv_ring _ _ HI _ _ H) as [l' Hl']. exists l'.
    eapply ring_frame; [exact Hl'|reflexivity| |].
    + intros i Hi. exists i. auto.
    + intros n' Hn'. rewrite setValue_array' in Hn'.
      destruct (decide _) as [->|N].
      * assert (ks' = ks) by (eapply (inv_inj _ _ HI); eassumption). subst ks'.
        exists np. split; [assumption|]. intros c i Hc.
        apply (ring_dom _ _ _ _ _ Hl') in Hc. rewrite setValue_no_child in Hc.
        destruct Hc; discriminate.
      * exists n'. split; [assumption|]. intros c i _ Hi. exists i. auto.
Qed.

Lemma ring_setValue_childless : ring da' T ks p [].
Proof.
  split.
  - constructor.
  - apply (ring_dom _ _ _ _ _ Hl).
  - apply (ring_child _ _ _ _ _ Hl).
  - intros; exact I.
Qed.

End SetValue.

(** ** Relocation: the renaming *)

Lemma tau_old (ob nb : Z) (D : list byte) (c : byte) :
  c ∈ D -> tau ob nb D (Z.lxor ob (ord c)) = Z.lxor nb (ord c).
Proof.
  intros Hc. unfold tau. rewrite chr_lxor.
  destruct (decide _) as [_|N]; [reflexivity|]. exfalso. apply N. auto.
Qed.

Lemma tau_id (ob nb : Z) (D : list byte) (x : Z) :
  ~ slots ob D x -> tau ob nb D x = x.
Proof.
  intros Hn. unfold tau. destruct (decide _) as [[Hc E]|_]; [|reflexivity].
  exfalso. apply Hn. exists (chr (Z.lxor x ob)). auto.
Qed.

Lemma tau_cases (ob nb : Z) (D : list byte) (x : Z) :
  (~ slots ob D x /\ tau ob nb D x = x) \/
  (exists c, c ∈ D /\ x = Z.lxor ob (ord c) /\ tau ob nb D x = Z.lxor nb (ord c)).
Proof.
  unfold tau. destruct (decide _) as [[Hc E]|N].
  - right. eauto.
  - left. split; [|reflexivity]. intros (c & Hc & ->). apply N.
    rewrite chr_lxor. auto.
Qed.

Lemma tau_neg (ob nb : Z) (D : list byte) (x : Z) :
  0 <= ob -> x < 0 -> tau ob nb D x = x.
Proof.
  intros Hob Hx. apply tau_id. intros (c & _ & ->).
  pose proof (ord_range c). pose proof (Z.lxor_nonneg ob (ord c)). lia.
Qed.

Lemma tau_nil (ob nb : Z) (x : Z) : tau ob nb [] x = x.
Proof. apply tau_id. intros (c & Hc & _). inversion Hc. Qed.

(** ** Relocation: the checks of the grandchildren *)

Lemma redirect_spec (b new : Z) (gcs : list byte) :
  forall da,
    (forall d, d ∈ gcs -> is_Some (at_ (array da) (Z.lxor b (ord d)))) ->
    exists a',
      redirect da b gcs new = Ret (set_array da a') /\
      length a' = length (array da) /\
      (forall j, ~ slots b gcs j -> at_ a' j = at_ (array da) j) /\
      (forall d n, d ∈ gcs -> at_ (array da) (Z.lxor b (ord d)) = Some n ->
         at_ a' (Z.lxor b (ord d)) = Some (mkNode (Value n) new)).
Proof.
  induction gcs as [|g gcs IH]; intros da Hin.
  - exists (array da). cbn [redirect]. split; [now destruct da|].
    split; [reflexivity|]. split; [reflexivity|]. intros d n Hd. inversion Hd.
  - destruct (Hin g ltac:(left)) as [ng Hng].
    cbn [redirect]. rewrite (setCheck_Ret _ _ _ _ Hng). cbn [bind].
    set (a1 := <[Z.to_nat (Z.lxor b (ord g)) := mkNode (Value ng) new]> (array da)).
    assert (Ha1 : forall j, at_ a1 j = if decide (j = Z.lxor b (ord g))
                                      then Some (mkNode (Value ng) new)
                                      else at_ (array da) j).
    { intros j. apply (at_upd _ _ _ _ _ Hng). }
    destruct (IH (set_array da a1)) as (a' & Hr & HL & Hrest & Hg).
    { intros d Hd. cbn [set_array array]. rewrite Ha1.
      destruct (decide _); [eauto|]. apply Hin. now right. }
    exists a'. split; [rewrite Hr; reflexivity|].
    split; [rewrite HL; apply length_insert|]. split.
    + intros j Hj. rewrite Hrest.
      * cbn [set_array array]. rewrite Ha1. destruct (decide _) as [->|_]; [|reflexivity].
        exfalso. apply Hj. apply slots_lxor. now left.
      * intros Hs. apply Hj. apply slots_cons. now right.
    + intros d n Hd Hn. destruct (decide (d ∈ gcs)) as [Hdg|Hdg].
      * destruct (decide (Z.lxor b (ord d) = Z.lxor b (ord g))) as [E|N].
        -- rewrite E, Hng in Hn. injection Hn as <-.
           rewrite (Hg d (mkNode (Value ng) new) Hdg); [reflexivity|].
           cbn [set_array array]. rewrite Ha1. now destruct (decide _).
        -- apply Hg; [assumption|]. cbn [set_array array]. rewrite Ha1.
           now destruct (decide _).
      * apply elem_of_cons in Hd. destruct Hd as [->|Hd]; [|contradiction].
        rewrite Hrest.
        -- cbn [set_array array]. rewrite Ha1. destruct (decide _); [|contradiction].
           rewrite Hng in Hn. injection Hn as <-. reflexivity.
        -- intros Hs. apply slots_lxor in Hs. contradiction.
Qed.

(** [children] from what it reads. *)
Lemma children_low (da : Cedar) (p : Z) (n : node) (i : ninfo) (l : list byte) :
  at_ (array da) p = Some n -> at_ (info da) p = Some i ->
  Child i = hd NUL l -> chain (info da) (base n) l -> ascending l ->
  (l = [] -> forall nc, 0 <= base n ->
     at_ (array da) (Z.lxor (base n) (ord (Child i))) = Some nc -> Check nc <> p) ->
  (l <> [] -> 0 <= base n /\
     exists nc, at_ (array da) (Z.lxor (base n) (ord (Child i))) = Some nc /\
                Check nc = p) ->
  children da p = Ret l.
Proof.
  intros Hn Hi Hc Hch Hasc Hnil Hcons.
  unfold children, hasChild, rd. rewrite Hn, Hi. cbn [bind].
  destruct l as [|c0 l0].
  - destruct (Z.ltb_spec (base n) 0) as [Hb|Hb]; [reflexivity|].
    destruct (at_ (array da) (Z.lxor (base n) (ord (Child i)))) as [nc|] eqn:Hnc;
      [|reflexivity].
    cbn [bind]. specialize (Hnil eq_refl nc Hb eq_refl).
    apply Z.eqb_neq in Hnil. rewrite Hnil. reflexivity.
  - destruct (Hcons ltac:(discriminate)) as (Hb & nc & Hnc & Hcn).
    destruct (Z.ltb_spec (base n) 0) as [?|_]; [lia|].
    rewrite Hnc. cbn [bind]. rewrite Hcn, Z.eqb_refl.
    cbn [bind hd] in *. rewrite Hc.
    apply ring_from_spec; [assumption|assumption|].
    now apply ascending_length_256.
Qed.

(** ** Relocation: moving the children *)

Lemma node_eta (n : node) (v c : Z) : Value n = v -> Check n = c -> n = mkNode v c.
Proof. destruct n. cbn. congruence. Qed.

Lemma tau_ext (ob nb : Z) (D D' : list byte) (x : Z) :
  (forall d, d ∈ D <-> d ∈ D') -> tau ob nb D x = tau ob nb D' x.
Proof.
  intros H. unfold tau. destruct (decide _) as [[H1 H2]|N1], (decide _) as [[H3 H4]|N2];
    try reflexivity.
  - exfalso. apply N2. split; [now apply H|assumption].
  - exfalso. apply N1. split; [now apply H|assumption].
Qed.

Lemma tau_cons_ne (ob nb : Z) (c : byte) (D : list byte) (x : Z) :
  x <> Z.lxor ob (ord c) -> tau ob nb (c :: D) x = tau ob nb D x.
Proof.
  intros Hne. unfold tau.
  destruct (decide _) as [[H1 H2]|N1], (decide _) as [[H3 H4]|N2]; try reflexivity.
  - exfalso. apply elem_of_cons in H1. destruct H1 as [E|H1].
    + rewrite E in H2. contradiction.
    + apply N2. auto.
  - exfalso. apply N1. split; [now right|assumption].
Qed.

Lemma slots_mono (b : Z) (D D' : list byte) (j : Z) :
  (forall d, d ∈ D -> d ∈ D') -> slots b D j -> slots b D' j.
Proof. intros H (d & Hd & ->). exists d. auto. Qed.

Lemma slots_em (b : Z) (D : list byte) (j : Z) : slots b D j \/ ~ slots b D j.
Proof.
  destruct (decide (chr (Z.lxor j b) ∈ D /\ j = Z.lxor b (ord (chr (Z.lxor j b)))))
    as [[H1 H2]|N].
  - left. eexists. eauto.
  - right. intros (d & Hd & ->). apply N. rewrite chr_lxor. auto.
Qed.

Lemma moved_ext (da da' : Cedar) (p ob nb : Z) (D D' : list byte) :
  (forall d, d ∈ D <-> d ∈ D') -> moved da da' p ob nb D -> moved da da' p ob nb D'.
Proof.
  intros H [L1 L2 V1 V2 Hn Ho Hr]. split; try assumption.
  - intros c Hc. apply Hn. now apply H.
  - intros c Hc. apply Ho. now apply H.
  - intros j H1 H2. destruct (Hr j) as [Hi Ha].
    + intros Hs. apply H1. eapply slots_mono; [|exact Hs]. intros d. apply H.
    + intros Hs. apply H2. eapply slots_mono; [|exact Hs]. intros d. apply H.
    + split; [assumption|]. intros n Hn'. rewrite (Ha _ Hn').
      now rewrite (tau_ext ob nb D D' _ H).
Qed.

Lemma moved_nil (da : Cedar) (p ob nb : Z) : moved da da p ob nb [].
Proof.
  split; try reflexivity.
  - intros c Hc. inversion Hc.
  - intros c Hc. inversion Hc.
  - intros j _ _. split; [reflexivity|]. intros n Hn. rewrite Hn. f_equal.
    rewrite tau_nil. now destruct n.
Qed.

Lemma leafv_Some_T (da : Cedar) (T : placement) (ks : list byte) (x : Z) (n : node) :
  T ks = Some x -> at_ (array da) x = Some n ->
  leafv da T ks = if decide (0 <= Value n) then Some (Value n) else None.
Proof. intros H1 H2. unfold leafv. now rewrite H1, H2. Qed.

Lemma leafv_None_T (da : Cedar) (T : placement) (ks : list byte) :
  T ks = None -> leafv da T ks = None.
Proof. intros H. unfold leafv. now rewrite H. Qed.

Section Relocate.
Context (da0 : Cedar) (T : placement) (HI : Inv da0 T).
Context (ks : list byte) (p : Z) (np : node) (l : list byte) (nb : Z).
Context (Hp : T ks = Some p) (Hnp : at_ (array da0) p = Some np).
Context (Hv : Value np < 0) (Hl : ring da0 T ks p l).
Context (Hfit : forall c, c ∈ l -> is_free (array da0) (Z.lxor nb (ord c)) = true).

Let ob := base np.

Lemma rel_child (c : byte) :
  c ∈ l ->
  T (ks ++ [c]) = Some (Z.lxor ob (ord c)) /\
  exists n, at_ (array da0) (Z.lxor ob (ord c)) = Some n /\ Check n = p.
Proof. intros Hc. eapply ring_child_slot; eassumption. Qed.

Lemma rel_new_unplaced (ks' : list byte) (x : Z) :
  T ks' = Some x -> ~ slots nb l x.
Proof.
  intros Hx (c & Hc & ->). apply Hfit in Hc. apply is_free_true in Hc.
  destruct Hc as (H0 & nf & Hnf & Hcf).
  destruct (inv_placed _ _ HI _ _ Hx) as (n & Hn & [[_ E]|(_ & _ & Hcn)]).
  - contradiction.
  - rewrite Hnf in Hn. injection Hn as <-. lia.
Qed.

Lemma rel_old_path (ks' : list byte) (x : Z) :
  T ks' = Some x -> slots ob l x -> exists c, c ∈ l /\ ks' = ks ++ [c].
Proof.
  intros Hx (c & Hc & ->). exists c. split; [assumption|].
  destruct (rel_child c Hc) as [Hpl _].
  eapply (inv_inj _ _ HI); eassumption.
Qed.

Lemma rel_p_not_old : ~ slots ob l p.
Proof.
  intros Hs. destruct (rel_old_path _ _ Hp Hs) as (c & _ & E).
  eapply snoc_neq_self; eassumption.
Qed.

Lemma rel_p_not_new : ~ slots nb l p.
Proof. eapply rel_new_unplaced; eassumption. Qed.

Lemma rel_occupied_not_new (j : Z) (n : node) :
  at_ (array da0) j = Some n -> 0 <= Check n -> ~ slots nb l j.
Proof.
  intros Hn Hc. destruct (inv_occ _ _ HI _ _ Hn Hc) as [ks' Hks'].
  eapply rel_new_unplaced; eassumption.
Qed.

(** The slots whose check names [x] are the slots of the ring of [x]. *)
Lemma rel_children_of (ksx : list byte) (x : Z) (nx : node) (lx : list byte)
    (j : Z) (n : node) :
  T ksx = Some x -> at_ (array da0) x = Some nx -> ring da0 T ksx x lx ->
  at_ (array da0) j = Some n -> Check n = x -> slots (base nx) lx j.
Proof.
  intros Hx Hnx Hlx Hn Hc.
  assert (H0 : 0 <= Check n) by (rewrite Hc; apply at_Some_range in Hnx; lia).
  destruct (inv_occ _ _ HI _ _ Hn H0) as [ks' Hks'].
  destruct (snoc_cases ks') as [->|(ks'' & d & ->)].
  - rewrite (inv_root _ _ HI) in Hks'. injection Hks' as <-.
    destruct (inv_root_node _ _ HI) as (n0 & Hn0 & _ & Hc0).
    rewrite Hn0 in Hn. injection Hn as <-. lia.
  - destruct (inv_edge _ _ HI _ _ _ Hks') as (p' & np' & nt & Hp' & Hnp' & _ & E & Hnt & Hc').
    rewrite Hn in Hnt. injection Hnt as <-. rewrite Hc in Hc'. subst p'.
    assert (ks'' = ksx) by (eapply (inv_inj _ _ HI); eassumption). subst ks''.
    rewrite Hnx in Hnp'. injection Hnp' as <-.
    exists d. split; [|assumption]. apply (ring_dom _ _ _ _ _ Hlx). rewrite Hks'. eauto.
Qed.

Lemma move_child_step (da : Cedar) (D : list byte) (c : byte) :
  moved da0 da p ob nb D -> (forall d, d ∈ D -> d ∈ l) -> c ∈ l -> c ∉ D ->
  exists da', move_child da p ob nb c = Ret da' /\ moved da0 da' p ob nb (c :: D).
Proof.
  intros HM HD Hc HcD.
  destruct (rel_child c Hc) as (Hold & n_old & Hn_old & Hc_old).
  destruct (inv_info_Some _ _ HI _ _ Hn_old) as [i_old Hi_old].
  destruct (inv_ring _ _ HI _ _ Hold) as [l_old Hl_old].
  pose proof (Hfit c Hc) as Hfree. apply is_free_true in Hfree.
  destruct Hfree as (Hnew0 & nf & Hnf & Hcf).
  destruct (inv_info_Some _ _ HI _ _ Hnf) as [i_f Hi_f].
  set (old := Z.lxor ob (ord c)) in *. set (new := Z.lxor nb (ord c)) in *.
  assert (HnD : forall j, slots nb D j -> slots nb l j)
    by (intros j; apply slots_mono; exact HD).
  assert (HoD : forall j, slots ob D j -> slots ob l j)
    by (intros j; apply slots_mono; exact HD).
  assert (Hplaced_nn : forall ks' x, T ks' = Some x -> ~ slots nb D x).
  { intros ks' x Hx Hs. eapply rel_new_unplaced; [exact Hx|apply HnD, Hs]. }
  assert (Hold_no : ~ slots ob D old).
  { intros Hs. apply slots_lxor in Hs. contradiction. }
  assert (Hp_no : ~ slots ob D p) by (intros Hs; apply rel_p_not_old, HoD, Hs).
  assert (Hp_old : p <> old).
  { intros E. apply rel_p_not_old. rewrite E. apply slots_lxor. exact Hc. }
  assert (Hnew_old : new <> old).
  { intros E. eapply rel_new_unplaced; [exact Hold|]. rewrite <- E. apply slots_lxor. exact Hc. }
  assert (Hnew_nn : ~ slots nb D new).
  { intros Hs. apply slots_lxor in Hs. contradiction. }
  assert (Hnew_no : ~ slots ob D new).
  { intros Hs. apply HoD in Hs. destruct Hs as (e & He & E).
    destruct (rel_child e He) as (Hpe & _). rewrite <- E in Hpe.
    eapply rel_new_unplaced; [exact Hpe|]. apply slots_lxor. exact Hc. }
  (* the node that moves, as the current arrays have it *)
  destruct (mv_rest _ _ _ _ _ _ HM old (Hplaced_nn _ _ Hold) Hold_no) as [Hi_old' Ha_old'].
  specialize (Ha_old' _ Hn_old). rewrite Hc_old, (tau_id _ _ _ _ Hp_no) in Ha_old'.
  assert (Hn_old' : at_ (array da) old = Some n_old).
  { rewrite Ha_old'. f_equal. symmetry. now apply node_eta. }
  rewrite Hi_old in Hi_old'.
  (* its children *)
  assert (Hgc : forall d, d ∈ l_old ->
            exists ng, at_ (array da0) (Z.lxor (base n_old) (ord d)) = Some ng /\
                       Check ng = old /\
                       at_ (array da) (Z.lxor (base n_old) (ord d)) = Some (mkNode (Value ng) old) /\
                       at_ (info da) (Z.lxor (base n_old) (ord d))
                       = at_ (info da0) (Z.lxor (base n_old) (ord d)) /\
                       Z.lxor (base n_old) (ord d) <> new /\
                       Z.lxor (base n_old) (ord d) <> old).
  { intros d Hd.
    destruct (ring_child_slot _ _ _ _ _ _ _ HI Hold Hl_old Hn_old Hd) as (Hg & ng & Hng & Hcg).
    assert (G1 : ~ slots ob D (Z.lxor (base n_old) (ord d))).
    { intros Hs. apply HoD in Hs. destruct (rel_old_path _ _ Hg Hs) as (e & _ & E).
      apply app_inj_tail in E. destruct E as [E _].
      symmetry in E. eapply snoc_neq_self; exact E. }
    destruct (mv_rest _ _ _ _ _ _ HM _ (Hplaced_nn _ _ Hg) G1) as [Hig Hag].
    specialize (Hag _ Hng). rewrite Hcg, (tau_id _ _ _ _ Hold_no) in Hag.
    exists ng. split; [assumption|]. split; [assumption|]. split; [assumption|].
    split; [assumption|]. split.
    - intros E. eapply rel_new_unplaced; [exact Hg|]. rewrite E. apply slots_lxor. exact Hc.
    - intros E. rewrite E in Hng. rewrite Hn_old in Hng. injection Hng as <-.
      rewrite Hc_old in Hcg. contradiction. }
  assert (Hch : children da old = Ret l_old).
  { destruct (ring_child _ _ _ _ _ Hl_old) as (i0 & Hi0 & HC0).
    rewrite Hi_old in Hi0. injection Hi0 as <-.
    eapply children_low; [exact Hn_old'|exact Hi_old'|exact HC0| |apply (ring_sorted _ _ _ _ _ Hl_old)| |].
    - eapply chain_frame; [apply (ring_chain _ _ _ _ _ Hl_old _ Hn_old)|].
      intros d i Hd Hi. destruct (Hgc d Hd) as (ng & _ & _ & _ & Hig & _).
      exists i. split; [congruence|reflexivity].
    - intros -> nc Hb Hnc Hcn.
      set (j := Z.lxor (base n_old) (ord (Child i_old))) in *.
      destruct (slots_em nb D j) as [Hs|Hns].
      { destruct Hs as (e & He & E). destruct (mv_new _ _ _ _ _ _ HM e He) as (ne & _ & Hne & _).
        rewrite <- E, Hnc in Hne. injection Hne as ->. cbn in Hcn. contradiction. }
      destruct (slots_em ob D j) as [Hs|Hno].
      { destruct Hs as (e & He & E). destruct (mv_old _ _ _ _ _ _ HM e He) as (Hfe & _).
        rewrite <- E, Hnc in Hfe. injection Hfe as ->. cbn in Hcn.
        apply at_Some_range in Hn_old. lia. }
      assert (Hj0 : is_Some (at_ (array da0) j)).
      { apply at_is_Some. rewrite <- (mv_len_a _ _ _ _ _ _ HM).
        eapply at_Some_range; exact Hnc. }
      destruct Hj0 as [n0 Hn0].
      destruct (mv_rest _ _ _ _ _ _ HM j Hns Hno) as [_ Ha]. specialize (Ha _ Hn0).
      rewrite Hnc in Ha. injection Ha as ->. cbn in Hcn.
      destruct (tau_cases ob nb D (Check n0)) as [[_ E]|(e & He & _ & E)].
      + rewrite E in Hcn.
        eapply (ring_not_child _ _ _ _ _ _ _ (Child i_old) HI Hold Hl_old Hn_old);
          [apply not_elem_of_nil|exact Hn0|exact Hcn].
      + rewrite E in Hcn. eapply (Hplaced_nn _ _ Hold). rewrite <- Hcn.
        apply slots_lxor. exact He.
    - intros Hne. split.
      + pose proof (ring_internal _ _ _ _ _ _ HI Hold Hl_old Hn_old Hne). unfold base. lia.
      + destruct l_old as [|c0 l1]; [contradiction|]. cbn [hd] in HC0. rewrite HC0.
        destruct (Hgc c0 ltac:(left)) as (ng & _ & _ & Hag & _). eauto. }
  (* the run *)
  assert (Hnew_i : is_Some (at_ (array da) new)).
  { apply at_is_Some. rewrite (mv_len_a _ _ _ _ _ _ HM). eapply at_Some_range; exact Hnf. }
  destruct Hnew_i as [nn Hnn].
  assert (Hnew_ii : is_Some (at_ (info da) new)).
  { apply at_is_Some. rewrite (mv_len_i _ _ _ _ _ _ HM). eapply at_Some_range; exact Hi_f. }
  destruct Hnew_ii as [ii Hii].
  set (a1 := <[Z.to_nat new := mkNode (Value n_old) p]> (array da)).
  set (inf1 := <[Z.to_nat new := i_old]> (info da)).
  assert (Ha1 : forall j, at_ a1 j = if decide (j = new) then Some (mkNode (Value n_old) p)
                                    else at_ (array da) j).
  { intros j. apply (at_upd _ _ _ _ _ Hnn). }
  assert (Hinf1 : forall j, at_ inf1 j = if decide (j = new) then Some i_old
                                        else at_ (info da) j).
  { intros j. apply (at_upd _ _ _ _ _ Hii). }
  destruct (redirect_spec (base n_old) new l_old (set_info (set_array da a1) inf1))
    as (a2 & Hr & HL2 & Hrest2 & Hg2).
  { intros d Hd. cbn [set_info set_array array]. rewrite Ha1.
    destruct (decide _); [eauto|]. destruct (Hgc d Hd) as (ng & _ & _ & Hag & _). eauto. }
  cbn [set_info set_array array] in HL2, Hrest2, Hg2.
  assert (Hold2 : is_Some (at_ a2 old)).
  { apply at_is_Some. rewrite HL2. unfold a1. rewrite length_insert.
    eapply at_Some_range; exact Hn_old'. }
  destruct Hold2 as [no2 Hno2].
  assert (Holdi : at_ inf1 old = Some i_old).
  { rewrite Hinf1. destruct (decide _) as [E|_]; [|exact Hi_old'].
    symmetry in E. contradiction. }
  eexists. split.
  { unfold move_child. fold old new. unfold rd. rewrite Hn_old', Hi_old'. cbn [bind].
    rewrite Hch. cbn [bind]. rewrite (wr_Ret _ _ _ _ Hnn), (wr_Ret _ _ _ _ Hii). cbn [bind].
    fold a1 inf1. rewrite Hr. cbn [bind]. unfold pushEnode.
    cbn [set_info set_array array info].
    rewrite (wr_Ret _ _ _ _ Hno2), (wr_Ret _ _ _ _ Holdi). cbn [bind]. reflexivity. }
  cbn [set_info set_array array info vals vkey].
  assert (A : forall j, at_ (<[Z.to_nat old := free_node]> a2) j
              = if decide (j = old) then Some free_node else at_ a2 j).
  { intros j. apply (at_upd _ _ _ _ _ Hno2). }
  assert (B : forall j, at_ (<[Z.to_nat old := empty_info]> inf1) j
              = if decide (j = old) then Some empty_info
                else if decide (j = new) then Some i_old else at_ (info da) j).
  { intros j. rewrite (at_upd _ _ _ _ _ Holdi). destruct (decide _); [reflexivity|apply Hinf1]. }
  assert (Hgc_slots : forall j, slots (base n_old) l_old j -> j <> new /\ j <> old).
  { intros j (d & Hd & ->). destruct (Hgc d Hd) as (_ & _ & _ & _ & _ & H1 & H2). auto. }
  split; cbn [set_info set_array array info vals vkey].
  - rewrite !length_insert, HL2. unfold a1. rewrite length_insert. apply (mv_len_a _ _ _ _ _ _ HM).
  - rewrite !length_insert. unfold inf1. rewrite length_insert. apply (mv_len_i _ _ _ _ _ _ HM).
  - apply (mv_vals _ _ _ _ _ _ HM).
  - apply (mv_vkey _ _ _ _ _ _ HM).
  - (* the slots that hold moved children *)
    intros e He. apply elem_of_cons in He. destruct He as [->|He].
    + exists n_old. split; [exact Hn_old|]. fold new old. rewrite A, B.
      destruct (decide (new = old)); [contradiction|].
      destruct (decide (new = new)); [|contradiction].
      split; [|now rewrite Hi_old]. rewrite Hrest2.
      * rewrite Ha1. now destruct (decide _).
      * intros Hs. apply Hgc_slots in Hs. tauto.
    + destruct (mv_new _ _ _ _ _ _ HM e He) as (ne & Hne0 & Hne & Hie).
      exists ne. split; [exact Hne0|].
      assert (E1 : Z.lxor nb (ord e) <> old).
      { intros E. apply (Hplaced_nn _ _ Hold). rewrite <- E. apply slots_lxor. exact He. }
      assert (E2 : Z.lxor nb (ord e) <> new).
      { intros E. apply lxor_inj, ord_inj in E. subst e. contradiction. }
      rewrite A, B. destruct (decide _); [contradiction|]. destruct (decide _); [contradiction|].
      split; [|exact Hie]. rewrite Hrest2.
      * rewrite Ha1. destruct (decide _); [contradiction|]. exact Hne.
      * intros (d & Hd & E). destruct (Hgc d Hd) as (ng & Hng & _).
        destruct (ring_child_slot _ _ _ _ _ _ _ HI Hold Hl_old Hn_old Hd) as (Hg & _).
        rewrite <- E in Hg. eapply (Hplaced_nn _ _ Hg). apply slots_lxor. exact He.
  - (* the slots they left *)
    intros e He. apply elem_of_cons in He. destruct He as [->|He].
    + fold old. rewrite A, B. now destruct (decide _).
    + destruct (mv_old _ _ _ _ _ _ HM e He) as (Hfe & Hie).
      assert (E1 : Z.lxor ob (ord e) <> old).
      { intros E. apply lxor_inj, ord_inj in E. subst e. contradiction. }
      assert (E2 : Z.lxor ob (ord e) <> new).
      { intros E. apply Hnew_no. rewrite <- E. apply slots_lxor. exact He. }
      rewrite A, B. destruct (decide _); [contradiction|]. destruct (decide _); [contradiction|].
      split; [|exact Hie]. rewrite Hrest2.
      * rewrite Ha1. destruct (decide _); [contradiction|]. exact Hfe.
      * intros (d & Hd & E).
        destruct (ring_child_slot _ _ _ _ _ _ _ HI Hold Hl_old Hn_old Hd) as (Hg & _).
        rewrite <- E in Hg.
        destruct (rel_old_path _ _ Hg) as (e' & _ & E'); [apply slots_lxor, HD, He|].
        apply app_inj_tail in E'. destruct E' as [E' _].
        symmetry in E'. eapply snoc_neq_self; exact E'.
  - (* every other slot *)
    intros j Hjn Hjo.
    assert (J1 : j <> new) by (intros ->; apply Hjn, slots_lxor; now left).
    assert (J2 : j <> old) by (intros ->; apply Hjo, slots_lxor; now left).
    assert (J3 : ~ slots nb D j) by (intros Hs; apply Hjn, slots_cons; now right).
    assert (J4 : ~ slots ob D j) by (intros Hs; apply Hjo, slots_cons; now right).
    destruct (mv_rest _ _ _ _ _ _ HM j J3 J4) as [Hij Haj].
    rewrite A, B. destruct (decide _); [contradiction|]. destruct (decide _); [contradiction|].
    split; [exact Hij|]. intros nj Hnj. specialize (Haj _ Hnj).
    destruct (decide (Check nj = old)) as [E|NE].
    + pose proof (rel_children_of _ _ _ _ _ _ Hold Hn_old Hl_old Hnj E) as (d & Hd & ->).
      destruct (Hgc d Hd) as (ng & Hng & _ & Hag & _).
      rewrite Hnj in Hng. injection Hng as <-.
      rewrite (Hg2 d (mkNode (Value nj) old) Hd).
      * cbn. rewrite E. fold old. f_equal. f_equal. symmetry. apply tau_old. now left.
      * rewrite Ha1. destruct (decide _); [contradiction|]. exact Hag.
    + rewrite Hrest2.
      * rewrite Ha1. destruct (decide _); [contradiction|].
        rewrite Haj. f_equal. f_equal. symmetry. now apply tau_cons_ne.
      * intros (d & Hd & ->). destruct (Hgc d Hd) as (ng & Hng & Hcg & _).
        rewrite Hnj in Hng. injection Hng as <-. contradiction.
Qed.

Lemma move_children_spec (cs : list byte) :
  forall da D,
    moved da0 da p ob nb D -> (forall d, d ∈ D -> d ∈ l) ->
    (forall c, c ∈ cs -> c ∈ l) -> NoDup cs -> (forall c, c ∈ cs -> c ∉ D) ->
    exists da', move_children da p ob nb cs = Ret da' /\
                moved da0 da' p ob nb (rev cs ++ D).
Proof.
  induction cs as [|c cs IH]; intros da D HM HD Hcs Hnd Hdis.
  - exists da. split; [reflexivity|exact HM].
  - apply NoDup_cons in Hnd. destruct Hnd as [Hc Hnd].
    destruct (move_child_step da D c HM HD) as (da1 & Hr1 & HM1).
    { apply Hcs. now left. }
    { apply Hdis. now left. }
    destruct (IH da1 (c :: D) HM1) as (da' & Hr & HM').
    { intros d Hd. apply elem_of_cons in Hd. destruct Hd as [->|Hd]; [|auto].
      apply Hcs. now left. }
    { intros d Hd. apply Hcs. now right. }
    { assumption. }
    { intros d Hd Hin. apply elem_of_cons in Hin. destruct Hin as [->|Hin].
      - contradiction.
      - revert Hin. apply Hdis. now right. }
    exists da'. split.
    + cbn [move_children]. rewrite Hr1. cbn [bind]. exact Hr.
    + cbn [rev]. rewrite <- app_assoc. exact HM'.
Qed.

Lemma rel_check_p_not_old : ~ slots ob l (Check np).
Proof.
  intros (c & Hc & E). destruct (rel_child c Hc) as (Hpc & _). rewrite <- E in Hpc.
  destruct (snoc_cases ks) as [Hks|(ks' & d & Hks)].
  - subst ks. rewrite (inv_root _ _ HI) in Hp. injection Hp as <-.
    destruct (inv_root_node _ _ HI) as (n0 & Hn0 & _ & Hc0).
    rewrite Hn0 in Hnp. injection Hnp as <-.
    destruct (inv_placed _ _ HI _ _ Hpc) as (n & Hn & _).
    apply at_Some_range in Hn. lia.
  - subst ks. destruct (inv_edge _ _ HI _ _ _ Hp) as (p' & _ & nt & Hp' & _ & _ & _ & Hnt & Hcn).
    rewrite Hnp in Hnt. injection Hnt as <-. rewrite Hcn in Hpc.
    assert (E' : (ks' ++ [d]) ++ [c] = ks') by (eapply (inv_inj _ _ HI); eassumption).
    apply (f_equal length) in E'. rewrite !length_app in E'. cbn in E'. lia.
Qed.

Lemma relocate_ret :
  exists dm,
    moved da0 dm p ob nb l /\
    at_ (array dm) p = Some np /\
    relocate da0 p nb
    = Ret (set_array dm (<[Z.to_nat p := mkNode (- nb - 1) (Check np)]> (array dm))).
Proof.
  destruct (move_children_spec l da0 [] (moved_nil _ _ _ _)) as (dm & Hr & HM).
  { intros d Hd. inversion Hd. }
  { auto. }
  { apply ascending_NoDup. apply (ring_sorted _ _ _ _ _ Hl). }
  { intros c _ Hc. inversion Hc. }
  apply (moved_ext _ _ _ _ _ _ l) in HM.
  2:{ intros d. rewrite app_nil_r. rewrite !list_elem_of_In, <- in_rev.
      reflexivity. }
  exists dm. split; [exact HM|].
  destruct (mv_rest _ _ _ _ _ _ HM p rel_p_not_new rel_p_not_old) as [_ Ha].
  specialize (Ha _ Hnp). rewrite (tau_id _ _ _ _ rel_check_p_not_old) in Ha.
  assert (Hpm : at_ (array dm) p = Some np).
  { rewrite Ha. f_equal. symmetry. now apply node_eta. }
  split; [exact Hpm|].
  unfold relocate, rd. rewrite Hnp. cbn [bind].
  rewrite (children_spec _ _ _ _ _ HI Hp Hl). cbn [bind]. fold ob. rewrite Hr. cbn [bind].
  apply (setValue_Ret _ _ _ _ Hpm).
Qed.

Context (Hnb : 0 <= nb < Z.of_nat (length (array da0))).
Context (dm : Cedar) (HM : moved da0 dm p ob nb l).

Let da' := set_array dm (<[Z.to_nat p := mkNode (- nb - 1) (Check np)]> (array dm)).
Let T' := T_move T ob nb l.

Lemma rel_ob_nonneg : 0 <= ob.
Proof. unfold ob, base. lia. Qed.

Lemma rel_tau_nonneg (x : Z) : 0 <= x -> 0 <= tau ob nb l x.
Proof.
  intros Hx. destruct (tau_cases ob nb l x) as [[_ ->]|(c & _ & _ & ->)]; [assumption|].
  pose proof (ord_range c). apply Z.lxor_nonneg. lia.
Qed.

Lemma rel_tau_placed_id (ks' : list byte) (x : Z) :
  T ks' = Some x -> (forall c, ks' <> ks ++ [c]) -> tau ob nb l x = x.
Proof.
  intros Hx Hne. apply tau_id. intros Hs.
  destruct (rel_old_path _ _ Hx Hs) as (c & _ & E). exact (Hne c E).
Qed.

Lemma rel_tau_inj (ks1 ks2 : list byte) (x1 x2 : Z) :
  T ks1 = Some x1 -> T ks2 = Some x2 ->
  tau ob nb l x1 = tau ob nb l x2 -> x1 = x2.
Proof.
  intros H1 H2 E.
  destruct (tau_cases ob nb l x1) as [[_ E1]|(c1 & Hc1 & X1 & E1)],
           (tau_cases ob nb l x2) as [[_ E2]|(c2 & Hc2 & X2 & E2)];
    rewrite E1, E2 in E.
  - assumption.
  - exfalso. eapply rel_new_unplaced; [exact H1|]. rewrite E. apply slots_lxor. exact Hc2.
  - exfalso. eapply rel_new_unplaced; [exact H2|]. rewrite <- E. apply slots_lxor. exact Hc1.
  - apply lxor_inj, ord_inj in E. subst c2. congruence.
Qed.

Lemma rel_tau_root : tau ob nb l 0 = 0.
Proof.
  eapply rel_tau_placed_id; [apply (inv_root _ _ HI)|].
  intros c E. destruct ks; discriminate.
Qed.

Lemma rel_T' (ks' : list byte) (t : Z) :
  T' ks' = Some t <-> exists x, T ks' = Some x /\ t = tau ob nb l x.
Proof.
  unfold T', T_move. destruct (T ks') as [x|]; cbn; split.
  - intros [= <-]. eauto.
  - intros (y & [= <-] & ->). reflexivity.
  - discriminate.
  - intros (y & H & _). discriminate.
Qed.

Lemma rel_array' (j : Z) :
  at_ (array da') j = if decide (j = p) then Some (mkNode (- nb - 1) (Check np))
                      else at_ (array dm) j.
Proof.
  assert (Hpm : is_Some (at_ (array dm) p)).
  { apply at_is_Some. rewrite (mv_len_a _ _ _ _ _ _ HM). eapply at_Some_range; exact Hnp. }
  destruct Hpm as [x Hx]. unfold da'. cbn [set_array array]. apply (at_upd _ _ _ _ _ Hx).
Qed.

(** A placed node after the relocation. *)
Lemma rel_placed' (ks' : list byte) (x : Z) (n : node) :
  T ks' = Some x -> at_ (array da0) x = Some n ->
  at_ (array da') (tau ob nb l x)
  = Some (mkNode (if decide (x = p) then - nb - 1 else Value n)
                 (tau ob nb l (Check n))) /\
  at_ (info da') (tau ob nb l x) = at_ (info da0) x.
Proof.
  intros Hx Hn. rewrite rel_array'. unfold da'. cbn [set_array info].
  destruct (tau_cases ob nb l x) as [[Hno E]|(c & Hc & X & E)]; rewrite E.
  - destruct (mv_rest _ _ _ _ _ _ HM x (rel_new_unplaced _ _ Hx) Hno) as [Hi Ha].
    split; [|exact Hi]. destruct (decide (x = p)) as [->|N].
    + rewrite Hnp in Hn. injection Hn as <-.
      now rewrite (tau_id _ _ _ _ rel_check_p_not_old).
    + apply Ha. exact Hn.
  - destruct (mv_new _ _ _ _ _ _ HM c Hc) as (n' & Hn' & Ha & Hi).
    destruct (rel_child c Hc) as (_ & n'' & Hn'' & Hcn).
    rewrite <- X in Hn', Hn'', Hi. rewrite Hn in Hn', Hn''.
    injection Hn' as <-. injection Hn'' as <-.
    assert (N : x <> p).
    { intros ->. apply rel_p_not_old. rewrite X. apply slots_lxor. exact Hc. }
    split; [|exact Hi].
    destruct (decide (Z.lxor nb (ord c) = p)) as [E'|_].
    { exfalso. apply rel_p_not_new. rewrite <- E'. apply slots_lxor. exact Hc. }
    destruct (decide (x = p)); [contradiction|].
    rewrite Ha, Hcn. now rewrite (tau_id _ _ _ _ rel_p_not_old).
Qed.

(** Every slot after the relocation holds a placed node or is free. *)
Lemma rel_slot' (j : Z) (n' : node) :
  at_ (array da') j = Some n' ->
  (exists ks' x, T ks' = Some x /\ j = tau ob nb l x) \/
  (Check n' < 0 /\ j <> 0 /\ at_ (info da') j = Some empty_info).
Proof.
  intros Hj. rewrite rel_array' in Hj. destruct (decide (j = p)) as [->|N].
  { left. exists ks, p. split; [exact Hp|]. symmetry. apply tau_id. exact rel_p_not_old. }
  unfold da'. cbn [set_array info].
  destruct (slots_em nb l j) as [(c & Hc & ->)|Hnn].
  { left. destruct (rel_child c Hc) as (Hpc & _). exists (ks ++ [c]), (Z.lxor ob (ord c)).
    split; [exact Hpc|]. symmetry. now apply tau_old. }
  destruct (slots_em ob l j) as [(c & Hc & ->)|Hno].
  { right. destruct (mv_old _ _ _ _ _ _ HM c Hc) as (Hf & Hi).
    rewrite Hf in Hj. injection Hj as <-. split; [cbn; lia|]. split; [|exact Hi].
    destruct (rel_child c Hc) as (Hpc & _).
    destruct (inv_placed _ _ HI _ _ Hpc) as (n & _ & [[E _]|(_ & H0 & _)]); [|exact H0].
    destruct ks; discriminate. }
  assert (Hj0 : is_Some (at_ (array da0) j)).
  { apply at_is_Some. rewrite <- (mv_len_a _ _ _ _ _ _ HM). eapply at_Some_range; exact Hj. }
  destruct Hj0 as [n Hn].
  destruct (mv_rest _ _ _ _ _ _ HM j Hnn Hno) as [Hi Ha]. specialize (Ha _ Hn).
  rewrite Hj in Ha. injection Ha as ->.
  destruct (Z.lt_ge_cases (Check n) 0) as [Hneg|Hpos].
  - destruct (decide (j = 0)) as [->|N0].
    + left. exists [], 0. split; [apply (inv_root _ _ HI)|]. symmetry. apply rel_tau_root.
    + right. cbn. rewrite (tau_neg _ _ _ _ rel_ob_nonneg Hneg). split; [assumption|].
      split; [assumption|]. rewrite Hi. eapply (inv_free_info _ _ HI); eassumption.
  - left. destruct (inv_occ _ _ HI _ _ Hn Hpos) as [ks' Hks'].
    exists ks', j. split; [assumption|]. symmetry. now apply tau_id.
Qed.

(** The slot of a child follows the base of its parent. *)
Lemma rel_child_slot' (ks' : list byte) (x : Z) (n : node) (c : byte) :
  T ks' = Some x -> at_ (array da0) x = Some n -> is_Some (T (ks' ++ [c])) ->
  tau ob nb l (Z.lxor (base n) (ord c))
  = Z.lxor (if decide (x = p) then nb else base n) (ord c).
Proof.
  intros Hx Hn [y Hy].
  destruct (inv_edge _ _ HI _ _ _ Hy) as (p0 & np0 & nt0 & Hp0 & Hnp0 & Hv0 & -> & Hnt0 & Hc0).
  rewrite Hx in Hp0. injection Hp0 as <-. rewrite Hn in Hnp0. injection Hnp0 as <-.
  destruct (decide (x = p)) as [->|N].
  - assert (ks' = ks) by (eapply (inv_inj _ _ HI); eassumption). subst ks'.
    rewrite Hnp in Hn. injection Hn as <-. fold ob. apply tau_old.
    apply (ring_dom _ _ _ _ _ Hl). rewrite Hy. eauto.
  - eapply rel_tau_placed_id; [exact Hy|]. intros e E.
    apply app_inj_tail in E. destruct E as [-> _]. congruence.
Qed.

Lemma Inv_relocate : Inv da' T'.
Proof.
  assert (Hlen : length (array da') = length (array da0)).
  { unfold da'. cbn [set_array array]. rewrite length_insert. apply (mv_len_a _ _ _ _ _ _ HM). }
  split.
  - rewrite Hlen. unfold da'. cbn [set_array info].
    rewrite (mv_len_i _ _ _ _ _ _ HM). apply (inv_len _ _ HI).
  - rewrite Hlen. apply (inv_blocks _ _ HI).
  - apply rel_T'. exists 0. split; [apply (inv_root _ _ HI)|]. symmetry. apply rel_tau_root.
  - destruct (inv_root_node _ _ HI) as (n0 & Hn0 & Hv0 & Hc0).
    destruct (rel_placed' _ _ _ (inv_root _ _ HI) Hn0) as [Ha _].
    rewrite rel_tau_root in Ha. eexists. split; [exact Ha|]. cbn. split.
    + destruct (decide _); lia.
    + rewrite Hc0. apply tau_neg; [apply rel_ob_nonneg|lia].
  - intros ks1 ks2 t H1 H2. apply rel_T' in H1. apply rel_T' in H2.
    destruct H1 as (x1 & H1 & E1), H2 as (x2 & H2 & E2).
    assert (x1 = x2) by (eapply rel_tau_inj; [exact H1|exact H2|congruence]). subst x2.
    eapply (inv_inj _ _ HI); eassumption.
  - intros ks' c t Ht. apply rel_T' in Ht. destruct Ht as (t0 & Ht0 & ->).
    destruct (inv_edge _ _ HI _ _ _ Ht0) as (p0 & np0 & nt0 & Hp0 & Hnp0 & Hv0 & E & Hnt0 & Hc0).
    destruct (rel_placed' _ _ _ Hp0 Hnp0) as [Hap _].
    destruct (rel_placed' _ _ _ Ht0 Hnt0) as [Hat _].
    eexists _, _, _. split; [apply rel_T'; eauto|].
    split; [exact Hap|]. split; [cbn; destruct (decide _); lia|].
    split; [|split; [exact Hat|cbn; congruence]].
    rewrite E. rewrite (rel_child_slot' _ _ _ c Hp0 Hnp0); [|rewrite Ht0; eauto].
    unfold base at 2. cbn [Value]. destruct (decide _); [f_equal; lia|reflexivity].
  - intros j n' Hj Hc. destruct (rel_slot' _ _ Hj) as [(ks' & x & Hx & ->)|[Hneg _]]; [|lia].
    exists ks'. apply rel_T'. eauto.
  - intros j n' Hj0 Hj Hc. destruct (rel_slot' _ _ Hj) as [(ks' & x & Hx & ->)|(_ & _ & Hi)];
      [|exact Hi].
    exfalso. destruct (inv_placed _ _ HI _ _ Hx) as (n & Hn & [[_ ->]|(_ & _ & Hcn)]).
    + apply Hj0. apply rel_tau_root.
    + destruct (rel_placed' _ _ _ Hx Hn) as [Ha _]. rewrite Hj in Ha.
      injection Ha as ->. cbn in Hc. pose proof (rel_tau_nonneg _ Hcn). lia.
  - intros ks' j n' Hj Hn' Hv'. rewrite Hlen. apply rel_T' in Hj.
    destruct Hj as (x & Hx & ->). destruct (inv_placed _ _ HI _ _ Hx) as (n & Hn & _).
    destruct (rel_placed' _ _ _ Hx Hn) as [Ha _]. rewrite Hn' in Ha.
    injection Ha as ->. unfold base. cbn in *. destruct (decide _).
    + lia.
    + pose proof (inv_base _ _ HI _ _ _ Hx Hn Hv'). unfold base in *. lia.
  - intros ks' j Hj. apply rel_T' in Hj. destruct Hj as (x & Hx & ->).
    destruct (inv_ring _ _ HI _ _ Hx) as [lx Hlx]. exists lx.
    destruct (inv_placed _ _ HI _ _ Hx) as (n & Hn & _).
    destruct (rel_placed' _ _ _ Hx Hn) as [Ha Hi].
    eapply ring_frame; [exact Hlx| | |].
    + intros c. unfold T', T_move. destruct (T (ks' ++ [c])); cbn; split; intros [? ?]; eauto; discriminate.
    + intros i Hi0. exists i. split; [congruence|reflexivity].
    + intros n' Hn'. rewrite Hn' in Ha. injection Ha as ->.
      exists n. split; [exact Hn|]. intros c i Hc Hic.
      destruct (ring_child_slot _ _ _ _ _ _ _ HI Hx Hlx Hn Hc) as (Hy & ny & Hny & _).
      destruct (rel_placed' _ _ _ Hy Hny) as [_ Hiy].
      rewrite (rel_child_slot' _ _ _ c Hx Hn) in Hiy; [|rewrite Hy; eauto].
      exists i. split; [|reflexivity]. rewrite <- Hic, <- Hiy. f_equal. f_equal.
      unfold base at 1. cbn [Value]. destruct (decide _); [lia|reflexivity].
Qed.

Lemma rel_same_leaves : same_leaves da0 T da' T' ks.
Proof.
  split; [|split; [|split]].
  - intros ks'. unfold T', T_move. destruct (T ks'); cbn; split; intros [? ?]; eauto; discriminate.
  - intros ks' Hne. destruct (T ks') as [x|] eqn:Hx.
    + destruct (inv_placed _ _ HI _ _ Hx) as (n & Hn & _).
      destruct (rel_placed' _ _ _ Hx Hn) as [Ha _].
      assert (HT' : T' ks' = Some (tau ob nb l x)) by (apply rel_T'; eauto).
      rewrite (leafv_Some_T _ _ _ _ _ HT' Ha), (leafv_Some_T _ _ _ _ _ Hx Hn). cbn [Value].
      destruct (decide (x = p)) as [->|_]; [|reflexivity].
      exfalso. apply Hne. eapply (inv_inj _ _ HI); eassumption.
    + rewrite (leafv_None_T _ _ _ Hx). apply leafv_None_T.
      unfold T', T_move. now rewrite Hx.
  - unfold da'. cbn. apply (mv_vals _ _ _ _ _ _ HM).
  - unfold da'. cbn. apply (mv_vkey _ _ _ _ _ _ HM).
Qed.

Lemma rel_T'_p : T' ks = Some p.
Proof. apply rel_T'. exists p. split; [exact Hp|]. symmetry. apply tau_id, rel_p_not_old. Qed.

Lemma rel_array'_p : at_ (array da') p = Some (mkNode (- nb - 1) (Check np)).
Proof. rewrite rel_array'. now destruct (decide _). Qed.

(** A slot that was free and is no target of the move is still free. *)
Lemma rel_free' (j : Z) :
  is_free (array da0) j = true -> ~ slots nb l j -> is_free (array da') j = true.
Proof.
  intros Hf Hnn. apply is_free_true in Hf. destruct Hf as (H0 & n & Hn & Hc).
  apply is_free_true. split; [assumption|].
  assert (Hno : ~ slots ob l j).
  { intros (c & Hc' & ->). destruct (rel_child c Hc') as (_ & n' & Hn' & Hcn).
    rewrite Hn in Hn'. injection Hn' as <-. apply at_Some_range in Hnp. lia. }
  destruct (mv_rest _ _ _ _ _ _ HM j Hnn Hno) as [_ Ha]. specialize (Ha _ Hn).
  rewrite rel_array'. destruct (decide (j = p)) as [->|_].
  - exfalso. destruct (inv_placed _ _ HI _ _ Hp) as (n' & Hn' & [[_ E]|(_ & _ & Hcn)]).
    + contradiction.
    + rewrite Hn in Hn'. injection Hn' as <-. lia.
  - eexists. split; [exact Ha|]. cbn. rewrite tau_neg; [assumption|apply rel_ob_nonneg|assumption].
Qed.

(** The slots the children left are free. *)
Lemma rel_old_free' (c : byte) :
  c ∈ l -> is_free (array da') (Z.lxor ob (ord c)) = true.
Proof.
  intros Hc. apply is_free_true. destruct (mv_old _ _ _ _ _ _ HM c Hc) as (Hf & _).
  destruct (rel_child c Hc) as (Hpc & _). split.
  - destruct (inv_placed _ _ HI _ _ Hpc) as (n & _ & [[E _]|(_ & H0 & _)]); [|exact H0].
    destruct ks; discriminate.
  - exists free_node. split; [|cbn; lia]. rewrite rel_array'.
    destruct (decide _) as [E|_]; [|exact Hf].
    exfalso. apply rel_p_not_old. rewrite <- E. apply slots_lxor. exact Hc.
Qed.

Lemma rel_leafv_all (ks' : list byte) : leafv da' T' ks' = leafv da0 T ks'.
Proof.
  destruct (decide (ks' = ks)) as [->|N].
  - rewrite (leafv_Some_T _ _ _ _ _ rel_T'_p rel_array'_p), (leafv_Some_T _ _ _ _ _ Hp Hnp).
    cbn [Value]. destruct (decide (0 <= - nb - 1)); [lia|].
    destruct (decide (0 <= Value np)); [lia|reflexivity].
  - apply rel_same_leaves. exact N.
Qed.

End Relocate.

(** ** One step of the insert-mode walk *)

Lemma relocate_post (da0 : Cedar) (T : placement) (ks : list byte) (p : Z)
    (np : node) (l : list byte) (nb : Z) :
  Inv da0 T -> T ks = Some p -> at_ (array da0) p = Some np -> Value np < 0 ->
  ring da0 T ks p l ->
  (forall c, c ∈ l -> is_free (array da0) (Z.lxor nb (ord c)) = true) ->
  0 <= nb < Z.of_nat (length (array da0)) ->
  exists da',
    relocate da0 p nb = Ret da' /\
    Inv da' (T_move T (base np) nb l) /\
    same_leaves da0 T da' (T_move T (base np) nb l) ks /\
    (forall ks', leafv da' (T_move T (base np) nb l) ks' = leafv da0 T ks') /\
    T_move T (base np) nb l ks = Some p /\
    at_ (array da') p = Some (mkNode (- nb - 1) (Check np)) /\
    (forall j, is_free (array da0) j = true -> ~ slots nb l j ->
       is_free (array da') j = true) /\
    (forall c, c ∈ l -> is_free (array da') (Z.lxor (base np) (ord c)) = true) /\
    (forall ks' x n, T ks' = Some x -> at_ (array da0) x = Some n ->
       at_ (array da') (tau (base np) nb l x)
       = Some (mkNode (if decide (x = p) then - nb - 1 else Value n)
                      (tau (base np) nb l (Check n)))).
Proof.
  intros HI Hp Hnp Hv Hl Hfit Hnb.
  destruct (relocate_ret _ _ HI _ _ _ _ _ Hp Hnp Hv Hl Hfit) as (dm & HM & Hpm & Hr).
  eexists. split; [exact Hr|].
  split; [exact (Inv_relocate _ _ HI _ _ _ _ _ Hp Hnp Hv Hl Hfit Hnb _ HM)|].
  split; [exact (rel_same_leaves _ _ HI _ _ _ _ _ Hp Hnp Hv Hl Hfit _ HM)|].
  split; [exact (rel_leafv_all _ _ HI _ _ _ _ _ Hp Hnp Hv Hl Hfit Hnb _ HM)|].
  split; [exact (rel_T'_p _ _ HI _ _ _ _ nb Hp Hnp Hl)|].
  split; [exact (rel_array'_p _ _ _ _ _ Hnp _ HM)|].
  split; [exact (rel_free' _ _ HI _ _ _ _ _ Hp Hnp Hv Hl _ HM)|].
  split; [exact (rel_old_free' _ _ HI _ _ _ _ _ Hp Hnp Hl _ HM)|].
  intros ks' x n Hx Hn.
  eapply (proj1 (rel_placed' _ _ HI _ _ _ _ _ Hp Hnp Hv Hl Hfit _ HM _ _ _ Hx Hn)).
Qed.

Lemma link_post (da : Cedar) (T : placement) (ks : list byte) (p : Z)
    (np : node) (c : byte) (l : list byte) :
  Inv da T -> T ks = Some p -> at_ (array da) p = Some np -> Value np < 0 ->
  ring da T ks p l -> c ∉ l ->
  is_free (array da) (Z.lxor (base np) (ord c)) = true ->
  exists da',
    link da p (base np) c = Ret (da', Z.lxor (base np) (ord c)) /\
    Inv da' (T_add T (ks ++ [c]) (Z.lxor (base np) (ord c))) /\
    (forall j, j <> Z.lxor (base np) (ord c) ->
       at_ (array da') j = at_ (array da) j) /\
    at_ (array da') (Z.lxor (base np) (ord c)) = Some (mkNode valueLimit p) /\
    vals da' = vals da /\ vkey da' = vkey da.
Proof.
  intros HI Hp Hnp Hv Hl Hc Hfree.
  destruct (link_ret _ _ HI _ _ _ _ _ Hp Hnp Hl Hc Hfree) as (inf' & Hr & Hch & Hp' & Hf).
  eexists. split; [exact Hr|].
  split; [eapply Inv_link; eassumption|].
  apply is_free_true in Hfree. destruct Hfree as (_ & nf & Hnf & _).
  cbn [set_info set_array array vals vkey].
  split; [|split; [|split; reflexivity]].
  - intros j Hj. rewrite (at_upd _ _ _ _ _ Hnf). now destruct (decide _).
  - rewrite (at_upd _ _ _ _ _ Hnf). now destruct (decide _).
Qed.

Lemma ring_no_child (da : Cedar) (T : placement) (ks : list byte) (p : Z)
    (l : list byte) (c : byte) :
  ring da T ks p l -> T (ks ++ [c]) = None -> c ∉ l.
Proof.
  intros Hl Hn Hc. apply (ring_dom _ _ _ _ _ Hl) in Hc. rewrite Hn in Hc.
  destruct Hc; discriminate.
Qed.

Lemma link_follow_post (da : Cedar) (T : placement) (ks : list byte) (c : byte)
    (da2 : Cedar) (T2 : placement) (p2 : Z) (np2 : node) :
  T (ks ++ [c]) = None ->
  Inv da2 T2 -> same_leaves da T da2 T2 ks ->
  T2 ks = Some p2 -> at_ (array da2) p2 = Some np2 -> Value np2 < 0 ->
  is_free (array da2) (Z.lxor (base np2) (ord c)) = true ->
  exists da3,
    link da2 p2 (base np2) c = Ret (da3, Z.lxor (base np2) (ord c)) /\
    follow_post da T ks c da3 (T_add T2 (ks ++ [c]) (Z.lxor (base np2) (ord c)))
                (Z.lxor (base np2) (ord c)) /\
    T_add T2 (ks ++ [c]) (Z.lxor (base np2) (ord c)) ks = Some p2.
Proof.
  intros Hnew HI2 (Hdom & Hlv & Hvals & Hvkey) Hp2 Hnp2 Hv2 Hfree.
  destruct (inv_ring _ _ HI2 _ _ Hp2) as [l2 Hl2].
  assert (Hnew2 : T2 (ks ++ [c]) = None).
  { destruct (T2 (ks ++ [c])) eqn:E; [|reflexivity].
    assert (H : is_Some (T (ks ++ [c]))) by (apply Hdom; rewrite E; eauto).
    rewrite Hnew in H. destruct H; discriminate. }
  pose proof (ring_no_child _ _ _ _ _ _ Hl2 Hnew2) as Hc.
  destruct (link_post _ _ _ _ _ _ _ HI2 Hp2 Hnp2 Hv2 Hl2 Hc Hfree)
    as (da3 & Hr & HI3 & Hold & Ht & Hv3 & Hk3).
  set (t := Z.lxor (base np2) (ord c)) in *.
  assert (Hunpl : forall ks' x, T2 ks' = Some x -> x <> t).
  { intros ks' x Hx ->. apply is_free_true in Hfree. destruct Hfree as (H0 & nf & Hnf & Hcf).
    destruct (inv_placed _ _ HI2 _ _ Hx) as (n & Hn & [[_ E]|(_ & _ & Hcn)]).
    - contradiction.
    - rewrite Hnf in Hn. injection Hn as <-. lia. }
  assert (Hks : T_add T2 (ks ++ [c]) t ks = Some p2).
  { unfold T_add. destruct (decide _) as [E|_]; [|exact Hp2].
    exfalso. eapply snoc_neq_self; exact E. }
  exists da3. split; [exact Hr|]. split; [|exact Hks]. split.
  - exact HI3.
  - unfold T_add. now destruct (decide _).
  - intros ks'. unfold T_add. destruct (decide _) as [->|N].
    + split; [auto|eauto].
    + rewrite Hdom. split; [auto|]. intros [H|H]; [assumption|contradiction].
  - intros ks' N1 N2. rewrite <- (Hlv _ N1). unfold leafv, T_add.
    destruct (decide _); [contradiction|]. destruct (T2 ks') as [x|] eqn:Hx; [|reflexivity].
    rewrite Hold; [reflexivity|]. eapply Hunpl; exact Hx.
  - rewrite (leafv_Some_T _ _ _ _ np2 Hks).
    + destruct (decide _); [lia|reflexivity].
    + rewrite Hold; [exact Hnp2|]. eapply Hunpl; exact Hp2.
  - rewrite Hnew. erewrite leafv_Some_T; [|unfold T_add; now destruct (decide _)|exact Ht].
    cbn. destruct (decide _) as [_|N]; [reflexivity|]. unfold valueLimit in N. lia.
  - congruence.
  - congruence.
Qed.

Lemma same_leaves_all (da : Cedar) (T : placement) (da2 : Cedar) (T2 : placement)
    (ks : list byte) :
  (forall ks', is_Some (T2 ks') <-> is_Some (T ks')) ->
  (forall ks', leafv da2 T2 ks' = leafv da T ks') ->
  vals da2 = vals da -> vkey da2 = vkey da ->
  same_leaves da T da2 T2 ks.
Proof.
  intros H1 H2 H3 H4. split; [exact H1|]. split; [intros ks' _; apply H2|].
  split; assumption.
Qed.

Lemma same_leaves_trans (da1 : Cedar) (T1 : placement) (da2 : Cedar) (T2 : placement)
    (da3 : Cedar) (T3 : placement) (ks : list byte) :
  same_leaves da1 T1 da2 T2 ks -> same_leaves da2 T2 da3 T3 ks ->
  same_leaves da1 T1 da3 T3 ks.
Proof.
  intros (D1 & L1 & V1 & K1) (D2 & L2 & V2 & K2). split; [|split; [|split]].
  - intros ks'. rewrite D2. apply D1.
  - intros ks' N. rewrite (L2 _ N). apply L1. exact N.
  - congruence.
  - congruence.
Qed.

Lemma same_leaves_refl (da : Cedar) (T : placement) (ks : list byte) :
  same_leaves da T da T ks.
Proof. split; [reflexivity|]. split; [reflexivity|]. split; reflexivity. Qed.

Lemma findBase_leaves (da da1 : Cedar) (T : placement) (ks : list byte) :
  Inv da T ->
  (forall j n, at_ (array da) j = Some n -> at_ (array da1) j = Some n) ->
  vals da1 = vals da -> vkey da1 = vkey da ->
  same_leaves da T da1 T ks /\ (forall ks', leafv da1 T ks' = leafv da T ks').
Proof.
  intros HI Hf Hv Hk.
  assert (H : forall ks', leafv da1 T ks' = leafv da T ks').
  { intros ks'. unfold leafv. destruct (T ks') as [x|] eqn:Hx; [|reflexivity].
    destruct (inv_placed _ _ HI _ _ Hx) as (n & Hn & _).
    now rewrite (Hf _ _ Hn), Hn. }
  split; [|exact H]. apply same_leaves_all; auto.
Qed.

Lemma ring_nil_of_no_child (da : Cedar) (T : placement) (ks : list byte) (p : Z)
    (l : list byte) :
  ring da T ks p l -> (forall d, T (ks ++ [d]) = None) -> l = [].
Proof.
  intros Hl Hn. destruct l as [|d l]; [reflexivity|].
  exfalso. assert (H : is_Some (T (ks ++ [d]))) by (apply (ring_dom _ _ _ _ _ Hl); left).
  rewrite Hn in H. destruct H; discriminate.
Qed.

Lemma is_free_other (a : list node) (i j : Z) (x y : node) :
  at_ a i = Some y -> i <> j -> is_free a j = true ->
  is_free (<[Z.to_nat i := x]> a) j = true.
Proof.
  intros Hi Hne Hf. apply is_free_true in Hf. destruct Hf as (H0 & n & Hn & Hc).
  apply is_free_true. split; [assumption|]. exists n. split; [|assumption].
  rewrite (at_upd _ _ _ _ _ Hi). destruct (decide _) as [E|_]; [|assumption].
  symmetry in E. contradiction.
Qed.

Lemma free_unplaced (da : Cedar) (T : placement) (ks : list byte) (x : Z) :
  Inv da T -> T ks = Some x -> is_free (array da) x = true -> False.
Proof.
  intros HI Hx Hf. apply is_free_true in Hf. destruct Hf as (H0 & nf & Hnf & Hcf).
  destruct (inv_placed _ _ HI _ _ Hx) as (n & Hn & [[_ E]|(_ & _ & Hcn)]).
  - contradiction.
  - rewrite Hnf in Hn. injection Hn as <-. lia.
Qed.

(** Step 1: the node has no children and takes a fresh base. *)
Lemma follow_new_base (da : Cedar) (T : placement) (ks : list byte) (from : Z)
    (c : byte) :
  Inv da T -> T ks = Some from -> (forall d, T (ks ++ [d]) = None) ->
  exists da' T' to,
    (let '(da1, b) := findBase da [c] in
     da2 <- setValue da1 from (- b - 1); link da2 from b c) = Ret (da', to) /\
    follow_post da T ks c da' T' to /\ T' ks = Some from.
Proof.
  intros HI Hp Hnc.
  destruct (findBase da [c]) as [da1 b] eqn:Hfb.
  destruct (findBase_spec _ _ _ _ _ HI Hfb) as (HI1 & Hb & Hfit & Hfa & Hfi & Hv1 & Hk1).
  destruct (inv_placed _ _ HI _ _ Hp) as (n & Hn & Hroot).
  pose proof (Hfa _ _ Hn) as Hn1.
  destruct (inv_ring _ _ HI1 _ _ Hp) as [l1 Hl1].
  pose proof (ring_nil_of_no_child _ _ _ _ _ Hl1 Hnc) as ->.
  rewrite (setValue_Ret _ _ _ _ Hn1). cbn [bind].
  set (da2 := set_array da1 (<[Z.to_nat from := mkNode (- b - 1) (Check n)]> (array da1))).
  assert (HI2 : Inv da2 T).
  { apply (Inv_setValue_childless _ _ HI1 _ _ _ _ Hp Hn1 Hl1); [lia|]. intros _. lia. }
  assert (Hn2 : at_ (array da2) from = Some (mkNode (- b - 1) (Check n))).
  { unfold da2. cbn [set_array array]. rewrite (at_upd _ _ _ _ _ Hn1). now destruct (decide _). }
  assert (Hbase : base (mkNode (- b - 1) (Check n)) = b) by (unfold base; cbn; lia).
  assert (Hfree2 : is_free (array da2) (Z.lxor b (ord c)) = true).
  { unfold da2. cbn [set_array array]. eapply is_free_other; [exact Hn1| |apply Hfit; now left].
    intros E. eapply (free_unplaced _ _ _ _ HI1 Hp). rewrite E. apply Hfit. now left. }
  assert (HSL : same_leaves da T da2 T ks).
  { destruct (findBase_leaves _ _ _ ks HI Hfa Hv1 Hk1) as [HSL1 _].
    eapply same_leaves_trans; [exact HSL1|].
    split; [reflexivity|]. split; [|split; reflexivity].
    intros ks' N. unfold leafv. destruct (T ks') as [x|] eqn:Hx; [|reflexivity].
    unfold da2. cbn [set_array array]. rewrite (at_upd _ _ _ _ _ Hn1).
    destruct (decide _) as [->|_]; [|reflexivity].
    exfalso. apply N. eapply (inv_inj _ _ HI); eassumption. }
  rewrite <- Hbase in Hfree2.
  destruct (link_follow_post da T ks c da2 T from _ (Hnc c) HI2 HSL Hp Hn2 ltac:(cbn; lia) Hfree2)
    as (da3 & Hr & HP & Hks).
  rewrite Hbase in Hr, HP, Hks.
  exists da3, (T_add T (ks ++ [c]) (Z.lxor b (ord c))), (Z.lxor b (ord c)).
  split; [exact Hr|]. split; assumption.
Qed.

(** Step 3, first way: the children of the inserting node move. *)
Lemma follow_relocate_self (da : Cedar) (T : placement) (ks : list byte)
    (from : Z) (n : node) (c : byte) (l : list byte) :
  Inv da T -> T ks = Some from -> at_ (array da) from = Some n -> Value n < 0 ->
  ring da T ks from l -> T (ks ++ [c]) = None ->
  exists da' T' to,
    (let '(da1, nb) := findBase da (c :: l) in
     da2 <- relocate da1 from nb; link da2 from nb c) = Ret (da', to) /\
    follow_post da T ks c da' T' to.
Proof.
  intros HI Hp Hn Hv Hl Hnew.
  destruct (findBase da (c :: l)) as [da1 nb] eqn:Hfb.
  destruct (findBase_spec _ _ _ _ _ HI Hfb) as (HI1 & Hb & Hfit & Hfa & Hfi & Hv1 & Hk1).
  pose proof (Hfa _ _ Hn) as Hn1.
  destruct (inv_ring _ _ HI1 _ _ Hp) as [l1 Hl1].
  assert (Hfit1 : forall e, e ∈ l1 -> is_free (array da1) (Z.lxor nb (ord e)) = true).
  { intros e He. apply Hfit. right. apply (ring_dom _ _ _ _ _ Hl).
    apply (ring_dom _ _ _ _ _ Hl1). exact He. }
  destruct (relocate_post _ _ _ _ _ _ _ HI1 Hp Hn1 Hv Hl1 Hfit1 Hb)
    as (da2 & Hr & HI2 & _ & Hlv2 & Hp2 & Hn2 & Hfree2 & _ & _).
  rewrite Hr. cbn [bind].
  assert (HSL : same_leaves da T da2 (T_move T (base n) nb l1) ks).
  { destruct (findBase_leaves _ _ _ ks HI Hfa Hv1 Hk1) as [_ HL1].
    assert (HSL2 := relocate_post _ _ _ _ _ _ _ HI1 Hp Hn1 Hv Hl1 Hfit1 Hb).
    destruct HSL2 as (da2' & Hr' & _ & (D2 & _ & V2 & K2) & _).
    rewrite Hr in Hr'. injection Hr' as <-.
    apply same_leaves_all.
    - exact D2.
    - intros ks'. rewrite Hlv2. apply HL1.
    - congruence.
    - congruence. }
  assert (Hbase : base (mkNode (- nb - 1) (Check n)) = nb) by (unfold base; cbn; lia).
  assert (Hf : is_free (array da2) (Z.lxor (base (mkNode (- nb - 1) (Check n))) (ord c)) = true).
  { rewrite Hbase. apply Hfree2; [apply Hfit; now left|].
    intros Hs. apply slots_lxor in Hs.
    revert Hs. eapply ring_no_child; [exact Hl1|exact Hnew]. }
  destruct (link_follow_post da T ks c da2 _ from _ Hnew HI2 HSL Hp2 Hn2 ltac:(cbn; lia) Hf)
    as (da3 & Hr3 & HP & _).
  rewrite Hbase in Hr3, HP. eauto.
Qed.

(** Step 3, second way: the children of the parent of the occupant move. *)
Lemma follow_relocate_other (da : Cedar) (T : placement) (ks : list byte)
    (from : Z) (n : node) (c : byte) (ks_o : list byte) (occ : Z) (n_occ : node)
    (l_occ : list byte) (e : byte) :
  Inv da T -> T ks = Some from -> at_ (array da) from = Some n -> Value n < 0 ->
  T (ks ++ [c]) = None ->
  T ks_o = Some occ -> at_ (array da) occ = Some n_occ -> Value n_occ < 0 ->
  ring da T ks_o occ l_occ ->
  T (ks_o ++ [e]) = Some (Z.lxor (base n) (ord c)) ->
  exists da' T' to,
    (let '(da1, nb) := findBase da l_occ in
     nf <- rd (array da1) from;
     no <- rd (array da1) occ;
     let from' := if Check nf =? occ
                  then Z.lxor nb (Z.lxor (base no) from) else from in
     da2 <- relocate da1 occ nb;
     link da2 from' (base n) c) = Ret (da', to) /\
    follow_post da T ks c da' T' to.
Proof.
  intros HI Hp Hn Hv Hnew Ho Hno Hvo Hlo Hq.
  destruct (findBase da l_occ) as [da1 nb] eqn:Hfb.
  destruct (findBase_spec _ _ _ _ _ HI Hfb) as (HI1 & Hb & Hfit & Hfa & Hfi & Hv1 & Hk1).
  pose proof (Hfa _ _ Hn) as Hn1. pose proof (Hfa _ _ Hno) as Hno1.
  unfold rd. rewrite Hn1, Hno1. cbn [bind].
  destruct (inv_ring _ _ HI1 _ _ Ho) as [l1 Hl1].
  assert (Hfit1 : forall d, d ∈ l1 -> is_free (array da1) (Z.lxor nb (ord d)) = true).
  { intros d Hd. apply Hfit. apply (ring_dom _ _ _ _ _ Hlo).
    apply (ring_dom _ _ _ _ _ Hl1). exact Hd. }
  destruct (relocate_post _ _ _ _ _ _ _ HI1 Ho Hno1 Hvo Hl1 Hfit1 Hb)
    as (da2 & Hr & HI2 & (D2 & _ & V2 & K2) & Hlv2 & _ & _ & _ & Hold2 & Hpl2).
  rewrite Hr. cbn [bind].
  assert (Hne : from <> occ).
  { intros ->. assert (ks_o = ks) by (eapply (inv_inj _ _ HI); eassumption). subst ks_o.
    destruct (inv_edge _ _ HI _ _ _ Hq) as (p' & np' & _ & Hp' & Hnp' & _ & E & _).
    rewrite Hp in Hp'. injection Hp' as <-. rewrite Hn in Hnp'. injection Hnp' as <-.
    apply lxor_inj, ord_inj in E. subst e. congruence. }
  assert (Hfrom' : (if Check n =? occ then Z.lxor nb (Z.lxor (base n_occ) from) else from)
                   = tau (base n_occ) nb l1 from).
  { destruct (Z.eqb_spec (Check n) occ) as [E|NE].
    - destruct (rel_children_of _ _ HI1 n _ _ _ _ _ _ Ho Hno1 Hl1 Hn1 E) as (d & Hd & ->).
      rewrite lxor_lxor_r. symmetry. now apply tau_old.
    - symmetry. apply tau_id. intros (d & Hd & E).
      destruct (ring_child_slot _ _ _ _ _ _ _ HI1 Ho Hl1 Hno1 Hd) as (_ & nt & Hnt & Hcn).
      rewrite <- E, Hn1 in Hnt. injection Hnt as <-. contradiction. }
  rewrite Hfrom'.
  set (T2 := T_move T (base n_occ) nb l1) in *.
  assert (Hp2 : T2 ks = Some (tau (base n_occ) nb l1 from)).
  { unfold T2, T_move. now rewrite Hp. }
  pose proof (Hpl2 _ _ _ Hp Hn1) as Hn2.
  destruct (decide (from = occ)); [contradiction|].
  assert (HSL : same_leaves da T da2 T2 ks).
  { destruct (findBase_leaves _ _ _ ks HI Hfa Hv1 Hk1) as [_ HL1].
    apply same_leaves_all.
    - exact D2.
    - intros ks'. rewrite Hlv2. apply HL1.
    - congruence.
    - congruence. }
  set (np2 := mkNode (Value n) (tau (base n_occ) nb l1 (Check n))) in *.
  assert (Hbase : base np2 = base n) by reflexivity.
  assert (Hf : is_free (array da2) (Z.lxor (base np2) (ord c)) = true).
  { rewrite Hbase.
    destruct (inv_edge _ _ HI _ _ _ Hq) as (p' & np' & _ & Hp' & Hnp' & _ & E & _).
    rewrite Ho in Hp'. injection Hp' as <-. rewrite Hno in Hnp'. injection Hnp' as <-.
    rewrite E. apply Hold2. apply (ring_dom _ _ _ _ _ Hl1). rewrite Hq. eauto. }
  destruct (link_follow_post da T ks c da2 T2 _ np2 Hnew HI2 HSL Hp2 Hn2 Hv Hf)
    as (da3 & Hr3 & HP & _).
  rewrite Hbase in Hr3, HP. eauto.
Qed.

Lemma follow_spec (da : Cedar) (T : placement) (ks : list byte) (from : Z) (c : byte) :
  Inv da T -> T ks = Some from ->
  exists da' T' to,
    follow da from c = Ret (da', to) /\
    follow_post da T ks c da' T' to /\
    ((forall d, T (ks ++ [d]) = None) -> T' ks = Some from).
Proof.
  intros HI Hp. destruct (inv_ring _ _ HI _ _ Hp) as [l Hl].
  unfold follow. rewrite (hasChild_spec _ _ _ _ _ HI Hp Hl). cbn [bind].
  destruct l as [|c0 l0].
  - cbn [negb].
    assert (Hnc : forall d, T (ks ++ [d]) = None).
    { intros d. destruct (T (ks ++ [d])) eqn:E; [|reflexivity]. exfalso.
      assert (H : d ∈ []) by (apply (ring_dom _ _ _ _ _ Hl); rewrite E; eauto). inversion H. }
    destruct (follow_new_base _ _ _ _ c HI Hp Hnc) as (da' & T' & to & Hr & HP & Hks).
    exists da', T', to. auto.
  - cbn [negb].
    assert (Hchild : ~ (forall d, T (ks ++ [d]) = None)).
    { intros H. assert (H' : is_Some (T (ks ++ [c0]))) by (apply (ring_dom _ _ _ _ _ Hl); left).
      rewrite H in H'. destruct H'; discriminate. }
    destruct (inv_placed _ _ HI _ _ Hp) as (n & Hn & _).
    pose proof (ring_internal _ _ _ _ _ _ HI Hp Hl Hn ltac:(discriminate)) as Hv.
    destruct (inv_child_Some _ _ HI _ _ _ c Hp Hn Hv) as (nt & it & Hnt & _).
    unfold rd. rewrite Hn. cbn [bind]. rewrite Hnt. cbn [bind].
    destruct (Z.eqb_spec (Check nt) from) as [E|NE].
    + pose proof (inv_child_placed _ _ HI _ _ _ _ _ Hp Hn Hnt E) as Hto.
      exists da, T, (Z.lxor (base n) (ord c)). split; [reflexivity|]. split.
      * split; try reflexivity; try assumption.
        -- intros ks'. split; [auto|]. intros [H| ->]; [assumption|]. rewrite Hto. eauto.
        -- rewrite (leafv_Some_T _ _ _ _ _ Hp Hn). destruct (decide _); [lia|reflexivity].
        -- now rewrite Hto.
      * intros H. contradiction.
    + assert (Hnew : T (ks ++ [c]) = None).
      { destruct (T (ks ++ [c])) eqn:Ec; [|reflexivity]. exfalso.
        destruct (inv_edge _ _ HI _ _ _ Ec) as (p' & np' & nt' & Hp' & Hnp' & _ & -> & Hnt' & Hc').
        rewrite Hp in Hp'. injection Hp' as <-. rewrite Hn in Hnp'. injection Hnp' as <-.
        rewrite Hnt in Hnt'. injection Hnt' as <-. contradiction. }
      destruct (is_free (array da) (Z.lxor (base n) (ord c))) eqn:Hfree.
      * destruct (link_follow_post da T ks c da T from n Hnew HI (same_leaves_refl _ _ _)
                    Hp Hn Hv Hfree) as (da3 & Hr & HP & _).
        eexists _, _, _. split; [exact Hr|]. split; [exact HP|]. intros H. contradiction.
      * unfold resolve, rd. rewrite Hnt. cbn [bind].
        rewrite (children_spec _ _ _ _ _ HI Hp Hl). cbn [bind].
        destruct (Z.eqb_spec (Z.lxor (base n) (ord c)) 0) as [E0|N0].
        -- cbn [bind orb].
           destruct (follow_relocate_self _ _ _ _ _ c _ HI Hp Hn Hv Hl Hnew)
             as (da' & T' & to & Hr & HP).
           eexists _, _, _. split; [exact Hr|]. split; [exact HP|]. intros H. contradiction.
        -- assert (Hocc : 0 <= Check nt).
           { unfold is_free in Hfree. rewrite Hnt in Hfree.
             apply andb_false_iff in Hfree. destruct Hfree as [Hf|Hf].
             - apply negb_false_iff, Z.eqb_eq in Hf. contradiction.
             - apply Z.ltb_ge in Hf. exact Hf. }
           destruct (inv_occ _ _ HI _ _ Hnt Hocc) as [ks_q Hks_q].
           destruct (snoc_cases ks_q) as [->|(ks_o & e & ->)].
           { rewrite (inv_root _ _ HI) in Hks_q. injection Hks_q as E0. symmetry in E0. contradiction. }
           destruct (inv_edge _ _ HI _ _ _ Hks_q) as (occ & n_occ & nt' & Ho & Hno & Hvo & Eq & Hnt' & Hco).
           rewrite Hnt in Hnt'. injection Hnt' as <-.
           destruct (inv_ring _ _ HI _ _ Ho) as [l_occ Hlo].
           rewrite Hco. rewrite (children_spec _ _ _ _ _ HI Ho Hlo). cbn [bind orb].
           destruct (Z.of_nat (length (c0 :: l0)) + 1 <=? Z.of_nat (length l_occ)).
           ++ destruct (follow_relocate_self _ _ _ _ _ c _ HI Hp Hn Hv Hl Hnew)
                as (da' & T' & to & Hr & HP).
              eexists _, _, _. split; [exact Hr|]. split; [exact HP|]. intros H. contradiction.
           ++ destruct (follow_relocate_other _ _ _ _ _ c _ _ _ _ e HI Hp Hn Hv Hnew Ho Hno Hvo Hlo Hks_q)
                as (da' & T' & to & Hr & HP).
              eexists _, _, _. split; [exact Hr|]. split; [exact HP|]. intros H. contradiction.
Qed.

(** ** Leaves and stored values *)

Lemma leafv_prefix_None (da : Cedar) (T : placement) (ks : list byte) (c : byte) :
  Inv da T -> T ks = None -> leafv da T (ks ++ [c]) = None.
Proof.
  intros HI H. apply leafv_None_T. destruct (T (ks ++ [c])) eqn:E; [|reflexivity].
  destruct (inv_edge _ _ HI _ _ _ E) as (p & _ & _ & Hp & _). congruence.
Qed.

Lemma leaf_no_child (da : Cedar) (T : placement) (ks : list byte) (v : Z) (c : byte) :
  Inv da T -> leafv da T ks = Some v -> T (ks ++ [c]) = None.
Proof.
  intros HI H. destruct (T (ks ++ [c])) eqn:E; [|reflexivity]. exfalso.
  destruct (inv_edge _ _ HI _ _ _ E) as (p & np & _ & Hp & Hnp & Hv & _).
  rewrite (leafv_Some_T _ _ _ _ _ Hp Hnp) in H. destruct (decide _); [lia|discriminate].
Qed.

Lemma leafv_Some_inv (da : Cedar) (T : placement) (ks : list byte) (v : Z) :
  leafv da T ks = Some v ->
  exists x n, T ks = Some x /\ at_ (array da) x = Some n /\ Value n = v /\ 0 <= v.
Proof.
  unfold leafv. destruct (T ks) as [x|] eqn:Hx; [|discriminate].
  destruct (at_ (array da) x) as [n|] eqn:Hn; [|discriminate].
  destruct (decide (0 <= Value n)) as [Hv|]; [|discriminate]. intros [= <-].
  exists x, n. split; [reflexivity|]. split; [exact Hn|]. split; [reflexivity|exact Hv].
Qed.

Lemma leafv_None_internal (da : Cedar) (T : placement) (ks : list byte) (x : Z) :
  Inv da T -> T ks = Some x -> leafv da T ks = None ->
  exists n, at_ (array da) x = Some n /\ Value n < 0.
Proof.
  intros HI Hx H. destruct (inv_placed _ _ HI _ _ Hx) as (n & Hn & _).
  rewrite (leafv_Some_T _ _ _ _ _ Hx Hn) in H.
  destruct (decide _); [discriminate|]. exists n. split; [assumption|lia].
Qed.

Lemma nul_free_snoc (k k2 : list byte) : NUL ∉ k -> k <> k2 ++ [NUL].
Proof. intros H ->. apply H. apply elem_of_app. right. now left. Qed.

Lemma nul_free_app (k1 k2 : list byte) :
  NUL ∉ (k1 ++ k2) <-> (NUL ∉ k1) /\ (NUL ∉ k2).
Proof. rewrite elem_of_app. tauto. Qed.

(** ** What [Jump] and [vKeyOf] find *)

Lemma Jump_loop_absent (da : Cedar) (T : placement) (path : list byte) :
  Inv da T ->
  forall ks from t0, T ks = Some from -> T (ks ++ path) = None ->
    exists x, Jump_loop da path from t0 = Ret (x, Some ErrNoPath).
Proof.
  intros HI. induction path as [|b path IH]; intros ks from t0 Hf Hn.
  - rewrite app_nil_r in Hn. congruence.
  - destruct (inv_placed _ _ HI _ _ Hf) as (n & Hnf & _).
    cbn [Jump_loop]. unfold rd. rewrite Hnf. cbn [bind].
    destruct (Z.geb_spec (Value n) 0) as [Hv|Hv]; [eauto|].
    destruct (inv_child_Some _ _ HI _ _ _ b Hf Hnf Hv) as (nt & _ & Hnt & _).
    rewrite Hnt. cbn [bind].
    destruct (Z.eqb_spec (Check nt) from) as [E|NE]; cbn [negb]; [|eauto].
    apply (IH (ks ++ [b])).
    + eapply inv_child_placed; eassumption.
    + now rewrite <- app_assoc.
Qed.

Lemma Jump_spec (da : Cedar) (T : placement) (k : list byte) :
  Inv da T ->
  match T k with
  | Some t => Jump da k 0 = Ret (t, None)
  | None => exists x, Jump da k 0 = Ret (x, Some ErrNoPath)
  end.
Proof.
  intros HI. destruct (T k) as [t|] eqn:E.
  - destruct k as [|b k].
    + rewrite (inv_root _ _ HI) in E. injection E as <-. reflexivity.
    + unfold Jump. apply Jump_loop_walk; [|discriminate]. eapply inv_walk; eassumption.
  - unfold Jump. eapply (Jump_loop_absent _ _ _ HI []); [apply (inv_root _ _ HI)|exact E].
Qed.

Lemma vKeyOf_spec (da : Cedar) (T : placement) (k : list byte) (t : Z) :
  Inv da T -> T k = Some t ->
  vKeyOf da t = Ret (match stored da T k with
                     | Some v => (v, None)
                     | None => (0, Some ErrNoValue)
                     end).
Proof.
  intros HI Ht. destruct (inv_placed _ _ HI _ _ Ht) as (n & Hn & _).
  unfold vKeyOf, stored, rd. rewrite Hn. cbn [bind].
  rewrite (leafv_Some_T _ _ _ _ _ Ht Hn).
  destruct (Z.geb_spec (Value n) 0) as [Hv|Hv]; destruct (decide _); try lia; [reflexivity|].
  destruct (inv_child_Some _ _ HI _ _ _ NUL Ht Hn Hv) as (nt & _ & Hnt & _).
  change (ord NUL) with 0 in Hnt. rewrite Z.lxor_0_r in Hnt. rewrite Hnt. cbn [bind].
  destruct (Z.eqb_spec (Check nt) t) as [E|NE]; cbn [andb].
  - assert (Hpl : T (k ++ [NUL]) = Some (Z.lxor (base n) (ord NUL))).
    { eapply inv_child_placed; try eassumption.
      change (ord NUL) with 0. now rewrite Z.lxor_0_r. }
    change (ord NUL) with 0 in Hpl. rewrite Z.lxor_0_r in Hpl.
    rewrite (leafv_Some_T _ _ _ _ _ Hpl Hnt).
    destruct (Z.geb_spec (Value nt) 0); destruct (decide _); try lia; reflexivity.
  - rewrite leafv_None_T; [reflexivity|].
    destruct (T (k ++ [NUL])) eqn:Ec; [|reflexivity]. exfalso.
    destruct (inv_edge _ _ HI _ _ _ Ec) as (p' & np' & nt' & Hp' & Hnp' & _ & -> & Hnt' & Hc').
    rewrite Ht in Hp'. injection Hp' as <-. rewrite Hn in Hnp'. injection Hnp' as <-.
    change (ord NUL) with 0 in Hnt'. rewrite Z.lxor_0_r, Hnt in Hnt'.
    injection Hnt' as <-. contradiction.
Qed.

Lemma stored_absent (da : Cedar) (T : placement) (k : list byte) :
  Inv da T -> T k = None -> stored da T k = None.
Proof.
  intros HI H. unfold stored. rewrite (leafv_None_T _ _ _ H).
  now apply leafv_prefix_None.
Qed.

Lemma lookup_key_stored (da : Cedar) (T : placement) (k : list byte) :
  Inv da T -> lookup_key da k = Ret (stored da T k).
Proof.
  intros HI. unfold lookup_key. pose proof (Jump_spec _ _ k HI) as HJ.
  destruct (T k) as [t|] eqn:E.
  - rewrite HJ. cbn [bind]. rewrite (vKeyOf_spec _ _ _ _ HI E). cbn [bind].
    destruct (stored da T k); reflexivity.
  - destruct HJ as [x ->]. cbn [bind]. now rewrite stored_absent.
Qed.

(** ** The walk keeps the invariants *)

Lemma Strict_follow (da : Cedar) (T : placement) (ks : list byte) (c : byte)
    (da' : Cedar) (T' : placement) (to : Z) :
  Inv da T -> Strict da T -> follow_post da T ks c da' T' to -> Strict da' T'.
Proof.
  intros HI HS HP ks' x n' Hne Hx Hn' Hv'.
  assert (Hlv : leafv da' T' ks' = None).
  { rewrite (leafv_Some_T _ _ _ _ _ Hx Hn'). destruct (decide _); [lia|reflexivity]. }
  assert (Hold : forall y, T ks' = Some y -> leafv da T ks' = None ->
                   exists d, is_Some (T' (ks' ++ [d]))).
  { intros y Hy Hl. destruct (leafv_None_internal _ _ _ _ HI Hy Hl) as (n & Hn & Hv).
    destruct (HS _ _ _ Hne Hy Hn Hv) as [d Hd]. exists d.
    apply (fp_dom _ _ _ _ _ _ _ HP). now left. }
  destruct (decide (ks' = ks)) as [->|N1].
  { exists c. rewrite (fp_to _ _ _ _ _ _ _ HP). eauto. }
  destruct (decide (ks' = ks ++ [c])) as [->|N2].
  { rewrite (fp_new _ _ _ _ _ _ _ HP) in Hlv.
    destruct (T (ks ++ [c])) as [y|] eqn:Hy; [|discriminate]. eapply Hold; eauto. }
  rewrite (fp_leaves _ _ _ _ _ _ _ HP _ N1 N2) in Hlv.
  assert (Hd : is_Some (T' ks')) by (rewrite Hx; eauto).
  apply (fp_dom _ _ _ _ _ _ _ HP) in Hd. destruct Hd as [[y Hy]|E]; [|contradiction].
  eapply Hold; eauto.
Qed.

Lemma NulLeaf_follow (da : Cedar) (T : placement) (ks : list byte) (c : byte)
    (da' : Cedar) (T' : placement) (to : Z) :
  NUL ∉ ks -> NulLeaf da T -> follow_post da T ks c da' T' to -> NulLeaf da' T'.
Proof.
  intros Hnul HN HP ks' y Hy.
  assert (N1 : ks' ++ [NUL] <> ks).
  { intros E. symmetry in E. revert E. now apply nul_free_snoc. }
  destruct (decide (ks' ++ [NUL] = ks ++ [c])) as [E|N2].
  - rewrite E. rewrite (fp_new _ _ _ _ _ _ _ HP).
    destruct (T (ks ++ [c])) as [z|] eqn:Hz; [|eauto].
    rewrite <- E. eapply HN. rewrite E. exact Hz.
  - rewrite (fp_leaves _ _ _ _ _ _ _ HP _ N1 N2).
    assert (Hd : is_Some (T' (ks' ++ [NUL]))) by (rewrite Hy; eauto).
    apply (fp_dom _ _ _ _ _ _ _ HP) in Hd. destruct Hd as [[z Hz]|Ec]; [|contradiction].
    eapply HN. exact Hz.
Qed.

Lemma storedv_eq (da : Cedar) (T : placement) (da' : Cedar) (T' : placement)
    (k : list byte) :
  leafv da' T' k = leafv da T k ->
  leafv da' T' (k ++ [NUL]) = leafv da T (k ++ [NUL]) ->
  storedv da' T' k = storedv da T k.
Proof. intros H1 H2. unfold storedv, stored. now rewrite H1, H2. Qed.

(** Writing a value into a leaf. *)
Lemma setValue_leaf_post (da : Cedar) (T : placement) (kk : list byte) (x : Z)
    (w v : Z) :
  Inv da T -> T kk = Some x -> leafv da T kk = Some w -> 0 <= v ->
  exists da',
    setValue da x v = Ret da' /\ Inv da' T /\
    leafv da' T kk = Some v /\
    (forall ks', ks' <> kk -> leafv da' T ks' = leafv da T ks') /\
    (Strict da T -> Strict da' T) /\
    (NulLeaf da T -> NulLeaf da' T) /\
    info da' = info da /\ vals da' = vals da /\ vkey da' = vkey da.
Proof.
  intros HI Hx Hw Hv.
  destruct (leafv_Some_inv _ _ _ _ Hw) as (x' & n & Hx' & Hn & Hvn & Hw0).
  rewrite Hx in Hx'. injection Hx' as <-.
  destruct (inv_ring _ _ HI _ _ Hx) as [l Hl].
  assert (l = []) by (eapply ring_nil_of_no_child; [exact Hl|]; intros d;
                      eapply leaf_no_child; eassumption). subst l.
  rewrite (setValue_Ret _ _ _ _ Hn).
  set (da' := set_array da (<[Z.to_nat x := mkNode v (Check n)]> (array da))).
  assert (Ha' : forall j, at_ (array da') j
                = if decide (j = x) then Some (mkNode v (Check n)) else at_ (array da) j).
  { intros j. unfold da'. cbn [set_array array]. apply (at_upd _ _ _ _ _ Hn). }
  assert (HI' : Inv da' T).
  { apply (Inv_setValue_childless _ _ HI _ _ _ _ Hx Hn Hl); [|lia].
    intros ->. destruct (inv_root_node _ _ HI) as (n0 & Hn0 & Hv0 & _).
    rewrite Hn in Hn0. injection Hn0 as <-. lia. }
  assert (Hkk : leafv da' T kk = Some v).
  { rewrite (leafv_Some_T _ _ _ _ (mkNode v (Check n)) Hx).
    + cbn. destruct (decide _); [reflexivity|lia].
    + rewrite Ha'. now destruct (decide _). }
  assert (Hoth : forall ks', ks' <> kk -> leafv da' T ks' = leafv da T ks').
  { intros ks' N. unfold leafv. destruct (T ks') as [y|] eqn:Hy; [|reflexivity].
    rewrite Ha'. destruct (decide _) as [->|_]; [|reflexivity].
    exfalso. apply N. eapply (inv_inj _ _ HI); eassumption. }
  exists da'. split; [reflexivity|]. split; [exact HI'|].
  split; [exact Hkk|]. split; [exact Hoth|]. split; [|split].
  - intros HS ks' y ny Hne Hy Hny Hvy. rewrite Ha' in Hny.
    destruct (decide _) as [->|_].
    + injection Hny as <-. cbn in Hvy. lia.
    + eapply HS; eassumption.
  - intros HN ks' y Hy. destruct (decide (ks' ++ [NUL] = kk)) as [E|N].
    + rewrite E, Hkk. eauto.
    + rewrite (Hoth _ N). eapply HN; exact Hy.
  - auto.
Qed.

Lemma Bounded_follow (da : Cedar) (T : placement) (ks : list byte) (c : byte)
    (da' : Cedar) (T' : placement) (to : Z) :
  follow_post da T ks c da' T' to -> Bounded da T -> Bounded da' T'.
Proof.
  intros HP HB ks' v Hv.
  destruct (decide (ks' = ks)) as [->|N1].
  - rewrite (fp_here _ _ _ _ _ _ _ HP) in Hv. discriminate.
  - destruct (decide (ks' = ks ++ [c])) as [->|N2].
    + rewrite (fp_new _ _ _ _ _ _ _ HP) in Hv.
      destruct (T (ks ++ [c])); [exact (HB _ _ Hv)|]. injection Hv as <-. lia.
    + rewrite (fp_leaves _ _ _ _ _ _ _ HP _ N1 N2) in Hv. exact (HB _ _ Hv).
Qed.

Lemma Bounded_set (da : Cedar) (T : placement) (da' : Cedar) (T' : placement)
    (kk : list byte) (v : Z) :
  Bounded da T -> v <= valueLimit -> leafv da' T' kk = Some v ->
  (forall ks', ks' <> kk -> leafv da' T' ks' = leafv da T ks') ->
  Bounded da' T'.
Proof.
  intros HB Hv Hkk Hoth ks' w Hw. destruct (decide (ks' = kk)) as [->|N].
  - rewrite Hkk in Hw. injection Hw as <-. exact Hv.
  - rewrite (Hoth _ N) in Hw. exact (HB _ _ Hw).
Qed.

(** The move of a value to the child with label 0. *)
Lemma move_value_spec (da : Cedar) (T : placement) (ks : list byte) (from v : Z) :
  Inv da T -> T ks = Some from -> leafv da T ks = Some v -> NUL ∉ ks ->
  exists da' T',
    ('(da1, to) <- follow da from NUL; setValue da1 to v) = Ret da' /\
    Inv da' T' /\ T' ks = Some from /\ (Strict da T -> Strict da' T') /\
    (NulLeaf da T -> NulLeaf da' T') /\
    leafv da' T' ks = None /\
    (forall k', NUL ∉ k' -> storedv da' T' k' = storedv da T k') /\
    vals da' = vals da /\ vkey da' = vkey da /\
    (Bounded da T -> Bounded da' T').
Proof.
  intros HI Hf Hv Hnul.
  destruct (leafv_Some_inv _ _ _ _ Hv) as (x' & n & Hx' & Hn & Hvn & Hv0).
  assert (Hnc : forall d, T (ks ++ [d]) = None) by (intros d; eapply leaf_no_child; eassumption).
  destruct (follow_spec _ _ _ _ NUL HI Hf) as (da1 & T1 & to & Hr & HP & Hks).
  specialize (Hks Hnc). rewrite Hr. cbn [bind].
  pose proof (fp_new _ _ _ _ _ _ _ HP) as Hnew. rewrite (Hnc NUL) in Hnew.
  destruct (setValue_leaf_post _ _ _ _ _ v (fp_inv _ _ _ _ _ _ _ HP) (fp_to _ _ _ _ _ _ _ HP) Hnew Hv0)
    as (da2 & Hr2 & HI2 & Hl2 & Hl2' & HS2 & HN2 & _ & Hv2 & Hk2).
  exists da2, T1. split; [exact Hr2|]. split; [exact HI2|]. split; [exact Hks|].
  assert (Hhere : leafv da2 T1 ks = None).
  { rewrite Hl2'; [apply (fp_here _ _ _ _ _ _ _ HP)|apply snoc_neq_self]. }
  split; [|split; [|split; [exact Hhere|split; [|split; [|split]]]]].
  - intros HS. apply HS2. exact (Strict_follow _ _ _ _ _ _ _ HI HS HP).
  - intros HN. apply HN2. exact (NulLeaf_follow _ _ _ _ _ _ _ Hnul HN HP).
  - intros k' Hk'. destruct (decide (k' = ks)) as [->|N].
    + unfold storedv, stored. now rewrite Hhere, Hl2, Hv.
    + apply storedv_eq.
      * rewrite Hl2'; [|now apply nul_free_snoc].
        apply (fp_leaves _ _ _ _ _ _ _ HP); [exact N|now apply nul_free_snoc].
      * rewrite Hl2'.
        -- apply (fp_leaves _ _ _ _ _ _ _ HP).
           ++ intros E. symmetry in E. revert E. now apply nul_free_snoc.
           ++ intros E. apply app_inj_tail in E. destruct E. contradiction.
        -- intros E. apply app_inj_tail in E. destruct E. contradiction.
  - rewrite Hv2. apply (fp_vals _ _ _ _ _ _ _ HP).
  - rewrite Hk2. apply (fp_vkey _ _ _ _ _ _ _ HP).
  - intros HB. eapply (Bounded_set da1 T1 da2 T1 (ks ++ [NUL]) v).
    + eapply Bounded_follow; eassumption.
    + exact (HB _ _ Hv).
    + exact Hl2.
    + exact Hl2'.
Qed.

(** A step of the walk by a byte of the key. *)
Lemma follow_stored (da : Cedar) (T : placement) (ks : list byte) (b : byte)
    (da' : Cedar) (T' : placement) (to : Z) :
  Inv da T -> follow_post da T ks b da' T' to -> NUL ∉ ks -> b <> NUL ->
  (leafv da T ks = None \/ leafv da T ks = Some valueLimit) ->
  forall k', NUL ∉ k' -> storedv da' T' k' = storedv da T k'.
Proof.
  intros HI HP Hnul Hb Hhere k' Hk'.
  assert (Hside : forall k2, k2 <> ks -> k2 ++ [NUL] <> ks ++ [b]).
  { intros k2 _ E. apply app_inj_tail in E. destruct E as [_ E]. congruence. }
  assert (Hnul' : forall k2, k2 ++ [NUL] <> ks).
  { intros k2 E. symmetry in E. revert E. now apply nul_free_snoc. }
  destruct (decide (k' = ks)) as [->|N1].
  - assert (H2 : leafv da' T' (ks ++ [NUL]) = leafv da T (ks ++ [NUL])).
    { apply (fp_leaves _ _ _ _ _ _ _ HP); [apply Hnul'|].
      intros E. apply app_inj_tail in E. destruct E as [_ E]. congruence. }
    unfold storedv, stored. rewrite (fp_here _ _ _ _ _ _ _ HP), H2.
    destruct Hhere as [H|H]; rewrite H; [reflexivity|].
    rewrite (leafv_None_T _ _ _ (leaf_no_child _ _ _ _ NUL HI H)).
    destruct (decide _); [reflexivity|contradiction].
  - destruct (decide (k' = ks ++ [b])) as [->|N2].
    + pose proof (fp_new _ _ _ _ _ _ _ HP) as Hnew.
      destruct (T (ks ++ [b])) as [y|] eqn:Hy.
      * apply storedv_eq; [exact Hnew|].
        apply (fp_leaves _ _ _ _ _ _ _ HP); [apply Hnul'|].
        intros E. apply app_inj_tail in E. destruct E as [E _].
        symmetry in E. eapply snoc_neq_self; exact E.
      * unfold storedv at 1, stored at 1. rewrite Hnew.
        destruct (decide _); [|contradiction].
        unfold storedv. now rewrite (stored_absent _ _ _ HI Hy).
    + apply storedv_eq.
      * apply (fp_leaves _ _ _ _ _ _ _ HP); assumption.
      * apply (fp_leaves _ _ _ _ _ _ _ HP); [apply Hnul'|now apply Hside].
Qed.

(** The last step of the walk, to the child with label 0. *)
Lemma follow_NUL_stored (da : Cedar) (T : placement) (ks : list byte)
    (da' : Cedar) (T' : placement) (to : Z) :
  Inv da T -> follow_post da T ks NUL da' T' to -> NUL ∉ ks ->
  leafv da T ks = None ->
  forall k', NUL ∉ k' -> storedv da' T' k' = storedv da T k'.
Proof.
  intros HI HP Hnul Hhere k' Hk'.
  destruct (decide (k' = ks)) as [->|N1].
  - unfold storedv, stored. rewrite (fp_here _ _ _ _ _ _ _ HP), Hhere.
    rewrite (fp_new _ _ _ _ _ _ _ HP).
    destruct (T (ks ++ [NUL])) as [y|] eqn:Hy; [reflexivity|].
    rewrite (leafv_None_T _ _ _ Hy). destruct (decide _); [reflexivity|contradiction].
  - apply storedv_eq.
    + apply (fp_leaves _ _ _ _ _ _ _ HP); [exact N1|now apply nul_free_snoc].
    + apply (fp_leaves _ _ _ _ _ _ _ HP).
      * intros E. symmetry in E. revert E. now apply nul_free_snoc.
      * intros E. apply app_inj_tail in E. destruct E. contradiction.
Qed.

Lemma get_spec (key : list byte) :
  forall da T ks from,
    Inv da T -> NulLeaf da T -> T ks = Some from -> NUL ∉ ks -> NUL ∉ key ->
    exists da' T' id,
      get da key from = Ret (da', id) /\ get_post da T (ks ++ key) da' T' id.
Proof.
  induction key as [|b rest IH]; intros da T ks from HI HN Hf Hnul Hkey.
  - destruct (inv_placed _ _ HI _ _ Hf) as (n & Hn & _).
    cbn [get]. unfold rd. rewrite Hn. cbn [bind]. rewrite app_nil_r.
    destruct (Z.ltb_spec (Value n) 0) as [Hv|Hv].
    + destruct (follow_spec _ _ _ _ NUL HI Hf) as (da' & T' & to & Hr & HP & _).
      exists da', T', to. split; [exact Hr|].
      assert (Hhere : leafv da T ks = None).
      { rewrite (leafv_Some_T _ _ _ _ _ Hf Hn). destruct (decide _); [lia|reflexivity]. }
      pose proof (NulLeaf_follow _ _ _ _ _ _ _ Hnul HN HP) as HN'.
      destruct (HN' _ _ (fp_to _ _ _ _ _ _ _ HP)) as [v Hv'].
      split.
      * apply (fp_inv _ _ _ _ _ _ _ HP).
      * intros HS. exact (Strict_follow _ _ _ _ _ _ _ HI HS HP).
      * intros _. exact HN'.
      * eapply follow_NUL_stored; eassumption.
      * exists (ks ++ [NUL]), v. split; [now right|].
        split; [apply (fp_to _ _ _ _ _ _ _ HP)|]. split; [exact Hv'|].
        unfold stored. now rewrite (fp_here _ _ _ _ _ _ _ HP).
      * apply (fp_vals _ _ _ _ _ _ _ HP).
      * apply (fp_vkey _ _ _ _ _ _ _ HP).
      * eapply Bounded_follow; eassumption.
    + exists da, T, from. split; [reflexivity|].
      assert (Hhere : leafv da T ks = Some (Value n)).
      { rewrite (leafv_Some_T _ _ _ _ _ Hf Hn). destruct (decide _); [reflexivity|lia]. }
      split; try reflexivity; try assumption; auto.
      exists ks, (Value n). split; [now left|]. split; [exact Hf|]. split; [exact Hhere|].
      unfold stored. now rewrite Hhere.
  - assert (Hb : b <> NUL) by (intros ->; apply Hkey; now left).
    assert (Hrest : NUL ∉ rest) by (intros H; apply Hkey; now right).
    destruct (inv_placed _ _ HI _ _ Hf) as (n & Hn & _).
    cbn [get]. unfold rd at 1. rewrite Hn. cbn [bind].
    assert (Hstep : exists da1 T1,
              (if (0 <=? Value n) && negb (Value n =? valueLimit)
               then '(da0, to) <- follow da from NUL; setValue da0 to (Value n)
               else Ret da) = Ret da1 /\
              Inv da1 T1 /\ T1 ks = Some from /\
              (Strict da T -> Strict da1 T1) /\ NulLeaf da1 T1 /\
              (leafv da1 T1 ks = None \/ leafv da1 T1 ks = Some valueLimit) /\
              (forall k', NUL ∉ k' -> storedv da1 T1 k' = storedv da T k') /\
              vals da1 = vals da /\ vkey da1 = vkey da /\
              (Bounded da T -> Bounded da1 T1)).
    { destruct (Z.leb_spec 0 (Value n)) as [H0|H0]; cbn [andb].
      - destruct (Z.eqb_spec (Value n) valueLimit) as [E|NE]; cbn [negb].
        + exists da, T. split; [reflexivity|]. split; [exact HI|]. split; [exact Hf|].
          split; [auto|]. split; [exact HN|]. split; [|auto 6].
          right. rewrite (leafv_Some_T _ _ _ _ _ Hf Hn). rewrite E.
          destruct (decide _) as [_|N]; [reflexivity|]. unfold valueLimit in N. lia.
        + assert (Hl : leafv da T ks = Some (Value n)).
          { rewrite (leafv_Some_T _ _ _ _ _ Hf Hn). destruct (decide _); [reflexivity|lia]. }
          destruct (move_value_spec _ _ _ _ _ HI Hf Hl Hnul)
            as (da1 & T1 & Hr & HI1 & Hf1 & HS1 & HN1 & Hh1 & Hst1 & Hv1 & Hk1 & HB1).
          exists da1, T1. split; [exact Hr|]. auto 12.
      - exists da, T. split; [reflexivity|]. split; [exact HI|]. split; [exact Hf|].
        split; [auto|]. split; [exact HN|]. split; [|auto 6].
        left. rewrite (leafv_Some_T _ _ _ _ _ Hf Hn). destruct (decide _); [lia|reflexivity]. }
    destruct Hstep as (da1 & T1 & Hr1 & HI1 & Hf1 & HS1 & HN1 & Hh1 & Hst1 & Hv1 & Hk1 & HB1).
    rewrite Hr1. cbn [bind].
    destruct (follow_spec _ _ _ _ b HI1 Hf1) as (da2 & T2 & to2 & Hr2 & HP2 & _).
    rewrite Hr2. cbn [bind].
    assert (Hnul2 : NUL ∉ (ks ++ [b])).
    { apply nul_free_app. split; [exact Hnul|]. intros H.
      apply list_elem_of_singleton in H. congruence. }
    destruct (IH da2 T2 (ks ++ [b]) to2 (fp_inv _ _ _ _ _ _ _ HP2)
                (NulLeaf_follow _ _ _ _ _ _ _ Hnul HN1 HP2)
                (fp_to _ _ _ _ _ _ _ HP2) Hnul2 Hrest)
      as (da' & T' & id & Hr & HG).
    exists da', T', id. split; [exact Hr|].
    replace (ks ++ b :: rest) with ((ks ++ [b]) ++ rest) by now rewrite <- app_assoc.
    destruct HG as [G1 G2 G3 G4 G5 G6 G7 G8]. split.
    + exact G1.
    + intros HS. apply G2. exact (Strict_follow _ _ _ _ _ _ _ HI1 (HS1 HS) HP2).
    + intros _. apply G3. exact (NulLeaf_follow _ _ _ _ _ _ _ Hnul HN1 HP2).
    + intros k' Hk'. rewrite (G4 _ Hk'). rewrite <- (Hst1 _ Hk').
      eapply follow_stored; eassumption.
    + exact G5.
    + rewrite G6, (fp_vals _ _ _ _ _ _ _ HP2). exact Hv1.
    + rewrite G7, (fp_vkey _ _ _ _ _ _ _ HP2). exact Hk1.
    + intros HB. apply G8. eapply Bounded_follow; [exact HP2|]. exact (HB1 HB).
Qed.

(** ** The invariants see the two arrays only *)

Lemma ring_ext (da da2 : Cedar) (T : placement) (ks : list byte) (p : Z)
    (l : list byte) :
  array da2 = array da -> info da2 = info da -> ring da T ks p l -> ring da2 T ks p l.
Proof.
  intros Ha Hi [H1 H2 H3 H4]. split; try assumption.
  - now rewrite Hi.
  - rewrite Ha, Hi. exact H4.
Qed.

Lemma Inv_ext (da da2 : Cedar) (T : placement) :
  array da2 = array da -> info da2 = info da -> Inv da T -> Inv da2 T.
Proof.
  intros Ha Hi [H1 H2 H3 H4 H5 H6 H7 H8 H9 H10].
  split; rewrite ?Ha, ?Hi; try assumption.
  intros ks p Hp. destruct (H10 _ _ Hp) as [l Hl]. exists l. now apply (ring_ext da).
Qed.

Lemma leafv_ext (da da2 : Cedar) (T : placement) (ks : list byte) :
  array da2 = array da -> leafv da2 T ks = leafv da T ks.
Proof. intros Ha. unfold leafv. now rewrite Ha. Qed.

Lemma stored_ext (da da2 : Cedar) (T : placement) (k : list byte) :
  array da2 = array da -> stored da2 T k = stored da T k.
Proof. intros Ha. unfold stored. now rewrite !(leafv_ext da da2). Qed.

Lemma storedv_ext (da da2 : Cedar) (T : placement) (k : list byte) :
  array da2 = array da -> storedv da2 T k = storedv da T k.
Proof. intros Ha. unfold storedv. now rewrite (stored_ext da da2). Qed.

Lemma Strict_ext (da da2 : Cedar) (T : placement) :
  array da2 = array da -> Strict da T -> Strict da2 T.
Proof. intros Ha HS ks p np Hne Hp Hnp Hv. rewrite Ha in Hnp. eapply HS; eassumption. Qed.

Lemma NulLeaf_ext (da da2 : Cedar) (T : placement) :
  array da2 = array da -> NulLeaf da T -> NulLeaf da2 T.
Proof. intros Ha HN ks y Hy. rewrite (leafv_ext da da2 _ _ Ha). eapply HN; exact Hy. Qed.

(** Setting the terminal flag of a node. *)
Lemma Inv_setEnd (da : Cedar) (T : placement) (kk : list byte) (id : Z)
    (e : bool) (x : ninfo) :
  Inv da T -> T kk = Some id -> at_ (info da) id = Some x ->
  Inv (set_info da (<[Z.to_nat id := mkInfo (Sibling x) (Child x) e]> (info da))) T.
Proof.
  intros HI Hid Hx.
  destruct (inv_placed _ _ HI _ _ Hid) as (nid & Hnid & Hcase).
  assert (Hi' : forall j, at_ (<[Z.to_nat id := mkInfo (Sibling x) (Child x) e]> (info da)) j
                = if decide (j = id) then Some (mkInfo (Sibling x) (Child x) e)
                  else at_ (info da) j).
  { intros j. apply (at_upd _ _ _ _ _ Hx). }
  assert (Hsame : forall j i, at_ (info da) j = Some i ->
            exists i', at_ (<[Z.to_nat id := mkInfo (Sibling x) (Child x) e]> (info da)) j = Some i' /\
                       Child i' = Child i /\ Sibling i' = Sibling i).
  { intros j i Hj. rewrite Hi'. destruct (decide _) as [->|_].
    - rewrite Hx in Hj. injection Hj as <-. eexists. split; [reflexivity|]. cbn. auto.
    - eauto. }
  destruct HI as [H1 H2 H3 H4 H5 H6 H7 H8 H9 H10].
  split; cbn [set_info array info]; try assumption.
  - rewrite length_insert. exact H1.
  - intros t nt Ht0 Hnt Hc. rewrite Hi'. destruct (decide _) as [->|_].
    + exfalso. rewrite Hnid in Hnt. injection Hnt as <-.
      destruct Hcase as [[_ ?]|(_ & _ & ?)]; [contradiction|lia].
    + eapply H8; eassumption.
  - intros ks p Hp. destruct (H10 _ _ Hp) as [l Hl]. exists l.
    eapply ring_frame; [exact Hl|reflexivity| |].
    + intros i Hi. destruct (Hsame _ _ Hi) as (i' & Hi'' & C & _). eauto.
    + intros n' Hn'. exists n'. split; [exact Hn'|]. intros c i _ Hi.
      destruct (Hsame _ _ Hi) as (i' & Hi'' & _ & S). eauto.
Qed.
(** ** Walking existing edges *)

Lemma follow_existing (da : Cedar) (T : placement) (ks : list byte) (from : Z)
    (c : byte) (y : Z) :
  Inv da T -> T ks = Some from -> T (ks ++ [c]) = Some y ->
  follow da from c = Ret (da, y).
Proof.
  intros HI Hf Hy.
  destruct (inv_ring _ _ HI _ _ Hf) as [l Hl].
  assert (Hc : c ∈ l). { apply (ring_dom _ _ _ _ _ Hl). rewrite Hy. eauto. }
  pose proof (hasChild_spec _ _ _ _ _ HI Hf Hl) as Hh.
  destruct (inv_edge _ _ HI _ _ _ Hy) as (p & np & nt & Hp & Hnp & Hv & -> & Hnt & Hck).
  rewrite Hf in Hp. injection Hp as <-.
  unfold follow. rewrite Hh. destruct l as [|c0 l]; [inversion Hc|]. cbn.
  unfold rd. rewrite Hnp. cbn. rewrite Hnt. cbn.
  rewrite Hck, Z.eqb_refl. reflexivity.
Qed.

Lemma placed_prefix (da : Cedar) (T : placement) (ks path : list byte) :
  Inv da T -> is_Some (T (ks ++ path)) -> is_Some (T ks).
Proof.
  intros HI. induction path as [|c path IH] using rev_ind.
  - now rewrite app_nil_r.
  - rewrite app_assoc. intros [t Ht].
    destruct (inv_edge _ _ HI _ _ _ Ht) as (p & _ & _ & Hp & _). apply IH. eauto.
Qed.

Lemma stored_placed (da : Cedar) (T : placement) (k : list byte) (v : Z) :
  Inv da T -> stored da T k = Some v -> is_Some (T k).
Proof.
  intros HI. unfold stored. destruct (leafv da T k) eqn:E.
  - intros _. apply leafv_Some_inv in E as (x & _ & Hx & _). eauto.
  - intros H. apply leafv_Some_inv in H as (x & _ & Hx & _).
    apply (placed_prefix da T k [NUL] HI). eauto.
Qed.

(** On a key that stores an integer, the insert-mode walk changes nothing
    and ends at the leaf that holds the integer. *)
Lemma get_present (key : list byte) :
  forall da T ks from v,
    Inv da T -> T ks = Some from -> stored da T (ks ++ key) = Some v ->
    exists id kk,
      get da key from = Ret (da, id) /\
      (kk = ks ++ key \/ kk = (ks ++ key) ++ [NUL]) /\
      T kk = Some id /\ leafv da T kk = Some v /\
      (kk = (ks ++ key) ++ [NUL] -> leafv da T (ks ++ key) = None).
Proof.
  induction key as [|b rest IH]; intros da T ks from v HI Hf Hs.
  - rewrite app_nil_r in *. cbn [get].
    destruct (inv_placed _ _ HI _ _ Hf) as (n & Hn & _).
    unfold rd. rewrite Hn. cbn. unfold stored in Hs.
    rewrite (leafv_Some_T _ _ _ _ _ Hf Hn) in Hs.
    destruct (decide (0 <= Value n)) as [Hv|Hv].
    + injection Hs as <-. destruct (Z.ltb_spec (Value n) 0); [lia|].
      exists from, ks. split; [reflexivity|]. split; [now left|]. split; [exact Hf|].
      split; [|intros E; exfalso; eapply snoc_neq_self; exact E].
      rewrite (leafv_Some_T _ _ _ _ _ Hf Hn). now destruct (decide _).
    + destruct (Z.ltb_spec (Value n) 0); [|lia].
      pose proof Hs as Hs'. apply leafv_Some_inv in Hs' as (y & ny & Hy & _).
      rewrite (follow_existing _ _ _ _ _ _ HI Hf Hy).
      exists y, (ks ++ [NUL]). split; [reflexivity|]. split; [now right|].
      split; [exact Hy|]. split; [exact Hs|]. intros _.
      rewrite (leafv_Some_T _ _ _ _ _ Hf Hn). now destruct (decide _).
  - cbn [get].
    destruct (inv_placed _ _ HI _ _ Hf) as (n & Hn & _).
    unfold rd. rewrite Hn. cbn.
    pose proof (stored_placed _ _ _ _ HI Hs) as Hpl.
    replace (ks ++ b :: rest) with ((ks ++ [b]) ++ rest) in Hpl, Hs |- *
      by now rewrite <- app_assoc.
    destruct (placed_prefix _ _ _ _ HI Hpl) as [y Hy].
    destruct (inv_edge _ _ HI _ _ _ Hy) as (p & np & nt & Hp & Hnp & Hv & _).
    rewrite Hf in Hp. injection Hp as <-. rewrite Hn in Hnp. injection Hnp as <-.
    destruct (Z.leb_spec 0 (Value n)); [lia|]. cbn.
    rewrite (follow_existing _ _ _ _ _ _ HI Hf Hy). cbn.
    apply (IH da T (ks ++ [b]) y v HI Hy Hs).
Qed.

(** ** [Insert] *)

Lemma stored_holder (da : Cedar) (T : placement) (K kk : list byte) (v : Z) :
  Inv da T -> (kk = K \/ kk = K ++ [NUL]) -> leafv da T kk = Some v ->
  stored da T K = Some v.
Proof.
  intros HI [->| ->] Hv; unfold stored.
  - now rewrite Hv.
  - destruct (leafv da T K) as [w|] eqn:E; [|exact Hv].
    apply leafv_Some_inv in Hv as (x & _ & Hx & _).
    rewrite (leaf_no_child _ _ _ _ NUL HI E) in Hx. discriminate.
Qed.

Lemma holder_other (K kk k' : list byte) :
  (kk = K \/ kk = K ++ [NUL]) -> NUL ∉ K -> NUL ∉ k' -> k' <> K ->
  k' <> kk /\ k' ++ [NUL] <> kk.
Proof.
  intros [->| ->] HK Hk' Hne; split; try assumption.
  - intros E. apply HK. rewrite <- E. apply elem_of_app. right. now left.
  - intros E. apply Hk'. rewrite E. apply elem_of_app. right. now left.
  - intros E. apply app_inj_tail in E as [E _]. contradiction.
Qed.

Lemma Insert_spec (da : Cedar) (T : placement) (k : list byte) (v : iface) :
  Inv da T -> Strict da T -> NulLeaf da T -> NUL ∉ k -> 0 <= vkey da ->
  exists da' T',
    Insert da k v = Ret (da', None) /\
    Inv da' T' /\ Strict da' T' /\ NulLeaf da' T' /\
    stored da' T' k = Some (vkey da) /\
    (forall k', NUL ∉ k' -> k' <> k -> storedv da' T' k' = storedv da T k') /\
    vals da' = <[vkey da := mkNValue (Z.of_nat (length k)) v]> (vals da) /\
    vkey da' = wrap64 (vkey da + 1) /\
    (Bounded da T -> vkey da <= valueLimit -> Bounded da' T').
Proof.
  intros HI HS HN Hk Hvk.
  set (da0 := set_vkey da (wrap64 (vkey da + 1))).
  assert (HI0 : Inv da0 T) by (now apply (Inv_ext da)).
  assert (HS0 : Strict da0 T) by (now apply (Strict_ext da)).
  assert (HN0 : NulLeaf da0 T) by (now apply (NulLeaf_ext da)).
  destruct (get_spec k da0 T [] 0 HI0 HN0 (inv_root _ _ HI0)) as (da1 & T1 & id & Hget & GP);
    [inversion 1|exact Hk|].
  cbn [app] in GP. destruct GP as [G1 G2 G3 G4 G5 G6 G7 G8].
  destruct G5 as (kk & w & Hkk & Hid & Hw & Hst).
  destruct (setValue_leaf_post da1 T1 kk id w (vkey da) G1 Hid Hw Hvk)
    as (da2 & Hset & HI2 & Hl2 & Hoth & HS2 & HN2 & Hinf & Hvals2 & Hvkey2).
  destruct (inv_placed _ _ HI2 _ _ Hid) as (nid & Hnid & _).
  destruct (inv_info_Some _ _ HI2 _ _ Hnid) as (x & Hx).
  pose proof (Inv_setEnd da2 T1 kk id true x HI2 Hid Hx) as HI3.
  set (da3 := set_info da2 (<[Z.to_nat id := mkInfo (Sibling x) (Child x) true]> (info da2))) in *.
  set (da4 := set_vals da3 (<[vkey da := mkNValue (Z.of_nat (length k)) v]> (vals da3))).
  exists da4, T1.
  assert (Ha4 : array da4 = array da2) by reflexivity.
  split.
  { unfold Insert, vKey. fold da0. rewrite Hget. cbn [bind]. rewrite Hset. cbn [bind].
    rewrite (setEnd_Ret _ _ _ _ Hx). reflexivity. }
  split. { apply (Inv_ext da3); [reflexivity|reflexivity|exact HI3]. }
  split. { apply (Strict_ext da2); [exact Ha4|]. apply HS2, G2, HS0. }
  split. { apply (NulLeaf_ext da2); [exact Ha4|]. apply HN2, G3, HN0. }
  split.
  { rewrite (stored_ext da2 da4 _ _ Ha4). eapply stored_holder; eassumption. }
  split.
  { intros k' Hk' Hne. rewrite (storedv_ext da2 da4 _ _ Ha4).
    destruct (holder_other k kk k' Hkk Hk Hk' Hne) as [N1 N2].
    rewrite <- (storedv_ext da da0 T k' eq_refl), <- (G4 k' Hk').
    apply storedv_eq; apply Hoth; assumption. }
  split.
  { cbn. rewrite Hvals2, G6. reflexivity. }
  split.
  { cbn. rewrite Hvkey2, G7. reflexivity. }
  intros HB Hle. apply (Bounded_set da1 T1 da4 T1 kk (vkey da)).
  - apply G8. intros ks' v' Hv'. apply (HB ks' v'). exact Hv'.
  - exact Hle.
  - rewrite (leafv_ext da2 da4 _ _ Ha4). exact Hl2.
  - intros ks' N. rewrite (leafv_ext da2 da4 _ _ Ha4). apply Hoth, N.
Qed.

(** ** Removal of a label from a child ring *)

Lemma del_elem (c d : byte) (l : list byte) :
  ascending l -> (d ∈ del c l <-> d <> c /\ d ∈ l).
Proof.
  induction l as [|e l IH]; intros Ha; cbn [del].
  - split; [inversion 1|intros [_ H]; inversion H].
  - apply ascending_cons_inv in Ha as [Ha Hall].
    destruct (decide (e = c)) as [->|Hne].
    + rewrite elem_of_cons. split.
      * intros H. split; [|now right]. intros ->. specialize (Hall _ H). lia.
      * intros [H1 [H2|H2]]; [contradiction|assumption].
    + rewrite !elem_of_cons, (IH Ha). split.
      * intros [->|[H1 H2]]; [split; [exact Hne|now left]|split; [exact H1|now right]].
      * intros [H1 [->|H2]]; [now left|right; split; assumption].
Qed.

Lemma del_ascending (c : byte) (l : list byte) : ascending l -> ascending (del c l).
Proof.
  induction l as [|e l IH]; intros Ha; cbn [del]; [exact Ha|].
  pose proof (ascending_cons_inv _ _ Ha) as [Ha' Hall].
  destruct (decide (e = c)); [exact Ha'|].
  apply SSorted_cons; [apply IH, Ha'|].
  apply Forall_forall. intros d Hd.
  apply (del_elem c d l Ha') in Hd as [_ Hd]. apply Hall, Hd.
Qed.

Lemma del_notin (c : byte) (l : list byte) : c ∉ l -> del c l = l.
Proof.
  induction l as [|e l IH]; intros Hc; cbn [del]; [reflexivity|].
  destruct (decide (e = c)) as [->|_]; [exfalso; apply Hc; now left|].
  f_equal. apply IH. intros H. apply Hc. now right.
Qed.

Lemma popSibling_walk_spec (da : Cedar) (b : Z) (c : byte) (l0 : list byte) :
  forall fuel c0,
    chain (info da) b (c0 :: l0) -> ascending (c0 :: l0) ->
    c ∈ l0 -> (length l0 < fuel)%nat ->
    exists inf',
      popSibling_walk fuel da b c0 c = Ret (set_info da inf') /\
      chain inf' b (c0 :: del c l0) /\
      info_frame (info da) inf' (slots b (c0 :: l0)) (fun _ => False).
Proof.
  induction l0 as [|s l1 IH]; intros fuel c0 Hch Hasc Hc Hfuel; [inversion Hc|].
  destruct fuel as [|fuel]; [cbn in Hfuel; lia|].
  pose proof Hch as Hch0.
  destruct Hch as [(i0 & Hi0 & Hs0) Hch]. cbn [hd] in Hs0.
  cbn [popSibling_walk]. unfold rd at 1. rewrite Hi0. cbn [bind]. rewrite Hs0.
  pose proof (ascending_cons_inv _ _ Hasc) as [Hasc1 Hall].
  pose proof (ascending_cons_inv _ _ Hasc1) as [Hasc2 Hall1].
  cbn [del].
  destruct (byte_eqb_spec s c) as [->|Hne].
  - destruct (decide (c = c)) as [_|]; [|congruence].
    pose proof Hch as [(ic & Hic & Hsc) Hch1].
    unfold rd. rewrite Hic. cbn [bind]. rewrite (setSibling_Ret _ _ _ _ Hi0).
    eexists. split; [reflexivity|]. split.
    + apply chain_cons. split.
      * rewrite (at_upd _ _ _ _ _ Hi0). destruct (decide _) as [_|]; [|congruence].
        eexists. split; [reflexivity|]. exact Hsc.
      * eapply chain_info_frame; [exact Hch1| |].
        -- apply (info_frame_sibling (info da) (Z.lxor b (ord c0)) (Sibling ic) i0
                    (eq (Z.lxor b (ord c0))) (fun _ => False) Hi0 eq_refl).
        -- intros d Hd E. apply lxor_inj, ord_inj in E. subst d.
           assert (Hin : c0 ∈ c :: l1) by now right.
           specialize (Hall _ Hin). lia.
    + apply (info_frame_sibling (info da) (Z.lxor b (ord c0)) (Sibling ic) i0 _ _ Hi0).
      apply slots_lxor. now left.
  - destruct (decide (s = c)) as [|_]; [contradiction|].
    assert (Hc1 : c ∈ l1).
    { apply elem_of_cons in Hc as [->|Hc]; [congruence|exact Hc]. }
    destruct (IH fuel s Hch Hasc1 Hc1) as (inf' & Hr & Hch' & Hf).
    { cbn in Hfuel. lia. }
    exists inf'. split; [exact Hr|]. split.
    + apply chain_cons. split; [|exact Hch'].
      destruct Hf as [_ F]. destruct (F _ _ Hi0) as (i' & Hi' & _ & _ & S).
      exists i'. split; [exact Hi'|]. cbn [hd]. rewrite S; [exact Hs0|].
      intros Hsl. apply slots_lxor in Hsl.
      specialize (Hall _ Hsl). lia.
    + eapply info_frame_weaken; [exact Hf| |auto].
      intros j Hj. apply slots_cons. now right.
Qed.

Lemma popSibling_spec (da : Cedar) (b p : Z) (c : byte) (l : list byte) (ip : ninfo) :
  at_ (info da) p = Some ip -> Child ip = hd NUL l ->
  chain (info da) b l -> ascending l -> c ∈ l ->
  exists inf',
    popSibling da p b c = Ret (set_info da inf') /\
    chain inf' b (del c l) /\
    (exists i', at_ inf' p = Some i' /\ Child i' = hd NUL (del c l)) /\
    info_frame (info da) inf' (slots b l) (eq p).
Proof.
  intros Hip Hch0 Hch Hasc Hc. unfold popSibling, rd. rewrite Hip. cbn [bind].
  destruct l as [|c0 l0]; [inversion Hc|]. cbn [hd] in Hch0. rewrite Hch0.
  pose proof (ascending_cons_inv _ _ Hasc) as [Hasc1 Hall].
  cbn [del].
  destruct (byte_eqb_spec c0 c) as [->|Hne].
  - destruct (decide (c = c)) as [_|]; [|congruence].
    destruct Hch as [(ic & Hic & Hsc) Hch1]. rewrite Hic. cbn [bind].
    rewrite (setChild_Ret _ _ _ _ Hip).
    eexists. split; [reflexivity|]. split; [|split].
    + eapply chain_info_frame; [exact Hch1| |].
      * apply (info_frame_child (info da) p (Sibling ic) ip (fun _ => False) (eq p) Hip eq_refl).
      * intros d _ [].
    + rewrite (at_upd _ _ _ _ _ Hip). destruct (decide _) as [_|]; [|congruence].
      eexists. split; [reflexivity|]. exact Hsc.
    + apply (info_frame_child (info da) p (Sibling ic) ip _ _ Hip eq_refl).
  - destruct (decide (c0 = c)) as [|_]; [contradiction|].
    assert (Hc0 : c ∈ l0).
    { apply elem_of_cons in Hc as [->|Hc]; [congruence|exact Hc]. }
    destruct (popSibling_walk_spec da b c l0 256%nat c0 Hch Hasc Hc0) as (inf' & Hr & Hch' & Hf).
    { apply ascending_length_256 in Hasc. cbn in Hasc. lia. }
    exists inf'. split; [exact Hr|]. split; [exact Hch'|]. split.
    + destruct Hf as [_ F]. destruct (F _ _ Hip) as (i' & Hi' & _ & C & _).
      exists i'. split; [exact Hi'|]. cbn [hd]. rewrite C; [exact Hch0|intros []].
    + eapply info_frame_weaken; [exact Hf|auto|intros j []].
Qed.

(** ** Releasing a childless node *)

Section Unlink.
Context (da : Cedar) (T : placement) (HI : Inv da T).
Context (pk : list byte) (c : byte) (p t : Z) (np : node) (l : list byte).
Context (Hp : T pk = Some p) (Hnp : at_ (array da) p = Some np).
Context (Ht : T (pk ++ [c]) = Some t).
Context (Hleaf : forall d, T ((pk ++ [c]) ++ [d]) = None).
Context (Hl : ring da T pk p l).

Lemma unl_edge :
  Value np < 0 /\ t = Z.lxor (base np) (ord c) /\
  exists nt, at_ (array da) t = Some nt /\ Check nt = p.
Proof.
  destruct (inv_edge _ _ HI _ _ _ Ht) as (p0 & np0 & nt & Hp0 & Hnp0 & Hv & E & Hnt & Hck).
  rewrite Hp in Hp0. injection Hp0 as <-. rewrite Hnp in Hnp0. injection Hnp0 as <-.
  split; [exact Hv|]. split; [exact E|]. eauto.
Qed.

Lemma unl_c_in : c ∈ l.
Proof. apply (ring_dom _ _ _ _ _ Hl). rewrite Ht. eauto. Qed.

Lemma unl_t_ne0 : t <> 0.
Proof.
  intros ->. apply (inv_root_only _ _ HI) in Ht.
  destruct pk; discriminate.
Qed.

Lemma unl_p_ne_t : p <> t.
Proof.
  intros ->. eapply (snoc_neq_self pk c).
  eapply (inv_inj _ _ HI); eassumption.
Qed.

Lemma unl_ret :
  exists inf',
    (da1 <- popSibling da p (base np) c; pushEnode da1 t)
    = Ret (set_info (set_array da (<[Z.to_nat t := free_node]> (array da)))
                    (<[Z.to_nat t := empty_info]> inf')) /\
    chain inf' (base np) (del c l) /\
    (exists i', at_ inf' p = Some i' /\ Child i' = hd NUL (del c l)) /\
    info_frame (info da) inf' (slots (base np) l) (eq p).
Proof.
  destruct unl_edge as (Hv & Et & nt & Hnt & Hck).
  destruct (ring_child _ _ _ _ _ Hl) as (ip & Hip & Hc0).
  destruct (popSibling_spec da (base np) p c l ip Hip Hc0
              (ring_chain _ _ _ _ _ Hl _ Hnp) (ring_sorted _ _ _ _ _ Hl) unl_c_in)
    as (inf' & Hr & Hch' & Hp' & Hf).
  exists inf'. rewrite Hr. cbn [bind]. split; [|auto].
  destruct (inv_info_Some _ _ HI _ _ Hnt) as (it & Hit).
  destruct Hf as [_ F]. destruct (F _ _ Hit) as (it' & Hit' & _).
  unfold pushEnode. cbn [set_info array info].
  rewrite (wr_Ret _ _ _ _ Hnt). cbn [bind].
  rewrite (wr_Ret _ _ _ _ Hit'). reflexivity.
Qed.

Context (inf' : list ninfo).
Context (Hch' : chain inf' (base np) (del c l)).
Context (Hp' : exists i', at_ inf' p = Some i' /\ Child i' = hd NUL (del c l)).
Context (Hf : info_frame (info da) inf' (slots (base np) l) (eq p)).

Let da' :=
  set_info (set_array da (<[Z.to_nat t := free_node]> (array da)))
           (<[Z.to_nat t := empty_info]> inf').
Let T' := T_del T (pk ++ [c]).

Lemma unl_array' (j : Z) :
  at_ (array da') j = if decide (j = t) then Some free_node else at_ (array da) j.
Proof.
  destruct unl_edge as (_ & _ & nt & Hnt & _).
  unfold da'. cbn [set_info set_array array]. apply (at_upd _ _ _ _ _ Hnt).
Qed.

Lemma unl_info' (j : Z) :
  at_ (info da') j = if decide (j = t) then Some empty_info else at_ inf' j.
Proof.
  destruct unl_edge as (_ & _ & nt & Hnt & _).
  destruct (inv_info_Some _ _ HI _ _ Hnt) as (it & Hit).
  destruct Hf as [_ F]. destruct (F _ _ Hit) as (it' & Hit' & _).
  unfold da'. cbn [set_info set_array info]. apply (at_upd _ _ _ _ _ Hit').
Qed.

Lemma unl_T'_inv (ks : list byte) (x : Z) :
  T' ks = Some x <-> ks <> pk ++ [c] /\ T ks = Some x.
Proof.
  unfold T', T_del. destruct (decide _) as [E|N]; split.
  - discriminate.
  - intros [N _]. contradiction.
  - auto.
  - intros [_ H]. exact H.
Qed.

Lemma unl_placed_ne_t (ks : list byte) (x : Z) : T' ks = Some x -> x <> t.
Proof.
  intros H ->. apply unl_T'_inv in H as [N H]. apply N.
  eapply (inv_inj _ _ HI); eassumption.
Qed.

Lemma unl_array'_old (ks : list byte) (x : Z) :
  T' ks = Some x -> at_ (array da') x = at_ (array da) x.
Proof.
  intros H. rewrite unl_array'. destruct (decide _) as [E|_]; [|reflexivity].
  exfalso. eapply unl_placed_ne_t; eassumption.
Qed.

Lemma unl_child_dom (ks : list byte) (d : byte) :
  ks <> pk -> (is_Some (T' (ks ++ [d])) <-> is_Some (T (ks ++ [d]))).
Proof.
  intros N. unfold T', T_del. destruct (decide _) as [E|_]; [|reflexivity].
  apply app_inj_tail in E as [E _]. contradiction.
Qed.

Lemma unl_other_slot (ks' : list byte) (p' : Z) (np' : node) (l' : list byte)
    (d : byte) :
  T ks' = Some p' -> p' <> p -> at_ (array da) p' = Some np' ->
  ring da T ks' p' l' -> d ∈ l' ->
  ~ slots (base np) l (Z.lxor (base np') (ord d)).
Proof.
  intros Hp0 Hne Hnp0 Hl0 Hd (e & He & E).
  destruct (ring_child_slot _ _ _ _ _ _ _ HI Hp0 Hl0 Hnp0 Hd) as (Hpl & nt & Hnt & Hcn).
  destruct (ring_child_slot _ _ _ _ _ _ _ HI Hp Hl Hnp He) as (_ & nt' & Hnt' & Hcn').
  rewrite E, Hnt' in Hnt. injection Hnt as <-. congruence.
Qed.

Lemma Inv_unlink : Inv da' T'.
Proof.
  destruct unl_edge as (Hv & Et & nt & Hnt & Hck).
  pose proof Hf as [HfL HfF].
  split.
  - unfold da'. cbn [set_info set_array array info]. rewrite !length_insert.
    rewrite HfL. apply (inv_len _ _ HI).
  - unfold da'. cbn [set_info set_array array info]. rewrite length_insert.
    apply (inv_blocks _ _ HI).
  - apply unl_T'_inv. split; [destruct pk; discriminate|apply (inv_root _ _ HI)].
  - destruct (inv_root_node _ _ HI) as (n & Hn & H). exists n. split; [|assumption].
    rewrite unl_array'. destruct (decide _) as [E|_]; [|assumption].
    symmetry in E. exfalso. exact (unl_t_ne0 E).
  - intros ks1 ks2 x H1 H2.
    apply unl_T'_inv in H1 as [_ H1]. apply unl_T'_inv in H2 as [_ H2].
    eapply (inv_inj _ _ HI); eassumption.
  - intros ks' c' x H. pose proof H as H0. apply unl_T'_inv in H as [N H].
    destruct (inv_edge _ _ HI _ _ _ H) as (p0 & np0 & nt0 & Hp0 & Hnp0 & Hv0 & -> & Hnt0 & Hc0).
    assert (HT0 : T' ks' = Some p0).
    { apply unl_T'_inv. split; [|exact Hp0]. intros ->.
      rewrite Hleaf in H. discriminate. }
    exists p0, np0, nt0. split; [exact HT0|].
    split; [now rewrite (unl_array'_old _ _ HT0)|].
    split; [assumption|]. split; [reflexivity|].
    split; [|assumption]. now rewrite (unl_array'_old _ _ H0).
  - intros x nx Hx Hcx. rewrite unl_array' in Hx.
    destruct (decide _) as [->|N].
    + injection Hx as <-. cbn in Hcx. lia.
    + destruct (inv_occ _ _ HI _ _ Hx Hcx) as [ks' Hks'].
      exists ks'. apply unl_T'_inv. split; [|exact Hks'].
      intros ->. rewrite Ht in Hks'. congruence.
  - intros x nx Hx0 Hx Hcx. rewrite unl_info'. rewrite unl_array' in Hx.
    destruct (decide _) as [->|N]; [reflexivity|].
    pose proof (inv_free_info _ _ HI _ _ Hx0 Hx Hcx) as Hix.
    destruct (HfF _ _ Hix) as (i' & Hi' & E & C & S).
    rewrite Hi'. f_equal. apply info_eta.
    + rewrite S; [reflexivity|]. intros (e & He & ->).
      destruct (ring_child_slot _ _ _ _ _ _ _ HI Hp Hl Hnp He) as (_ & nt' & Hnt' & Hcn').
      rewrite Hx in Hnt'. injection Hnt' as <-.
      apply at_Some_range in Hnp. lia.
    + rewrite C; [reflexivity|]. intros <-.
      rewrite Hx in Hnp. injection Hnp as <-.
      destruct (inv_placed _ _ HI _ _ Hp) as (n & Hn & [[_ E0]|(_ & _ & Hcn)]).
      * contradiction.
      * rewrite Hx in Hn. injection Hn as <-. lia.
    + rewrite E. reflexivity.
  - intros ks' x nx H Hx Hvx. rewrite (unl_array'_old _ _ H) in Hx.
    apply unl_T'_inv in H as [N H].
    unfold da'. cbn [set_info set_array array]. rewrite length_insert.
    eapply (inv_base _ _ HI); eassumption.
  - intros ks' x H. pose proof H as H0. apply unl_T'_inv in H as [N H].
    destruct (decide (ks' = pk)) as [->|Nks].
    + assert (x = p) by congruence. subst x.
      exists (del c l). split.
      * apply del_ascending, (ring_sorted _ _ _ _ _ Hl).
      * intros d. rewrite (del_elem c d l (ring_sorted _ _ _ _ _ Hl)).
        rewrite (ring_dom _ _ _ _ _ Hl). unfold T', T_del.
        destruct (decide (pk ++ [d] = pk ++ [c])) as [E|NE].
        -- apply app_inj_tail in E as [_ ->]. split; [intros [? _]; congruence|].
           intros [? ?]; discriminate.
        -- split; [intros [_ ?]; assumption|]. intros ?. split; [|assumption].
           intros ->. contradiction.
      * destruct Hp' as (i' & Hi' & Hc'). exists i'. split; [|exact Hc'].
        rewrite unl_info'. destruct (decide _) as [E|_]; [|exact Hi'].
        exfalso. exact (unl_p_ne_t E).
      * intros n Hn. rewrite (unl_array'_old _ _ H0) in Hn.
        rewrite Hnp in Hn. injection Hn as <-.
        eapply chain_frame; [exact Hch'|].
        intros d i Hd Hi. exists i. split; [|reflexivity].
        rewrite unl_info'. destruct (decide _) as [E|_]; [|exact Hi].
        exfalso. apply (del_elem c d l (ring_sorted _ _ _ _ _ Hl)) in Hd as [Hd _].
        rewrite Et in E. apply lxor_inj, ord_inj in E. contradiction.
    + destruct (inv_ring _ _ HI _ _ H) as [l' Hl'].
      assert (Nx : x <> p).
      { intros ->. apply Nks. eapply (inv_inj _ _ HI); eassumption. }
      assert (Nt : x <> t) by (eapply unl_placed_ne_t; exact H0).
      exists l'. eapply ring_frame; [exact Hl'| | |].
      * intros d. now apply unl_child_dom.
      * intros i Hi. destruct (HfF _ _ Hi) as (i' & Hi' & _ & C & _).
        exists i'. split; [|apply C; congruence].
        rewrite unl_info'. destruct (decide _); [contradiction|exact Hi'].
      * intros n' Hn'. rewrite (unl_array'_old _ _ H0) in Hn'.
        exists n'. split; [assumption|]. intros d i Hd Hi.
        destruct (HfF _ _ Hi) as (i' & Hi' & _ & _ & S).
        exists i'. split.
        -- rewrite unl_info'. destruct (decide _) as [E|_]; [|exact Hi'].
           exfalso.
           destruct (ring_child_slot _ _ _ _ _ _ _ HI H Hl' Hn' Hd) as (Hpl & _).
           rewrite E in Hpl. apply N.
           assert (E2 : ks' ++ [d] = pk ++ [c]) by (eapply (inv_inj _ _ HI); eassumption).
           apply app_inj_tail in E2 as [E2 _]. contradiction.
        -- apply S. eapply unl_other_slot; eassumption.
Qed.

Lemma unl_leafv (ks' : list byte) :
  leafv da' T' ks' = if decide (ks' = pk ++ [c]) then None else leafv da T ks'.
Proof.
  unfold leafv at 1. unfold T' at 1, T_del.
  destruct (decide _) as [E|N]; [reflexivity|].
  unfold leafv. destruct (T ks') as [x|] eqn:Hx; [|reflexivity].
  assert (HT' : T' ks' = Some x) by (apply unl_T'_inv; auto).
  now rewrite (unl_array'_old _ _ HT').
Qed.

End Unlink.
(** ** The climb of [Delete] does not read the [Child] field of its start *)

Lemma at_ext {A} (l1 l2 : list A) : (forall j, at_ l1 j = at_ l2 j) -> l1 = l2.
Proof.
  intros H. apply list_eq. intros i. specialize (H (Z.of_nat i)).
  unfold at_ in H. destruct (decide _); [|lia]. now rewrite Nat2Z.id in H.
Qed.

Lemma eqmod_at (t : Z) (da1 da2 : Cedar) (j : Z) (i1 : ninfo) :
  eqmod t da1 da2 -> at_ (info da1) j = Some i1 ->
  exists i2, at_ (info da2) j = Some i2 /\ Sibling i1 = Sibling i2 /\
             End i1 = End i2 /\ (j <> t -> Child i1 = Child i2).
Proof.
  intros (_ & _ & _ & H) H1. specialize (H j). rewrite H1 in H.
  destruct (at_ (info da2) j) as [i2|]; [|contradiction]. eauto.
Qed.

Lemma eqmod_at_None (t : Z) (da1 da2 : Cedar) (j : Z) :
  eqmod t da1 da2 -> at_ (info da1) j = None -> at_ (info da2) j = None.
Proof.
  intros (_ & _ & _ & H) H1. specialize (H j). rewrite H1 in H.
  destruct (at_ (info da2) j); [contradiction|reflexivity].
Qed.

Lemma eqmod_upd (t : Z) (da1 da2 : Cedar) (j : Z) (x1 x2 y1 y2 : ninfo) :
  eqmod t da1 da2 ->
  at_ (info da1) j = Some x1 -> at_ (info da2) j = Some x2 ->
  Sibling y1 = Sibling y2 -> End y1 = End y2 -> (j <> t -> Child y1 = Child y2) ->
  eqmod t (set_info da1 (<[Z.to_nat j := y1]> (info da1)))
          (set_info da2 (<[Z.to_nat j := y2]> (info da2))).
Proof.
  intros (Ha & Hv & Hk & H) H1 H2 S E C.
  split; [exact Ha|]. split; [exact Hv|]. split; [exact Hk|].
  intros j'. cbn [set_info info].
  rewrite (at_upd _ _ _ _ _ H1), (at_upd _ _ _ _ _ H2).
  destruct (decide (j' = j)) as [->|_]; [auto|apply H].
Qed.

Lemma setSibling_eqmod (t : Z) (da1 da2 r1 : Cedar) (j : Z) (s : byte) :
  eqmod t da1 da2 -> setSibling da1 j s = Ret r1 ->
  exists r2, setSibling da2 j s = Ret r2 /\ eqmod t r1 r2.
Proof.
  intros He H. destruct (at_ (info da1) j) as [x1|] eqn:H1.
  - destruct (eqmod_at _ _ _ _ _ He H1) as (x2 & H2 & S & E & C).
    rewrite (setSibling_Ret _ _ _ _ H1) in H. injection H as <-.
    rewrite (setSibling_Ret _ _ _ _ H2). eexists. split; [reflexivity|].
    apply (eqmod_upd t da1 da2 j x1 x2); auto.
  - unfold setSibling, rd in H. rewrite H1 in H. discriminate.
Qed.

Lemma setChild_eqmod (t : Z) (da1 da2 r1 : Cedar) (j : Z) (c : byte) :
  eqmod t da1 da2 -> setChild da1 j c = Ret r1 ->
  exists r2, setChild da2 j c = Ret r2 /\ eqmod t r1 r2.
Proof.
  intros He H. destruct (at_ (info da1) j) as [x1|] eqn:H1.
  - destruct (eqmod_at _ _ _ _ _ He H1) as (x2 & H2 & S & E & C).
    rewrite (setChild_Ret _ _ _ _ H1) in H. injection H as <-.
    rewrite (setChild_Ret _ _ _ _ H2). eexists. split; [reflexivity|].
    apply (eqmod_upd t da1 da2 j x1 x2); auto.
  - unfold setChild, rd in H. rewrite H1 in H. discriminate.
Qed.

Lemma popSibling_walk_eqmod (t b : Z) (label : byte) :
  forall fuel da1 da2 r1 c,
    eqmod t da1 da2 -> popSibling_walk fuel da1 b c label = Ret r1 ->
    exists r2, popSibling_walk fuel da2 b c label = Ret r2 /\ eqmod t r1 r2.
Proof.
  induction fuel as [|fuel IH]; intros da1 da2 r1 c He H; [discriminate|].
  cbn [popSibling_walk] in *.
  apply bind_Ret in H as (i1 & Hi1 & H). apply rd_Ret in Hi1.
  destruct (eqmod_at _ _ _ _ _ He Hi1) as (i2 & Hi2 & S & _).
  apply rd_Ret in Hi2. rewrite Hi2. cbn [bind]. rewrite <- S.
  destruct (byte_eqb (Sibling i1) label).
  - apply bind_Ret in H as (l1 & Hl1 & H). apply rd_Ret in Hl1.
    destruct (eqmod_at _ _ _ _ _ He Hl1) as (l2 & Hl2 & S' & _).
    apply rd_Ret in Hl2. rewrite Hl2. cbn [bind]. rewrite <- S'.
    eapply setSibling_eqmod; eassumption.
  - eapply IH; eassumption.
Qed.

Lemma popSibling_eqmod (t : Z) (da1 da2 r1 : Cedar) (from b : Z) (label : byte) :
  eqmod t da1 da2 -> from <> t -> popSibling da1 from b label = Ret r1 ->
  exists r2, popSibling da2 from b label = Ret r2 /\ eqmod t r1 r2.
Proof.
  intros He Hne H. unfold popSibling in *.
  apply bind_Ret in H as (i1 & Hi1 & H). apply rd_Ret in Hi1.
  destruct (eqmod_at _ _ _ _ _ He Hi1) as (i2 & Hi2 & _ & _ & C).
  apply rd_Ret in Hi2. rewrite Hi2. cbn [bind]. rewrite <- (C Hne).
  destruct (byte_eqb (Child i1) label).
  - apply bind_Ret in H as (l1 & Hl1 & H). apply rd_Ret in Hl1.
    destruct (eqmod_at _ _ _ _ _ He Hl1) as (l2 & Hl2 & S' & _).
    apply rd_Ret in Hl2. rewrite Hl2. cbn [bind]. rewrite <- S'.
    eapply setChild_eqmod; eassumption.
  - eapply popSibling_walk_eqmod; eassumption.
Qed.

Lemma pushEnode_eqmod (t : Z) (da1 da2 r : Cedar) :
  eqmod t da1 da2 -> pushEnode da1 t = Ret r -> pushEnode da2 t = Ret r.
Proof.
  intros He H. pose proof He as (Ha & Hv & Hk & Hi).
  unfold pushEnode in *. rewrite <- Ha.
  apply bind_Ret in H as (a & Hw & H). rewrite Hw. cbn [bind].
  apply bind_Ret in H as (i & Hwi & H). injection H as <-.
  unfold wr in Hwi. destruct (at_ (info da1) t) as [x1|] eqn:H1; [|discriminate].
  injection Hwi as <-.
  destruct (eqmod_at _ _ _ _ _ He H1) as (x2 & H2 & _).
  rewrite (wr_Ret _ _ _ _ H2). cbn [bind]. f_equal.
  unfold set_info, set_array. cbn. rewrite <- Hv, <- Hk. f_equal.
  apply at_ext. intros j. rewrite (at_upd _ _ _ _ _ H1), (at_upd _ _ _ _ _ H2).
  destruct (decide (j = t)) as [|N]; [reflexivity|].
  specialize (Hi j).
  destruct (at_ (info da1) j) as [y1|], (at_ (info da2) j) as [y2|]; try contradiction;
    [|reflexivity].
  destruct Hi as (S & E & C). f_equal. destruct y1, y2. cbn in *.
  rewrite S, E, (C N). reflexivity.
Qed.

Lemma Delete_loop_eqmod (fuel : nat) (t : Z) (da1 da2 r : Cedar) :
  eqmod t da1 da2 ->
  (forall nt, at_ (array da1) t = Some nt -> Check nt <> t) ->
  Delete_loop fuel da1 t = Ret r -> Delete_loop fuel da2 t = Ret r.
Proof.
  intros He Hck H. destruct fuel as [|fuel]; [discriminate|].
  pose proof He as (Ha & Hv & Hk & Hi).
  cbn [Delete_loop] in *. rewrite <- Ha.
  apply bind_Ret in H as (nt & Hnt & H). rewrite Hnt. cbn [bind].
  apply rd_Ret in Hnt. specialize (Hck _ Hnt).
  apply bind_Ret in H as (nf & Hnf & H). rewrite Hnf. cbn [bind].
  apply bind_Ret in H as (it & Hit & H). apply rd_Ret in Hit.
  destruct (eqmod_at _ _ _ _ _ He Hit) as (it2 & Hit2 & S & _).
  apply rd_Ret in Hit2. rewrite Hit2. cbn [bind]. rewrite <- S.
  apply bind_Ret in H as (stop & Hstop & H).
  assert (Hstop2 :
    (if negb (byte_eqb (Sibling it) NUL) then Ret true
     else ifr <- rd (info da2) (Check nt);
          Ret (negb (byte_eqb (Child ifr) (chr (Z.lxor t (base nf)))))) = Ret stop).
  { destruct (negb (byte_eqb (Sibling it) NUL)); [exact Hstop|].
    apply bind_Ret in Hstop as (ifr & Hifr & Hs). apply rd_Ret in Hifr.
    destruct (eqmod_at _ _ _ _ _ He Hifr) as (ifr2 & Hifr2 & _ & _ & C).
    apply rd_Ret in Hifr2. rewrite Hifr2. cbn [bind]. rewrite <- (C Hck). exact Hs. }
  rewrite Hstop2. cbn [bind]. destruct stop.
  - apply bind_Ret in H as (d1 & Hpop & H).
    destruct (popSibling_eqmod t da1 da2 d1 _ _ _ He Hck Hpop) as (d2 & Hpop2 & He2).
    rewrite Hpop2. cbn [bind]. eapply pushEnode_eqmod; eassumption.
  - apply bind_Ret in H as (d1 & Hpush & H).
    rewrite (pushEnode_eqmod t da1 da2 d1 He Hpush). cbn [bind]. exact H.
Qed.

Lemma at_None_length {A} (l1 l2 : list A) (j : Z) :
  length l1 = length l2 -> at_ l1 j = None -> at_ l2 j = None.
Proof.
  intros HL H. destruct (at_ l2 j) eqn:E; [|reflexivity].
  apply at_Some_range in E. rewrite <- HL in E. apply at_is_Some in E.
  rewrite H in E. destruct E. discriminate.
Qed.

Lemma unlink_post (da : Cedar) (T : placement) (pk : list byte) (c : byte)
    (p t : Z) (np : node) (l : list byte) :
  Inv da T -> T pk = Some p -> at_ (array da) p = Some np ->
  T (pk ++ [c]) = Some t -> (forall d, T ((pk ++ [c]) ++ [d]) = None) ->
  ring da T pk p l ->
  exists da',
    (da1 <- popSibling da p (base np) c; pushEnode da1 t) = Ret da' /\
    Inv da' (T_del T (pk ++ [c])) /\
    (forall ks', leafv da' (T_del T (pk ++ [c])) ks'
                 = if decide (ks' = pk ++ [c]) then None else leafv da T ks') /\
    array da' = <[Z.to_nat t := free_node]> (array da) /\
    vals da' = vals da /\ vkey da' = vkey da /\
    (l = [c] -> exists dl, pushEnode da t = Ret dl /\ eqmod p da' dl).
Proof.
  intros HI Hp Hnp Ht Hleaf Hl.
  destruct (unl_ret da T HI pk c p t np l Hp Hnp Ht Hl) as (inf' & Hr & Hch' & Hp' & Hf).
  eexists. split; [exact Hr|].
  split. { exact (Inv_unlink da T HI pk c p t np l Hp Hnp Ht Hleaf Hl inf' Hch' Hp' Hf). }
  split. { intros ks'. exact (unl_leafv da T HI pk c p t np Hp Hnp Ht inf' ks'). }
  split; [reflexivity|]. split; [reflexivity|]. split; [reflexivity|].
  intros ->.
  destruct (unl_edge da T HI pk c p t np Hp Hnp Ht) as (Hv & Et & nt & Hnt & Hck).
  destruct (inv_info_Some _ _ HI _ _ Hnt) as (it & Hit).
  unfold pushEnode. rewrite (wr_Ret _ _ _ _ Hnt). cbn [bind].
  rewrite (wr_Ret _ _ _ _ Hit). cbn [bind]. eexists. split; [reflexivity|].
  split; [reflexivity|]. split; [reflexivity|]. split; [reflexivity|].
  intros j. cbn [set_info set_array info].
  destruct Hf as [HfL HfF].
  destruct (HfF _ _ Hit) as (it' & Hit' & _).
  rewrite (at_upd _ _ _ _ _ Hit'), (at_upd _ _ _ _ _ Hit).
  destruct (decide (j = t)) as [->|N]; [auto|].
  destruct (at_ (info da) j) as [i|] eqn:Hi.
  - destruct (HfF _ _ Hi) as (i' & Hi' & E & C & S). rewrite Hi'.
    split; [|split; [exact E|]].
    + apply S. intros (e & He & ->). apply list_elem_of_singleton in He. subst e.
      apply N. now rewrite Et.
    + intros Nj. apply C. congruence.
  - now rewrite (at_None_length _ _ _ (eq_sym HfL) Hi).
Qed.
(** ** The climb of [Delete] *)

Lemma chain_elem (inf : list ninfo) (b : Z) (l : list byte) (c : byte) :
  chain inf b l -> c ∈ l -> exists i, at_ inf (Z.lxor b (ord c)) = Some i.
Proof.
  induction l as [|d l IH]; intros Hch Hc; [inversion Hc|].
  destruct Hch as [(i & Hi & _) Hch].
  apply elem_of_cons in Hc as [->|Hc]; [eauto|auto].
Qed.

Lemma check_not_self (da : Cedar) (T : placement) (ks : list byte) (x : Z) (n : node) :
  Inv da T -> T ks = Some x -> at_ (array da) x = Some n -> Check n <> x.
Proof.
  intros HI Hx Hn E. destruct (snoc_cases ks) as [->|(ks0 & e & ->)].
  - rewrite (inv_root _ _ HI) in Hx. injection Hx as <-.
    destruct (inv_root_node _ _ HI) as (n0 & Hn0 & _ & Hc).
    rewrite Hn in Hn0. injection Hn0 as <-. lia.
  - destruct (inv_edge _ _ HI _ _ _ Hx) as (p0 & _ & nt & Hp0 & _ & _ & _ & Hnt & Hck).
    rewrite Hn in Hnt. injection Hnt as <-. rewrite E in Hck. subst p0.
    eapply (snoc_neq_self ks0 e). eapply (inv_inj _ _ HI); eassumption.
Qed.

Lemma delete_stop (da : Cedar) (T : placement) (pk : list byte) (c : byte)
    (p t : Z) (np : node) (l : list byte) :
  Inv da T -> T pk = Some p -> at_ (array da) p = Some np ->
  T (pk ++ [c]) = Some t -> ring da T pk p l ->
  exists it ip,
    at_ (info da) t = Some it /\ at_ (info da) p = Some ip /\
    (if negb (byte_eqb (Sibling it) NUL) then true
     else negb (byte_eqb (Child ip) c)) = negb (bool_decide (l = [c])).
Proof.
  intros HI Hp Hnp Ht Hl.
  destruct (unl_edge da T HI pk c p t np Hp Hnp Ht) as (Hv & Et & nt & Hnt & Hck).
  pose proof (unl_c_in da T pk c p t l Ht Hl) as Hc.
  pose proof (ring_chain _ _ _ _ _ Hl _ Hnp) as Hch.
  pose proof (ring_sorted _ _ _ _ _ Hl) as Hasc.
  destruct (ring_child _ _ _ _ _ Hl) as (ip & Hip & Hc0).
  destruct (chain_elem _ _ _ _ Hch Hc) as (it & Hit). rewrite <- Et in Hit.
  exists it, ip. split; [exact Hit|]. split; [exact Hip|].
  destruct l as [|c0 rest]; [inversion Hc|]. cbn [hd] in Hc0. rewrite Hc0.
  destruct (decide (c0 = c)) as [->|Hne].
  - destruct Hch as [(i & Hi & Hs) _]. rewrite <- Et, Hit in Hi. injection Hi as <-.
    rewrite Hs. destruct rest as [|c1 rest]; cbn [hd].
    + destruct (byte_eqb_spec NUL NUL) as [_|]; [|congruence]. cbn [negb].
      destruct (byte_eqb_spec c c) as [_|]; [|congruence].
      rewrite bool_decide_eq_true_2; reflexivity.
    + pose proof (ascending_tail_not_NUL _ _ _ Hasc) as Hn.
      destruct (byte_eqb_spec c1 NUL) as [|_]; [contradiction|]. cbn [negb].
      rewrite bool_decide_eq_false_2; [reflexivity|]. intros E. discriminate.
  - rewrite (bool_decide_eq_false_2 (c0 :: rest = [c])); [|intros E; congruence].
    destruct (byte_eqb_spec c0 c) as [|_]; [contradiction|]. cbn [negb].
    now destruct (negb _).
Qed.

Lemma branching_up (T : placement) (pk : list byte) (c : byte) :
  branching T (pk ++ [c]) -> (forall d, is_Some (T (pk ++ [d])) -> d = c) ->
  branching (T_del T (pk ++ [c])) pk.
Proof.
  intros (pk0 & c0 & rest & d & E & Hd & HT) Hone.
  destruct (snoc_cases rest) as [->|(rest' & e & ->)].
  - apply app_inj_tail in E as [-> ->]. exfalso. apply Hd. now apply Hone.
  - replace (pk0 ++ c0 :: rest' ++ [e]) with ((pk0 ++ c0 :: rest') ++ [e]) in E
      by (rewrite <- app_assoc; reflexivity).
    apply app_inj_tail in E as [-> ->].
    exists pk0, c0, rest', d. split; [reflexivity|]. split; [exact Hd|].
    unfold T_del. destruct (decide _) as [E|_]; [|exact HT].
    exfalso. rewrite <- app_assoc in E. apply app_inv_head in E.
    injection E as _ E. destruct rest'; discriminate.
Qed.

Lemma Delete_loop_spec (tk : list byte) :
  forall fuel da T t,
    Inv da T -> T tk = Some t -> (forall d, T (tk ++ [d]) = None) ->
    branching T tk -> (length tk <= fuel)%nat ->
    exists da' T',
      Delete_loop fuel da t = Ret da' /\ Inv da' T' /\
      (forall ks x, T' ks = Some x -> T ks = Some x /\ ks <> tk) /\
      (forall ks', ks' <> tk -> leafv da' T' ks' = leafv da T ks') /\
      vals da' = vals da /\ vkey da' = vkey da /\
      (StrictBut da T tk -> Strict da' T').
Proof.
  induction tk as [|c pk IH] using rev_ind; intros fuel da T t HI Ht Hleaf Hbr Hfuel.
  { destruct Hbr as (pk0 & c0 & rest & _ & E & _). destruct pk0; discriminate. }
  rewrite length_app in Hfuel. cbn in Hfuel.
  destruct fuel as [|fuel]; [lia|].
  destruct (inv_edge _ _ HI _ _ _ Ht) as (p & np & nt & Hp & Hnp & Hv & Et & Hnt & Hck).
  destruct (inv_ring _ _ HI _ _ Hp) as [l Hl].
  destruct (delete_stop da T pk c p t np l HI Hp Hnp Ht Hl) as (it & ip & Hit & Hip & Hstop).
  destruct (unlink_post da T pk c p t np l HI Hp Hnp Ht Hleaf Hl)
    as (da1 & Hun & HI1 & Hlv1 & Ha1 & Hvals1 & Hvkey1 & Hlone).
  assert (Hlabel : chr (Z.lxor t (base np)) = c) by (rewrite Et; apply chr_lxor).
  assert (Ha1' : forall ks x, T_del T (pk ++ [c]) ks = Some x ->
            at_ (array da1) x = at_ (array da) x).
  { intros ks x Hx. rewrite Ha1, (at_upd _ _ _ _ _ Hnt).
    destruct (decide _) as [->|_]; [|reflexivity].
    unfold T_del in Hx. destruct (decide _) as [|N]; [discriminate|].
    exfalso. apply N. eapply (inv_inj _ _ HI); eassumption. }
  assert (Hstep : Delete_loop (S fuel) da t
    = if negb (bool_decide (l = [c]))
      then (d <- popSibling da p (base np) c; pushEnode d t)
      else (d <- pushEnode da t; Delete_loop fuel d p)).
  { cbn [Delete_loop]. unfold rd. rewrite Hnt. cbn [bind]. rewrite Hck, Hnp. cbn [bind].
    rewrite Hit. cbn [bind]. rewrite Hlabel.
    rewrite <- Hstop.
    destruct (negb (byte_eqb (Sibling it) NUL)); cbn [bind]; [reflexivity|].
    rewrite Hip. cbn [bind]. reflexivity. }
  rewrite Hstep.
  destruct (decide (l = [c])) as [El|Nl].
  - rewrite (bool_decide_eq_true_2 _ El). cbn [negb].
    destruct (Hlone El) as (dl & Hdl & Heq).
    rewrite Hdl. cbn [bind].
    assert (Hp1 : T_del T (pk ++ [c]) pk = Some p).
    { unfold T_del. destruct (decide _) as [E|_]; [|exact Hp].
      exfalso. eapply snoc_neq_self; exact E. }
    assert (Hone : forall d, is_Some (T (pk ++ [d])) -> d = c).
    { intros d Hd. apply (ring_dom _ _ _ _ _ Hl) in Hd. rewrite El in Hd.
      now apply list_elem_of_singleton in Hd. }
    destruct (IH fuel da1 (T_del T (pk ++ [c])) p HI1 Hp1) as (da' & T' & Hr & HI' & Hsub & Hlv & Hvals & Hvkey & HS).
    { intros d. unfold T_del. destruct (decide _) as [|N]; [reflexivity|].
      destruct (T (pk ++ [d])) eqn:E; [|reflexivity].
      assert (d = c) by (apply Hone; eauto). subst d. contradiction. }
    { apply branching_up; assumption. }
    { lia. }
    exists da', T'. split.
    { eapply (Delete_loop_eqmod fuel p da1 dl); [exact Heq| |exact Hr].
      intros n Hn. exact (check_not_self da1 _ pk p n HI1 Hp1 Hn). }
    split; [exact HI'|]. split.
    { intros ks x Hx. destruct (Hsub _ _ Hx) as [Hx1 _].
      unfold T_del in Hx1. destruct (decide _) as [|N]; [discriminate|]. auto. }
    split.
    { intros ks' Nks. destruct (decide (ks' = pk)) as [->|Npk].
      - rewrite (leafv_Some_T _ _ _ _ _ Hp Hnp).
        destruct (decide (0 <= Value np)); [lia|].
        apply leafv_None_T. destruct (T' pk) eqn:E; [|reflexivity].
        destruct (Hsub _ _ E) as [_ N]. contradiction.
      - rewrite (Hlv _ Npk), Hlv1. now destruct (decide _). }
    split; [congruence|]. split; [congruence|].
    intros HSB. apply HS. intros ks x nx Hne Hnpk Hx Hnx Hvx.
    rewrite (Ha1' _ _ Hx) in Hnx.
    unfold T_del in Hx. destruct (decide _) as [|N]; [discriminate|].
    destruct (HSB ks x nx Hne N Hx Hnx Hvx) as (d & Hd).
    exists d. unfold T_del. destruct (decide _) as [E|_]; [|exact Hd].
    apply app_inj_tail in E as [E _]. contradiction.
  - rewrite (bool_decide_eq_false_2 _ Nl). cbn [negb].
    exists da1, (T_del T (pk ++ [c])). split; [exact Hun|]. split; [exact HI1|].
    split.
    { intros ks x Hx. unfold T_del in Hx. destruct (decide _) as [|N]; [discriminate|]. auto. }
    split.
    { intros ks' Nks. rewrite Hlv1. now destruct (decide _). }
    split; [exact Hvals1|]. split; [exact Hvkey1|].
    intros HSB ks x nx Hne Hx Hnx Hvx.
    rewrite (Ha1' _ _ Hx) in Hnx.
    unfold T_del in Hx. destruct (decide _) as [|N]; [discriminate|].
    destruct (HSB ks x nx Hne N Hx Hnx Hvx) as (d & Hd).
    destruct (decide (ks ++ [d] = pk ++ [c])) as [E|NE].
    + apply app_inj_tail in E as [-> ->].
      assert (Hex : exists d', d' ∈ l /\ d' <> c).
      { pose proof (unl_c_in da T pk c p t l Ht Hl) as Hc.
        destruct l as [|c0 [|c1 l2]].
        - inversion Hc.
        - apply list_elem_of_singleton in Hc. subst c0. contradiction.
        - destruct (decide (c0 = c)) as [->|N0].
          + exists c1. split; [right; now left|].
            pose proof (ring_sorted _ _ _ _ _ Hl) as Hasc.
            apply ascending_cons_inv in Hasc as [_ Hall].
            intros ->. assert (Hin : c ∈ c :: l2) by now left.
            specialize (Hall _ Hin). lia.
          + exists c0. split; [now left|exact N0]. }
      destruct Hex as (d' & Hd' & Nd').
      exists d'. unfold T_del. destruct (decide _) as [E|_].
      * apply app_inj_tail in E as [_ E]. contradiction.
      * apply (ring_dom _ _ _ _ _ Hl). exact Hd'.
    + exists d. unfold T_del. destruct (decide _); [contradiction|exact Hd].
Qed.

Lemma Delete_loop_mono (fuel : nat) :
  forall fuel' da t r, Delete_loop fuel da t = Ret r -> (fuel <= fuel')%nat ->
    Delete_loop fuel' da t = Ret r.
Proof.
  induction fuel as [|fuel IH]; intros fuel' da t r H Hle; [discriminate|].
  destruct fuel' as [|fuel']; [lia|].
  cbn [Delete_loop] in *.
  apply bind_Ret in H as (nt & Hnt & H). rewrite Hnt. cbn [bind].
  apply bind_Ret in H as (nf & Hnf & H). rewrite Hnf. cbn [bind].
  apply bind_Ret in H as (it & Hit & H). rewrite Hit. cbn [bind].
  apply bind_Ret in H as (stop & Hstop & H). rewrite Hstop. cbn [bind].
  destruct stop; [exact H|].
  apply bind_Ret in H as (d & Hd & H). rewrite Hd. cbn [bind].
  apply IH; [exact H|lia].
Qed.

Lemma eqmod_sym (t : Z) (da1 da2 : Cedar) : eqmod t da1 da2 -> eqmod t da2 da1.
Proof.
  intros (Ha & Hv & Hk & H). split; [auto|]. split; [auto|]. split; [auto|].
  intros j. specialize (H j).
  destruct (at_ (info da1) j), (at_ (info da2) j); try exact H.
  destruct H as (S & E & C). split; [auto|]. split; [auto|].
  intros N. symmetry. auto.
Qed.

Lemma branching_down (T : placement) (pk : list byte) (c : byte) :
  branching (T_del T (pk ++ [c])) pk -> branching T (pk ++ [c]).
Proof.
  intros (pk0 & c0 & rest & d & -> & Hd & HT).
  exists pk0, c0, (rest ++ [c]), d. split; [now rewrite <- app_assoc|].
  split; [exact Hd|]. unfold T_del in HT. destruct (decide _); [|exact HT].
  destruct HT. discriminate.
Qed.

(** The climb returns only when the path branches: a climb that reaches
    the root indexes the array at the root's check, -1. *)
Lemma Delete_loop_ret_branching (tk : list byte) :
  forall fuel da T t r,
    Inv da T -> T tk = Some t -> (forall d, T (tk ++ [d]) = None) ->
    Delete_loop fuel da t = Ret r -> branching T tk.
Proof.
  induction tk as [|c pk IH] using rev_ind; intros fuel da T t r HI Ht Hleaf Hr.
  { exfalso. rewrite (inv_root _ _ HI) in Ht. injection Ht as <-.
    destruct (inv_root_node _ _ HI) as (n & Hn & _ & Hc).
    destruct fuel as [|fuel]; [discriminate|]. cbn [Delete_loop] in Hr.
    unfold rd at 1 in Hr. rewrite Hn in Hr. cbn [bind] in Hr.
    rewrite Hc in Hr. unfold rd at 1 in Hr. rewrite at_neg in Hr by lia. discriminate. }
  destruct (inv_edge _ _ HI _ _ _ Ht) as (p & np & nt & Hp & Hnp & Hv & Et & Hnt & Hck).
  destruct (inv_ring _ _ HI _ _ Hp) as [l Hl].
  destruct (decide (l = [c])) as [El|Nl].
  - destruct fuel as [|fuel]; [discriminate|].
    destruct (delete_stop da T pk c p t np l HI Hp Hnp Ht Hl) as (it & ip & Hit & Hip & Hstop).
    destruct (unlink_post da T pk c p t np l HI Hp Hnp Ht Hleaf Hl)
      as (da1 & Hun & HI1 & Hlv1 & Ha1 & Hvals1 & Hvkey1 & Hlone).
    destruct (Hlone El) as (dl & Hdl & Heq).
    assert (Hlabel : chr (Z.lxor t (base np)) = c) by (rewrite Et; apply chr_lxor).
    cbn [Delete_loop] in Hr. unfold rd in Hr. rewrite Hnt in Hr. cbn [bind] in Hr.
    rewrite Hck, Hnp in Hr. cbn [bind] in Hr. rewrite Hit in Hr. cbn [bind] in Hr.
    rewrite Hlabel in Hr. rewrite (bool_decide_eq_true_2 _ El) in Hstop. cbn [negb] in Hstop.
    destruct (negb (byte_eqb (Sibling it) NUL)); [discriminate|].
    rewrite Hip in Hr. cbn [bind] in Hr. rewrite Hstop in Hr.
    rewrite Hdl in Hr. cbn [bind] in Hr.
    assert (Hp1 : T_del T (pk ++ [c]) pk = Some p).
    { unfold T_del. destruct (decide _) as [E|_]; [|exact Hp].
      exfalso. eapply snoc_neq_self; exact E. }
    apply branching_down.
    apply (IH fuel da1 (T_del T (pk ++ [c])) p r HI1 Hp1).
    + intros d. unfold T_del. destruct (decide _) as [|N]; [reflexivity|].
      destruct (T (pk ++ [d])) eqn:E; [|reflexivity].
      assert (Hd : d ∈ l) by (apply (ring_dom _ _ _ _ _ Hl); rewrite E; eauto).
      rewrite El in Hd. apply list_elem_of_singleton in Hd. subst d. contradiction.
    + eapply (Delete_loop_eqmod fuel p dl da1); [apply eqmod_sym; exact Heq| |exact Hr].
      intros n Hn. destruct Heq as (Ha & _). rewrite <- Ha in Hn.
      exact (check_not_self da1 _ pk p n HI1 Hp1 Hn).
  - pose proof (unl_c_in da T pk c p t l Ht Hl) as Hc.
    assert (Hex : exists d', d' ∈ l /\ d' <> c).
    { destruct l as [|c0 [|c1 l2]].
      - inversion Hc.
      - apply list_elem_of_singleton in Hc. subst c0. contradiction.
      - destruct (decide (c0 = c)) as [->|N0].
        + exists c1. split; [right; now left|].
          pose proof (ring_sorted _ _ _ _ _ Hl) as Hasc.
          apply ascending_cons_inv in Hasc as [_ Hall].
          intros ->. assert (Hin : c ∈ c :: l2) by now left.
          specialize (Hall _ Hin). lia.
        + exists c0. split; [now left|exact N0]. }
    destruct Hex as (d' & Hd' & Nd').
    exists pk, c, [], d'. split; [reflexivity|]. split; [exact Nd'|].
    apply (ring_dom _ _ _ _ _ Hl). exact Hd'.
Qed.

Lemma Delete_loop_post (tk : list byte) (fuel : nat) (da : Cedar) (T : placement)
    (t : Z) (r : Cedar) :
  Inv da T -> T tk = Some t -> (forall d, T (tk ++ [d]) = None) ->
  Delete_loop fuel da t = Ret r ->
  exists T',
    Inv r T' /\
    (forall ks x, T' ks = Some x -> T ks = Some x /\ ks <> tk) /\
    (forall ks', ks' <> tk -> leafv r T' ks' = leafv da T ks') /\
    vals r = vals da /\ vkey r = vkey da /\
    (StrictBut da T tk -> Strict r T').
Proof.
  intros HI Ht Hleaf Hr.
  pose proof (Delete_loop_ret_branching tk fuel da T t r HI Ht Hleaf Hr) as Hbr.
  destruct (Delete_loop_spec tk (fuel + length tk) da T t HI Ht Hleaf Hbr) as (da' & T' & Hr' & H);
    [lia|].
  rewrite (Delete_loop_mono fuel (fuel + length tk) da t r Hr) in Hr' by lia.
  injection Hr' as <-. exists T'. exact H.
Qed.

(** Two leaves on different paths: each path branches off the other. *)
Lemma diverge {A} `{EqDecision A} (l1 l2 : list A) :
  l1 <> l2 ->
  (exists e r, l2 = l1 ++ e :: r) \/ (exists e r, l1 = l2 ++ e :: r) \/
  (exists pk c d r1 r2, c <> d /\ l1 = pk ++ c :: r1 /\ l2 = pk ++ d :: r2).
Proof.
  revert l2. induction l1 as [|a l1 IH]; intros [|b l2] Hne.
  - contradiction.
  - left. exists b, l2. reflexivity.
  - right. left. exists a, l1. reflexivity.
  - destruct (decide (a = b)) as [->|Nab].
    + destruct (IH l2) as [(e & r & ->)|[(e & r & ->)|(pk & c & d & r1 & r2 & Hcd & -> & ->)]].
      * congruence.
      * left. exists e, r. reflexivity.
      * right. left. exists e, r. reflexivity.
      * right. right. exists (b :: pk), c, d, r1, r2. auto.
    + right. right. exists [], a, b, l1, l2. auto.
Qed.

Lemma leaves_branch (da : Cedar) (T : placement) (h1 h2 : list byte) (v1 v2 : Z) :
  Inv da T -> leafv da T h1 = Some v1 -> leafv da T h2 = Some v2 -> h1 <> h2 ->
  branching T h1.
Proof.
  intros HI H1 H2 Hne.
  pose proof H1 as H1'. apply leafv_Some_inv in H1' as (x1 & _ & Hx1 & _).
  pose proof H2 as H2'. apply leafv_Some_inv in H2' as (x2 & _ & Hx2 & _).
  destruct (diverge h1 h2 Hne) as [(e & r & ->)|[(e & r & ->)|(pk & c & d & r1 & r2 & Hcd & -> & ->)]].
  - exfalso. assert (Hs : is_Some (T (h1 ++ [e]))).
    { apply (placed_prefix da T (h1 ++ [e]) r HI). rewrite <- app_assoc. cbn. eauto. }
    rewrite (leaf_no_child _ _ _ _ e HI H1) in Hs. destruct Hs. discriminate.
  - exfalso. assert (Hs : is_Some (T (h2 ++ [e]))).
    { apply (placed_prefix da T (h2 ++ [e]) r HI). rewrite <- app_assoc. cbn. eauto. }
    rewrite (leaf_no_child _ _ _ _ e HI H2) in Hs. destruct Hs. discriminate.
  - exists pk, c, r1, d. split; [reflexivity|]. split; [congruence|].
    apply (placed_prefix da T (pk ++ [d]) r2 HI). rewrite <- app_assoc. cbn. eauto.
Qed.

(** ** [Delete] *)

Lemma Delete_unfold (fuel : nat) (da : Cedar) (T : placement) (key : list byte) :
  Inv da T ->
  (stored da T key = None /\ exists e, Delete fuel da key = Ret (da, Some e)) \/
  (exists v, stored da T key = Some v /\ vals da !! v = None /\
             Delete fuel da key = Ret (da, Some ErrNoValue)) \/
  (exists v nv hk h,
     stored da T key = Some v /\ vals da !! v = Some nv /\
     (hk = key \/ hk = key ++ [NUL]) /\ T hk = Some h /\ leafv da T hk = Some v /\
     Delete fuel da key = (da2 <- Delete_loop fuel da h; Ret (da2, None))).
Proof.
  intros HI. pose proof (Jump_spec da T key HI) as HJ.
  destruct (T key) as [to|] eqn:Hto.
  - pose proof (vKeyOf_spec da T key to HI Hto) as HV.
    destruct (stored da T key) as [v|] eqn:Hs.
    + destruct (vals da !! v) as [nv|] eqn:Hv.
      * right. right.
        destruct (inv_placed _ _ HI _ _ Hto) as (nt & Hnt & _).
        unfold stored in Hs. rewrite (leafv_Some_T _ _ _ _ _ Hto Hnt) in Hs.
        destruct (decide (0 <= Value nt)) as [Hge|Hlt].
        -- injection Hs as <-. exists (Value nt), nv, key, to.
           split; [reflexivity|].
           split; [exact Hv|]. split; [now left|]. split; [exact Hto|].
           split; [rewrite (leafv_Some_T _ _ _ _ _ Hto Hnt); now destruct (decide _)|].
           unfold Delete. rewrite HJ. cbn [bind]. rewrite HV. cbn [bind]. rewrite Hv.
           unfold rd. rewrite Hnt. cbn [bind].
           destruct (Z.ltb_spec (Value nt) 0); [lia|]. reflexivity.
        -- pose proof Hs as Hs'. apply leafv_Some_inv in Hs' as (y & ny & Hy & Hny & _).
           destruct (inv_edge _ _ HI _ _ _ Hy) as (p & np & ny' & Hp & Hnp & _ & Ey & Hny' & Hck).
           rewrite Hto in Hp. injection Hp as <-. rewrite Hnt in Hnp. injection Hnp as <-.
           assert (Ey' : y = base nt) by (rewrite Ey; cbn; apply Z.lxor_0_r).
           exists v, nv, (key ++ [NUL]), y.
           split; [reflexivity|].
           split; [exact Hv|]. split; [now right|]. split; [exact Hy|].
           split; [exact Hs|].
           unfold Delete. rewrite HJ. cbn [bind]. rewrite HV. cbn [bind]. rewrite Hv.
           unfold rd. rewrite Hnt. cbn [bind].
           destruct (Z.ltb_spec (Value nt) 0); [|lia].
           rewrite <- Ey', Hny'. cbn [bind]. rewrite Hck, Z.eqb_refl. reflexivity.
      * right. left. exists v. split; [reflexivity|]. split; [exact Hv|].
        unfold Delete. rewrite HJ. cbn [bind]. rewrite HV. cbn [bind]. now rewrite Hv.
    + left. split; [reflexivity|]. exists ErrNoValue.
      unfold Delete. rewrite HJ. cbn [bind]. rewrite HV. reflexivity.
  - left. split; [now apply stored_absent|]. destruct HJ as (x & HJ).
    exists ErrNoPath. unfold Delete. rewrite HJ. reflexivity.
Qed.

Lemma Strict_StrictBut (da : Cedar) (T : placement) (tk : list byte) :
  Strict da T -> StrictBut da T tk.
Proof. intros HS ks p np Hne _. now apply HS. Qed.

(** What a [Delete] that climbs from the leaf of [key] achieves. *)
Lemma Delete_loop_key (fuel : nat) (da : Cedar) (T : placement) (key hk : list byte)
    (h v : Z) (r : Cedar) :
  Inv da T -> Strict da T -> NulLeaf da T -> NUL ∉ key ->
  (hk = key \/ hk = key ++ [NUL]) -> T hk = Some h -> leafv da T hk = Some v ->
  Delete_loop fuel da h = Ret r ->
  exists T',
    Inv r T' /\ Strict r T' /\ NulLeaf r T' /\
    stored r T' key = None /\
    (forall k', NUL ∉ k' -> k' <> key -> storedv r T' k' = storedv da T k') /\
    vals r = vals da /\ vkey r = vkey da /\
    (Bounded da T -> Bounded r T').
Proof.
  intros HI HS HN Hk Hhk Hh Hv Hr.
  destruct (Delete_loop_post hk fuel da T h r HI Hh) as (T' & HI' & Hsub & Hlv & Hvals & Hvkey & HS');
    [intros d; eapply leaf_no_child; eassumption|exact Hr|].
  exists T'. split; [exact HI'|]. split; [apply HS', Strict_StrictBut, HS|].
  assert (HT'hk : T' hk = None).
  { destruct (T' hk) eqn:E; [|reflexivity]. destruct (Hsub _ _ E) as [_ N]. contradiction. }
  split.
  { intros ks y Hy. destruct (Hsub _ _ Hy) as [Hy' N].
    rewrite (Hlv _ N). eapply HN; exact Hy'. }
  split.
  { unfold stored. destruct Hhk as [->| ->].
    - rewrite (leafv_None_T _ _ _ HT'hk).
      rewrite (Hlv (key ++ [NUL])) by (intros E; symmetry in E; eapply snoc_neq_self; exact E).
      apply leafv_None_T. eapply leaf_no_child; eassumption.
    - assert (Hnone : leafv da T key = None).
      { destruct (leafv da T key) eqn:E; [|reflexivity].
        rewrite (leaf_no_child _ _ _ _ NUL HI E) in Hh. discriminate. }
      rewrite (Hlv key) by (apply snoc_neq_self). rewrite Hnone.
      apply leafv_None_T, HT'hk. }
  split.
  { intros k' Hk' Hne. destruct (holder_other key hk k' Hhk Hk Hk' Hne) as [N1 N2].
    apply storedv_eq; apply Hlv; assumption. }
  split; [exact Hvals|]. split; [exact Hvkey|].
  intros HB ks' w Hw. destruct (decide (ks' = hk)) as [->|N].
  - rewrite (leafv_None_T _ _ _ HT'hk) in Hw. discriminate.
  - rewrite (Hlv _ N) in Hw. exact (HB _ _ Hw).
Qed.

(** With enough fuel, and while another leaf exists, the climb returns. *)
Lemma Delete_loop_returns (fuel : nat) (da : Cedar) (T : placement)
    (hk h2 : list byte) (h v v2 : Z) :
  Inv da T -> T hk = Some h -> leafv da T hk = Some v ->
  leafv da T h2 = Some v2 -> h2 <> hk -> (length hk <= fuel)%nat ->
  exists r, Delete_loop fuel da h = Ret r.
Proof.
  intros HI Hh Hv Hv2 Hne Hfuel.
  assert (Hbr : branching T hk) by (eapply leaves_branch; eauto).
  destruct (Delete_loop_spec hk fuel da T h HI Hh) as (r & _ & Hr & _); eauto.
  intros d. eapply leaf_no_child; eassumption.
Qed.

(** ** [Update] *)

Lemma wrap64_id (z : Z) : - 2 ^ 63 <= z < 2 ^ 63 -> wrap64 z = z.
Proof. intros H. unfold wrap64. rewrite Z.mod_small; lia. Qed.

Lemma Update_spec (da : Cedar) (T : placement) (k : list byte) (d : Z) :
  Inv da T -> Strict da T -> NulLeaf da T -> NUL ∉ k ->
  exists da1 T1 kk id p,
    get da k 0 = Ret (da1, id) /\ get_post da T k da1 T1 id /\
    (kk = k \/ kk = k ++ [NUL]) /\ T1 kk = Some id /\ leafv da1 T1 kk = Some p /\
    (stored da T k = Some p \/ storedv da T k = None /\ p = valueLimit) /\
    if (wrap64 (p + d) <? 0) || (wrap64 (p + d) >=? valueLimit)
    then Update da k d = Ret (da1, Some ErrInvalidValue)
    else exists da2,
      Update da k d = Ret (da2, None) /\
      Inv da2 T1 /\ Strict da2 T1 /\ NulLeaf da2 T1 /\
      stored da2 T1 k = Some (wrap64 (p + d)) /\
      (forall k', NUL ∉ k' -> k' <> k -> storedv da2 T1 k' = storedv da T k') /\
      vals da2 = vals da /\ vkey da2 = vkey da /\
      (Bounded da T -> Bounded da2 T1).
Proof.
  intros HI HS HN Hk.
  destruct (get_spec k da T [] 0 HI HN (inv_root _ _ HI)) as (da1 & T1 & id & Hget & GP);
    [inversion 1|exact Hk|].
  cbn [app] in GP. pose proof GP as [G1 G2 G3 G4 G5 G6 G7 G8].
  destruct G5 as (kk & w & Hkk & Hid & Hw & Hst).
  exists da1, T1, kk, id, w. split; [exact Hget|]. split; [exact GP|].
  split; [exact Hkk|]. split; [exact Hid|]. split; [exact Hw|].
  pose proof Hw as Hw'. apply leafv_Some_inv in Hw' as (x & n & Hx & Hn & Hvn & Hw0).
  rewrite Hid in Hx. injection Hx as <-.
  split.
  { pose proof (G4 k Hk) as E. unfold storedv in E. rewrite Hst in E.
    destruct (decide (w = valueLimit)) as [->|Nw].
    - right. split; [|reflexivity]. unfold storedv.
      destruct (stored da T k) as [v0|]; [|reflexivity].
      destruct (decide (v0 = valueLimit)); [reflexivity|discriminate].
    - left. destruct (stored da T k) as [v0|]; [|discriminate].
      destruct (decide (v0 = valueLimit)); [discriminate|]. congruence. }
  destruct ((wrap64 (w + d) <? 0) || (wrap64 (w + d) >=? valueLimit)) eqn:Hc.
  - unfold Update. rewrite Hget. cbn [bind]. unfold rd. rewrite Hn. cbn [bind].
    rewrite Hvn, Hc. reflexivity.
  - apply orb_false_elim in Hc as [Hc1 Hc2].
    apply Z.ltb_ge in Hc1.
    destruct (setValue_leaf_post da1 T1 kk id w (wrap64 (w + d)) G1 Hid Hw Hc1)
      as (da2 & Hset & HI2 & Hl2 & Hoth & HS2 & HN2 & Hinf & Hvals2 & Hvkey2).
    exists da2. split.
    { unfold Update. rewrite Hget. cbn [bind]. unfold rd. rewrite Hn. cbn [bind].
      rewrite Hvn. apply Z.ltb_ge in Hc1. rewrite Hc1, Hc2. cbn [orb].
      rewrite Hset. reflexivity. }
    split; [exact HI2|]. split; [auto|]. split; [auto|].
    split; [eapply stored_holder; eassumption|].
    split.
    { intros k' Hk' Hne. destruct (holder_other k kk k' Hkk Hk Hk' Hne) as [N1 N2].
      rewrite <- (G4 k' Hk'). apply storedv_eq; apply Hoth; assumption. }
    split; [congruence|]. split; [congruence|].
    intros HB. apply (Bounded_set da1 T1 da2 T1 kk (wrap64 (w + d)));
      [exact (G8 HB)| |exact Hl2|exact Hoth].
    apply Z.ltb_ge in Hc1. destruct (Z.geb_spec (wrap64 (w + d)) valueLimit); [discriminate|lia].
Qed.

(** ** Histories *)

Lemma NulLeaf_NewCedar : NulLeaf NewCedar T_root.
Proof. intros ks y H. rewrite T_root_snoc in H. discriminate. Qed.

Lemma storedv_NewCedar (k : list byte) : storedv NewCedar T_root k = None.
Proof.
  unfold storedv, stored.
  assert (H : forall ks, leafv NewCedar T_root ks = None).
  { intros [|b ks]; reflexivity. }
  now rewrite !H.
Qed.

Lemma Good_NewCedar : Good NewCedar (fun _ => Absent).
Proof.
  exists T_root. split; [apply Inv_NewCedar|]. split; [apply Strict_NewCedar|].
  split; [apply NulLeaf_NewCedar|].
  split; [intros [|b ks] v H; discriminate|].
  split; [cbn; unfold valueLimit; lia|].
  split.
  - intros j [x Hx]. cbn in Hx. rewrite lookup_empty in Hx. discriminate.
  - intros k _. apply storedv_NewCedar.
Qed.

Lemma storedv_Some (da : Cedar) (T : placement) (k : list byte) (v : Z) :
  storedv da T k = Some v <-> stored da T k = Some v /\ v <> valueLimit.
Proof.
  unfold storedv. destruct (stored da T k) as [w|]; [|split; [discriminate|intros [? _]; discriminate]].
  destruct (decide (w = valueLimit)) as [->|N]; split.
  - discriminate.
  - intros [E N]. congruence.
  - intros E. injection E as <-. auto.
  - intros [E _]. exact E.
Qed.

Lemma storedv_None (da : Cedar) (T : placement) (k : list byte) :
  storedv da T k = None <-> stored da T k = None \/ stored da T k = Some valueLimit.
Proof.
  unfold storedv. destruct (stored da T k) as [w|]; [|split; auto].
  destruct (decide (w = valueLimit)) as [->|N]; split; auto.
  - intros [E|E]; [discriminate|congruence].

Qed.

Lemma Good_Insert (da : Cedar) (m : model) (k : list byte) (v : iface) :
  Good da m -> NUL ∉ k -> vkey da < valueLimit ->
  exists da',
    Insert da k v = Ret (da', None) /\ Good da' (model_step m (OpInsert k v)) /\
    vkey da' = vkey da + 1.
Proof.
  intros (T & HI & HS & HN & HB & Hvk & Hdom & Hm) Hk Hlt.
  destruct (Insert_spec da T k v HI HS HN Hk)
    as (da' & T' & Hr & HI' & HS' & HN' & Hst & Hoth & Hvals & Hvkey & HB');
    [lia|].
  assert (Hvk' : vkey da' = vkey da + 1).
  { rewrite Hvkey. apply wrap64_id. unfold valueLimit in *. lia. }
  exists da'. split; [exact Hr|]. split; [|exact Hvk'].
  exists T'. split; [exact HI'|]. split; [exact HS'|]. split; [exact HN'|].
  split; [apply HB'; [exact HB|lia]|].
  split; [lia|]. split.
  - intros j. rewrite Hvals. destruct (decide (j = vkey da)) as [->|N].
    + intros _. lia.
    + rewrite lookup_insert_ne by congruence. intros Hj. specialize (Hdom _ Hj). lia.
  - intros k' Hk'. unfold model_step. cbn [op_key].
    destruct (decide (k' = k)) as [->|N].
    + exists (vkey da), (mkNValue (Z.of_nat (length k)) v).
      split; [apply storedv_Some; split; [exact Hst|lia]|].
      split; [rewrite Hvals; apply lookup_insert_eq|reflexivity].
    + specialize (Hm k' Hk'). rewrite (Hoth k' Hk' N).
      destruct (m k') as [| |v']; [exact I|exact Hm|].
      destruct Hm as (vk & nv & H1 & H2 & H3). exists vk, nv.
      split; [exact H1|]. split; [|exact H3].
      rewrite Hvals, lookup_insert_ne; [exact H2|].
      intros <-. assert (Hs : is_Some (vals da !! vkey da)) by eauto.
      specialize (Hdom _ Hs). lia.
Qed.

Lemma Good_Update (da : Cedar) (m : model) (k : list byte) (d : Z) :
  Good da m -> NUL ∉ k ->
  exists da' e,
    Update da k d = Ret (da', e) /\ Good da' (model_step m (OpUpdate k d)) /\
    vkey da' = vkey da.
Proof.
  intros (T & HI & HS & HN & HB & Hvk & Hdom & Hm) Hk.
  destruct (Update_spec da T k d HI HS HN Hk)
    as (da1 & T1 & kk & id & p & Hget & GP & Hkk & Hid & Hp & Hprev & Hres).
  destruct GP as [G1 G2 G3 G4 G5 G6 G7 G8].
  destruct ((wrap64 (p + d) <? 0) || (wrap64 (p + d) >=? valueLimit)).
  - exists da1, (Some ErrInvalidValue). split; [exact Hres|]. split; [|exact G7].
    exists T1. split; [exact G1|]. split; [auto|]. split; [auto|]. split; [auto|].
    rewrite G6, G7. split; [exact Hvk|]. split; [exact Hdom|].
    intros k' Hk'. unfold model_step. cbn [op_key].
    destruct (decide (k' = k)); [exact I|]. rewrite (G4 k' Hk'). apply Hm, Hk'.
  - destruct Hres as (da2 & Hr & HI2 & HS2 & HN2 & Hst & Hoth & Hvals & Hvkey & HB2).
    exists da2, None. split; [exact Hr|]. split; [|exact Hvkey].
    exists T1. split; [exact HI2|]. split; [exact HS2|]. split; [exact HN2|].
    split; [exact (HB2 HB)|].
    rewrite Hvals, Hvkey. split; [exact Hvk|]. split; [exact Hdom|].
    intros k' Hk'. unfold model_step. cbn [op_key].
    destruct (decide (k' = k)) as [|N]; [exact I|]. rewrite (Hoth k' Hk' N). apply Hm, Hk'.
Qed.

Lemma Good_Delete (fuel : nat) (da : Cedar) (m : model) (k : list byte)
    (da' : Cedar) (e : option error) :
  Good da m -> NUL ∉ k -> Delete fuel da k = Ret (da', e) ->
  Good da' (model_step m (OpDelete k)) /\ vkey da' = vkey da.
Proof.
  intros (T & HI & HS & HN & HB & Hvk & Hdom & Hm) Hk Hr.
  destruct (Delete_unfold fuel da T k HI)
    as [(Hs & e0 & Hd)|[(v & Hs & Hv & Hd)|(v & nv & hk & h & Hs & Hv & Hhk & Hh & Hlv & Hd)]].
  - rewrite Hd in Hr. injection Hr as <- <-. split; [|reflexivity].
    exists T. split; [exact HI|]. split; [exact HS|]. split; [exact HN|].
    split; [exact HB|].
    split; [exact Hvk|]. split; [exact Hdom|].
    intros k' Hk'. unfold model_step. cbn [op_key]. specialize (Hm k' Hk').
    destruct (decide (k' = k)) as [->|N]; [|exact Hm].
    destruct (m k); [exact I| |]; apply storedv_None; now left.
  - rewrite Hd in Hr. injection Hr as <- <-. split; [|reflexivity].
    exists T. split; [exact HI|]. split; [exact HS|]. split; [exact HN|].
    split; [exact HB|].
    split; [exact Hvk|]. split; [exact Hdom|].
    intros k' Hk'. unfold model_step. cbn [op_key]. specialize (Hm k' Hk').
    destruct (decide (k' = k)) as [->|N]; [|exact Hm].
    destruct (m k); [exact I|exact Hm|].
    destruct Hm as (vk & nv & H1 & H2 & _). apply storedv_Some in H1 as [H1 _].
    congruence.
  - rewrite Hd in Hr. apply bind_Ret in Hr as (r & Hloop & Hr). injection Hr as <- <-.
    destruct (Delete_loop_key fuel da T k hk h v r HI HS HN Hk Hhk Hh Hlv Hloop)
      as (T' & HI' & HS' & HN' & Hst & Hoth & Hvals & Hvkey & HB').
    split; [|exact Hvkey].
    exists T'. split; [exact HI'|]. split; [exact HS'|]. split; [exact HN'|].
    split; [exact (HB' HB)|].
    rewrite Hvals, Hvkey. split; [exact Hvk|]. split; [exact Hdom|].
    intros k' Hk'. unfold model_step. cbn [op_key]. specialize (Hm k' Hk').
    destruct (decide (k' = k)) as [->|N].
    + destruct (m k); [exact I| |]; apply storedv_None; now left.
    + rewrite (Hoth k' Hk' N). exact Hm.
Qed.

Lemma Good_step (fuel : nat) (da : Cedar) (m : model) (o : op) (da' : Cedar) :
  Good da m -> NUL ∉ op_key o -> vkey da < valueLimit ->
  apply_op fuel da o = Ret da' ->
  Good da' (model_step m o) /\ vkey da' <= vkey da + 1.
Proof.
  intros HG Hk Hlt Hr. destruct o as [k v|k d|k]; cbn [op_key apply_op] in *.
  - destruct (Good_Insert da m k v HG Hk Hlt) as (da2 & Hi & HG2 & Hv).
    rewrite Hi in Hr. injection Hr as <-. split; [exact HG2|lia].
  - destruct (Good_Update da m k d HG Hk) as (da2 & e & Hu & HG2 & Hv).
    rewrite Hu in Hr. injection Hr as <-. split; [exact HG2|lia].
  - apply bind_Ret in Hr as ([da2 e] & Hd & Hr). injection Hr as <-.
    destruct (Good_Delete fuel da m k da2 e HG Hk Hd) as [HG2 Hv]. split; [exact HG2|lia].
Qed.

Lemma Good_run (fuel : nat) (ops : list op) :
  forall da m da',
    Good da m -> Forall (fun o => NUL ∉ op_key o) ops ->
    vkey da + Z.of_nat (length ops) <= valueLimit ->
    run_ops fuel ops da = Ret da' ->
    Good da' (foldl model_step m ops).
Proof.
  induction ops as [|o ops IH]; intros da m da' HG Hnul Hlen Hr.
  - injection Hr as <-. exact HG.
  - cbn [run_ops] in Hr. apply bind_Ret in Hr as (da1 & Ho & Hr).
    apply Forall_cons in Hnul as [Hk Hnul]. cbn [length] in Hlen.
    destruct (Good_step fuel da m o da1 HG Hk) as [HG1 Hv1]; [lia|exact Ho|].
    cbn [foldl]. apply (IH da1 _ da' HG1 Hnul); [lia|exact Hr].
Qed.

(** The outcome of [Get] in a state that agrees with a history. *)
Lemma Get_Good (da : Cedar) (m : model) (k : list byte) :
  Good da m -> NUL ∉ k ->
  match m k with
  | Holds v => Get da k = Ret (v, None)
  | Absent => exists x e, Get da k = Ret (x, Some e) /\ (e = ErrNoPath \/ e = ErrNoValue)
  | Unknown => True
  end.
Proof.
  intros (T & HI & HS & HN & HB & Hvk & Hdom & Hm) Hk. specialize (Hm k Hk).
  pose proof (Jump_spec da T k HI) as HJ.
  destruct (m k) as [| |v]; [exact I| |].
  - apply storedv_None in Hm.
    destruct (T k) as [to|] eqn:Hto.
    + pose proof (vKeyOf_spec da T k to HI Hto) as HV.
      unfold Get. rewrite HJ. cbn [bind]. rewrite HV.
      destruct Hm as [-> | ->]; cbn [bind].
      * eauto.
      * destruct (vals da !! valueLimit) eqn:E; [|eauto].
        assert (Hs : is_Some (vals da !! valueLimit)) by eauto.
        specialize (Hdom _ Hs). lia.
    + destruct HJ as (x & HJ). unfold Get. rewrite HJ. cbn [bind]. eauto.
  - destruct Hm as (vk & nv & H1 & H2 & H3). apply storedv_Some in H1 as [H1 _].
    destruct (stored_placed _ _ _ _ HI H1) as [to Hto]. rewrite Hto in HJ.
    pose proof (vKeyOf_spec da T k to HI Hto) as HV. rewrite H1 in HV.
    unfold Get. rewrite HJ. cbn [bind]. rewrite HV. cbn [bind]. rewrite H2, H3. reflexivity.
Qed.

Lemma model_untouched (ops : list op) (k : list byte) :
  forall m, Forall (fun o => op_key o <> k) ops -> foldl model_step m ops k = m k.
Proof.
  induction ops as [|o ops IH]; intros m H; [reflexivity|].
  apply Forall_cons in H as [Ho H]. cbn [foldl]. rewrite (IH _ H).
  unfold model_step. destruct (decide _) as [E|_]; [|reflexivity].
  symmetry in E. contradiction.
Qed.

Lemma model_after_Insert (ops1 ops2 : list op) (k : list byte) (v : iface) :
  Forall (fun o => op_key o <> k) ops2 ->
  model_of (ops1 ++ OpInsert k v :: ops2) k = Holds v.
Proof.
  intros H. unfold model_of. rewrite foldl_app. cbn [foldl].
  rewrite (model_untouched ops2 k _ H). unfold model_step. cbn [op_key].
  now destruct (decide _).
Qed.
Lemma run_ops_app (fuel : nat) (ops1 ops2 : list op) :
  forall da, run_ops fuel (ops1 ++ ops2) da
             = (da1 <- run_ops fuel ops1 da; run_ops fuel ops2 da1).
Proof.
  induction ops1 as [|o ops1 IH]; intros da; [reflexivity|].
  cbn [app run_ops]. destruct (apply_op fuel da o); cbn [bind]; auto.
Qed.

Lemma Delete_total (fuel : nat) (da : Cedar) (m : model) (k k0 : list byte)
    (v0 : iface) :
  Good da m -> NUL ∉ k -> NUL ∉ k0 -> k0 <> k -> m k0 = Holds v0 ->
  (length k < fuel)%nat ->
  exists da' e, Delete fuel da k = Ret (da', e).
Proof.
  intros (T & HI & HS & HN & HB & Hvk & Hdom & Hm) Hk Hk0 Hne H0 Hfuel.
  destruct (Delete_unfold fuel da T k HI)
    as [(Hs & e0 & Hd)|[(v & Hs & Hv & Hd)|(v & nv & hk & h & Hs & Hv & Hhk & Hh & Hlv & Hd)]];
    [eauto|eauto|].
  specialize (Hm k0 Hk0). rewrite H0 in Hm. destruct Hm as (vk & _ & Hst & _).
  apply storedv_Some in Hst as [Hst _].
  destruct (holder_other k hk k0 Hhk Hk Hk0 Hne) as [N1 N2].
  assert (Hlen : (length hk <= fuel)%nat).
  { destruct Hhk as [->| ->]; [lia|]. rewrite length_app. cbn. lia. }
  assert (Hex : exists h2 v2, leafv da T h2 = Some v2 /\ h2 <> hk).
  { unfold stored in Hst. destruct (leafv da T k0) as [w|] eqn:E.
    - exists k0, w. auto.
    - exists (k0 ++ [NUL]), vk. auto. }
  destruct Hex as (h2 & v2 & Hv2 & Nh).
  destruct (Delete_loop_returns fuel da T hk h2 h v v2 HI Hh Hlv Hv2 Nh Hlen) as (r & Hr).
  exists r, None. rewrite Hd, Hr. reflexivity.
Qed.

Lemma run_inserts (fuel : nat) (kvs : list (list byte * iface)) :
  forall da m,
    Good da m -> Forall (fun kv => NUL ∉ kv.1) kvs ->
    vkey da + Z.of_nat (length kvs) <= valueLimit ->
    exists da', run_ops fuel (map (fun kv => OpInsert kv.1 kv.2) kvs) da = Ret da'.
Proof.
  induction kvs as [|[k v] kvs IH]; intros da m HG Hnul Hlen; [cbn; eauto|].
  apply Forall_cons in Hnul as [Hk Hnul]. cbn [length] in Hlen. cbn [fst] in Hk.
  destruct (Good_Insert da m k v HG Hk) as (da1 & Hi & HG1 & Hv1); [lia|].
  destruct (IH da1 _ HG1 Hnul) as (da' & Hr); [lia|].
  exists da'. cbn [map run_ops apply_op fst snd]. rewrite Hi. cbn [bind]. exact Hr.
Qed.

Lemma run_deletes (fuel : nat) (S : list (list byte)) (k0 : list byte) (v0 : iface) :
  forall da m,
    Good da m -> m k0 = Holds v0 -> NUL ∉ k0 -> k0 ∉ S ->
    Forall (fun s => NUL ∉ s) S -> Forall (fun s => (length s < fuel)%nat) S ->
    exists da', run_ops fuel (map OpDelete S) da = Ret da'.
Proof.
  induction S as [|s S IH]; intros da m HG H0 Hk0 Hnin Hnul Hfuel; [cbn; eauto|].
  apply Forall_cons in Hnul as [Hs Hnul]. apply Forall_cons in Hfuel as [Hf Hfuel].
  apply not_elem_of_cons in Hnin as [Hne Hnin].
  destruct (Delete_total fuel da m s k0 v0 HG Hs Hk0 Hne H0 Hf) as (da1 & e & Hd).
  destruct (Good_Delete fuel da m s da1 e HG Hs Hd) as [HG1 _].
  destruct (IH da1 _ HG1) as (da' & Hr); try assumption.
  { unfold model_step. cbn [op_key]. destruct (decide _); [contradiction|exact H0]. }
  exists da'. cbn [map run_ops apply_op]. rewrite Hd. cbn [bind]. exact Hr.
Qed.

Lemma model_inserts (kvs : list (list byte * iface)) (k : list byte) (v : iface) :
  forall m, NoDup kvs.*1 -> (k, v) ∈ kvs ->
    foldl model_step m (map (fun kv => OpInsert kv.1 kv.2) kvs) k = Holds v.
Proof.
  induction kvs as [|[k1 v1] kvs IH]; intros m Hnd Hin; [inversion Hin|].
  cbn [fmap list_fmap fst] in Hnd. apply NoDup_cons in Hnd as [Hk1 Hnd].
  cbn [map foldl fst snd].
  apply elem_of_cons in Hin as [E|Hin].
  - injection E as -> ->. rewrite model_untouched.
    + unfold model_step. cbn [op_key]. now destruct (decide _).
    + apply Forall_forall. intros o Ho. apply list_elem_of_In, in_map_iff in Ho.
      destruct Ho as ([k2 v2] & <- & Hin2). cbn [op_key fst]. intros ->.
      apply Hk1. apply list_elem_of_In in Hin2.
      apply (list_elem_of_fmap_2 fst) in Hin2. exact Hin2.
  - apply IH; assumption.
Qed.

Lemma model_deletes (S : list (list byte)) (k : list byte) :
  forall m, m k <> Unknown ->
    foldl model_step m (map OpDelete S) k = if decide (k ∈ S) then Absent else m k.
Proof.
  induction S as [|s S IH]; intros m Hm; [reflexivity|].
  cbn [map foldl]. rewrite IH.
  - unfold model_step. cbn [op_key]. destruct (decide (k = s)) as [->|N].
    + destruct (decide (s ∈ S)), (decide (s ∈ s :: S)) as [|N2]; try reflexivity.
      * exfalso. apply N2. now left.
      * destruct (m s); [contradiction|reflexivity|reflexivity].
      * exfalso. apply N2. now left.
    + destruct (decide (k ∈ S)) as [i|n], (decide (k ∈ s :: S)) as [i2|n2]; try reflexivity.
      * exfalso. apply n2. now right.
      * exfalso. apply elem_of_cons in i2 as [|]; contradiction.
  - unfold model_step. cbn [op_key]. destruct (decide (k = s)); [|exact Hm].
    destruct (m k); [contradiction|discriminate|discriminate].
Qed.

Lemma model_inserts_known (kvs : list (list byte * iface)) (k : list byte) :
  forall m, m k <> Unknown ->
    foldl model_step m (map (fun kv => OpInsert kv.1 kv.2) kvs) k <> Unknown.
Proof.
  induction kvs as [|kv kvs IH]; intros m H; [exact H|].
  cbn [map foldl]. apply IH. unfold model_step. cbn [op_key].
  destruct (decide _); [discriminate|exact H].
Qed.

(** ** [Key] *)

Lemma placed_pos (da : Cedar) (T : placement) (ks : list byte) (x : Z) :
  Inv da T -> T ks = Some x -> 0 <= x.
Proof.
  intros HI H. destruct (inv_placed _ _ HI _ _ H) as (n & Hn & _).
  apply at_Some_range in Hn. lia.
Qed.

(** The climb of [Key] from the node at path [ks] collects the bytes of
    [ks] other than 0, last byte first, and ends at the root. *)
Lemma Key_loop_climb (da : Cedar) (T : placement) (ks : list byte) :
  Inv da T ->
  forall x acc fuel, T ks = Some x -> (length ks < fuel)%nat ->
    Key_loop fuel da x acc
    = Ret (Some (0, acc ++ rev (filter (fun b => b <> NUL) ks))).
Proof.
  intros HI. induction ks as [|c ks IH] using rev_ind; intros x acc fuel Hx Hfuel.
  - rewrite (inv_root _ _ HI) in Hx. injection Hx as <-.
    destruct fuel as [|fuel]; [cbn in Hfuel; lia|]. cbn. now rewrite app_nil_r.
  - rewrite length_app in Hfuel. cbn in Hfuel.
    destruct fuel as [|fuel]; [lia|].
    destruct (inv_edge _ _ HI _ _ _ Hx) as (p & np & nt & Hp & Hnp & Hv & Ex & Hnt & Hck).
    pose proof (placed_pos _ _ _ _ HI Hx) as Hx0.
    pose proof (placed_pos _ _ _ _ HI Hp) as Hp0.
    assert (Hxne : x <> 0).
    { intros ->. apply (inv_root_only _ _ HI) in Hx. destruct ks; discriminate. }
    cbn [Key_loop]. destruct (Z.gtb_spec x 0) as [_|]; [|lia].
    unfold rd. rewrite Hnt. cbn [bind]. rewrite Hck.
    destruct (Z.ltb_spec p 0); [lia|]. rewrite Hnp. cbn [bind].
    assert (Hchr : chr (Z.lxor (base np) x) = c).
    { rewrite Ex, lxor_lxor_r. apply chr_ord. }
    rewrite Hchr, (IH p _ fuel Hp) by lia.
    rewrite filter_app, rev_app_distr. do 3 f_equal.
    destruct (byte_eqb_spec c NUL) as [->|N].
    + rewrite filter_cons_False by (intros H'; now apply H'). reflexivity.
    + rewrite filter_cons_True by exact N. cbn. now rewrite <- app_assoc.
Qed.

Lemma filter_nul_free (k : list byte) :
  NUL ∉ k -> filter (fun b => b <> NUL) k = k.
Proof.
  induction k as [|b k IH]; intros H; [reflexivity|].
  apply not_elem_of_cons in H as [Hb H].
  rewrite filter_cons_True by congruence. f_equal. apply IH, H.
Qed.


Lemma Jump_placed (da : Cedar) (T : placement) (k : list byte) (id : Z) :
  Inv da T -> Jump da k 0 = Ret (id, None) -> T k = Some id.
Proof.
  intros HI HJ. pose proof (Jump_spec da T k HI) as H.
  destruct (T k) as [t|]; [congruence|]. destruct H as (x & H). congruence.
Qed.

(** ** The test of [Update] *)




Lemma Get_stored (da : Cedar) (T : placement) (k : list byte) (s : Z) :
  Inv da T -> stored da T k = Some s ->
  Get da k = Ret (match vals da !! s with
                  | Some nv => (Val nv, None)
                  | None => (INil, Some ErrNoValue)
                  end).
Proof.
  intros HI Hs. destruct (stored_placed _ _ _ _ HI Hs) as [to Hto].
  pose proof (Jump_spec da T k HI) as HJ. rewrite Hto in HJ.
  pose proof (vKeyOf_spec da T k to HI Hto) as HV. rewrite Hs in HV.
  unfold Get. rewrite HJ. cbn [bind]. rewrite HV. cbn [bind].
  now destruct (vals da !! s).
Qed.

(** ** Enumeration of a subtree: [begin] *)

Lemma enum_nonempty (da : Cedar) (T : placement) (h : nat) :
  forall ks L, enum da T h ks L -> L <> [].
Proof.
  induction h as [|h IH]; intros ks L H; [destruct H|].
  destruct H as (x & Hx & [[_ ->]|(l & Ls & Hl & Hne & HF & ->)]); [discriminate|].
  destruct HF as [|c L1 l' Ls' H1 _]; [contradiction|].
  cbn [concat]. specialize (IH _ _ H1). destruct L1; [contradiction|discriminate].
Qed.

Lemma enum_mono (da : Cedar) (T : placement) (h : nat) :
  forall h' ks L, enum da T h ks L -> (h <= h')%nat -> enum da T h' ks L.
Proof.
  induction h as [|h IH]; intros h' ks L H Hle; [destruct H|].
  destruct h' as [|h']; [lia|].
  destruct H as (x & Hx & [Hleaf|(l & Ls & Hl & Hne & HF & ->)]); exists x; (split; [exact Hx|]).
  - now left.
  - right. exists l, Ls. split; [exact Hl|]. split; [exact Hne|]. split; [|reflexivity].
    eapply Forall2_impl; [exact HF|]. intros c Lc Hc. apply (IH h'); [exact Hc|lia].
Qed.

Lemma begin_unfold (fuel : nat) (da : Cedar) (x : Z) (i : ninfo) :
  at_ (info da) x = Some i ->
  begin fuel da x
  = (from <- begin_loop fuel da x (Child i);
     n <- rd (array da) from;
     if base n >? 0 then Ret (base n, None) else Ret (from, None)).
Proof. intros H. unfold begin, rd at 1. rewrite H. reflexivity. Qed.

Lemma zero_child_leaf (da : Cedar) (T : placement) (h : nat) (ks : list byte)
    (y : Z) (L : list (list byte * Z)) :
  Inv da T -> NulLeaf da T -> T (ks ++ [NUL]) = Some y ->
  enum da T h (ks ++ [NUL]) L -> L = [(ks ++ [NUL], y)].
Proof.
  intros HI HN Hy H. destruct h as [|h]; [destruct H|].
  destruct H as (x & Hx & [[_ ->]|(l & Ls & Hl & Hne & _)]).
  - congruence.
  - exfalso. destruct (HN _ _ Hy) as [v Hv].
    apply Hne. eapply ring_nil_of_no_child; [exact Hl|].
    intros d. eapply leaf_no_child; eassumption.
Qed.

Lemma begin_spec (da : Cedar) (T : placement) (h : nat) :
  Inv da T -> Full da T -> NulLeaf da T ->
  forall ks x L fuel,
    enum da T h ks L -> T ks = Some x -> (h <= fuel)%nat ->
    exists it rest, L = it :: rest /\ begin fuel da x = Ret (it.2, None).
Proof.
  intros HI HF HN. induction h as [|h IH]; intros ks x L fuel H Hx Hfuel; [destruct H|].
  destruct fuel as [|fuel]; [lia|].
  destruct (inv_placed _ _ HI _ _ Hx) as (n & Hn & _).
  destruct (inv_info_Some _ _ HI _ _ Hn) as (i & Hi).
  rewrite (begin_unfold _ _ _ _ Hi).
  destruct H as (x' & Hx' & [[Hleaf ->]|(l & Ls & Hl & Hne & HF2 & ->)]);
    rewrite Hx in Hx'; injection Hx' as <-.
  - destruct (inv_ring _ _ HI _ _ Hx) as [l0 Hl0].
    destruct (ring_child _ _ _ _ _ Hl0) as (i0 & Hi0 & Hc0).
    rewrite Hi in Hi0. injection Hi0 as <-.
    assert (l0 = []) by (eapply ring_nil_of_no_child; eassumption). subst l0.
    cbn [hd] in Hc0. rewrite Hc0. cbn [begin_loop].
    destruct (byte_eqb_spec NUL NUL) as [_|]; [|congruence]. cbn [bind].
    unfold rd. rewrite Hn. cbn [bind].
    assert (Hv : 0 <= Value n).
    { destruct (Z_lt_dec (Value n) 0) as [Hlt|]; [|lia].
      destruct (HF _ _ _ Hx Hn Hlt) as (c & y & Hy). rewrite Hleaf in Hy. discriminate. }
    destruct (Z.gtb_spec (base n) 0) as [Hb|_]; [unfold base in Hb; lia|].
    exists (ks, x), []. auto.
  - destruct (ring_child _ _ _ _ _ Hl) as (i0 & Hi0 & Hc0).
    rewrite Hi in Hi0. injection Hi0 as <-.
    destruct HF2 as [|c L1 l' Ls' H1 _]; [contradiction|].
    cbn [hd] in Hc0. rewrite Hc0. cbn [concat].
    assert (Hc : c ∈ c :: l') by now left.
    destruct (ring_child_slot _ _ _ _ _ _ _ HI Hx Hl Hn Hc) as (Hy & ny & Hny & Hck).
    set (y := Z.lxor (base n) (ord c)) in *.
    destruct (byte_eqb_spec c NUL) as [->|Nc].
    + cbn [begin_loop].
      destruct (byte_eqb_spec NUL NUL) as [_|]; [|congruence]. cbn [bind].
      unfold rd. rewrite Hn. cbn [bind].
      assert (Ey : y = base n) by (unfold y; cbn; apply Z.lxor_0_r).
      assert (Hy0 : 0 < y).
      { pose proof (placed_pos _ _ _ _ HI Hy).
        assert (y <> 0); [|lia]. intros E. rewrite E in Hy.
        apply (inv_root_only _ _ HI) in Hy. destruct ks; discriminate. }
      destruct (Z.gtb_spec (base n) 0) as [_|]; [|lia].
      rewrite (zero_child_leaf _ _ _ _ _ _ HI HN Hy H1).
      exists (ks ++ [NUL], y), (concat Ls'). split; [reflexivity|]. cbn. now rewrite Ey.
    + destruct (inv_info_Some _ _ HI _ _ Hny) as (iy & Hiy).
      destruct (IH (ks ++ [c]) y L1 fuel H1 Hy) as (it & rest & -> & Hb); [lia|].
      exists it, (rest ++ concat Ls'). split; [reflexivity|].
      rewrite (begin_unfold _ _ _ _ Hiy) in Hb. rewrite <- Hb.
      cbn [begin_loop]. destruct (byte_eqb_spec c NUL) as [|_]; [contradiction|].
      unfold rd at 1 2. rewrite Hn. cbn [bind]. fold y. rewrite Hiy. reflexivity.
Qed.
(** ** Enumeration of a subtree: [next] *)

Lemma next_loop_mono (da : Cedar) (root : Z) (fuel : nat) :
  forall fuel' from c r,
    next_loop fuel da from root c = Ret r -> (fuel <= fuel')%nat ->
    next_loop fuel' da from root c = Ret r.
Proof.
  induction fuel as [|fuel IH]; intros fuel' from c r H Hle; [discriminate|].
  destruct fuel' as [|fuel']; [lia|]. cbn [next_loop] in *.
  destruct (byte_eqb c NUL && negb (from =? root)); [|exact H].
  apply bind_Ret in H as (n & Hn & H). rewrite Hn. cbn [bind].
  destruct (Check n >=? 0); [|exact H].
  apply bind_Ret in H as (i & Hi & H). rewrite Hi. cbn [bind].
  apply IH; [exact H|lia].
Qed.

Lemma chain_last (inf : list ninfo) (b : Z) (l : list byte) (c : byte) :
  chain inf b (l ++ [c]) ->
  exists i, at_ inf (Z.lxor b (ord c)) = Some i /\ Sibling i = NUL.
Proof.
  induction l as [|d l IH]; intros H.
  - destruct H as [(i & Hi & Hs) _]. eauto.
  - destruct H as [_ H]. auto.
Qed.

Lemma chain_mid (inf : list ninfo) (b : Z) (l1 l2 : list byte) (c d : byte) :
  chain inf b (l1 ++ c :: d :: l2) ->
  exists i, at_ inf (Z.lxor b (ord c)) = Some i /\ Sibling i = d.
Proof.
  induction l1 as [|e l1 IH]; intros H.
  - destruct H as [(i & Hi & Hs) _]. eauto.
  - destruct H as [_ H]. auto.
Qed.

Lemma ascending_mid_not_NUL (l1 l2 : list byte) (c d : byte) :
  ascending (l1 ++ c :: d :: l2) -> d <> NUL.
Proof.
  induction l1 as [|e l1 IH]; intros H.
  - eapply ascending_tail_not_NUL; exact H.
  - apply ascending_cons_inv in H as [H _]. auto.
Qed.

Lemma prefix_snoc_neq {A} (rk ks : list A) (c : A) : rk `prefix_of` ks -> rk <> ks ++ [c].
Proof.
  intros [k ->] E. apply (f_equal length) in E. rewrite !length_app in E. cbn in E. lia.
Qed.

Lemma prefix_snoc {A} (rk ks : list A) (c : A) :
  rk `prefix_of` ks -> rk `prefix_of` (ks ++ [c]).
Proof. intros [k ->]. exists (k ++ [c]). now rewrite app_assoc. Qed.

(** One round of the climb of [next], from the last child of a node. *)
Lemma next_loop_up (da : Cedar) (T : placement) (ks : list byte) (c : byte)
    (x y root : Z) (ix iy : ninfo) (f : nat) :
  Inv da T -> T ks = Some x -> T (ks ++ [c]) = Some y -> y <> root ->
  at_ (info da) x = Some ix -> at_ (info da) y = Some iy -> Sibling iy = NUL ->
  next_loop (S f) da y root (Sibling iy) = next_loop f da x root (Sibling ix).
Proof.
  intros HI Hx Hy Hne Hix Hiy Hs.
  destruct (inv_edge _ _ HI _ _ _ Hy) as (p & np & ny & Hp & Hnp & _ & _ & Hny & Hck).
  rewrite Hx in Hp. injection Hp as <-.
  cbn [next_loop]. rewrite Hs.
  destruct (byte_eqb_spec NUL NUL) as [_|]; [|congruence].
  destruct (Z.eqb_spec y root) as [|_]; [contradiction|]. cbn [negb andb].
  unfold rd. rewrite Hny. cbn [bind]. rewrite Hck.
  pose proof (placed_pos _ _ _ _ HI Hx).
  destruct (Z.geb_spec x 0); [|lia]. rewrite Hix. reflexivity.
Qed.

Lemma concat_last {A} (Ls : list (list A)) (z : A) :
  Forall (fun L => L <> []) Ls -> last (concat Ls) = Some z ->
  exists Ls0 Lk, Ls = Ls0 ++ [Lk] /\ last Lk = Some z.
Proof.
  intros Hne Hl. destruct (snoc_cases Ls) as [->|(Ls0 & Lk & ->)]; [discriminate|].
  exists Ls0, Lk. split; [reflexivity|].
  rewrite concat_app in Hl. cbn [concat] in Hl. rewrite app_nil_r in Hl.
  apply last_app_Some in Hl as [Hl|[Hl _]]; [exact Hl|].
  apply Forall_app in Hne as [_ Hne]. apply Forall_cons in Hne as [Hne _].
  destruct Lk as [|a Lk] using rev_ind; [contradiction|].
  rewrite last_snoc in Hl. discriminate.
Qed.

Lemma enum_children_nonempty (da : Cedar) (T : placement) (h : nat)
    (ks : list byte) (l : list byte) (Ls : list (list (list byte * Z))) :
  Forall2 (fun c Lc => enum da T h (ks ++ [c]) Lc) l Ls ->
  Forall (fun L => L <> []) Ls.
Proof.
  induction 1 as [|c L l' Ls' H _ IH]; constructor; [|exact IH].
  eapply enum_nonempty; exact H.
Qed.

(** From the last leaf below a node, the climb of [next] reaches the
    node. *)
Lemma climb_last (da : Cedar) (T : placement) (root : Z) (rk : list byte) (h : nat) :
  Inv da T -> T rk = Some root ->
  forall ks x L z iz ix r f,
    enum da T h ks L -> T ks = Some x -> last L = Some z -> rk `prefix_of` ks ->
    at_ (info da) z.2 = Some iz -> at_ (info da) x = Some ix ->
    next_loop f da x root (Sibling ix) = Ret r ->
    next_loop (f + h) da z.2 root (Sibling iz) = Ret r.
Proof.
  intros HI Hroot. induction h as [|h IH]; intros ks x L z iz ix r f H Hx Hlast Hpre Hiz Hix Hr;
    [destruct H|].
  destruct H as (x' & Hx' & [[Hleaf ->]|(l & Ls & Hl & Hne & HF2 & ->)]);
    rewrite Hx in Hx'; injection Hx' as <-.
  - cbn in Hlast. injection Hlast as <-. cbn in Hiz. rewrite Hix in Hiz. injection Hiz as <-.
    eapply next_loop_mono; [exact Hr|lia].
  - destruct (concat_last Ls z (enum_children_nonempty _ _ _ _ _ _ HF2) Hlast)
      as (Ls0 & Lk & -> & Hlk).
    apply Forall2_app_inv_r in HF2 as (l0 & l1 & _ & HF1 & ->).
    apply Forall2_cons_inv_r in HF1 as (ck & l1' & Hk & HFnil & ->).
    apply Forall2_nil_inv_r in HFnil as ->.
    destruct (inv_placed _ _ HI _ _ Hx) as (n & Hn & _).
    assert (Hc : ck ∈ l0 ++ [ck]) by (apply elem_of_app; right; now left).
    destruct (ring_child_slot _ _ _ _ _ _ _ HI Hx Hl Hn Hc) as (Hy & ny & Hny & Hck).
    destruct (chain_last _ _ _ _ (ring_chain _ _ _ _ _ Hl _ Hn)) as (iy & Hiy & Hsy).
    assert (Hyr : Z.lxor (base n) (ord ck) <> root).
    { intros E. rewrite E in Hy. eapply (prefix_snoc_neq rk ks ck Hpre).
      eapply (inv_inj _ _ HI); eassumption. }
    replace (f + S h)%nat with (S f + h)%nat by lia.
    apply (IH (ks ++ [ck]) _ Lk z iz iy r (S f) Hk Hy Hlk (prefix_snoc _ _ _ Hpre) Hiz Hiy).
    rewrite (next_loop_up da T ks ck x _ root ix iy f HI Hx Hy Hyr Hix Hiy Hsy).
    exact Hr.
Qed.

Lemma concat_consecutive {A} (Ls : list (list A)) :
  Forall (fun L => L <> []) Ls ->
  forall pre a b post,
    concat Ls = pre ++ a :: b :: post ->
    (exists Ls1 Li Ls2 pre' post',
       Ls = Ls1 ++ Li :: Ls2 /\ Li = pre' ++ a :: b :: post') \/
    (exists Ls1 Li Lj Ls2 rest,
       Ls = Ls1 ++ Li :: Lj :: Ls2 /\ last Li = Some a /\ Lj = b :: rest).
Proof.
  induction Ls as [|L1 Ls IH]; intros Hne pre a b post E.
  - destruct pre; discriminate.
  - apply Forall_cons in Hne as [Hne1 Hne]. cbn [concat] in E.
    apply app_eq_inv in E as [(k & -> & Ek)|(k & -> & Ek)].
    + destruct k as [|a' [|b' k]].
      * cbn in Ek. rewrite app_nil_r in Hne1.
        destruct (IH Hne [] a b post (eq_sym Ek))
          as [(Ls1 & Li & Ls2 & pre' & post' & -> & ->)|
              (Ls1 & Li & Lj & Ls2 & rest & -> & Hl & ->)].
        -- left. exists ((pre ++ []) :: Ls1), (pre' ++ a :: b :: post'), Ls2, pre', post'. auto.
        -- right. exists ((pre ++ []) :: Ls1), Li, (b :: rest), Ls2, rest. auto.
      * cbn in Ek. injection Ek as <- Ek.
        destruct Ls as [|Lj Ls]; [discriminate|].
        apply Forall_cons in Hne as [Hnej _]. cbn [concat] in Ek.
        destruct Lj as [|b0 rest]; [contradiction|]. injection Ek as <- _.
        right. exists [], (pre ++ [a]), (b :: rest), Ls, rest.
        split; [reflexivity|]. split; [apply last_snoc|reflexivity].
      * cbn in Ek. injection Ek as <- <- _.
        left. exists [], (pre ++ a :: b :: k), Ls, pre, k. auto.
    + destruct (IH Hne k a b post Ek)
        as [(Ls1 & Li & Ls2 & pre' & post' & -> & ->)|
            (Ls1 & Li & Lj & Ls2 & rest & -> & Hl & ->)].
      * left. exists (L1 :: Ls1), (pre' ++ a :: b :: post'), Ls2, pre', post'. auto.
      * right. exists (L1 :: Ls1), Li, (b :: rest), Ls2, rest. auto.
Qed.
Lemma enum_elem (da : Cedar) (T : placement) (h : nat) :
  Inv da T ->
  forall ks L it, enum da T h ks L -> it ∈ L ->
    T it.1 = Some it.2 /\ ks `prefix_of` it.1 /\ (forall d, T (it.1 ++ [d]) = None).
Proof.
  intros HI. induction h as [|h IH]; intros ks L it H Hin; [destruct H|].
  destruct H as (x & Hx & [[Hleaf ->]|(l & Ls & Hl & Hne & HF2 & ->)]).
  - apply list_elem_of_singleton in Hin. subst it. cbn. split; [exact Hx|].
    split; [reflexivity|exact Hleaf].
  - assert (Hex : exists c Lc, enum da T h (ks ++ [c]) Lc /\ it ∈ Lc).
    { clear Hl Hne. induction HF2 as [|c Lc l' Ls' Hc _ IH2]; [inversion Hin|].
      cbn [concat] in Hin. apply elem_of_app in Hin as [Hin|Hin]; eauto. }
    destruct Hex as (c & Li & Hen & Hin').
    destruct (IH _ _ _ Hen Hin') as (H1 & H2 & H3).
    split; [exact H1|]. split; [|exact H3].
    destruct H2 as [k' ->]. exists ([c] ++ k'). now rewrite app_assoc.
Qed.

Lemma next_unfold (fuel : nat) (da : Cedar) (from root : Z) (i : ninfo) :
  at_ (info da) from = Some i ->
  next fuel da from root
  = ('(from', c) <- next_loop fuel da from root (Sibling i);
     if from' =? root then Ret (0, Some ErrNoPath)
     else n <- rd (array da) from';
          np <- rd (array da) (Check n);
          begin fuel da (Z.lxor (base np) (ord c))).
Proof. intros H. unfold next, rd at 1. rewrite H. reflexivity. Qed.

Section Traverse.
Context (da : Cedar) (T : placement).
Context (HI : Inv da T) (HF : Full da T) (HN : NulLeaf da T).
Context (root : Z) (rk : list byte) (Hroot : T rk = Some root).

Lemma elem_info (h : nat) (ks : list byte) (L : list (list byte * Z))
    (it : list byte * Z) :
  enum da T h ks L -> it ∈ L -> exists i, at_ (info da) it.2 = Some i.
Proof.
  intros H Hin. destruct (enum_elem da T h HI ks L it H Hin) as (Hit & _).
  destruct (inv_placed _ _ HI _ _ Hit) as (n & Hn & _).
  eapply inv_info_Some; eassumption.
Qed.

(** After the last leaf below the root of the enumeration, [next] signals
    the end. *)
Lemma next_last (h : nat) (L : list (list byte * Z)) (z : list byte * Z)
    (fuel : nat) :
  enum da T h rk L -> last L = Some z -> (h < fuel)%nat ->
  next fuel da z.2 root = Ret (0, Some ErrNoPath).
Proof.
  intros H Hlast Hfuel.
  assert (Hin : z ∈ L).
  { destruct L as [|a L] using rev_ind; [discriminate|].
    rewrite last_snoc in Hlast. injection Hlast as ->.
    apply elem_of_app. right. now left. }
  destruct (elem_info h rk L z H Hin) as (iz & Hiz).
  destruct (inv_placed _ _ HI _ _ Hroot) as (nr & Hnr & _).
  destruct (inv_info_Some _ _ HI _ _ Hnr) as (ir & Hir).
  rewrite (next_unfold _ _ _ _ _ Hiz).
  assert (Hl : next_loop (1 + h) da z.2 root (Sibling iz) = Ret (root, Sibling ir)).
  { apply (climb_last da T root rk h HI Hroot rk root L z iz ir _ 1%nat H Hroot Hlast);
      [reflexivity|exact Hiz|exact Hir|].
    cbn [next_loop]. rewrite Z.eqb_refl. cbn [negb]. now rewrite andb_false_r. }
  rewrite (next_loop_mono da root _ fuel _ _ _ Hl) by lia.
  cbn [bind]. now rewrite Z.eqb_refl.
Qed.

(** From a leaf that is not the last one, [next] moves to the leaf that
    follows it. *)
Lemma next_in (h : nat) :
  forall ks x L pre a b post fuel,
    enum da T h ks L -> T ks = Some x -> L = pre ++ a :: b :: post ->
    rk `prefix_of` ks -> (h < fuel)%nat ->
    next fuel da a.2 root = Ret (b.2, None).
Proof.
  induction h as [|h IH]; intros ks x L pre a b post fuel H Hx EL Hpre Hfuel; [destruct H|].
  pose proof H as H0.
  destruct H as (x' & Hx' & [[Hleaf ->]|(l & Ls & Hl & Hne & HF2 & ->)]);
    rewrite Hx in Hx'; injection Hx' as <-.
  { destruct pre as [|? [|? ?]]; discriminate. }
  destruct (inv_placed _ _ HI _ _ Hx) as (n & Hn & _).
  destruct (concat_consecutive Ls (enum_children_nonempty _ _ _ _ _ _ HF2) pre a b post EL)
    as [(Ls1 & Li & Ls2 & pre' & post' & -> & ELi)|
        (Ls1 & Li & Lj & Ls2 & rest & -> & Hla & ->)].
  - apply Forall2_app_inv_r in HF2 as (l1 & l2 & _ & HF2 & ->).
    apply Forall2_cons_inv_r in HF2 as (ci & l2' & Hi & _ & ->).
    assert (Hc : ci ∈ l1 ++ ci :: l2') by (apply elem_of_app; right; now left).
    destruct (ring_child_slot _ _ _ _ _ _ _ HI Hx Hl Hn Hc) as (Hy & _).
    apply (IH (ks ++ [ci]) _ Li pre' a b post' fuel Hi Hy ELi (prefix_snoc _ _ _ Hpre)). lia.
  - apply Forall2_app_inv_r in HF2 as (l1 & l2 & _ & HF2 & ->).
    apply Forall2_cons_inv_r in HF2 as (ci & l2' & Hi & HF2 & ->).
    apply Forall2_cons_inv_r in HF2 as (cj & l2'' & Hj & _ & ->).
    assert (Hci : ci ∈ l1 ++ ci :: cj :: l2'') by (apply elem_of_app; right; now left).
    assert (Hcj : cj ∈ l1 ++ ci :: cj :: l2'')
      by (apply elem_of_app; right; right; now left).
    destruct (ring_child_slot _ _ _ _ _ _ _ HI Hx Hl Hn Hci) as (Hyi & nyi & Hnyi & Hcki).
    destruct (ring_child_slot _ _ _ _ _ _ _ HI Hx Hl Hn Hcj) as (Hyj & _).
    destruct (chain_mid _ _ _ _ _ _ (ring_chain _ _ _ _ _ Hl _ Hn)) as (iyi & Hiyi & Hsi).
    pose proof (ascending_mid_not_NUL _ _ _ _ (ring_sorted _ _ _ _ _ Hl)) as Hcj0.
    assert (Hyr : Z.lxor (base n) (ord ci) <> root).
    { intros E. rewrite E in Hyi. eapply (prefix_snoc_neq rk ks ci Hpre).
      eapply (inv_inj _ _ HI); eassumption. }
    assert (Hina : a ∈ Li).
    { destruct Li as [|a' Li] using rev_ind; [discriminate|].
      rewrite last_snoc in Hla. injection Hla as ->. apply elem_of_app. right. now left. }
    destruct (elem_info h _ Li a Hi Hina) as (ia & Hia).
    rewrite (next_unfold _ _ _ _ _ Hia).
    assert (Hloop : next_loop (1 + h) da a.2 root (Sibling ia)
                    = Ret (Z.lxor (base n) (ord ci), cj)).
    { apply (climb_last da T root rk h HI Hroot (ks ++ [ci]) _ Li a ia iyi _ 1%nat
               Hi Hyi Hla (prefix_snoc _ _ _ Hpre) Hia Hiyi).
      cbn [next_loop]. rewrite Hsi.
      destruct (byte_eqb_spec cj NUL) as [|_]; [contradiction|]. reflexivity. }
    rewrite (next_loop_mono da root _ fuel _ _ _ Hloop) by lia. cbn [bind].
    destruct (Z.eqb_spec (Z.lxor (base n) (ord ci)) root) as [|_]; [contradiction|].
    unfold rd. rewrite Hnyi. cbn [bind]. rewrite Hcki, Hn. cbn [bind].
    destruct (begin_spec da T h HI HF HN (ks ++ [cj]) _ (b :: rest) fuel Hj Hyj)
      as (it & rest' & E & Hb); [lia|].
    injection E as <- _. exact Hb.
Qed.

(** The loop of [PrefixPredict] with [num = 0]: the counter goes down from
    0 and does not come back to 0 within 2^63 rounds. *)
Lemma PrefixPredict_loop_spec (h : nat) (L : list (list byte * Z)) :
  enum da T h rk L -> Z.of_nat (length L) < 2 ^ 63 ->
  forall post pre a ids fuel,
    L = pre ++ a :: post -> (h + length post < fuel)%nat ->
    PrefixPredict_loop fuel da root a.2 (- Z.of_nat (length pre)) ids
    = Ret (ids ++ (a :: post).*2).
Proof.
  intros H Hlen. induction post as [|b post IH]; intros pre a ids fuel EL Hfuel;
    (destruct fuel as [|fuel]; [lia|]); cbn [PrefixPredict_loop].
  - assert (Hw : wrap64 (- Z.of_nat (length pre) - 1) = - Z.of_nat (length pre) - 1).
    { apply wrap64_id. rewrite EL, length_app in Hlen. cbn in Hlen. lia. }
    rewrite Hw. destruct (Z.eqb_spec (- Z.of_nat (length pre) - 1) 0) as [|_]; [lia|].
    rewrite (next_last h L a (S fuel) H); [reflexivity| |lia].
    rewrite EL. apply last_snoc.
  - assert (Hw : wrap64 (- Z.of_nat (length pre) - 1) = - Z.of_nat (length (pre ++ [a]))).
    { rewrite length_app. cbn [length]. rewrite wrap64_id; [lia|].
      rewrite EL, length_app in Hlen. cbn in Hlen. lia. }
    rewrite Hw. destruct (Z.eqb_spec (- Z.of_nat (length (pre ++ [a]))) 0) as [E|_].
    { rewrite length_app in E. cbn in E. lia. }
    rewrite (next_in h rk root L pre a b post (S fuel) H Hroot EL); [|reflexivity|cbn in Hfuel; lia].
    cbn [bind]. rewrite (IH (pre ++ [a]) b (ids ++ [a.2]) fuel).
    + cbn [fmap list_fmap]. now rewrite <- app_assoc.
    + rewrite EL. now rewrite <- app_assoc.
    + cbn in Hfuel. lia.
Qed.

End Traverse.

Lemma PrefixPredict_enum (da : Cedar) (T : placement) (k : list byte) (root : Z)
    (h : nat) (L : list (list byte * Z)) (fuel : nat) :
  Inv da T -> Full da T -> NulLeaf da T ->
  T k = Some root -> enum da T h k L -> Z.of_nat (length L) < 2 ^ 63 ->
  (h + length L <= fuel)%nat ->
  PrefixPredict fuel da k 0 = Ret L.*2.
Proof.
  intros HI HF HN Hk H Hlen Hfuel.
  pose proof (Jump_spec da T k HI) as HJ. rewrite Hk in HJ.
  unfold PrefixPredict. rewrite HJ. cbn [bind].
  destruct (begin_spec da T h HI HF HN k root L fuel H Hk) as (it & rest & -> & Hb); [lia|].
  rewrite Hb. cbn [bind].
  apply (PrefixPredict_loop_spec da T HI HF HN root k Hk h (it :: rest) H Hlen rest [] it [] fuel);
    [reflexivity|cbn in Hfuel; lia].
Qed.
(** ** The leaves below a node *)

Lemma bounded_NoDup (l : list Z) (n : nat) :
  NoDup l -> (forall x, x ∈ l -> 0 <= x < Z.of_nat n) -> (length l <= n)%nat.
Proof.
  intros Hnd Hr.
  assert (Hsub : l ⊆+ seqZ 0 (Z.of_nat n)).
  { apply NoDup_submseteq; [exact Hnd|]. intros x Hx. apply elem_of_seqZ.
    specialize (Hr _ Hx). lia. }
  apply submseteq_length in Hsub. rewrite length_seqZ in Hsub. lia.
Qed.

(** A path is shorter than the array: its prefixes sit at different
    slots. *)
Lemma depth_bound (da : Cedar) (T : placement) (ks : list byte) (x : Z) :
  Inv da T -> T ks = Some x -> (length ks < length (array da))%nat.
Proof.
  intros HI Hx.
  set (f := fun j : nat => default 0 (T (take j ks))).
  assert (Hpl : forall j, (j <= length ks)%nat -> T (take j ks) = Some (f j)).
  { intros j Hj. unfold f.
    destruct (placed_prefix da T (take j ks) (drop j ks) HI) as [y Hy].
    - rewrite take_drop. eauto.
    - now rewrite Hy. }
  assert (Hlen : (length (f <$> seq 0 (S (length ks))) <= length (array da))%nat).
  { apply bounded_NoDup.
    - apply NoDup_fmap_2_strong; [|apply NoDup_seq].
      intros i j Hi Hj E. apply elem_of_seq in Hi, Hj.
      assert (E2 : take i ks = take j ks).
      { eapply (inv_inj _ _ HI); [apply Hpl; lia|rewrite E; apply Hpl; lia]. }
      apply (f_equal length) in E2. rewrite !length_take in E2. lia.
    - intros y Hy. apply list_elem_of_fmap in Hy as (j & -> & Hj).
      apply elem_of_seq in Hj.
      destruct (inv_placed _ _ HI _ _ (Hpl j ltac:(lia))) as (n & Hn & _).
      apply at_Some_range in Hn. exact Hn. }
  rewrite length_fmap, length_seq in Hlen. lia.
Qed.

Lemma Forall2_exists {A B} (P : A -> B -> Prop) (l : list A) :
  (forall c, c ∈ l -> exists y, P c y) -> exists k, Forall2 P l k.
Proof.
  induction l as [|c l IH]; intros H; [exists []; constructor|].
  destruct (H c) as (y & Hy); [now left|].
  destruct IH as (k & Hk); [intros c' Hc'; apply H; now right|].
  exists (y :: k). now constructor.
Qed.

Lemma enum_exists (da : Cedar) (T : placement) :
  Inv da T ->
  forall m ks x, T ks = Some x -> (length (array da) - length ks <= m)%nat ->
    exists L, enum da T (S m) ks L.
Proof.
  intros HI. induction m as [|m IH]; intros ks x Hx Hm.
  - pose proof (depth_bound da T ks x HI Hx). lia.
  - destruct (inv_ring _ _ HI _ _ Hx) as [l Hl].
    destruct (decide (l = [])) as [->|Hne].
    + exists [(ks, x)]. exists x. split; [exact Hx|]. left. split; [|reflexivity].
      intros d. destruct (T (ks ++ [d])) eqn:E; [|reflexivity].
      assert (Hd : d ∈ ([] : list byte)) by (apply (ring_dom _ _ _ _ _ Hl); rewrite E; eauto).
      inversion Hd.
    + destruct (Forall2_exists (fun c Lc => enum da T (S m) (ks ++ [c]) Lc) l) as (Ls & HLs).
      { intros c Hc. apply (ring_dom _ _ _ _ _ Hl) in Hc as [y Hy].
        apply (IH _ y Hy). rewrite length_app. cbn.
        pose proof (depth_bound da T _ y HI Hy) as Hd. rewrite length_app in Hd. cbn in Hd. lia. }
      exists (concat Ls). exists x. split; [exact Hx|]. right. exists l, Ls. auto.
Qed.

Lemma enum_complete (da : Cedar) (T : placement) (h : nat) :
  Inv da T ->
  forall ks L p id, enum da T h ks L ->
    T p = Some id -> ks `prefix_of` p -> (forall d, T (p ++ [d]) = None) ->
    (p, id) ∈ L.
Proof.
  intros HI. induction h as [|h IH]; intros ks L p id H Hp Hpre Hleaf; [destruct H|].
  destruct Hpre as [r ->].
  destruct H as (x & Hx & [[Hkl ->]|(l & Ls & Hl & Hne & HF2 & ->)]).
  - destruct r as [|c r].
    + rewrite app_nil_r in *. rewrite Hx in Hp. injection Hp as <-. now left.
    + exfalso. assert (Hs : is_Some (T (ks ++ [c]))).
      { apply (placed_prefix da T (ks ++ [c]) r HI). rewrite <- app_assoc. cbn. eauto. }
      rewrite Hkl in Hs. destruct Hs. discriminate.
  - destruct r as [|c r].
    + exfalso. rewrite app_nil_r in *. apply Hne.
      eapply ring_nil_of_no_child; eassumption.
    + assert (Hs : is_Some (T (ks ++ [c]))).
      { apply (placed_prefix da T (ks ++ [c]) r HI). rewrite <- app_assoc. cbn. eauto. }
      apply (ring_dom _ _ _ _ _ Hl) in Hs.
      clear Hl Hne. induction HF2 as [|c' Lc l' Ls' Hc' _ IH2]; [inversion Hs|].
      cbn [concat]. apply elem_of_app. apply elem_of_cons in Hs as [->|Hs].
      * left. apply (IH _ _ _ _ Hc' Hp); [|exact Hleaf].
        exists r. now rewrite <- app_assoc.
      * right. apply IH2, Hs.
Qed.

Lemma lex_lt_app (ks p q : list byte) : lex_lt p q -> lex_lt (ks ++ p) (ks ++ q).
Proof. intros H. induction ks as [|a ks IH]; [exact H|]. cbn. now constructor. Qed.

Lemma enum_sorted (da : Cedar) (T : placement) (h : nat) :
  Inv da T ->
  forall ks L, enum da T h ks L -> StronglySorted (fun a b => lex_lt a.1 b.1) L.
Proof.
  intros HI. induction h as [|h IH]; intros ks L H; [destruct H|].
  destruct H as (x & Hx & [[Hkl ->]|(l & Ls & Hl & Hne & HF2 & ->)]).
  - repeat constructor.
  - pose proof (ring_sorted _ _ _ _ _ Hl) as Hasc. clear Hl Hne.
    induction HF2 as [|c Lc l' Ls' Hc HF2 IH2]; [constructor|].
    apply ascending_cons_inv in Hasc as [Hasc Hall].
    cbn [concat]. apply StronglySorted_app_2; [|eapply IH; exact Hc|apply IH2, Hasc].
    intros a b Ha Hb.
    destruct (enum_elem da T h HI _ _ _ Hc Ha) as (_ & [ra ->] & _).
    assert (Hex : exists d rb, d ∈ l' /\ b.1 = (ks ++ [d]) ++ rb).
    { clear IH2 Hasc Hall. induction HF2 as [|d Ld l'' Ls'' Hd _ IH3]; [inversion Hb|].
      cbn [concat] in Hb. apply elem_of_app in Hb as [Hb|Hb].
      - destruct (enum_elem da T h HI _ _ _ Hd Hb) as (_ & [rb ->] & _).
        exists d, rb. split; [now left|reflexivity].
      - destruct (IH3 Hb) as (d' & rb & Hd' & E). exists d', rb. split; [now right|exact E]. }
    destruct Hex as (d & rb & Hd & ->).
    rewrite <- !app_assoc. apply lex_lt_app. cbn. apply lex_lt_head. apply Hall, Hd.
Qed.

Lemma lex_lt_irrefl (p : list byte) : ~ lex_lt p p.
Proof. induction p as [|a p IH]; inversion 1; subst; [lia|auto]. Qed.

Lemma enum_length (da : Cedar) (T : placement) (h : nat) (ks : list byte)
    (L : list (list byte * Z)) :
  Inv da T -> enum da T h ks L -> (length L <= length (array da))%nat.
Proof.
  intros HI H. pose proof (enum_sorted da T h HI ks L H) as Hs.
  rewrite <- (length_fmap snd). apply bounded_NoDup.
  - apply NoDup_fmap_2_strong.
    + intros a b Ha Hb E.
      destruct (enum_elem da T h HI _ _ _ H Ha) as (Ta & _).
      destruct (enum_elem da T h HI _ _ _ H Hb) as (Tb & _).
      rewrite E in Ta. pose proof (inv_inj _ _ HI _ _ _ Ta Tb) as E1.
      destruct a, b. cbn in *. congruence.
    + clear H. induction Hs as [|a L' _ IH Hall]; constructor; [|exact IH].
      intros Hin. rewrite Forall_forall in Hall. specialize (Hall _ Hin).
      eapply lex_lt_irrefl; exact Hall.
  - intros y Hy. apply list_elem_of_fmap in Hy as (it & -> & Hit).
    destruct (enum_elem da T h HI _ _ _ H Hit) as (Tit & _).
    destruct (inv_placed _ _ HI _ _ Tit) as (n & Hn & _).
    apply at_Some_range in Hn. exact Hn.
Qed.

(** In a trie where every node with a base has a child, the childless
    nodes are the terminal ones. *)
Lemma terminal_at_spec (da : Cedar) (T : placement) (p : list byte) (id : Z) :
  Inv da T -> Full da T ->
  (terminal_at da p id <-> T p = Some id /\ forall d, T (p ++ [d]) = None).
Proof.
  intros HI HF. pose proof (Jump_spec da T p HI) as HJ. split.
  - intros [Hj (n & Hn & Hv)]. destruct (T p) as [t|] eqn:Hp.
    + rewrite HJ in Hj. injection Hj as ->. split; [reflexivity|].
      intros d. eapply leaf_no_child; [exact HI|].
      rewrite (leafv_Some_T _ _ _ _ _ Hp Hn). destruct (decide _); [reflexivity|lia].
    + destruct HJ as (y & HJ). rewrite HJ in Hj. discriminate.
  - intros [Hp Hleaf]. rewrite Hp in HJ. split; [exact HJ|].
    destruct (inv_placed _ _ HI _ _ Hp) as (n & Hn & _). exists n. split; [exact Hn|].
    destruct (Z_lt_dec (Value n) 0) as [Hlt|]; [|lia].
    destruct (HF _ _ _ Hp Hn Hlt) as (c & y & Hy). rewrite Hleaf in Hy. discriminate.
Qed.

Lemma Full_of_Strict (da : Cedar) (T : placement) (k0 : list byte) (y : Z) :
  Inv da T -> Strict da T -> k0 <> [] -> T k0 = Some y -> Full da T.
Proof.
  intros HI HS Hne Hy ks x n Hx Hn Hv.
  destruct ks as [|b ks]; [|eapply HS; eauto; discriminate].
  destruct k0 as [|c k0]; [contradiction|]. exists c.
  apply (placed_prefix da T ([] ++ [c]) k0 HI). cbn. eauto.
Qed.

(** [PrefixPredict(k, 0)] in a trie with the invariants. *)
Lemma PrefixPredict_leaves (da : Cedar) (T : placement) (k : list byte) (fuel : nat) :
  Inv da T -> Strict da T -> NulLeaf da T ->
  (k = [] -> exists k0 v, stored da T k0 = Some v) ->
  Z.of_nat (length (array da)) < 2 ^ 63 ->
  (2 * length (array da) + 1 <= fuel)%nat ->
  exists L : list (list byte * Z),
    PrefixPredict fuel da k 0 = Ret L.*2 /\
    StronglySorted (fun a b => lex_lt a.1 b.1) L /\
    forall p id, (p, id) ∈ L <-> k `prefix_of` p /\ terminal_at da p id.
Proof.
  intros HI HS HN Hnonempty Hlen Hfuel.
  pose proof (Jump_spec da T k HI) as HJ.
  destruct (T k) as [root|] eqn:Hk.
  - assert (HF : Full da T).
    { destruct (decide (k = [])) as [->|Hne].
      - destruct (Hnonempty eq_refl) as (k0 & v & Hs).
        assert (Hex : exists hk y, hk <> [] /\ T hk = Some y).
        { unfold stored in Hs. destruct (leafv da T k0) as [w|] eqn:E.
          - apply leafv_Some_inv in E as (y & n & Hy & Hn & Hvn & Hw).
            exists k0, y. split; [|exact Hy]. intros ->.
            rewrite (inv_root _ _ HI) in Hy. injection Hy as <-.
            destruct (inv_root_node _ _ HI) as (n0 & Hn0 & Hv0 & _).
            rewrite Hn in Hn0. injection Hn0 as <-. lia.
          - apply leafv_Some_inv in Hs as (y & _ & Hy & _).
            exists (k0 ++ [NUL]), y. split; [|exact Hy]. destruct k0; discriminate. }
        destruct Hex as (hk & y & Hne & Hy). eapply Full_of_Strict; eauto.
      - eapply Full_of_Strict; eauto. }
    destruct (enum_exists da T HI (length (array da)) k root Hk) as (L & HL); [lia|].
    pose proof (enum_length da T _ k L HI HL) as HLlen.
    exists L. split.
    { apply (PrefixPredict_enum da T k root _ L fuel HI HF HN Hk HL); lia. }
    split; [eapply enum_sorted; eassumption|].
    intros p id. rewrite (terminal_at_spec da T p id HI HF). split.
    + intros Hin. destruct (enum_elem da T _ HI _ _ _ HL Hin) as (H1 & H2 & H3). auto.
    + intros (Hpre & Hp & Hleaf). eapply enum_complete; eassumption.
  - exists []. split.
    { destruct HJ as (y & HJ). unfold PrefixPredict. rewrite HJ. reflexivity. }
    split; [constructor|].
    intros p id. split; [inversion 1|].
    intros ([r ->] & Hj & _). exfalso.
    pose proof (Jump_spec da T (k ++ r) HI) as HJ2.
    destruct (T (k ++ r)) as [t|] eqn:E.
    + assert (Hs : is_Some (T k)) by (apply (placed_prefix da T k r HI); rewrite E; eauto).
      rewrite Hk in Hs. destruct Hs. discriminate.
    + destruct HJ2 as (y & HJ2). rewrite HJ2 in Hj. discriminate.
Qed.

(** A safe history runs to its end. *)
Lemma run_ops_safe (fuel : nat) (ops : list op) :
  forall da m,
    Good da m -> Forall (fun o => NUL ∉ op_key o) ops ->
    vkey da + Z.of_nat (length ops) <= valueLimit ->
    safe_run fuel m ops ->
    exists da', run_ops fuel ops da = Ret da'.
Proof.
  induction ops as [|o ops IH]; intros da m HG Hnul Hlen Hsafe; [cbn; eauto|].
  apply Forall_cons in Hnul as [Hk Hnul]. cbn [length] in Hlen.
  destruct Hsafe as [Ho Hsafe].
  assert (Hstep : exists da1, apply_op fuel da o = Ret da1).
  { destruct o as [k v|k d|k]; cbn [apply_op op_key] in *.
    - destruct (Good_Insert da m k v HG Hk) as (da1 & Hi & _); [lia|].
      exists da1. now rewrite Hi.
    - destruct (Good_Update da m k d HG Hk) as (da1 & e & Hu & _).
      exists da1. now rewrite Hu.
    - destruct Ho as (Hf & k0 & v0 & Hne & Hk0 & H0).
      destruct (Delete_total fuel da m k k0 v0 HG Hk Hk0 Hne H0 Hf) as (da1 & e & Hd).
      exists da1. now rewrite Hd. }
  destruct Hstep as (da1 & Hstep).
  destruct (Good_step fuel da m o da1 HG Hk) as [HG1 Hv1]; [lia|exact Hstep|].
  destruct (IH da1 _ HG1 Hnul) as (da' & Hr); [lia|exact Hsafe|].
  exists da'. cbn [run_ops]. rewrite Hstep. exact Hr.
Qed.

(** ** Terminal nodes and keys *)

(** A label 0 is the last label of its path. *)
Lemma nul_only_last (da : Cedar) (T : placement) (p : list byte) :
  Inv da T -> NulLeaf da T -> is_Some (T p) ->
  NUL ∉ p \/ exists key, p = key ++ [NUL] /\ NUL ∉ key.
Proof.
  intros HI HN. induction p as [|c q IH] using rev_ind; intros Hp.
  - left. inversion 1.
  - assert (Hq : is_Some (T q)) by (eapply placed_prefix; eassumption).
    destruct (IH Hq) as [Hn|(key & -> & Hn)].
    + destruct (decide (c = NUL)) as [->|Nc].
      * right. exists q. auto.
      * left. apply nul_free_app. split; [exact Hn|].
        intros H. apply list_elem_of_singleton in H. congruence.
    + exfalso. destruct Hq as [y Hy]. destruct (HN _ _ Hy) as [v Hv].
      destruct Hp as [x Hx]. rewrite (leaf_no_child _ _ _ _ c HI Hv) in Hx. discriminate.
Qed.

Lemma strip_nul_free (k : list byte) : NUL ∉ k -> strip k = k.
Proof. apply filter_nul_free. Qed.

Lemma strip_snoc_NUL (k : list byte) : NUL ∉ k -> strip (k ++ [NUL]) = k.
Proof.
  intros H. unfold strip. rewrite filter_app, (filter_nul_free k H).
  rewrite filter_cons_False by (intros H'; now apply H'). apply app_nil_r.
Qed.

Lemma holds_value_spec (da : Cedar) (T : placement) (key : list byte) (id : Z) :
  Inv da T ->
  (holds_value da key id <->
   exists p v, (p = key \/ p = key ++ [NUL]) /\ T p = Some id /\ leafv da T p = Some v).
Proof.
  intros HI. split.
  - intros (j & nj & HJ & Hnj & Hcase).
    pose proof (Jump_placed da T key j HI HJ) as Hj.
    destruct Hcase as [[Hv ->]|(Hv & -> & n & Hn & Hck & Hvn)].
    + exists key, (Value nj). split; [now left|]. split; [exact Hj|].
      rewrite (leafv_Some_T _ _ _ _ _ Hj Hnj). destruct (decide _); [reflexivity|lia].
    + assert (Hy : T (key ++ [NUL]) = Some (base nj)).
      { replace (base nj) with (Z.lxor (base nj) (ord NUL)) by (cbn; apply Z.lxor_0_r).
        eapply inv_child_placed; try eassumption.
        cbn. rewrite Z.lxor_0_r. exact Hn. }
      exists (key ++ [NUL]), (Value n). split; [now right|]. split; [exact Hy|].
      rewrite (leafv_Some_T _ _ _ _ _ Hy Hn). destruct (decide _); [reflexivity|lia].
  - intros (p & v & [->| ->] & Hp & Hv).
    + apply leafv_Some_inv in Hv as (x & n & Hx & Hn & Hvn & Hv0).
      rewrite Hp in Hx. injection Hx as <-.
      pose proof (Jump_spec da T key HI) as HJ. rewrite Hp in HJ.
      exists id, n. split; [exact HJ|]. split; [exact Hn|]. left. split; [lia|reflexivity].
    + apply leafv_Some_inv in Hv as (x & n & Hx & Hn & Hvn & Hv0).
      rewrite Hp in Hx. injection Hx as <-.
      destruct (inv_edge _ _ HI _ _ _ Hp) as (j & nj & n' & Hj & Hnj & Hvj & E & Hn' & Hck).
      rewrite Hn in Hn'. injection Hn' as <-.
      pose proof (Jump_spec da T key HI) as HJ. rewrite Hj in HJ.
      exists j, nj. split; [exact HJ|]. split; [exact Hnj|]. right.
      split; [exact Hvj|]. split; [rewrite E; cbn; apply Z.lxor_0_r|].
      exists n. split; [exact Hn|]. split; [exact Hck|lia].
Qed.

(** The order of two leaves is the order of their keys. *)
Lemma lex_lt_strip (pa pb : list byte) :
  lex_lt pa pb ->
  forall ka kb, NUL ∉ ka -> NUL ∉ kb ->
    (pa = ka \/ pa = ka ++ [NUL]) -> (pb = kb \/ pb = kb ++ [NUL]) ->
    ~ pa `prefix_of` pb -> lex_lt ka kb.
Proof.
  induction 1 as [b q|a b p q Hab|a p q Hpq IH]; intros ka kb Hka Hkb Ha Hb Hnp.
  - exfalso. apply Hnp. apply prefix_nil.
  - destruct ka as [|a' ka], kb as [|b' kb]; cbn in Ha, Hb.
    + destruct Ha as [Ha|Ha]; [discriminate|]. destruct Hb as [Hb|Hb]; [discriminate|].
      injection Ha as -> _. injection Hb as -> _. lia.
    + constructor.
    + destruct Hb as [Hb|Hb]; [discriminate|]. injection Hb as -> _.
      pose proof (ord_range a). cbn in Hab. lia.
    + assert (a = a') by (destruct Ha as [Ha|Ha]; now injection Ha). subst a'.
      assert (b = b') by (destruct Hb as [Hb|Hb]; now injection Hb). subst b'.
      now constructor.
  - destruct ka as [|a' ka], kb as [|b' kb]; cbn in Ha, Hb.
    + destruct Ha as [Ha|Ha]; [discriminate|]. destruct Hb as [Hb|Hb]; [discriminate|].
      injection Ha as -> ->. injection Hb as ->. inversion Hpq.
    + constructor.
    + exfalso. destruct Hb as [Hb|Hb]; [discriminate|]. injection Hb as -> _.
      apply Hka. destruct Ha as [Ha|Ha]; injection Ha as <- _; now left.
    + assert (a = a') by (destruct Ha as [Ha|Ha]; now injection Ha). subst a'.
      assert (a = b') by (destruct Hb as [Hb|Hb]; now injection Hb). subst b'.
      apply lex_lt_tail. apply IH.
      * intros H. apply Hka. now right.
      * intros H. apply Hkb. now right.
      * destruct Ha as [Ha|Ha]; injection Ha as ->; auto.
      * destruct Hb as [Hb|Hb]; injection Hb as ->; auto.
      * intros [r ->]. apply Hnp. exists r. reflexivity.
Qed.

Lemma StronglySorted_fmap {A B} (R : A -> A -> Prop) (R' : B -> B -> Prop)
    (f : A -> B) (l : list A) :
  (forall a b, a ∈ l -> b ∈ l -> R a b -> R' (f a) (f b)) ->
  StronglySorted R l -> StronglySorted R' (f <$> l).
Proof.
  intros Hf Hs. induction Hs as [|a l Hs IH Hall]; [constructor|].
  cbn. constructor.
  - apply IH. intros x y Hx Hy. apply Hf; now right.
  - apply Forall_fmap. rewrite Forall_forall in Hall |- *.
    intros b Hb. cbn. apply Hf; [now left|now right|apply Hall, Hb].
Qed.

(** [PrefixPredict(k, 0)], in terms of keys. *)
Lemma PrefixPredict_keys (da : Cedar) (T : placement) (k : list byte) (fuel : nat) :
  Inv da T -> Strict da T -> NulLeaf da T -> NUL ∉ k ->
  (k = [] -> exists k0 v, stored da T k0 = Some v) ->
  Z.of_nat (length (array da)) < 2 ^ 63 ->
  (2 * length (array da) + 1 <= fuel)%nat ->
  exists L : list (list byte * Z),
    PrefixPredict fuel da k 0 = Ret L.*2 /\
    StronglySorted (fun a b => lex_lt a.1 b.1) L /\
    forall key id,
      (key, id) ∈ L <-> (NUL ∉ key) /\ k `prefix_of` key /\ holds_value da key id.
Proof.
  intros HI HS HN Hk Hne Hlen Hfuel.
  destruct (PrefixPredict_leaves da T k fuel HI HS HN Hne Hlen Hfuel) as (L & Hr & Hsort & Hmem).
  (* the shape of the listed paths *)
  assert (HF : forall p id, (p, id) ∈ L ->
            T p = Some id /\ (exists v, leafv da T p = Some v) /\ k `prefix_of` p).
  { intros p id Hin. apply Hmem in Hin as (Hpre & HJ & n & Hn & Hv).
    pose proof (Jump_placed da T p id HI HJ) as Hp. split; [exact Hp|]. split; [|exact Hpre].
    exists (Value n). rewrite (leafv_Some_T _ _ _ _ _ Hp Hn). destruct (decide _); [reflexivity|lia]. }
  assert (Hshape : forall p id, (p, id) ∈ L ->
            (NUL ∉ strip p) /\ (p = strip p \/ p = strip p ++ [NUL]) /\ k `prefix_of` strip p).
  { intros p id Hin. destruct (HF _ _ Hin) as (Hp & _ & Hpre).
    destruct (nul_only_last da T p HI HN) as [Hn|(key & -> & Hn)]; [rewrite Hp; eauto| |].
    - rewrite (strip_nul_free p Hn). auto.
    - rewrite (strip_snoc_NUL key Hn). split; [exact Hn|]. split; [now right|].
      destruct Hpre as [r E]. destruct (snoc_cases r) as [->|(r' & c & ->)].
      + rewrite app_nil_r in E. exfalso. apply Hk. rewrite <- E.
        apply elem_of_app. right. now left.
      + rewrite app_assoc in E. apply app_inj_tail in E as [-> _]. now exists r'. }
  exists ((fun it : list byte * Z => (strip it.1, it.2)) <$> L).
  split.
  { rewrite Hr. f_equal. rewrite <- list_fmap_compose. apply list_fmap_ext.
    intros i [p id] _. reflexivity. }
  split.
  { apply (StronglySorted_fmap (fun a b => lex_lt a.1 b.1)); [|exact Hsort].
    intros [pa ia] [pb ib] Ha Hb Hlt. cbn in *.
    destruct (Hshape _ _ Ha) as (Hna & Hsa & _). destruct (Hshape _ _ Hb) as (Hnb & Hsb & _).
    apply (lex_lt_strip pa pb Hlt _ _ Hna Hnb Hsa Hsb).
    intros [r E]. destruct (HF _ _ Ha) as (_ & (v & Hv) & _). destruct (HF _ _ Hb) as (Tb & _).
    destruct r as [|c r].
    - rewrite app_nil_r in E. subst pb. eapply lex_lt_irrefl; exact Hlt.
    - assert (Hs : is_Some (T (pa ++ [c]))).
      { apply (placed_prefix da T (pa ++ [c]) r HI). rewrite <- app_assoc. cbn.
        rewrite <- E, Tb. eauto. }
      rewrite (leaf_no_child _ _ _ _ c HI Hv) in Hs. destruct Hs. discriminate. }
  intros key id. rewrite (holds_value_spec da T key id HI). split.
  - intros Hin. apply list_elem_of_fmap in Hin as ([p i] & E & Hin). cbn in E.
    injection E as -> ->.
    destruct (Hshape _ _ Hin) as (Hn & Hs & Hpre). destruct (HF _ _ Hin) as (Hp & (v & Hv) & _).
    split; [exact Hn|]. split; [exact Hpre|]. exists p, v. auto.
  - intros (Hn & Hpre & p & v & Hp & Tp & Hv).
    assert (Hin : (p, id) ∈ L).
    { apply Hmem. split.
      - destruct Hpre as [r ->]. destruct Hp as [->| ->]; [now exists r|].
        exists (r ++ [NUL]). now rewrite app_assoc.
      - split; [pose proof (Jump_spec da T p HI) as HJ; now rewrite Tp in HJ|].
        apply leafv_Some_inv in Hv as (x & n & Hx & Hnn & Hvn & Hv0).
        rewrite Tp in Hx. injection Hx as <-. exists n. split; [exact Hnn|lia]. }
    apply list_elem_of_fmap. exists (p, id). split; [|exact Hin]. cbn. f_equal.
    destruct Hp as [->| ->]; [now rewrite strip_nul_free|now rewrite strip_snoc_NUL].
Qed.

(** ** More on [Jump] *)

Lemma Jump_loop_app (da : Cedar) (p1 : list byte) :
  forall from t0 mid p2, p1 <> [] -> p2 <> [] ->
    Jump_loop da p1 from t0 = Ret (mid, None) ->
    Jump_loop da (p1 ++ p2) from t0 = Jump_loop da p2 mid 0.
Proof.
  induction p1 as [|b p1 IH]; intros from t0 mid p2 H1 H2 HJ; [congruence|].
  cbn [app Jump_loop] in *.
  destruct (rd (array da) from) as [nf| |]; cbn [bind] in *; try discriminate.
  destruct (Value nf >=? 0); [discriminate|].
  destruct (rd (array da) (Z.lxor (base nf) (ord b))) as [nt| |]; cbn [bind] in *;
    try discriminate.
  destruct (negb (Check nt =? from)); [discriminate|].
  destruct p1 as [|c p1].
  - cbn in HJ. injection HJ as <-. cbn [app].
    destruct p2; [congruence|reflexivity].
  - apply IH; [discriminate|exact H2|exact HJ].
Qed.

Lemma Jump_loop_walk_inv (da : Cedar) (path : list byte) :
  forall from t0 to, path <> [] ->
    Jump_loop da path from t0 = Ret (to, None) -> walk da from path to.
Proof.
  induction path as [|b path IH]; intros from t0 to Hne HJ; [congruence|].
  cbn [Jump_loop] in HJ.
  destruct (rd (array da) from) as [nf| |] eqn:Hnf; cbn [bind] in HJ; try discriminate.
  destruct (Z.geb_spec (Value nf) 0) as [|Hv]; [discriminate|].
  destruct (rd (array da) (Z.lxor (base nf) (ord b))) as [nt| |] eqn:Hnt;
    cbn [bind] in HJ; try discriminate.
  destruct (Z.eqb_spec (Check nt) from) as [Hc|]; [|discriminate]. cbn [negb] in HJ.
  apply rd_Ret in Hnf, Hnt.
  eapply walk_cons; [exact Hnf|lia|exact Hnt|exact Hc|].
  destruct path as [|c path].
  - cbn in HJ. injection HJ as <-. apply walk_nil.
  - eapply IH; [discriminate|exact HJ].
Qed.

Lemma Jump_loop_stuck (da : Cedar) (path : list byte) :
  forall from t0 x e,
    Jump_loop da path from t0 = Ret (x, Some e) ->
    e = ErrNoPath /\
    exists pre b rest,
      path = pre ++ b :: rest /\ walk da from pre x /\ forall y, ~ walk da x [b] y.
Proof.
  induction path as [|b path IH]; intros from t0 x e HJ; [discriminate|].
  cbn [Jump_loop] in HJ.
  destruct (rd (array da) from) as [nf| |] eqn:Hnf; cbn [bind] in HJ; try discriminate.
  apply rd_Ret in Hnf.
  destruct (Z.geb_spec (Value nf) 0) as [Hv|Hv].
  { injection HJ as <- <-. split; [reflexivity|].
    exists [], b, path. split; [reflexivity|]. split; [apply walk_nil|].
    intros y Hw. inversion Hw; subst. simplify_eq. lia. }
  destruct (rd (array da) (Z.lxor (base nf) (ord b))) as [nt| |] eqn:Hnt;
    cbn [bind] in HJ; try discriminate.
  apply rd_Ret in Hnt.
  destruct (Z.eqb_spec (Check nt) from) as [Hc|Hc]; cbn [negb] in HJ.
  - destruct (IH _ _ _ _ HJ) as (-> & pre & c & rest & -> & Hw & Hno).
    split; [reflexivity|].
    exists (b :: pre), c, rest. split; [reflexivity|]. split; [|exact Hno].
    eapply walk_cons; [exact Hnf|lia|exact Hnt|exact Hc|exact Hw].
  - injection HJ as <- <-. split; [reflexivity|].
    exists [], b, path. split; [reflexivity|]. split; [apply walk_nil|].
    intros y Hw. inversion Hw; subst. simplify_eq.
Qed.


(** ** [PrefixMatch] *)

Lemma Jump_edge (da : Cedar) (T : placement) (pre : list byte) (b : byte) (from : Z) :
  Inv da T -> T pre = Some from ->
  match T (pre ++ [b]) with
  | Some to => Jump da [b] from = Ret (to, None)
  | None => exists x, Jump da [b] from = Ret (x, Some ErrNoPath)
  end.
Proof.
  intros HI Hpre. destruct (T (pre ++ [b])) as [to|] eqn:Hto.
  - destruct (inv_edge _ _ HI _ _ _ Hto) as (p & np & nt & Hp & Hnp & Hv & -> & Hnt & Hc).
    rewrite Hpre in Hp. injection Hp as <-.
    apply Jump_loop_walk; [|discriminate].
    eapply walk_cons; [exact Hnp|exact Hv|exact Hnt|exact Hc|apply walk_nil].
  - eapply Jump_loop_absent; eassumption.
Qed.

Lemma prefix_cons_nonempty {A} (suf : list A) (b : A) (key : list A) :
  suf <> [] -> suf `prefix_of` b :: key ->
  exists suf', suf = b :: suf' /\ suf' `prefix_of` key.
Proof.
  intros Hne [r E]. destruct suf as [|c suf]; [congruence|].
  injection E as <- ->. exists suf. split; [reflexivity|]. now exists r.
Qed.

Lemma PrefixMatch_loop_Inv (da : Cedar) (T : placement) (key : list byte) :
  Inv da T ->
  forall pre from,
    T pre = Some from ->
    Z.of_nat (length key) <= 2 ^ 63 ->
    exists L : list (list byte * Z),
      StronglySorted (fun a b => (length a.1 < length b.1)%nat) L /\
      (forall p id, (p, id) ∈ L <->
        (exists suf, suf <> [] /\ suf `prefix_of` key /\ p = pre ++ suf) /\
        T p = Some id /\ is_Some (stored da T p)) /\
      forall num ids,
        - 2 ^ 63 + Z.of_nat (length key) <= num < 2 ^ 63 ->
        PrefixMatch_loop da key from num ids
        = Ret (ids ++ if 0 <? num then take (Z.to_nat num) L.*2 else L.*2).
Proof.
  intros HI. induction key as [|b key IH]; intros pre from Hpre Hlen.
  { exists []. cbn [PrefixMatch_loop fmap list_fmap].
    split; [constructor|split].
    - intros p id. split; [now intros ?%elem_of_nil|].
      intros ((suf & Hne & Hp & _) & _). apply prefix_nil_inv in Hp. congruence.
    - intros num ids _. destruct (0 <? num); now rewrite ?take_nil, app_nil_r. }
  cbn [length] in Hlen. cbn [PrefixMatch_loop].
  pose proof (Jump_edge da T pre b from HI Hpre) as HJ.
  destruct (T (pre ++ [b])) as [to|] eqn:Hto.
  2:{ destruct HJ as (x & ->). cbn [bind]. exists []. cbn [fmap list_fmap].
      split; [constructor|split].
      - intros p id. split; [now intros ?%elem_of_nil|].
        intros ((suf & Hne & Hp & ->) & Hid & _).
        destruct (prefix_cons_nonempty _ _ _ Hne Hp) as (suf' & -> & _).
        assert (is_Some (T (pre ++ [b]))) as [? ?]; [|congruence].
        apply (placed_prefix da T (pre ++ [b]) suf' HI).
        rewrite <- app_assoc. cbn [app]. now rewrite Hid.
      - intros num ids _. destruct (0 <? num); now rewrite ?take_nil, app_nil_r. }
  rewrite HJ. cbn [bind]. rewrite (vKeyOf_spec da T (pre ++ [b]) to HI Hto).
  destruct (IH (pre ++ [b]) to Hto) as (L' & Hs' & HL' & Hrun); [lia|].
  assert (Hsuf : forall p id,
      ((exists suf, suf <> [] /\ suf `prefix_of` b :: key /\ p = pre ++ suf) /\
       T p = Some id /\ is_Some (stored da T p)) <->
      (p = pre ++ [b] /\ id = to /\ is_Some (stored da T (pre ++ [b])) \/ (p, id) ∈ L')).
  { intros p id. split.
    - intros ((suf & Hne & Hp & ->) & Hid & Hst).
      destruct (prefix_cons_nonempty _ _ _ Hne Hp) as (suf' & -> & Hp').
      destruct suf' as [|c suf'].
      + left. split; [reflexivity|]. split; [congruence|exact Hst].
      + right. apply HL'. split; [|now split].
        exists (c :: suf'). split; [discriminate|]. split; [exact Hp'|].
        now rewrite <- app_assoc.
    - intros [(-> & -> & Hst)|Hin].
      + split; [|now split]. exists [b]. split; [discriminate|]. split; [|reflexivity].
        now apply prefix_cons, prefix_nil.
      + apply HL' in Hin as ((suf & Hne & Hp & ->) & Hid & Hst). split; [|now split].
        exists (b :: suf). split; [discriminate|]. split; [now apply prefix_cons|].
        now rewrite <- app_assoc. }
  assert (Hlonger : Forall (fun y => (length (pre ++ [b]) < length y.1)%nat) L').
  { apply Forall_forall. intros [p id] Hin.
    apply HL' in Hin as ((suf & Hne & _ & ->) & _). cbn [fst].
    rewrite (length_app (pre ++ [b])). destruct suf; [congruence|]. cbn [length]. lia. }
  destruct (stored da T (pre ++ [b])) as [v|] eqn:Hst; cbn [bind].
  - exists ((pre ++ [b], to) :: L'). split; [|split].
    + constructor; [exact Hs'|exact Hlonger].
    + intros p id. rewrite (Hsuf p id), elem_of_cons.
      split; [intros [[= -> ->]|H]; [left; eauto|now right]
             |intros [(-> & -> & _)|H]; [now left|now right]].
    + intros num ids Hnum. cbn [length] in Hnum.
      assert (Hw : wrap64 (num - 1) = num - 1) by (apply wrap64_id; lia).
      rewrite Hw. destruct (Z.eqb_spec (num - 1) 0) as [E|E].
      * replace num with 1 by lia. reflexivity.
      * rewrite Hrun by lia. f_equal. rewrite <- app_assoc. f_equal.
        cbn [fmap list_fmap snd app].
        destruct (Z.ltb_spec 0 (num - 1)), (Z.ltb_spec 0 num); try lia; [|reflexivity].
        replace (Z.to_nat num) with (S (Z.to_nat (num - 1))) by lia. reflexivity.
  - exists L'. split; [exact Hs'|]. split.
    + intros p id. rewrite (Hsuf p id).
      split; [now right|]. intros [(_ & _ & [? ?])|H]; [discriminate|exact H].
    + intros num ids Hnum. cbn [length] in Hnum. apply Hrun. lia.
Qed.

Lemma PrefixMatch_Inv (da : Cedar) (T : placement) (key : list byte) :
  Inv da T -> Z.of_nat (length key) <= 2 ^ 63 ->
  exists L : list (list byte * Z),
    StronglySorted (fun a b => (length a.1 < length b.1)%nat) L /\
    (forall p id, (p, id) ∈ L <->
       p <> [] /\ p `prefix_of` key /\ Jump da p 0 = Ret (id, None) /\
       exists vk, vKeyOf da id = Ret (vk, None)) /\
    forall num,
      - 2 ^ 63 + Z.of_nat (length key) <= num < 2 ^ 63 ->
      PrefixMatch da key num
      = Ret (if 0 <? num then take (Z.to_nat num) L.*2 else L.*2).
Proof.
  intros HI Hlen.
  destruct (PrefixMatch_loop_Inv da T key HI [] 0 (inv_root _ _ HI) Hlen)
    as (L & Hs & HL & Hrun).
  exists L. split; [exact Hs|]. split; [|intros num Hnum; apply (Hrun num [] Hnum)].
  intros p id. rewrite (HL p id). cbn [app]. split.
  - intros ((suf & Hne & Hp & ->) & Hid & [v Hst]).
    pose proof (Jump_spec da T suf HI) as HJ. rewrite Hid in HJ.
    repeat split; try assumption.
    exists v. rewrite (vKeyOf_spec da T suf id HI Hid), Hst. reflexivity.
  - intros (Hne & Hp & HJ & vk & Hv).
    pose proof (Jump_placed da T p id HI HJ) as Hid.
    split; [now exists p|]. split; [exact Hid|].
    rewrite (vKeyOf_spec da T p id HI Hid) in Hv.
    destruct (stored da T p); [eauto|discriminate].
Qed.


(** ** [PrefixPredict] with a bound on the number of results *)

Lemma PrefixPredict_loop_num (da : Cedar) (T : placement) (root : Z) (rk : list byte)
    (h : nat) (L : list (list byte * Z)) :
  Inv da T -> Full da T -> NulLeaf da T -> T rk = Some root ->
  enum da T h rk L ->
  forall post pre a ids fuel num,
    L = pre ++ a :: post -> (h + length post < fuel)%nat ->
    - 2 ^ 63 + Z.of_nat (length (a :: post)) <= num < 2 ^ 63 ->
    PrefixPredict_loop fuel da root a.2 num ids
    = Ret (ids ++ if 0 <? num then take (Z.to_nat num) (a :: post).*2
                  else (a :: post).*2).
Proof.
  intros HI HF HN Hroot H.
  induction post as [|b post IH]; intros pre a ids fuel num EL Hfuel Hnum;
    (destruct fuel as [|fuel]; [lia|]); cbn [PrefixPredict_loop];
    cbn [length] in Hnum;
    (assert (Hw : wrap64 (num - 1) = num - 1) by (apply wrap64_id; lia)); rewrite Hw;
    destruct (Z.eqb_spec (num - 1) 0) as [E|E].
  - replace num with 1 by lia. reflexivity.
  - rewrite (next_last da T HI root rk Hroot h L a (S fuel) H); [|rewrite EL; apply last_snoc|lia].
    cbn [bind fmap list_fmap]. destruct (Z.ltb_spec 0 num); [|reflexivity].
    replace (Z.to_nat num) with (S (Z.to_nat (num - 1))) by lia.
    cbn [take]. now rewrite take_nil.
  - replace num with 1 by lia. reflexivity.
  - rewrite (next_in da T HI HF HN root rk Hroot h rk root L pre a b post (S fuel) H Hroot EL);
      [|reflexivity|cbn in Hfuel; lia].
    cbn [bind]. rewrite (IH (pre ++ [a]) b (ids ++ [a.2]) fuel (num - 1)).
    + rewrite <- app_assoc. do 2 f_equal. cbn [fmap list_fmap app].
      destruct (Z.ltb_spec 0 (num - 1)), (Z.ltb_spec 0 num); try lia; [|reflexivity].
      replace (Z.to_nat num) with (S (Z.to_nat (num - 1))) by lia. reflexivity.
    + rewrite EL. now rewrite <- app_assoc.
    + cbn in Hfuel. lia.
    + cbn [length]. lia.
Qed.

Lemma PrefixPredict_num_Inv (da : Cedar) (T : placement) (k : list byte) (fuel : nat) :
  Inv da T -> Strict da T -> NulLeaf da T ->
  (k = [] -> exists k0 v, stored da T k0 = Some v) ->
  Z.of_nat (length (array da)) < 2 ^ 63 ->
  (2 * length (array da) + 1 <= fuel)%nat ->
  exists ids : list Z,
    PrefixPredict fuel da k 0 = Ret ids /\
    forall num,
      - 2 ^ 63 + Z.of_nat (length (array da)) <= num < 2 ^ 63 ->
      PrefixPredict fuel da k num
      = Ret (if 0 <? num then take (Z.to_nat num) ids else ids).
Proof.
  intros HI HS HN Hnonempty Hlen Hfuel.
  pose proof (Jump_spec da T k HI) as HJ.
  destruct (T k) as [root|] eqn:Hk.
  - assert (HF : Full da T).
    { destruct (decide (k = [])) as [->|Hne].
      - destruct (Hnonempty eq_refl) as (k0 & v & Hs).
        assert (Hex : exists hk y, hk <> [] /\ T hk = Some y).
        { unfold stored in Hs. destruct (leafv da T k0) as [w|] eqn:E.
          - apply leafv_Some_inv in E as (y & n & Hy & Hn & Hvn & Hw).
            exists k0, y. split; [|exact Hy]. intros ->.
            rewrite (inv_root _ _ HI) in Hy. injection Hy as <-.
            destruct (inv_root_node _ _ HI) as (n0 & Hn0 & Hv0 & _).
            rewrite Hn in Hn0. injection Hn0 as <-. lia.
          - apply leafv_Some_inv in Hs as (y & _ & Hy & _).
            exists (k0 ++ [NUL]), y. split; [|exact Hy]. destruct k0; discriminate. }
        destruct Hex as (hk & y & Hne & Hy). eapply Full_of_Strict; eauto.
      - eapply Full_of_Strict; eauto. }
    destruct (enum_exists da T HI (length (array da)) k root Hk) as (L & HL); [lia|].
    pose proof (enum_length da T _ k L HI HL) as HLlen.
    exists L.*2.
    assert (Hgen : forall num,
      - 2 ^ 63 + Z.of_nat (length (array da)) <= num < 2 ^ 63 ->
      PrefixPredict fuel da k num
      = Ret (if 0 <? num then take (Z.to_nat num) L.*2 else L.*2)).
    { intros num Hnum. unfold PrefixPredict. rewrite HJ. cbn [bind].
      destruct (begin_spec da T _ HI HF HN k root L fuel HL Hk) as (it & rest & -> & Hb); [lia|].
      rewrite Hb. cbn [bind]. cbn [length] in HLlen.
      apply (PrefixPredict_loop_num da T root k _ (it :: rest) HI HF HN Hk HL rest [] it [] fuel num);
        [reflexivity|lia|cbn [length]; lia]. }
    split; [apply (Hgen 0); lia|exact Hgen].
  - destruct HJ as (y & HJ). exists []. unfold PrefixPredict. rewrite HJ. cbn [bind].
    split; [reflexivity|]. intros num _. destruct (0 <? num); now rewrite ?take_nil.
Qed.



(** ** [Key] on any slot *)

Lemma Key_loop_mono (da : Cedar) (fuel : nat) :
  forall fuel' id acc r,
    Key_loop fuel da id acc = Ret r -> (fuel <= fuel')%nat ->
    Key_loop fuel' da id acc = Ret r.
Proof.
  induction fuel as [|fuel IH]; intros fuel' id acc r H Hle; [discriminate|].
  destruct fuel' as [|fuel']; [lia|]. cbn [Key_loop] in *.
  destruct (id >? 0); [|exact H].
  destruct (rd (array da) id) as [n| |]; cbn [bind] in *; try discriminate.
  destruct (Check n <? 0); [exact H|].
  destruct (rd (array da) (Check n)) as [nf| |]; cbn [bind] in *; try discriminate.
  apply IH; [exact H|lia].
Qed.

(** What [Key] returns for a slot of the array: [ErrNoPath] for a free
    slot, else the path of the node without its 0 bytes, or
    [ErrInvalidKey] when nothing is left of it. *)
Lemma Key_slot_Inv (da : Cedar) (T : placement) (id : Z) (n : node) (fuel : nat) :
  Inv da T -> at_ (array da) id = Some n -> (length (array da) <= fuel)%nat ->
  (id <> 0 /\ Check n < 0 /\ Key fuel da id = Ret ([], Some ErrNoPath)) \/
  (exists ks, T ks = Some id /\ (id = 0 \/ 0 <= Check n) /\
     Key fuel da id = Ret (if decide (strip ks = []) then ([], Some ErrInvalidKey)
                           else (strip ks, None))).
Proof.
  intros HI Hn Hfuel.
  pose proof (at_Some_range _ _ _ Hn) as Hr.
  assert (Hplaced : forall ks, T ks = Some id ->
    Key fuel da id = Ret (if decide (strip ks = []) then ([], Some ErrInvalidKey)
                          else (strip ks, None))).
  { intros ks Hks. pose proof (depth_bound da T ks id HI Hks) as Hd.
    unfold Key. rewrite (Key_loop_climb da T ks HI id [] fuel Hks) by lia.
    cbn [bind app negb orb Z.eqb]. rewrite length_rev. fold (strip ks).
    destruct (decide (strip ks = [])) as [E|E].
    - rewrite E. reflexivity.
    - destruct (Z.eqb_spec (Z.of_nat (length (strip ks))) 0) as [E'|_].
      + destruct (strip ks); [contradiction|cbn in E'; lia].
      + now rewrite rev_involutive. }
  destruct (decide (id = 0)) as [->|Hid].
  { right. exists []. split; [apply (inv_root _ _ HI)|]. split; [now left|].
    apply Hplaced, (inv_root _ _ HI). }
  destruct (Z.lt_ge_cases (Check n) 0) as [Hc|Hc].
  - left. split; [exact Hid|]. split; [exact Hc|].
    destruct fuel as [|fuel]; [lia|]. unfold Key. cbn [Key_loop].
    destruct (Z.gtb_spec id 0) as [_|]; [|lia].
    unfold rd. rewrite Hn. cbn [bind].
    destruct (Z.ltb_spec (Check n) 0) as [_|]; [|lia]. reflexivity.
  - right. destruct (inv_occ _ _ HI _ _ Hn Hc) as (ks & Hks).
    exists ks. split; [exact Hks|]. split; [now right|]. apply Hplaced, Hks.
Qed.

(** [Jump] leads back to the node of which [Key] gave the key, or to the
    node above it when the node is a child by the label 0. *)
Lemma Key_Jump_Inv (da : Cedar) (T : placement) (fuel : nat) (id : Z) (key : list byte) :
  Inv da T -> NulLeaf da T -> Key fuel da id = Ret (key, None) ->
  key <> [] /\ (NUL ∉ key) /\
  exists j, Jump da key 0 = Ret (j, None) /\
            (j = id \/ Jump da [NUL] j = Ret (id, None)).
Proof.
  intros HI HN HK.
  assert (Hn : exists n, at_ (array da) id = Some n /\ (id = 0 \/ 0 <= Check n)).
  { unfold Key in HK. destruct fuel as [|fuel]; [discriminate|]. cbn [Key_loop] in HK.
    destruct (Z.gtb_spec id 0) as [Hpos|Hpos].
    - unfold rd at 1 in HK. destruct (at_ (array da) id) as [n|]; [|discriminate].
      cbn [bind] in HK. exists n. split; [reflexivity|]. right.
      destruct (Z.ltb_spec (Check n) 0); [discriminate|lia].
    - cbn [bind length Z.of_nat Z.eqb] in HK. rewrite orb_true_r in HK. discriminate. }
  destruct Hn as (n & Hn & Hocc).
  assert (Hks : exists ks, T ks = Some id).
  { destruct Hocc as [->|Hc]; [exists []; apply (inv_root _ _ HI)|].
    eapply (inv_occ _ _ HI); eassumption. }
  destruct Hks as (ks & Hks).
  assert (E : key = strip ks /\ strip ks <> []).
  { pose proof (Key_loop_climb da T ks HI id [] (S (length ks) + fuel) Hks ltac:(lia)) as Hc.
    unfold Key in HK.
    destruct (Key_loop fuel da id []) as [r| |] eqn:Hl; try discriminate.
    rewrite (Key_loop_mono da fuel _ id [] r Hl) in Hc by lia.
    injection Hc as ->. cbn [bind app negb orb Z.eqb] in HK. fold (strip ks) in HK.
    rewrite length_rev in HK.
    destruct (Z.eqb_spec (Z.of_nat (length (strip ks))) 0) as [E'|E']; [discriminate|].
    rewrite rev_involutive in HK. injection HK as <-.
    split; [reflexivity|]. intros E. rewrite E in E'. now apply E'. }
  destruct E as (-> & Hne). split; [exact Hne|].
  destruct (nul_only_last da T ks HI HN) as [Hnul|(k' & -> & Hnul)]; [now rewrite Hks| |].
  - rewrite (strip_nul_free ks Hnul). split; [exact Hnul|]. exists id. split; [|now left].
    pose proof (Jump_spec da T ks HI) as HJ. now rewrite Hks in HJ.
  - rewrite (strip_snoc_NUL k' Hnul). split; [exact Hnul|].
    destruct (placed_prefix da T k' [NUL] HI) as [j Hj]; [now rewrite Hks|].
    exists j. split.
    + pose proof (Jump_spec da T k' HI) as HJ. now rewrite Hj in HJ.
    + right. pose proof (Jump_edge da T k' NUL j HI Hj) as HJ. now rewrite Hks in HJ.
Qed.


(** ** The value-keys a history hands out *)

Lemma Good_run_vkey (fuel : nat) (ops : list op) :
  forall da m da',
    Good da m -> Forall (fun o => NUL ∉ op_key o) ops ->
    vkey da + Z.of_nat (length ops) <= valueLimit ->
    run_ops fuel ops da = Ret da' ->
    vkey da' <= vkey da + Z.of_nat (length ops).
Proof.
  induction ops as [|o ops IH]; intros da m da' HG Hnul Hlen Hr.
  - injection Hr as <-. cbn. lia.
  - cbn [run_ops] in Hr. apply bind_Ret in Hr as (da1 & Ho & Hr).
    apply Forall_cons in Hnul as [Hk Hnul]. cbn [length] in Hlen |- *.
    destruct (Good_step fuel da m o da1 HG Hk) as [HG1 Hv1]; [lia|exact Ho|].
    pose proof (IH da1 _ da' HG1 Hnul ltac:(lia) Hr). lia.
Qed.

(** ** [Delete] and the value side-table *)

Lemma popSibling_walk_vals (fuel : nat) :
  forall da b c label r,
    popSibling_walk fuel da b c label = Ret r -> vals r = vals da /\ vkey r = vkey da.
Proof.
  induction fuel as [|fuel IH]; intros da b c label r H; [discriminate|].
  cbn [popSibling_walk] in H.
  apply bind_Ret in H as (i & _ & H).
  destruct (byte_eqb (Sibling i) label).
  - apply bind_Ret in H as (il & _ & H). unfold setSibling in H.
    apply bind_Ret in H as (n & _ & H). apply bind_Ret in H as (a & _ & H).
    injection H as <-. split; reflexivity.
  - apply (IH _ _ _ _ _ H).
Qed.

Lemma popSibling_vals (da : Cedar) (from b : Z) (label : byte) (r : Cedar) :
  popSibling da from b label = Ret r -> vals r = vals da /\ vkey r = vkey da.
Proof.
  unfold popSibling. intros H. apply bind_Ret in H as (i & _ & H).
  destruct (byte_eqb (Child i) label).
  - apply bind_Ret in H as (il & _ & H). unfold setChild in H.
    apply bind_Ret in H as (n & _ & H). apply bind_Ret in H as (a & _ & H).
    injection H as <-. split; reflexivity.
  - apply (popSibling_walk_vals _ _ _ _ _ _ H).
Qed.

Lemma pushEnode_vals (da : Cedar) (e : Z) (r : Cedar) :
  pushEnode da e = Ret r -> vals r = vals da /\ vkey r = vkey da.
Proof.
  unfold pushEnode. intros H. apply bind_Ret in H as (a & _ & H).
  apply bind_Ret in H as (i & _ & H). injection H as <-. split; reflexivity.
Qed.

Lemma Delete_loop_vals (fuel : nat) :
  forall da to r,
    Delete_loop fuel da to = Ret r -> vals r = vals da /\ vkey r = vkey da.
Proof.
  induction fuel as [|fuel IH]; intros da to r H; [discriminate|].
  cbn [Delete_loop] in H.
  apply bind_Ret in H as (nt & _ & H). apply bind_Ret in H as (nf & _ & H).
  apply bind_Ret in H as (it & _ & H). apply bind_Ret in H as (stop & _ & H).
  destruct stop.
  - apply bind_Ret in H as (da1 & H1 & H).
    apply popSibling_vals in H1 as [E1 E2]. apply pushEnode_vals in H as [E3 E4].
    split; congruence.
  - apply bind_Ret in H as (da1 & H1 & H).
    apply pushEnode_vals in H1 as [E1 E2]. apply IH in H as [E3 E4].
    split; congruence.
Qed.

Lemma Delete_vals (fuel : nat) (da : Cedar) (key : list byte) (da' : Cedar)
    (e : option error) :
  Delete fuel da key = Ret (da', e) -> vals da' = vals da /\ vkey da' = vkey da.
Proof.
  unfold Delete. intros H.
  apply bind_Ret in H as ([to err] & _ & H).
  destruct err as [e0|]; [injection H as <- _; now split|].
  apply bind_Ret in H as ([vk err] & _ & H).
  destruct err as [e0|]; [injection H as <- _; now split|].
  destruct (vals da !! vk); [|injection H as <- _; now split].
  apply bind_Ret in H as (nt & _ & H). apply bind_Ret in H as (to' & _ & H).
  apply bind_Ret in H as (da1 & H1 & H). injection H as <- _.
  apply (Delete_loop_vals _ _ _ _ H1).
Qed.

(** ** Keys without a value *)

(** In a state that agrees with a history, a key that the history knows
    absent has no path or no value: [Get] and [Delete] return the error of
    [Jump] or [ErrNoValue], and [Delete] changes nothing. *)
Lemma absent_Good (da : Cedar) (m : model) (k : list byte) :
  Good da m -> NUL ∉ k -> m k = Absent ->
  (exists x, Jump da k 0 = Ret (x, Some ErrNoPath)) \/
  (exists t, Jump da k 0 = Ret (t, None) /\
     (vKeyOf da t = Ret (0, Some ErrNoValue) \/
      vKeyOf da t = Ret (valueLimit, None) /\ vals da !! valueLimit = None)).
Proof.
  intros (T & HI & HS & HN & HB & Hvk & Hdom & Hm) Hk Hab.
  specialize (Hm k Hk). rewrite Hab in Hm. apply storedv_None in Hm.
  pose proof (Jump_spec da T k HI) as HJ.
  destruct (T k) as [t|] eqn:Ht; [right; exists t; split; [exact HJ|]|now left].
  rewrite (vKeyOf_spec da T k t HI Ht).
  destruct Hm as [-> | ->]; [now left|right]. split; [reflexivity|].
  destruct (vals da !! valueLimit) eqn:E; [|reflexivity].
  assert (is_Some (vals da !! valueLimit)) as H%Hdom by eauto. lia.
Qed.

Lemma held_Good (da : Cedar) (m : model) (k : list byte) (v : iface) :
  Good da m -> NUL ∉ k -> m k = Holds v ->
  exists t, Jump da k 0 = Ret (t, None).
Proof.
  intros (T & HI & HS & HN & HB & Hvk & Hdom & Hm) Hk Hh.
  specialize (Hm k Hk). rewrite Hh in Hm. destruct Hm as (vk & nv & Hs & _).
  apply storedv_Some in Hs as [Hs _].
  destruct (stored_placed da T k vk HI Hs) as [t Ht]. exists t.
  pose proof (Jump_spec da T k HI) as HJ. now rewrite Ht in HJ.
Qed.

Lemma Jump_prefix_Good (da : Cedar) (m : model) (k suf : list byte) (t : Z) :
  Good da m -> Jump da (k ++ suf) 0 = Ret (t, None) ->
  exists j, Jump da k 0 = Ret (j, None).
Proof.
  intros (T & HI & _) HJ. apply (Jump_placed da T _ _ HI) in HJ.
  destruct (placed_prefix da T k suf HI) as [j Hj]; [now rewrite HJ|].
  exists j. pose proof (Jump_spec da T k HI) as HJ2. now rewrite Hj in HJ2.
Qed.

Lemma Get_absent_Good (da : Cedar) (m : model) (k : list byte) :
  Good da m -> NUL ∉ k -> m k = Absent ->
  (Get da k = Ret (IInt 0, Some ErrNoPath) \/ Get da k = Ret (INil, Some ErrNoValue)) /\
  forall suf v, NUL ∉ (k ++ suf) -> m (k ++ suf) = Holds v ->
    Get da k = Ret (INil, Some ErrNoValue).
Proof.
  intros HG Hk Hab.
  assert (Hval : forall t, Jump da k 0 = Ret (t, None) ->
            Get da k = Ret (INil, Some ErrNoValue)).
  { intros t HJ.
    destruct (absent_Good da m k HG Hk Hab) as [(x & HJ')|(t' & HJ' & Hv)]; [congruence|].
    unfold Get. rewrite HJ'. cbn [bind].
    destruct Hv as [-> |[-> Hv]]; cbn [bind]; [reflexivity|now rewrite Hv]. }
  split.
  - destruct (absent_Good da m k HG Hk Hab) as [(x & HJ)|(t & HJ & _)].
    + left. unfold Get. rewrite HJ. reflexivity.
    + right. apply (Hval t HJ).
  - intros suf v Hnul Hh. destruct (held_Good da m _ v HG Hnul Hh) as (t & HJ).
    destruct (Jump_prefix_Good da m k suf t HG HJ) as (j & Hj). apply (Hval j Hj).
Qed.

Lemma Delete_absent_Good (fuel : nat) (da : Cedar) (m : model) (k : list byte) :
  Good da m -> NUL ∉ k -> m k = Absent ->
  (Delete fuel da k = Ret (da, Some ErrNoPath) \/
   Delete fuel da k = Ret (da, Some ErrNoValue)) /\
  forall suf v, NUL ∉ (k ++ suf) -> m (k ++ suf) = Holds v ->
    Delete fuel da k = Ret (da, Some ErrNoValue).
Proof.
  intros HG Hk Hab.
  assert (Hval : forall t, Jump da k 0 = Ret (t, None) ->
            Delete fuel da k = Ret (da, Some ErrNoValue)).
  { intros t HJ.
    destruct (absent_Good da m k HG Hk Hab) as [(x & HJ')|(t' & HJ' & Hv)]; [congruence|].
    unfold Delete. rewrite HJ'. cbn [bind].
    destruct Hv as [-> |[-> Hv]]; cbn [bind]; [reflexivity|now rewrite Hv]. }
  split.
  - destruct (absent_Good da m k HG Hk Hab) as [(x & HJ)|(t & HJ & _)].
    + left. unfold Delete. rewrite HJ. reflexivity.
    + right. apply (Hval t HJ).
  - intros suf v Hnul Hh. destruct (held_Good da m _ v HG Hnul Hh) as (t & HJ).
    destruct (Jump_prefix_Good da m k suf t HG HJ) as (j & Hj). apply (Hval j Hj).
Qed.

(** ** [Delete] moves no node *)

Lemma Delete_ids_Inv (fuel : nat) (da : Cedar) (T : placement) (key : list byte)
    (da' : Cedar) :
  Inv da T -> NUL ∉ key -> Delete fuel da key = Ret (da', None) ->
  forall k' id v, NUL ∉ k' -> k' <> key ->
    Jump da k' 0 = Ret (id, None) -> lookup_key da k' = Ret (Some v) ->
    Jump da' k' 0 = Ret (id, None) /\ lookup_key da' k' = Ret (Some v).
Proof.
  intros HI Hk Hd k' id v Hk' Hne HJ Hl.
  destruct (Delete_unfold fuel da T key HI)
    as [(_ & e0 & Hd')|[(v0 & _ & _ & Hd')|(v0 & nv & hk & h & Hs & Hv & Hhk & Hh & Hlv & Hd')]];
    try (rewrite Hd' in Hd; discriminate).
  rewrite Hd' in Hd. apply bind_Ret in Hd as (r & Hloop & Hd). injection Hd as <-.
  destruct (Delete_loop_post hk fuel da T h r HI Hh) as (T' & HI' & Hsub & Hleaf & _);
    [intros d; apply (leaf_no_child da T hk v0 d HI Hlv)|exact Hloop|].
  destruct (holder_other key hk k' Hhk Hk Hk' Hne) as [N1 N2].
  rewrite (lookup_key_stored da T k' HI) in Hl. injection Hl as Hst.
  assert (Hst' : stored r T' k' = Some v).
  { unfold stored in *. now rewrite (Hleaf k' N1), (Hleaf (k' ++ [NUL]) N2). }
  rewrite (lookup_key_stored r T' k' HI'), Hst'. split; [|reflexivity].
  destruct (stored_placed r T' k' v HI' Hst') as [y Hy].
  destruct (Hsub _ _ Hy) as [Hy0 _].
  rewrite (Jump_placed da T k' id HI HJ) in Hy0. injection Hy0 as ->.
  pose proof (Jump_spec r T' k' HI') as HJ'. now rewrite Hy in HJ'.
Qed.

(** ** Two calls of [Update] *)

Lemma holder_unique (da : Cedar) (T : placement) (k kk kk' : list byte) (v v' : Z) :
  Inv da T -> (kk = k \/ kk = k ++ [NUL]) -> (kk' = k \/ kk' = k ++ [NUL]) ->
  leafv da T kk = Some v -> leafv da T kk' = Some v' -> kk = kk'.
Proof.
  intros HI [->| ->] [->| ->] H1 H2; try reflexivity; exfalso.
  - apply leafv_Some_inv in H2 as (x & _ & Hx & _).
    rewrite (leaf_no_child da T k v NUL HI H1) in Hx. discriminate.
  - apply leafv_Some_inv in H1 as (x & _ & Hx & _).
    rewrite (leaf_no_child da T k v' NUL HI H2) in Hx. discriminate.
Qed.

Lemma Update_stored (da : Cedar) (T : placement) (k : list byte) (p d : Z) :
  Inv da T -> stored da T k = Some p -> 0 <= p + d < valueLimit ->
  exists kk id n,
    (kk = k \/ kk = k ++ [NUL]) /\ T kk = Some id /\ leafv da T kk = Some p /\
    at_ (array da) id = Some n /\
    Update da k d
    = Ret (set_array da (<[Z.to_nat id := mkNode (p + d) (Check n)]> (array da)), None) /\
    Inv (set_array da (<[Z.to_nat id := mkNode (p + d) (Check n)]> (array da))) T /\
    leafv (set_array da (<[Z.to_nat id := mkNode (p + d) (Check n)]> (array da))) T kk
    = Some (p + d).
Proof.
  intros HI Hs Hd.
  destruct (get_present k da T [] 0 p HI (inv_root _ _ HI) Hs)
    as (id & kk & Hget & Hkk & Hid & Hlv & _). cbn [app] in Hkk.
  destruct (setValue_leaf_post da T kk id p (p + d) HI Hid Hlv) as (da1 & Hset & HI1 & Hlv1 & _);
    [lia|].
  pose proof Hlv as Hlv0.
  apply leafv_Some_inv in Hlv as (x & n & Hx & Hn & Hvn & Hp0).
  rewrite Hid in Hx. injection Hx as <-.
  rewrite (setValue_Ret _ _ _ _ Hn) in Hset. injection Hset as <-.
  exists kk, id, n. split; [exact Hkk|]. split; [exact Hid|]. split; [exact Hlv0|].
  split; [exact Hn|]. split; [|split; [exact HI1|exact Hlv1]].
  unfold Update. rewrite Hget. cbn [bind]. unfold rd. rewrite Hn. cbn [bind]. rewrite Hvn.
  assert (Hw : wrap64 (p + d) = p + d).
  { apply wrap64_id. unfold valueLimit in Hd. lia. }
  rewrite Hw. destruct (Z.ltb_spec (p + d) 0); [lia|].
  destruct (Z.geb_spec (p + d) valueLimit); [lia|]. cbn [orb].
  rewrite (setValue_Ret _ _ _ _ Hn). reflexivity.
Qed.

Lemma Update_twice_Inv (da : Cedar) (T : placement) (k : list byte) (p d1 d2 : Z) :
  Inv da T -> stored da T k = Some p ->
  0 <= p + d1 < valueLimit -> 0 <= p + d1 + d2 < valueLimit ->
  exists da1 da2,
    Update da k d1 = Ret (da1, None) /\ Update da1 k d2 = Ret (da2, None) /\
    Update da k (d1 + d2) = Ret (da2, None).
Proof.
  intros HI Hs H1 H2.
  destruct (Update_stored da T k p d1 HI Hs H1)
    as (kk & id & n & Hkk & Hid & Hlv & Hn & Hu1 & HI1 & Hlv1).
  destruct (Update_stored da T k p (d1 + d2) HI Hs ltac:(lia))
    as (kk3 & id3 & n3 & Hkk3 & Hid3 & Hlv3 & Hn3 & Hu3 & _).
  assert (kk3 = kk) as -> by apply (holder_unique da T k kk3 kk _ _ HI Hkk3 Hkk Hlv3 Hlv).
  rewrite Hid in Hid3. injection Hid3 as <-. rewrite Hn in Hn3. injection Hn3 as <-.
  set (da1 := set_array da (<[Z.to_nat id := mkNode (p + d1) (Check n)]> (array da))) in *.
  destruct (Update_stored da1 T k (p + d1) d2 HI1 (stored_holder _ T k kk _ HI1 Hkk Hlv1) H2)
    as (kk2 & id2 & n2 & Hkk2 & Hid2 & Hlv2 & Hn2 & Hu2 & _).
  assert (kk2 = kk) as -> by apply (holder_unique da1 T k kk2 kk _ _ HI1 Hkk2 Hkk Hlv2 Hlv1).
  rewrite Hid in Hid2. injection Hid2 as <-.
  assert (Hn2' : n2 = mkNode (p + d1) (Check n)).
  { pose proof (at_Some_range _ _ _ Hn) as Hr. subst da1. cbn [array set_array] in Hn2.
    unfold at_ in Hn2. destruct (decide (0 <= id)); [|lia].
    rewrite list_lookup_insert_eq in Hn2 by lia. now injection Hn2. }
  exists da1, (set_array da (<[Z.to_nat id := mkNode (p + (d1 + d2)) (Check n)]> (array da))).
  split; [exact Hu1|]. split; [|exact Hu3].
  rewrite Hu2. do 2 f_equal. subst da1 n2. unfold set_array. cbn [array info vals vkey Check].
  rewrite list_insert_insert_eq. do 3 f_equal. lia.
Qed.

(** ** The wildcard engine: edges *)

(** [child] and [hasLabel] see the edge that one step of [Jump] takes. *)
Lemma child_Jump (da : Cedar) (id : Z) (b : byte) (to : Z) (e : option error) :
  Jump da [b] id = Ret (to, e) ->
  child da id b = Ret (match e with
                       | None => (to, None)
                       | Some _ => (-1, Some ErrNoPath)
                       end).
Proof.
  unfold Jump, child. cbn [Jump_loop]. unfold rd.
  destruct (at_ (array da) id) as [n|] eqn:Hn; [|discriminate]. cbn [bind].
  destruct (Z.geb_spec (Value n) 0) as [Hv|Hv].
  - intros [= <- <-].
    rewrite at_neg; [reflexivity|].
    pose proof (ord_range b) as Hb. pose proof (Z.lxor_nonneg (base n) (ord b)) as Hx.
    unfold base in *. lia.
  - destruct (at_ (array da) (Z.lxor (base n) (ord b))) as [nt|]; [|discriminate].
    cbn [bind]. destruct (Check nt =? id); cbn [negb]; now intros [= <- <-].
Qed.

Lemma hasLabel_Jump (da : Cedar) (id : Z) (b : byte) (to : Z) (e : option error) :
  Jump da [b] id = Ret (to, e) ->
  hasLabel da id b = Ret (bool_decide (e = None)).
Proof.
  intros H. unfold hasLabel. rewrite (child_Jump da id b to e H).
  destruct e; reflexivity.
Qed.

(** ** The frontier stack *)

(** The first frame of a call goes into the empty pooled slice. *)
Lemma getsnidpos_first (extra : Z -> nat) (grown : nat) (f : frame) :
  getsnidpos extra (30 + Z.of_nat grown) [] f = Ret (30 + Z.of_nat grown, [f]).
Proof.
  unfold getsnidpos. cbn [length].
  destruct (Z.eqb_spec (Z.of_nat 0) (30 + Z.of_nat grown)); [lia|reflexivity].
Qed.

(** With a capacity [getsnidpos] returns, and the capacity stays
    positive. *)
Lemma getsnidpos_Ret (extra : Z -> nat) (cap : Z) (ss : list frame) (f : frame) :
  0 < cap ->
  exists cap' ss', getsnidpos extra cap ss f = Ret (cap', ss') /\ 0 < cap'.
Proof.
  intros Hcap. unfold getsnidpos.
  destruct (Z.eqb_spec (Z.of_nat (length ss)) cap) as [E|N].
  - destruct ss as [|x ss]; [cbn [length] in E; lia|].
    eexists _, _. split; [reflexivity|lia].
  - eexists _, _. split; [reflexivity|exact Hcap].
Qed.

(** ** The wildcard engine on the empty key *)

Lemma FindOne_nil (extra : Z -> nat) (grown fuel : nat) (da : Cedar) :
  FindOne extra grown (S (S fuel)) da [] = Ret (INil, Some ErrNoPath).
Proof. unfold FindOne. rewrite getsnidpos_first. reflexivity. Qed.

Lemma FindAll_nil (extra : Z -> nat) (grown fuel : nat) (da : Cedar) :
  FindAll extra grown (S (S fuel)) da [] = Ret [].
Proof. unfold FindAll. rewrite getsnidpos_first. reflexivity. Qed.

(** ** The wildcard engine when the root has a terminal ['*'] child *)

Lemma FindOne_loop_root_star (extra : Z -> nat) (fuel : nat) (da : Cedar)
    (key : list byte) (t cap : Z) :
  key <> [] -> Jump da [STAR] 0 = Ret (t, None) -> isEnd da t = Ret true ->
  FindOne_loop extra (S fuel) da key (Z.of_nat (length key) - 1) cap [(0, 0)] ∅
  = Ret (Some t).
Proof.
  intros Hne HJ HE. cbn [FindOne_loop last Z.eqb pop length Nat.sub take FindOne_inner].
  destruct (Z.leb_spec 0 (Z.of_nat (length key) - 1)) as [_|Hl];
    [|destruct key; [congruence|cbn [length] in Hl; lia]].
  cbn [negb]. rewrite bool_decide_eq_false_2 by apply not_elem_of_empty.
  rewrite (hasLabel_Jump da 0 STAR t None HJ), (child_Jump da 0 STAR t None HJ).
  cbn [bind]. rewrite HE. reflexivity.
Qed.

Lemma FindOne_root_star (extra : Z -> nat) (grown fuel : nat) (da : Cedar)
    (key : list byte) (t : Z) :
  key <> [] -> Jump da [STAR] 0 = Ret (t, None) -> isEnd da t = Ret true ->
  FindOne extra grown (S fuel) da key = Get da [STAR].
Proof.
  intros Hne HJ HE. unfold FindOne, Get. rewrite getsnidpos_first. cbn [bind].
  rewrite (FindOne_loop_root_star extra fuel da key t _ Hne HJ HE), HJ. cbn [bind].
  destruct (vKeyOf da t) as [[vk [e|]]| |]; reflexivity.
Qed.

Lemma FindAll_root_star (extra : Z -> nat) (grown fuel : nat) (da : Cedar)
    (key : list byte) (t : Z) :
  key <> [] -> Jump da [STAR] 0 = Ret (t, None) -> isEnd da t = Ret true ->
  FindAll extra grown (S (S fuel)) da key
  = ('(_, cb) <- report (S (S fuel)) da t []; Ret cb).
Proof.
  intros Hne HJ HE. unfold FindAll. rewrite getsnidpos_first. cbn [bind].
  cbn [FindAll_loop last Z.eqb pop length Nat.sub take]. cbn [FindAll_inner].
  destruct (Z.leb_spec 0 (Z.of_nat (length key) - 1)) as [_|Hl];
    [|destruct key; [congruence|cbn [length] in Hl; lia]].
  cbn [negb]. rewrite bool_decide_eq_false_2 by apply not_elem_of_empty.
  rewrite (hasLabel_Jump da 0 STAR t None HJ), (child_Jump da 0 STAR t None HJ).
  cbn [bind]. rewrite HE. cbn [bind].
  destruct (report (S (S fuel)) da t []) as [[b cb]| |]; reflexivity.
Qed.

(** ** The wildcard engine on a trie without ['*'] edges *)

Lemma Jump_loop_cons (da : Cedar) (b : byte) (rest : list byte) (from t0 : Z) :
  Jump_loop da (b :: rest) from t0
  = ('(to, e) <- Jump da [b] from;
     match e with
     | Some er => Ret (to, Some er)
     | None => Jump_loop da rest to to
     end).
Proof.
  unfold Jump. cbn [Jump_loop].
  destruct (rd (array da) from) as [nf| |]; cbn [bind]; try reflexivity.
  destruct (Value nf >=? 0); [reflexivity|].
  destruct (rd (array da) (Z.lxor (base nf) (ord b))) as [nt| |]; cbn [bind]; try reflexivity.
  destruct (negb (Check nt =? from)); reflexivity.
Qed.

Lemma Jump_step_range (da : Cedar) (b : byte) (from to : Z) :
  Jump da [b] from = Ret (to, None) -> 0 <= to < Z.of_nat (length (array da)).
Proof.
  unfold Jump. cbn [Jump_loop]. unfold rd.
  destruct (at_ (array da) from) as [nf|]; [|discriminate]. cbn [bind].
  destruct (Value nf >=? 0); [discriminate|].
  destruct (at_ (array da) (Z.lxor (base nf) (ord b))) as [nt|] eqn:Hnt; [|discriminate].
  cbn [bind]. destruct (negb (Check nt =? from)); [discriminate|].
  intros [= <-]. eapply at_Some_range, Hnt.
Qed.

Lemma rd_app_middle {A} (pre rest : list A) (b : A) :
  rd (pre ++ b :: rest) (Z.of_nat (length pre)) = Ret b.
Proof.
  unfold rd, at_. destruct (decide (0 <= Z.of_nat (length pre))); [|lia].
  rewrite Nat2Z.id, list_lookup_middle; reflexivity.
Qed.

Lemma Key_mono (da : Cedar) (fuel fuel' : nat) (id : Z) (r : list byte * option error) :
  Key fuel da id = Ret r -> (fuel <= fuel')%nat -> Key fuel' da id = Ret r.
Proof.
  unfold Key. intros H Hle. apply bind_Ret in H as (x & Hx & H).
  now rewrite (Key_loop_mono da fuel fuel' id [] x Hx Hle).
Qed.

Section NoStar.
Context (da : Cedar) (extra : Z -> nat).
Context (Hns : forall id, 0 <= id < Z.of_nat (length (array da)) ->
                 exists x, Jump da [STAR] id = Ret (x, Some ErrNoPath)).

Lemma nostar_hasLabel (id : Z) :
  0 <= id < Z.of_nat (length (array da)) -> hasLabel da id STAR = Ret false.
Proof.
  intros Hid. destruct (Hns id Hid) as (x & HJ).
  now rewrite (hasLabel_Jump da id STAR x _ HJ).
Qed.

Lemma FindOne_inner_nostar (key : list byte) (cap : Z) :
  forall rest pre nid fuel t e t0,
    key = pre ++ rest -> rest <> [] ->
    0 <= nid < Z.of_nat (length (array da)) -> (length rest <= fuel)%nat ->
    Jump_loop da rest nid t0 = Ret (t, e) ->
    FindOne_inner extra fuel da key (Z.of_nat (length key) - 1) None nid
      (Z.of_nat (length pre)) cap [] ∅
    = match e with
      | None => en <- isEnd da t;
                Ret (if (en : bool) then Found t else Again cap [] ∅)
      | Some _ => Ret (Again cap [] ∅)
      end.
Proof.
  induction rest as [|b rest IH]; intros pre nid fuel t e t0 Hkey Hne Hnid Hfuel HJ;
    [congruence|].
  destruct fuel as [|fuel]; [cbn in Hfuel; lia|]. cbn [FindOne_inner].
  assert (Hlen : Z.of_nat (length key) = Z.of_nat (length pre) + 1 + Z.of_nat (length rest)).
  { rewrite Hkey, length_app. cbn [length]. lia. }
  destruct (Z.leb_spec (Z.of_nat (length pre)) (Z.of_nat (length key) - 1)); [|lia].
  cbn [negb]. rewrite bool_decide_eq_false_2 by apply not_elem_of_empty.
  rewrite (nostar_hasLabel nid Hnid). cbn [bind].
  rewrite Hkey at 1. rewrite rd_app_middle. cbn [bind].
  rewrite Jump_loop_cons in HJ.
  destruct (Jump da [b] nid) as [[to e1]| |] eqn:Hstep; cbn [bind] in HJ; try discriminate.
  destruct (byte_eqb_spec b STAR) as [->|Hb].
  { cbn [bind advance]. destruct (Hns nid Hnid) as (x & Hx). rewrite Hx in Hstep.
    injection Hstep as <- <-. injection HJ as <- <-. reflexivity. }
  rewrite (hasLabel_Jump da nid b to e1 Hstep). cbn [bind].
  destruct e1 as [er|].
  { injection HJ as <- <-. reflexivity. }
  rewrite bool_decide_eq_true_2 by reflexivity. rewrite (child_Jump da nid b to None Hstep).
  cbn [bind]. pose proof (Jump_step_range da b nid to Hstep) as Hto.
  destruct rest as [|c rest].
  - cbn [Jump_loop] in HJ. injection HJ as <- <-.
    cbn [length] in Hlen. destruct (Z.eqb_spec (Z.of_nat (length pre)) (Z.of_nat (length key) - 1));
      [|lia].
    destruct (isEnd da to) as [[|]| |]; cbn [bind]; try reflexivity.
    destruct fuel as [|fuel]; cbn [FindOne_chase]; now rewrite (nostar_hasLabel to Hto).
  - cbn [length] in Hlen.
    destruct (Z.eqb_spec (Z.of_nat (length pre)) (Z.of_nat (length key) - 1)); [lia|].
    replace (Z.of_nat (length pre) + 1) with (Z.of_nat (length (pre ++ [b])))
      by (rewrite length_app; cbn [length]; lia).
    apply (IH (pre ++ [b]) to fuel t e to); [now rewrite <- app_assoc|discriminate|exact Hto| |exact HJ].
    cbn [length] in Hfuel |- *. lia.
Qed.

Lemma FindOne_nostar (grown fuel : nat) (key : list byte) (t : Z)
    (e : option error) :
  key <> [] -> (length key < fuel)%nat -> Jump da key 0 = Ret (t, e) ->
  FindOne extra grown fuel da key
  = match e with
    | None => en <- isEnd da t;
              if (en : bool) then Get da key else Ret (INil, Some ErrNoPath)
    | Some _ => Ret (INil, Some ErrNoPath)
    end.
Proof.
  intros Hne Hfuel HJ.
  assert (H0 : 0 <= 0 < Z.of_nat (length (array da))).
  { destruct key as [|b key]; [congruence|]. unfold Jump in HJ. cbn [Jump_loop] in HJ.
    unfold rd at 1 in HJ. destruct (at_ (array da) 0) as [n|] eqn:Hn; [|discriminate].
    eapply at_Some_range, Hn. }
  destruct fuel as [|[|fuel]]; [lia|destruct key; [congruence|cbn in Hfuel; lia]|].
  unfold FindOne. rewrite getsnidpos_first. cbn [bind].
  cbn [FindOne_loop last Z.eqb pop length Nat.sub take].
  pose proof (FindOne_inner_nostar key (30 + Z.of_nat grown) key [] 0 (S (S fuel)) t e 0
                eq_refl Hne H0
                ltac:(lia) HJ) as Hin.
  change (Z.of_nat (length (@nil byte))) with 0 in Hin. rewrite Hin.
  destruct e as [er|]; [reflexivity|].
  destruct (isEnd da t) as [[|]| |]; cbn [bind]; try reflexivity.
  unfold Get. rewrite HJ. cbn [bind].
  destruct (vKeyOf da t) as [[vk [e|]]| |]; reflexivity.
Qed.

Lemma FindAll_chase_nostar (fuel : nat) (id : Z) (cb : calls) :
  0 <= id < Z.of_nat (length (array da)) -> FindAll_chase (S fuel) da id cb = Ret cb.
Proof. intros Hid. cbn [FindAll_chase]. now rewrite (nostar_hasLabel id Hid). Qed.

Lemma FindAll_inner_nostar (key : list byte) (cap : Z) (cb : calls) :
  forall rest pre nid fuel t e t0,
    key = pre ++ rest -> rest <> [] ->
    0 <= nid < Z.of_nat (length (array da)) -> (length rest < fuel)%nat ->
    Jump_loop da rest nid t0 = Ret (t, e) ->
    FindAll_inner extra fuel da key (Z.of_nat (length key) - 1) None nid
      (Z.of_nat (length pre)) cap [] ∅ cb
    = match e with
      | None =>
        en <- isEnd da t;
        if (en : bool) then
          '(_, cb) <- report (fuel - (length rest - 1)) da t cb;
          Ret (cap, [], ∅, cb)
        else Ret (cap, [], ∅, cb)
      | Some _ => Ret (cap, [], ∅, cb)
      end.
Proof.
  induction rest as [|b rest IH]; intros pre nid fuel t e t0 Hkey Hne Hnid Hfuel HJ;
    [congruence|].
  destruct fuel as [|fuel]; [cbn in Hfuel; lia|]. cbn [FindAll_inner].
  assert (Hlen : Z.of_nat (length key) = Z.of_nat (length pre) + 1 + Z.of_nat (length rest)).
  { rewrite Hkey, length_app. cbn [length]. lia. }
  destruct (Z.leb_spec (Z.of_nat (length pre)) (Z.of_nat (length key) - 1)); [|lia].
  cbn [negb]. rewrite bool_decide_eq_false_2 by apply not_elem_of_empty.
  rewrite (nostar_hasLabel nid Hnid). cbn [bind].
  rewrite Hkey at 1. rewrite rd_app_middle. cbn [bind].
  rewrite Jump_loop_cons in HJ.
  destruct (Jump da [b] nid) as [[to e1]| |] eqn:Hstep; cbn [bind] in HJ; try discriminate.
  destruct (byte_eqb_spec b STAR) as [->|Hb].
  { cbn [bind advance]. destruct (Hns nid Hnid) as (x & Hx). rewrite Hx in Hstep.
    injection Hstep as <- <-. injection HJ as <- <-. reflexivity. }
  rewrite (hasLabel_Jump da nid b to e1 Hstep). cbn [bind].
  destruct e1 as [er|].
  { injection HJ as <- <-. reflexivity. }
  rewrite bool_decide_eq_true_2 by reflexivity. rewrite (child_Jump da nid b to None Hstep).
  cbn [bind]. pose proof (Jump_step_range da b nid to Hstep) as Hto.
  destruct rest as [|c rest].
  - cbn [Jump_loop] in HJ. injection HJ as <- <-.
    cbn [length] in Hlen, Hfuel.
    destruct (Z.eqb_spec (Z.of_nat (length pre)) (Z.of_nat (length key) - 1)); [|lia].
    rewrite (FindAll_chase_nostar fuel to cb Hto). cbn [bind length Nat.sub].
    destruct (isEnd da to) as [[|]| |]; cbn [bind]; try reflexivity.
    destruct fuel as [|fuel]; [lia|]. cbn [FindAll_inner advance].
    destruct (Z.leb_spec (Z.of_nat (length pre) + 1) (Z.of_nat (length key) - 1)); [lia|].
    reflexivity.
  - cbn [length] in Hlen.
    destruct (Z.eqb_spec (Z.of_nat (length pre)) (Z.of_nat (length key) - 1)); [lia|].
    replace (Z.of_nat (length pre) + 1) with (Z.of_nat (length (pre ++ [b])))
      by (rewrite length_app; cbn [length]; lia).
    rewrite (IH (pre ++ [b]) to fuel t e to); [|now rewrite <- app_assoc|discriminate|exact Hto| |exact HJ].
    + replace (S fuel - (length (b :: c :: rest) - 1))%nat
        with (fuel - (length (c :: rest) - 1))%nat by (cbn [length]; lia).
      reflexivity.
    + cbn [length] in Hfuel |- *. lia.
Qed.

Lemma FindAll_nostar (grown fuel f0 : nat) (key : list byte) (t : Z)
    (e : option error) :
  key <> [] -> (f0 + length key <= fuel)%nat -> (0 < f0)%nat ->
  Jump da key 0 = Ret (t, e) ->
  (e <> None -> FindAll extra grown fuel da key = Ret []) /\
  (e = None -> isEnd da t = Ret false -> FindAll extra grown fuel da key = Ret []) /\
  (e = None -> isEnd da t = Ret true ->
   forall x er, Get da key = Ret (x, Some er) ->
     FindAll extra grown fuel da key = Ret []) /\
  (e = None -> isEnd da t = Ret true ->
   forall v rule ke, Get da key = Ret (v, None) -> Key f0 da t = Ret (rule, ke) ->
     FindAll extra grown fuel da key = Ret [(v, rule)]).
Proof.
  intros Hne Hfuel Hf0 HJ.
  assert (H0 : 0 <= 0 < Z.of_nat (length (array da))).
  { destruct key as [|b key]; [congruence|]. unfold Jump in HJ. cbn [Jump_loop] in HJ.
    unfold rd at 1 in HJ. destruct (at_ (array da) 0) as [n|] eqn:Hn; [|discriminate].
    eapply at_Some_range, Hn. }
  assert (Hk : (0 < length key)%nat) by (destruct key; [congruence|cbn; lia]).
  destruct fuel as [|[|fuel]]; [lia|lia|].
  assert (HF : FindAll extra grown (S (S fuel)) da key
    = ('(cap, ss, m, cb) <-
         match e with
         | None =>
           en <- isEnd da t;
           if (en : bool) then
             '(_, cb) <- report (S (S fuel) - (length key - 1)) da t [];
             Ret (30 + Z.of_nat grown, [], ∅, cb)
           else Ret (30 + Z.of_nat grown, [], ∅, [])
         | Some _ => Ret (30 + Z.of_nat grown, [], ∅, [])
         end;
       FindAll_loop extra (S fuel) da key (Z.of_nat (length key) - 1) cap ss m cb)).
  { unfold FindAll. rewrite getsnidpos_first. cbn [bind].
    cbn [FindAll_loop last Z.eqb pop length Nat.sub take].
    pose proof (FindAll_inner_nostar key (30 + Z.of_nat grown) [] key [] 0 (S (S fuel))
                  t e 0 eq_refl Hne H0
                  ltac:(lia) HJ) as Hin.
    change (Z.of_nat (length (@nil byte))) with 0 in Hin. now rewrite Hin. }
  rewrite HF. clear HF.
  split; [|split; [|split]].
  - intros He. destruct e; [reflexivity|congruence].
  - intros -> HE. rewrite HE. reflexivity.
  - intros -> HE x er HG. rewrite HE. cbn [bind]. unfold report.
    unfold Get in HG. rewrite HJ in HG. cbn [bind] in HG.
    destruct (vKeyOf da t) as [[vk [e|]]| |]; cbn [bind] in *; try discriminate;
      [reflexivity|].
    destruct (vals da !! vk); [discriminate|reflexivity].
  - intros -> HE v rule ke HG HK. rewrite HE. cbn [bind]. unfold report.
    unfold Get in HG. rewrite HJ in HG. cbn [bind] in HG.
    destruct (vKeyOf da t) as [[vk [e|]]| |]; cbn [bind] in *; try discriminate.
    destruct (vals da !! vk) as [nv|]; [|discriminate]. injection HG as <-.
    rewrite (Key_mono da f0 _ t _ HK) by lia. reflexivity.
Qed.
End NoStar.

(** ** A test for the absence of ['*'] edges *)

Lemma no_star_check (da : Cedar) :
  forallb (fun id => match Jump da [STAR] id with
                     | Ret (_, Some ErrNoPath) => true
                     | _ => false
                     end)
          (seqZ 0 (Z.of_nat (length (array da)))) = true ->
  forall id, 0 <= id < Z.of_nat (length (array da)) ->
    exists x, Jump da [STAR] id = Ret (x, Some ErrNoPath).
Proof.
  intros H id Hid. rewrite forallb_forall in H.
  specialize (H id). rewrite <- list_elem_of_In, elem_of_seqZ in H.
  specialize (H ltac:(lia)).
  destruct (Jump da [STAR] id) as [[x [[]|]]| |]; try discriminate. now exists x.
Qed.

(** ** The counts of [Status] *)

Lemma Status_loop_bounds (a : list node) (ids : list Z) :
  forall keys nodes,
    Forall (fun i => 0 <= i < Z.of_nat (length a)) ids ->
    0 <= keys <= nodes -> nodes + Z.of_nat (length ids) < 2 ^ 63 ->
    exists k n,
      Status_loop a ids keys nodes = Ret (k, n) /\
      keys <= k /\ k - keys <= n - nodes /\ n - nodes <= Z.of_nat (length ids).
Proof.
  induction ids as [|i ids IH]; intros keys nodes Hr Hkn Hlen.
  - exists keys, nodes. cbn. split; [reflexivity|lia].
  - apply Forall_cons in Hr as [Hi Hr]. cbn [length] in Hlen. cbn [Status_loop].
    destruct (at_is_Some a i) as [_ [n Hn]]; [exact Hi|].
    unfold rd. rewrite Hn. cbn [bind].
    destruct (Check n >=? 0).
    + rewrite (wrap64_id (nodes + 1)) by lia.
      destruct (Value n >=? 0).
      * rewrite (wrap64_id (keys + 1)) by lia.
        destruct (IH (keys + 1) (nodes + 1) Hr) as (k & m & -> & H1 & H2 & H3); [lia|lia|].
        exists k, m. split; [reflexivity|]. cbn [length]. lia.
      * destruct (IH keys (nodes + 1) Hr) as (k & m & -> & H1 & H2 & H3); [lia|lia|].
        exists k, m. split; [reflexivity|]. cbn [length]. lia.
    + destruct (IH keys nodes Hr) as (k & m & -> & H1 & H2 & H3); [lia|lia|].
      exists k, m. split; [reflexivity|]. cbn [length]. lia.
Qed.

(** ** [Insert] of a key that has a value *)

(** [Jump] does not tell two arrays apart that differ in the value of one
    leaf. *)
Lemma Jump_loop_leaf (a : list node) (i v v' c : Z) (da da' : Cedar) :
  array da = a -> array da' = <[Z.to_nat i := mkNode v' c]> a ->
  at_ a i = Some (mkNode v c) -> 0 <= v -> 0 <= v' ->
  forall path from t0, Jump_loop da' path from t0 = Jump_loop da path from t0.
Proof.
  intros Ha Ha' Hi Hv Hv'.
  assert (Hat : forall j, at_ (array da') j
                          = if decide (j = i) then Some (mkNode v' c) else at_ (array da) j).
  { intros j. rewrite Ha, Ha'. pose proof (at_Some_range _ _ _ Hi) as Hr.
    unfold at_. destruct (decide (j = i)) as [->|N].
    - destruct (decide (0 <= i)); [|lia]. apply list_lookup_insert_eq. lia.
    - destruct (decide (0 <= j)); [|reflexivity]. apply list_lookup_insert_ne. lia. }
  induction path as [|b path IH]; intros from t0; [reflexivity|].
  cbn [Jump_loop]. unfold rd. rewrite (Hat from).
  destruct (decide (from = i)) as [->|N].
  { rewrite Ha, Hi. cbn [bind Value].
    destruct (Z.geb_spec v' 0), (Z.geb_spec v 0); try lia. reflexivity. }
  destruct (at_ (array da) from) as [nf|]; [|reflexivity]. cbn [bind].
  destruct (Value nf >=? 0); [reflexivity|].
  rewrite (Hat (Z.lxor (base nf) (ord b))).
  destruct (decide (Z.lxor (base nf) (ord b) = i)) as [E|N'].
  - rewrite E, Ha, Hi. cbn [bind Check]. destruct (negb (c =? from)); [reflexivity|].
    rewrite <- E. apply IH.
  - destruct (at_ (array da) (Z.lxor (base nf) (ord b))) as [nt|]; [|reflexivity].
    cbn [bind]. destruct (negb (Check nt =? from)); [reflexivity|]. apply IH.
Qed.

Lemma Insert_present (da : Cedar) (T : placement) (k : list byte) (p : Z) (v : iface) :
  Inv da T -> stored da T k = Some p -> 0 <= vkey da ->
  exists da',
    Insert da k v = Ret (da', None) /\
    forall path from, Jump da' path from = Jump da path from.
Proof.
  intros HI Hs Hvk. unfold Insert, vKey.
  set (da0 := set_vkey da (wrap64 (vkey da + 1))).
  assert (HI0 : Inv da0 T) by (apply (Inv_ext da da0 T); [reflexivity|reflexivity|exact HI]).
  assert (Hs0 : stored da0 T k = Some p) by (rewrite (stored_ext da da0 T k); [exact Hs|reflexivity]).
  destruct (get_present k da0 T [] 0 p HI0 (inv_root _ _ HI0) Hs0)
    as (id & kk & Hget & _ & Hid & Hlv & _).
  rewrite Hget. cbn [bind].
  apply leafv_Some_inv in Hlv as (x & n & Hx & Hn & Hvn & Hp0).
  rewrite Hid in Hx. injection Hx as <-.
  rewrite (setValue_Ret _ _ _ _ Hn). cbn [bind].
  destruct (inv_info_Some da0 T HI0 id n Hn) as (inf & Hinf).
  rewrite (setEnd_Ret _ _ _ inf) by exact Hinf. cbn [bind].
  eexists. split; [reflexivity|].
  intros path from. unfold Jump.
  apply (Jump_loop_leaf (array da) id p (vkey da) (Check n)); try reflexivity; try lia.
  destruct n as [vn cn]. cbn in Hvn. subst vn. exact Hn.
Qed.

(** ** The wildcard engine on a pattern that ends in ['*'] *)

Section PrefixStar.
Context (da : Cedar) (T : placement) (HI : Inv da T) (extra : Z -> nat).
Context (p : list byte) (t s : Z).
Context (Hp : STAR ∉ p) (Ht : T p = Some t).
Context (Hs : Jump da [STAR] t = Ret (s, None)) (HE : isEnd da s = Ret true).
Context (Hq : forall q u s', q `prefix_of` p -> q <> p -> T q = Some u ->
                Jump da [STAR] u = Ret (s', None) -> isEnd da s' = Ret false).

Lemma FindOne_inner_prefix_star (key : list byte) (sp : option nat) :
  (length p < length key)%nat -> p `prefix_of` key ->
  forall rest pre nid fuel cap ss m,
    p = pre ++ rest -> T pre = Some nid ->
    (forall u, u ∈ m -> exists q, T q = Some u /\ (length q < length pre)%nat) ->
    (length rest < fuel)%nat -> 0 < cap ->
    FindOne_inner extra fuel da key (Z.of_nat (length key) - 1) sp nid
      (Z.of_nat (length pre)) cap ss m
    = Ret (Found s).
Proof.
  intros Hlen [rest0 Hkey].
  induction rest as [|b rest IH]; intros pre nid fuel cap ss m Hpre Hnid Hm Hfuel Hcap;
    (destruct fuel as [|fuel]; [cbn in Hfuel; lia|]); cbn [FindOne_inner].
  - rewrite app_nil_r in Hpre. subst pre. rewrite Ht in Hnid. injection Hnid as <-.
    destruct (Z.leb_spec (Z.of_nat (length p)) (Z.of_nat (length key) - 1)); [|lia].
    cbn [negb]. rewrite bool_decide_eq_false_2.
    2:{ intros Hin. destruct (Hm t Hin) as (q & Hq' & Hl).
        pose proof (inv_inj _ _ HI _ _ _ Hq' Ht). subst q. lia. }
    rewrite (hasLabel_Jump da t STAR s None Hs), (child_Jump da t STAR s None Hs).
    cbn [bind]. rewrite HE. reflexivity.
  - assert (Hlp : length p = (length pre + S (length rest))%nat).
    { rewrite Hpre, length_app. reflexivity. }
    destruct (Z.leb_spec (Z.of_nat (length pre)) (Z.of_nat (length key) - 1)); [|lia].
    cbn [negb].
    assert (Hb : b <> STAR).
    { intros ->. apply Hp. rewrite Hpre. apply elem_of_app. right. now left. }
    assert (Hnext : exists to, T (pre ++ [b]) = Some to).
    { apply (placed_prefix da T (pre ++ [b]) rest HI). rewrite <- app_assoc. cbn [app].
      rewrite <- Hpre, Ht. eauto. }
    destruct Hnext as (to & Hto).
    pose proof (Jump_edge da T pre b nid HI Hnid) as Hstep. rewrite Hto in Hstep.
    assert (Hrd : rd key (Z.of_nat (length pre)) = Ret b).
    { rewrite Hkey, Hpre, <- app_assoc. cbn [app]. apply rd_app_middle. }
    assert (Hm' : forall u, u ∈ m -> exists q, T q = Some u /\
                    (length q < length (pre ++ [b]))%nat).
    { intros u Hu. destruct (Hm u Hu) as (q & Hq1 & Hq2). exists q. split; [exact Hq1|].
      rewrite length_app. cbn [length]. lia. }
    assert (Htail : forall cap' ss' m',
      0 < cap' ->
      (forall u, u ∈ m' -> exists q, T q = Some u /\
         (length q < length (pre ++ [b]))%nat) ->
      (b0 <- rd key (Z.of_nat (length pre));
       hb <- (if byte_eqb b0 STAR then Ret false else hasLabel da nid b0);
       if (hb : bool) then
         '(nid', _) <- child da nid b0;
         if Z.of_nat (length pre) =? Z.of_nat (length key) - 1 then
           en <- isEnd da nid';
           if (en : bool) then Ret (Found nid')
           else
             let ss0 := match sp with Some _ => pop ss' | None => ss' end in
             r <- FindOne_chase (S fuel) da nid';
             match r with
             | Some t0 => Ret (Found t0)
             | None => Ret (Again cap' ss0 m')
             end
         else FindOne_inner extra fuel da key (Z.of_nat (length key) - 1) sp nid'
                (Z.of_nat (length pre) + 1) cap' ss' m'
       else Ret (Again cap' (advance ss' sp (Z.of_nat (length key) - 1)) m'))
      = Ret (Found s)).
    { intros cap' ss' m' Hcap' Hm2. rewrite Hrd. cbn [bind].
      destruct (byte_eqb_spec b STAR) as [|_]; [contradiction|].
      rewrite (hasLabel_Jump da nid b to None Hstep), (child_Jump da nid b to None Hstep).
      cbn [bind]. rewrite bool_decide_eq_true_2 by reflexivity.
      destruct (Z.eqb_spec (Z.of_nat (length pre)) (Z.of_nat (length key) - 1)); [lia|].
      replace (Z.of_nat (length pre) + 1) with (Z.of_nat (length (pre ++ [b])))
        by (rewrite length_app; cbn [length]; lia).
      apply (IH (pre ++ [b]) to fuel cap' ss' m');
        [now rewrite <- app_assoc|exact Hto|exact Hm2| |exact Hcap'].
      cbn [length] in Hfuel. lia. }
    destruct (bool_decide (nid ∈ m)); [cbn [bind]; apply (Htail cap ss m Hcap Hm')|].
    pose proof (Jump_edge da T pre STAR nid HI Hnid) as Hst.
    destruct (T (pre ++ [STAR])) as [s'|] eqn:Hs'.
    + rewrite (hasLabel_Jump da nid STAR s' None Hst), (child_Jump da nid STAR s' None Hst).
      cbn [bind]. rewrite bool_decide_eq_true_2 by reflexivity.
      rewrite (Hq pre nid s'); [|now exists (b :: rest)| |exact Hnid|exact Hst].
      2:{ intros E. rewrite E in Hlp. lia. }
      cbn [bind].
      assert (Hm2 : forall u, u ∈ {[nid]} ∪ m -> exists q, T q = Some u /\
                      (length q < length (pre ++ [b]))%nat).
      { intros u [Hu|Hu]%elem_of_union; [|now apply Hm'].
        apply elem_of_singleton in Hu. subst u. exists pre. split; [exact Hnid|].
        rewrite length_app. cbn [length]. lia. }
      destruct (Z.of_nat (length pre) <? Z.of_nat (length key) - 1).
      * destruct (getsnidpos_Ret extra cap ss (s', Z.of_nat (length pre) + 1) Hcap)
          as (cap' & ss' & -> & Hcap').
        cbn [bind]. apply (Htail cap' ss' _ Hcap' Hm2).
      * cbn [bind]. apply (Htail cap ss _ Hcap Hm2).
    + destruct Hst as (x & Hst). rewrite (hasLabel_Jump da nid STAR x _ Hst).
      cbn [bind]. apply (Htail cap ss m Hcap Hm').
Qed.

Lemma FindOne_prefix_star (grown fuel : nat) (rest : list byte) :
  rest <> [] -> (length p + 1 < fuel)%nat ->
  FindOne extra grown fuel da (p ++ rest) = Get da (p ++ [STAR]).
Proof.
  intros Hne Hfuel.
  assert (Hlen : (length p < length (p ++ rest))%nat).
  { rewrite length_app. destruct rest; [congruence|cbn [length]; lia]. }
  destruct fuel as [|fuel]; [lia|].
  unfold FindOne. rewrite getsnidpos_first. cbn [bind].
  cbn [FindOne_loop last Z.eqb pop length Nat.sub take].
  pose proof (FindOne_inner_prefix_star (p ++ rest) None Hlen ltac:(now exists rest)
                p [] 0 (S fuel) (30 + Z.of_nat grown) [] ∅ eq_refl (inv_root _ _ HI)) as Hin.
  change (Z.of_nat (length (@nil byte))) with 0 in Hin.
  rewrite Hin; [|intros u Hu; now apply not_elem_of_empty in Hu|lia|lia].
  cbn [bind]. unfold Get.
  assert (HJ : Jump da (p ++ [STAR]) 0 = Ret (s, None)).
  { pose proof (Jump_edge da T p STAR t HI Ht) as Hst.
    destruct (T (p ++ [STAR])) as [s'|] eqn:Hs'.
    - pose proof (Jump_spec da T (p ++ [STAR]) HI) as HJ. rewrite Hs' in HJ. congruence.
    - destruct Hst as (x & Hst). congruence. }
  rewrite HJ. cbn [bind].
  destruct (vKeyOf da s) as [[vk [e|]]| |]; reflexivity.
Qed.
End PrefixStar.

(** ** Slots holding a key, and the keys a history holds *)


(** ** Nodes that were created and not written *)

Lemma NoSent_leaves (da : Cedar) (T : placement) :
  Inv da T ->
  (NoSent da <-> forall ks v, leafv da T ks = Some v -> v <> valueLimit).
Proof.
  intros HI. split.
  - intros HN ks v Hv. apply leafv_Some_inv in Hv as (x & n & Hx & Hn & <- & Hv0).
    destruct (inv_placed _ _ HI _ _ Hx) as (n' & Hn' & [[-> ->]|(_ & _ & Hc)]).
    + destruct (inv_root_node _ _ HI) as (n0 & Hn0 & Hv & _).
      rewrite Hn in Hn0. injection Hn0 as <-. lia.
    + rewrite Hn in Hn'. injection Hn' as <-. apply (HN x n Hn Hc).
  - intros HL i n Hn Hc E.
    destruct (inv_occ _ _ HI _ _ Hn Hc) as (ks & Hks).
    apply (HL ks valueLimit); [|reflexivity].
    rewrite (leafv_Some_T _ _ _ _ _ Hks Hn), E.
    destruct (decide (0 <= valueLimit)) as [_|N]; [reflexivity|]. unfold valueLimit in N. lia.
Qed.

(** [get] leaves at most one node with [valueLimit]: the node it
    returns. *)
Lemma get_sentinel (key : list byte) :
  forall da T ks from da' id,
    Inv da T -> NulLeaf da T -> T ks = Some from -> NUL ∉ ks -> NUL ∉ key ->
    (forall ks' v, leafv da T ks' = Some v -> v = valueLimit -> ks' = ks) ->
    get da key from = Ret (da', id) ->
    exists T' hk w,
      Inv da' T' /\ T' hk = Some id /\ leafv da' T' hk = Some w /\
      (forall ks' v, leafv da' T' ks' = Some v -> v = valueLimit -> ks' = hk).
Proof.
  induction key as [|b rest IH]; intros da T ks from da' id HI HN Hf Hnul Hkey Hone Hget.
  - destruct (inv_placed _ _ HI _ _ Hf) as (n & Hn & _).
    cbn [get] in Hget. unfold rd in Hget. rewrite Hn in Hget. cbn [bind] in Hget.
    destruct (Z.ltb_spec (Value n) 0) as [Hv|Hv].
    + destruct (follow_spec _ _ _ _ NUL HI Hf) as (da1 & T1 & to & Hr & HP & _).
      rewrite Hr in Hget. injection Hget as <- <-.
      pose proof (NulLeaf_follow _ _ _ _ _ _ _ Hnul HN HP) as HN1.
      destruct (HN1 _ _ (fp_to _ _ _ _ _ _ _ HP)) as [w Hw].
      exists T1, (ks ++ [NUL]), w.
      split; [apply (fp_inv _ _ _ _ _ _ _ HP)|]. split; [apply (fp_to _ _ _ _ _ _ _ HP)|].
      split; [exact Hw|].
      intros ks' v Hv' ->. destruct (decide (ks' = ks ++ [NUL])) as [E|N]; [exact E|].
      destruct (decide (ks' = ks)) as [->|N'].
      * rewrite (fp_here _ _ _ _ _ _ _ HP) in Hv'. discriminate.
      * rewrite (fp_leaves _ _ _ _ _ _ _ HP ks' N' N) in Hv'.
        exfalso. apply N'. now apply (Hone ks' valueLimit).
    + injection Hget as <- <-. exists T, ks, (Value n).
      split; [exact HI|]. split; [exact Hf|]. split; [|exact Hone].
      rewrite (leafv_Some_T _ _ _ _ _ Hf Hn). destruct (decide _); [reflexivity|lia].
  - assert (Hb : b <> NUL) by (intros ->; apply Hkey; now left).
    assert (Hrest : NUL ∉ rest) by (intros H; apply Hkey; now right).
    destruct (inv_placed _ _ HI _ _ Hf) as (n & Hn & _).
    cbn [get] in Hget. unfold rd at 1 in Hget. rewrite Hn in Hget. cbn [bind] in Hget.
    assert (Hstep : exists da1 T1,
              (if (0 <=? Value n) && negb (Value n =? valueLimit)
               then '(da0, to) <- follow da from NUL; setValue da0 to (Value n)
               else Ret da) = Ret da1 /\
              Inv da1 T1 /\ T1 ks = Some from /\ NulLeaf da1 T1 /\
              (forall ks' v, leafv da1 T1 ks' = Some v -> v = valueLimit -> ks' = ks)).
    { destruct (Z.leb_spec 0 (Value n)) as [H0|H0]; cbn [andb].
      - destruct (Z.eqb_spec (Value n) valueLimit) as [E|NE]; cbn [negb].
        + exists da, T. auto.
        + assert (Hl : leafv da T ks = Some (Value n)).
          { rewrite (leafv_Some_T _ _ _ _ _ Hf Hn). destruct (decide _); [reflexivity|lia]. }
          assert (Hnc : forall d, T (ks ++ [d]) = None)
            by (intros d; eapply leaf_no_child; eassumption).
          destruct (follow_spec _ _ _ _ NUL HI Hf) as (da1 & T1 & to & Hr & HP & Hks).
          specialize (Hks Hnc). rewrite Hr. cbn [bind].
          pose proof (fp_new _ _ _ _ _ _ _ HP) as Hnew. rewrite (Hnc NUL) in Hnew.
          destruct (setValue_leaf_post _ _ _ _ _ (Value n) (fp_inv _ _ _ _ _ _ _ HP)
                      (fp_to _ _ _ _ _ _ _ HP) Hnew H0)
            as (da2 & Hr2 & HI2 & Hl2 & Hl2' & _ & HN2 & _).
          exists da2, T1. split; [exact Hr2|]. split; [exact HI2|]. split; [exact Hks|].
          split; [apply HN2; exact (NulLeaf_follow _ _ _ _ _ _ _ Hnul HN HP)|].
          intros ks' v Hv' ->. exfalso.
          destruct (decide (ks' = ks ++ [NUL])) as [->|N].
          * rewrite Hl2 in Hv'. injection Hv' as E. contradiction.
          * rewrite (Hl2' ks' N) in Hv'.
            destruct (decide (ks' = ks)) as [->|N'].
            -- rewrite (fp_here _ _ _ _ _ _ _ HP) in Hv'. discriminate.
            -- rewrite (fp_leaves _ _ _ _ _ _ _ HP ks' N' N) in Hv'.
               apply N'. now apply (Hone ks' valueLimit).
      - exists da, T. auto. }
    destruct Hstep as (da1 & T1 & Hr1 & HI1 & Hf1 & HN1 & Hone1).
    rewrite Hr1 in Hget. cbn [bind] in Hget.
    destruct (follow_spec _ _ _ _ b HI1 Hf1) as (da2 & T2 & to2 & Hr2 & HP2 & _).
    rewrite Hr2 in Hget. cbn [bind] in Hget.
    assert (Hnul2 : NUL ∉ (ks ++ [b])).
    { apply nul_free_app. split; [exact Hnul|]. intros H.
      apply list_elem_of_singleton in H. congruence. }
    apply (IH da2 T2 (ks ++ [b]) to2 da' id (fp_inv _ _ _ _ _ _ _ HP2)
             (NulLeaf_follow _ _ _ _ _ _ _ Hnul HN1 HP2)
             (fp_to _ _ _ _ _ _ _ HP2) Hnul2 Hrest); [|exact Hget].
    intros ks' v Hv' ->. destruct (decide (ks' = ks ++ [b])) as [E|N]; [exact E|].
    exfalso. destruct (decide (ks' = ks)) as [->|N'].
    + rewrite (fp_here _ _ _ _ _ _ _ HP2) in Hv'. discriminate.
    + rewrite (fp_leaves _ _ _ _ _ _ _ HP2 ks' N' N) in Hv'.
      apply N'. now apply (Hone1 ks' valueLimit).
Qed.

Lemma Insert_NoSent (da : Cedar) (T : placement) (k : list byte) (v : iface)
    (da' : Cedar) (e : option error) :
  Inv da T -> NulLeaf da T -> NoSent da -> NUL ∉ k ->
  0 <= vkey da < valueLimit ->
  Insert da k v = Ret (da', e) -> NoSent da'.
Proof.
  intros HI HN HS Hk Hvk Hins. unfold Insert, vKey in Hins.
  set (da0 := set_vkey da (wrap64 (vkey da + 1))) in *.
  assert (HI0 : Inv da0 T) by (now apply (Inv_ext da)).
  assert (HN0 : NulLeaf da0 T) by (now apply (NulLeaf_ext da)).
  apply bind_Ret in Hins as ([da1 id] & Hget & Hins).
  destruct (get_sentinel k da0 T [] 0 da1 id HI0 HN0 (inv_root _ _ HI0)) as
    (T1 & hk & w & HI1 & Hid & Hw & Hone); [inversion 1|exact Hk| |exact Hget|].
  { intros ks' v' Hv' ->. exfalso.
    apply (proj1 (NoSent_leaves da0 T HI0) HS ks' valueLimit Hv'). reflexivity. }
  apply bind_Ret in Hins as (da2 & Hset & Hins).
  apply bind_Ret in Hins as (da3 & Hend & Hins). injection Hins as <- _.
  apply leafv_Some_inv in Hw as (x & n & Hx & Hn & Hvn & Hw0).
  rewrite Hid in Hx. injection Hx as <-.
  rewrite (setValue_Ret _ _ _ _ Hn) in Hset. injection Hset as <-.
  unfold setEnd in Hend. apply bind_Ret in Hend as (inf & _ & Hend).
  apply bind_Ret in Hend as (a & _ & Hend). injection Hend as <-.
  intros i ni Hi Hc. cbn [array set_vals set_info set_array] in Hi.
  pose proof (at_Some_range _ _ _ Hn) as Hr.
  unfold at_ in Hi. destruct (decide (0 <= i)) as [H0|]; [|discriminate].
  destruct (decide (i = id)) as [->|N].
  - rewrite list_lookup_insert_eq in Hi by lia. injection Hi as <-. cbn [Value]. lia.
  - rewrite list_lookup_insert_ne in Hi by lia.
    assert (Hi' : at_ (array da1) i = Some ni).
    { unfold at_. destruct (decide (0 <= i)); [exact Hi|lia]. }
    intros E. destruct (inv_occ _ _ HI1 _ _ Hi' Hc) as (ks' & Hks').
    assert (Hl : leafv da1 T1 ks' = Some valueLimit).
    { rewrite (leafv_Some_T _ _ _ _ _ Hks' Hi'), E.
      destruct (decide (0 <= valueLimit)) as [_|N0]; [reflexivity|].
      unfold valueLimit in N0. lia. }
    pose proof (Hone ks' valueLimit Hl eq_refl) as ->. congruence.
Qed.

(** ** [Delete] writes free slots only *)

Lemma popSibling_walk_array (fuel : nat) :
  forall da b c label r, popSibling_walk fuel da b c label = Ret r -> array r = array da.
Proof.
  induction fuel as [|fuel IH]; intros da b c label r H; [discriminate|].
  cbn [popSibling_walk] in H.
  apply bind_Ret in H as (i & _ & H).
  destruct (byte_eqb (Sibling i) label).
  - apply bind_Ret in H as (il & _ & H). unfold setSibling in H.
    apply bind_Ret in H as (n0 & _ & H). apply bind_Ret in H as (a & _ & H).
    now injection H as <-.
  - apply (IH _ _ _ _ _ H).
Qed.

Lemma popSibling_array (da : Cedar) (from b : Z) (label : byte) (r : Cedar) :
  popSibling da from b label = Ret r -> array r = array da.
Proof.
  unfold popSibling. intros H. apply bind_Ret in H as (i & _ & H).
  destruct (byte_eqb (Child i) label).
  - apply bind_Ret in H as (il & _ & H). unfold setChild in H.
    apply bind_Ret in H as (n & _ & H). apply bind_Ret in H as (a & _ & H).
    now injection H as <-.
  - apply (popSibling_walk_array _ _ _ _ _ _ H).
Qed.

Lemma pushEnode_in_use (da : Cedar) (e : Z) (r : Cedar) (i : Z) (n : node) :
  pushEnode da e = Ret r -> at_ (array r) i = Some n -> 0 <= Check n ->
  at_ (array da) i = Some n.
Proof.
  unfold pushEnode, wr. intros H Hi Hc.
  destruct (at_ (array da) e) as [ne|] eqn:He; [|discriminate]. cbn [bind] in H.
  destruct (at_ (info da) e); [|discriminate]. cbn [bind] in H. injection H as <-.
  cbn [array set_info set_array] in Hi.
  pose proof (at_Some_range _ _ _ He) as Hr.
  unfold at_ in *. destruct (decide (0 <= i)); [|discriminate].
  destruct (decide (i = e)) as [->|N].
  - rewrite list_lookup_insert_eq in Hi by lia. injection Hi as <-. cbn in Hc. lia.
  - rewrite list_lookup_insert_ne in Hi by lia. exact Hi.
Qed.

Lemma Delete_loop_in_use (fuel : nat) :
  forall da to r i n,
    Delete_loop fuel da to = Ret r -> at_ (array r) i = Some n -> 0 <= Check n ->
    at_ (array da) i = Some n.
Proof.
  induction fuel as [|fuel IH]; intros da to r i n H Hi Hc; [discriminate|].
  cbn [Delete_loop] in H.
  apply bind_Ret in H as (nt & _ & H). apply bind_Ret in H as (nf & _ & H).
  apply bind_Ret in H as (it & _ & H). apply bind_Ret in H as (stop & _ & H).
  destruct stop.
  - apply bind_Ret in H as (da1 & H1 & H).
    rewrite <- (popSibling_array _ _ _ _ _ H1).
    apply (pushEnode_in_use _ _ _ _ _ H Hi Hc).
  - apply bind_Ret in H as (da1 & H1 & H).
    apply (pushEnode_in_use _ _ _ _ _ H1); [|exact Hc].
    apply (IH _ _ _ _ _ H Hi Hc).
Qed.

Lemma Delete_NoSent (fuel : nat) (da : Cedar) (key : list byte) (da' : Cedar)
    (e : option error) :
  NoSent da -> Delete fuel da key = Ret (da', e) -> NoSent da'.
Proof.
  intros HS H. unfold Delete in H.
  apply bind_Ret in H as ([to err] & _ & H).
  destruct err as [e0|]; [now injection H as <- _|].
  apply bind_Ret in H as ([vk err] & _ & H).
  destruct err as [e0|]; [now injection H as <- _|].
  destruct (vals da !! vk) as [nv|]; [|now injection H as <- _].
  apply bind_Ret in H as (nt & _ & H). apply bind_Ret in H as (to' & _ & H).
  apply bind_Ret in H as (da1 & H1 & H). injection H as <- _.
  intros i n Hi Hc. apply (HS i n); [|exact Hc].
  apply (Delete_loop_in_use _ _ _ _ _ _ H1 Hi Hc).
Qed.

Lemma NoSent_NewCedar : NoSent NewCedar.
Proof.
  intros i n Hi Hc. apply at_NewCedar_array in Hi. subst n. cbn in Hc. lia.
Qed.

(** ** Histories without [Update] *)

Lemma run_ops_NoSent (fuel : nat) (ops : list op) :
  forall da m da',
    Good da m -> NoSent da -> Forall (fun o => NUL ∉ op_key o) ops ->
    update_free ops ->
    vkey da + Z.of_nat (length ops) <= valueLimit ->
    run_ops fuel ops da = Ret da' -> NoSent da'.
Proof.
  induction ops as [|o ops IH]; intros da m da' HG HS Hnul Hup Hlen Hr.
  - now injection Hr as <-.
  - cbn [run_ops] in Hr. apply bind_Ret in Hr as (da1 & Ho & Hr).
    apply Forall_cons in Hnul as [Hk Hnul]. apply Forall_cons in Hup as [Ho' Hup].
    cbn [length] in Hlen.
    destruct (Good_step fuel da m o da1 HG Hk) as [HG1 Hv1]; [lia|exact Ho|].
    apply (IH da1 _ da' HG1); [|exact Hnul|exact Hup|lia|exact Hr].
    destruct HG as (T & HI & _ & HN & _ & Hvk & _).
    destruct o as [k v|k d|k]; cbn [apply_op op_key] in *; [| contradiction |].
    + apply bind_Ret in Ho as ([da2 e] & Hi & Ho). injection Ho as <-.
      apply (Insert_NoSent da T k v da2 e HI HN HS Hk); [lia|exact Hi].
    + apply bind_Ret in Ho as ([da2 e] & Hd & Ho). injection Ho as <-.
      apply (Delete_NoSent fuel da k da2 e HS Hd).
Qed.

Lemma live_model (ops : list op) :
  update_free ops ->
  forall ks m,
    NoDup ks ->
    (forall k, (k ∈ ks <-> exists v, m k = Holds v) /\ m k <> Unknown) ->
    NoDup (foldl live_step ks ops) /\
    forall k, (k ∈ foldl live_step ks ops <-> exists v, foldl model_step m ops k = Holds v) /\
              foldl model_step m ops k <> Unknown.
Proof.
  induction ops as [|o ops IH]; intros Hup ks m Hnd Hm; [now split|].
  apply Forall_cons in Hup as [Ho Hup]. cbn [foldl].
  apply (IH Hup).
  - destruct o as [k0 v0|k0 d0|k0]; cbn [live_step].
    + destruct (decide (k0 ∈ ks)); [exact Hnd|]. now constructor.
    + exact Hnd.
    + now apply NoDup_filter.
  - intros k. unfold model_step. destruct (Hm k) as [Hk1 Hk2].
    destruct o as [k0 v0|k0 d0|k0]; cbn [live_step op_key]; [|contradiction|].
    + destruct (decide (k = k0)) as [->|N].
      * split; [|discriminate]. split; [eauto|]. intros _.
        destruct (decide (k0 ∈ ks)); [assumption|now left].
      * split; [|exact Hk2]. rewrite <- Hk1.
        destruct (decide (k0 ∈ ks)); [reflexivity|].
        rewrite elem_of_cons. split; [intros [?|?]; [contradiction|assumption]|now right].
    + rewrite list_elem_of_filter. destruct (decide (k = k0)) as [->|N].
      * destruct (m k0); [contradiction| |]; (split; [|discriminate]);
          (split; [intros [? _]; contradiction|intros [? ?]; discriminate]).
      * split; [|exact Hk2]. rewrite <- Hk1. tauto.
Qed.

(** ** The slots that [Status] counts as keys *)

Lemma Status_loop_count (a : list node) (ids : list Z) :
  forall keys nodes,
    Forall (fun i => 0 <= i < Z.of_nat (length a)) ids ->
    0 <= keys -> 0 <= nodes ->
    keys + Z.of_nat (length ids) < 2 ^ 63 -> nodes + Z.of_nat (length ids) < 2 ^ 63 ->
    exists n,
      Status_loop a ids keys nodes
      = Ret (keys + Z.of_nat (length (filter (fun i => Is_true (key_slot a i)) ids)), n).
Proof.
  induction ids as [|i ids IH]; intros keys nodes Hr Hk Hn Hlk Hln.
  - exists nodes. cbn. now rewrite Z.add_0_r.
  - apply Forall_cons in Hr as [Hi Hr]. cbn [length] in Hlk, Hln. cbn [Status_loop].
    destruct (at_is_Some a i) as [_ [n Hni]]; [exact Hi|].
    unfold rd. rewrite Hni. cbn [bind].
    assert (Hks : key_slot a i = (Check n >=? 0) && (Value n >=? 0))
      by (unfold key_slot; now rewrite Hni).
    destruct (Check n >=? 0); cbn [andb] in Hks.
    + rewrite (wrap64_id (nodes + 1)) by lia.
      destruct (Value n >=? 0).
      * rewrite (wrap64_id (keys + 1)) by lia.
        destruct (IH (keys + 1) (nodes + 1) Hr) as (m & ->); try lia.
        exists m. rewrite filter_cons_True by (rewrite Hks; exact I).
        cbn [length]. do 2 f_equal. lia.
      * destruct (IH keys (nodes + 1) Hr) as (m & ->); try lia.
        exists m. now rewrite filter_cons_False by (rewrite Hks; intros []).
    + destruct (IH keys nodes Hr) as (m & ->); try lia.
      exists m. now rewrite filter_cons_False by (rewrite Hks; intros []).
Qed.

Lemma Forall2_elem_l {A B} (P : A -> B -> Prop) (l : list A) (k : list B) (x : A) :
  Forall2 P l k -> x ∈ l -> exists y, y ∈ k /\ P x y.
Proof.
  induction 1 as [|x' y' l k Hxy HF IH]; [now intros ?%elem_of_nil|].
  intros [->|Hin]%elem_of_cons.
  - exists y'. split; [now left|exact Hxy].
  - destruct (IH Hin) as (y & Hy & Hp). exists y. split; [now right|exact Hp].
Qed.

Lemma Forall2_elem_r {A B} (P : A -> B -> Prop) (l : list A) (k : list B) (y : B) :
  Forall2 P l k -> y ∈ k -> exists x, x ∈ l /\ P x y.
Proof.
  induction 1 as [|x' y' l k Hxy HF IH]; [now intros ?%elem_of_nil|].
  intros [->|Hin]%elem_of_cons.
  - exists x'. split; [now left|exact Hxy].
  - destruct (IH Hin) as (x & Hx & Hp). exists x. split; [now right|exact Hp].
Qed.

Lemma Forall2_NoDup {A B} (P : A -> B -> Prop) (l : list A) (k : list B) :
  Forall2 P l k -> NoDup l ->
  (forall x1 x2 y, x1 ∈ l -> x2 ∈ l -> P x1 y -> P x2 y -> x1 = x2) ->
  NoDup k.
Proof.
  induction 1 as [|x y l k Hxy HF IH]; intros Hnd Hinj; [constructor|].
  apply NoDup_cons in Hnd as [Hx Hnd]. constructor.
  - intros Hin. destruct (Forall2_elem_r P l k y HF Hin) as (x' & Hx' & Hp).
    apply Hx. rewrite (Hinj x x' y); [exact Hx'|now left|now right|exact Hxy|exact Hp].
  - apply IH; [exact Hnd|]. intros x1 x2 y' H1 H2. apply Hinj; now right.
Qed.

Lemma key_slots_count (da : Cedar) (T : placement) (Ks : list (list byte)) :
  Inv da T -> NulLeaf da T -> NoDup Ks -> Forall (fun k => NUL ∉ k) Ks ->
  (forall k, NUL ∉ k -> (k ∈ Ks <-> is_Some (stored da T k))) ->
  length (filter (fun i => Is_true (key_slot (array da) i))
                 (seqZ 0 (Z.of_nat (length (array da)))))
  = length Ks.
Proof.
  intros HI HN Hnd Hnul HKs.
  set (H := fun (k : list byte) (i : Z) =>
              exists hk v, (hk = k \/ hk = k ++ [NUL]) /\ T hk = Some i /\
                           leafv da T hk = Some v).
  assert (Hex : forall k, NUL ∉ k -> is_Some (stored da T k) -> exists i, H k i).
  { intros k Hk [v Hv]. unfold stored in Hv.
    destruct (leafv da T k) as [w|] eqn:E.
    - destruct (leafv_Some_inv _ _ _ _ E) as (x & _ & Hx & _).
      exists x, k, w. auto.
    - destruct (leafv_Some_inv _ _ _ _ Hv) as (x & _ & Hx & _).
      exists x, (k ++ [NUL]), v. auto. }
  assert (Hslot : forall k i, H k i -> Is_true (key_slot (array da) i) /\
                    0 <= i < Z.of_nat (length (array da))).
  { intros k i (hk & v & _ & Hi & Hv).
    apply leafv_Some_inv in Hv as (x & n & Hx & Hn & Hvn & Hv0).
    rewrite Hi in Hx. injection Hx as <-.
    split; [|eapply at_Some_range, Hn].
    unfold key_slot. rewrite Hn.
    destruct (inv_placed _ _ HI _ _ Hi) as (n' & Hn' & [[-> ->]|(_ & _ & Hc)]).
    - destruct (inv_root_node _ _ HI) as (n0 & Hn0 & Hv & _).
      rewrite Hn in Hn0. injection Hn0 as <-. lia.
    - rewrite Hn in Hn'. injection Hn' as <-.
      destruct (Z.geb_spec (Check n) 0); [|lia]. destruct (Z.geb_spec (Value n) 0); [|lia].
      exact I. }
  assert (Hkey : forall i, Is_true (key_slot (array da) i) ->
                   exists k, (NUL ∉ k) /\ k ∈ Ks /\ H k i).
  { intros i Hi. unfold key_slot in Hi.
    destruct (at_ (array da) i) as [n|] eqn:Hn; [|destruct Hi].
    destruct (Z.geb_spec (Check n) 0) as [Hc|]; [|destruct Hi].
    destruct (Z.geb_spec (Value n) 0) as [Hv|]; [|destruct Hi].
    destruct (inv_occ _ _ HI _ _ Hn Hc) as (ks & Hks).
    assert (Hl : leafv da T ks = Some (Value n)).
    { rewrite (leafv_Some_T _ _ _ _ _ Hks Hn). destruct (decide _); [reflexivity|lia]. }
    destruct (nul_only_last da T ks HI HN) as [Hf|(k & -> & Hf)]; [now rewrite Hks| |].
    - exists ks. split; [exact Hf|]. split.
      + apply (HKs ks Hf). exists (Value n). apply (stored_holder da T ks ks _ HI); auto.
      + exists ks, (Value n). auto.
    - exists k. split; [exact Hf|]. split.
      + apply (HKs k Hf). exists (Value n).
        apply (stored_holder da T k (k ++ [NUL]) _ HI); auto.
      + exists (k ++ [NUL]), (Value n). auto. }
  assert (Hinj : forall k1 k2 i, NUL ∉ k1 -> NUL ∉ k2 -> H k1 i -> H k2 i -> k1 = k2).
  { intros k1 k2 i Hk1 Hk2 (h1 & v1 & Hh1 & Hi1 & _) (h2 & v2 & Hh2 & Hi2 & _).
    pose proof (inv_inj _ _ HI _ _ _ Hi1 Hi2) as E. subst h2.
    destruct Hh1 as [->| ->], Hh2 as [E|E]; try (now subst).
    - exfalso. apply Hk1. rewrite E. apply elem_of_app. right. now left.
    - exfalso. apply Hk2. rewrite <- E. apply elem_of_app. right. now left.
    - now apply app_inj_tail in E as [E _]. }
  assert (Hfun : forall k i1 i2, H k i1 -> H k i2 -> i1 = i2).
  { intros k i1 i2 (h1 & v1 & Hh1 & Hi1 & Hv1) (h2 & v2 & Hh2 & Hi2 & Hv2).
    pose proof (holder_unique da T k h1 h2 v1 v2 HI Hh1 Hh2 Hv1 Hv2) as ->. congruence. }
  assert (HIs : exists Is, Forall2 H Ks Is).
  { apply Forall2_exists. intros k Hin.
    assert (Hk : NUL ∉ k) by (rewrite Forall_forall in Hnul; now apply Hnul).
    apply (Hex k Hk). now apply (HKs k Hk). }
  destruct HIs as (Is & HF).
  rewrite (Forall2_length _ _ _ HF).
  apply Permutation_length, NoDup_Permutation.
  - apply NoDup_filter, NoDup_seqZ.
  - apply (Forall2_NoDup H Ks Is HF Hnd).
    intros k1 k2 i H1 H2. rewrite Forall_forall in Hnul. apply Hinj; now apply Hnul.
  - intros i. rewrite list_elem_of_filter, elem_of_seqZ. split.
    + intros [Hi _]. destruct (Hkey i Hi) as (k & Hk & Hin & Hki).
      destruct (Forall2_elem_l H Ks Is k HF Hin) as (i' & Hi' & Hki').
      now rewrite (Hfun k i i' Hki Hki').
    + intros Hin. destruct (Forall2_elem_r H Ks Is i HF Hin) as (k & Hk & Hki).
      destruct (Hslot k i Hki) as [Hs Hr]. split; [exact Hs|lia].
Qed.

Lemma live_keys_from (ops : list op) :
  forall ks k, k ∈ foldl live_step ks ops -> k ∈ ks \/ exists o, o ∈ ops /\ k = op_key o.
Proof.
  induction ops as [|o ops IH]; intros ks k Hk; [now left|].
  cbn [foldl] in Hk. destruct (IH _ _ Hk) as [Hin|(o' & Ho' & ->)].
  - destruct o as [k0 v0|k0 d0|k0]; cbn [live_step] in Hin.
    + destruct (decide (k0 ∈ ks)); [now left|].
      apply elem_of_cons in Hin as [->|Hin]; [|now left].
      right. exists (OpInsert k0 v0). split; [now left|reflexivity].
    + now left.
    + apply list_elem_of_filter in Hin as [_ Hin]. now left.
  - right. exists o'. split; [now right|reflexivity].
Qed.

Lemma Status_keys_Good (da : Cedar) (ops : list op) (capacity : Z) :
  Good da (model_of ops) -> NoSent da ->
  Forall (fun o => NUL ∉ op_key o) ops -> update_free ops ->
  Z.of_nat (length (array da)) < 2 ^ 63 ->
  exists nodes,
    Status da (Z.of_nat (length (array da))) capacity
    = Ret (Z.of_nat (length (live_keys ops)), nodes,
           Z.of_nat (length (array da)), capacity).
Proof.
  intros (T & HI & _ & HN & _ & _ & _ & Hm) HS Hnul Hup Harr.
  destruct (live_model ops Hup [] (fun _ => Absent)) as [Hnd Hlive].
  { constructor. }
  { intros k. split; [|discriminate].
    split; [now intros ?%elem_of_nil|intros [v ?]; discriminate]. }
  fold (live_keys ops) in Hnd, Hlive. fold (model_of ops) in Hlive.
  assert (Hfree : Forall (fun k => NUL ∉ k) (live_keys ops)).
  { apply Forall_forall. intros k Hk.
    destruct (live_keys_from ops [] k Hk) as [?%elem_of_nil|(o & Ho & ->)]; [contradiction|].
    rewrite Forall_forall in Hnul. now apply Hnul. }
  pose proof (proj1 (NoSent_leaves da T HI) HS) as HL.
  assert (HKs : forall k, NUL ∉ k -> (k ∈ live_keys ops <-> is_Some (stored da T k))).
  { intros k Hk. destruct (Hlive k) as [Hiff Hun]. specialize (Hm k Hk). split.
    - intros Hin. apply Hiff in Hin as (v & Hv). rewrite Hv in Hm.
      destruct Hm as (vk & nv & Hs & _). apply storedv_Some in Hs as [Hs _]. eauto.
    - intros [v Hv]. apply Hiff.
      destruct (model_of ops k) as [| |v']; [contradiction| |eauto].
      exfalso. apply storedv_None in Hm as [Hm|Hm]; [congruence|].
      unfold stored in Hm. destruct (leafv da T k) as [w|] eqn:E.
      + injection Hm as ->. now apply (HL k valueLimit E).
      + now apply (HL (k ++ [NUL]) valueLimit Hm). }
  pose proof (key_slots_count da T (live_keys ops) HI HN Hnd Hfree HKs) as Hcount.
  unfold Status.
  destruct (Status_loop_count (array da) (seqZ 0 (Z.of_nat (length (array da)))) 0 0)
    as (n & ->); try lia; try (rewrite length_seqZ; lia).
  { apply Forall_forall. intros i Hi. apply elem_of_seqZ in Hi. lia. }
  exists n. cbn [bind]. now rewrite Hcount.
Qed.

(** ** The value table along a history *)

Lemma Update_frame_Good (da : Cedar) (m : model) (k : list byte) (d : Z) :
  Good da m -> NUL ∉ k ->
  exists da' e,
    Update da k d = Ret (da', e) /\ vals da' = vals da /\ vkey da' = vkey da.
Proof.
  intros (T & HI & HS & HN & _) Hk.
  destruct (Update_spec da T k d HI HS HN Hk)
    as (da1 & T1 & kk & id & p & _ & GP & _ & _ & _ & _ & Hres).
  destruct ((wrap64 (p + d) <? 0) || (wrap64 (p + d) >=? valueLimit)).
  - exists da1, (Some ErrInvalidValue). split; [exact Hres|].
    split; [exact (gp_vals _ _ _ _ _ _ GP)|exact (gp_vkey _ _ _ _ _ _ GP)].
  - destruct Hres as (da2 & Hr & _ & _ & _ & _ & _ & Hvals & Hvkey & _).
    exists da2, None. auto.
Qed.

Lemma Table_step (fuel : nat) (da : Cedar) (m : model) (o : op) (da' : Cedar)
    (ins : list (list byte * iface)) :
  Good da m -> NUL ∉ op_key o -> vkey da < valueLimit ->
  Table da ins -> apply_op fuel da o = Ret da' ->
  Table da' (ins ++ inserts [o]).
Proof.
  intros HG Hk Hlt [Hvk Htab] Hr.
  destruct o as [k v|k d|k]; cbn [op_key apply_op inserts omap] in *.
  - destruct HG as (T & HI & HS & HN & _ & Hv0 & _).
    destruct (Insert_spec da T k v HI HS HN Hk ltac:(lia))
      as (da2 & T2 & Hi & _ & _ & _ & _ & _ & Hvals & Hvkey & _).
    rewrite Hi in Hr. injection Hr as <-.
    split.
    + rewrite Hvkey, length_app, Hvk. cbn [length].
      rewrite Hvk in Hlt. unfold valueLimit in Hlt.
      rewrite wrap64_id by lia. cbn. lia.
    + intros j kv Hj. rewrite Hvals.
      destruct (decide (j < length ins)%nat) as [Hlt'|Hge].
      * rewrite lookup_app_l in Hj by exact Hlt'.
        rewrite lookup_insert_ne by lia. now apply Htab.
      * rewrite lookup_app_r in Hj by lia.
        destruct (j - length ins)%nat as [|j'] eqn:Ej; [|discriminate].
        injection Hj as <-. cbn [fst snd].
        replace (Z.of_nat j) with (vkey da) by lia.
        now rewrite lookup_insert_eq.
  - destruct (Update_frame_Good da m k d HG Hk) as (da2 & e & Hu & Hvals & Hvkey).
    rewrite Hu in Hr. injection Hr as <-. rewrite app_nil_r.
    split; [congruence|]. intros j kv Hj. rewrite Hvals. now apply Htab.
  - apply bind_Ret in Hr as ([da2 e] & Hd & Hr). injection Hr as <-.
    destruct (Delete_vals fuel da k da2 e Hd) as [Hvals Hvkey]. rewrite app_nil_r.
    split; [congruence|]. intros j kv Hj. rewrite Hvals. now apply Htab.
Qed.

Lemma inserts_cons (o : op) (ops : list op) :
  inserts (o :: ops) = inserts [o] ++ inserts ops.
Proof. unfold inserts. cbn [omap]. destruct o; reflexivity. Qed.

Lemma run_ops_Table (fuel : nat) (ops : list op) :
  forall da m da' ins,
    Good da m -> Forall (fun o => NUL ∉ op_key o) ops ->
    vkey da + Z.of_nat (length ops) <= valueLimit ->
    Table da ins -> run_ops fuel ops da = Ret da' ->
    Table da' (ins ++ inserts ops).
Proof.
  induction ops as [|o ops IH]; intros da m da' ins HG Hnul Hlen Htab Hr.
  - injection Hr as <-. now rewrite app_nil_r.
  - cbn [run_ops] in Hr. apply bind_Ret in Hr as (da1 & Ho & Hr).
    apply Forall_cons in Hnul as [Hk Hnul]. cbn [length] in Hlen.
    destruct (Good_step fuel da m o da1 HG Hk ltac:(lia) Ho) as [HG1 Hv1].
    rewrite inserts_cons, app_assoc.
    apply (IH da1 _ da' _ HG1 Hnul); [lia| |exact Hr].
    exact (Table_step fuel da m o da1 ins HG Hk ltac:(lia) Htab Ho).
Qed.

Lemma Table_NewCedar : Table NewCedar [].
Proof. split; [reflexivity|]. intros j kv Hj. discriminate. Qed.

Lemma inserts_elem (ops : list op) (k : list byte) (v : iface) :
  (k, v) ∈ inserts ops -> OpInsert k v ∈ ops.
Proof.
  unfold inserts. intros H. apply list_elem_of_omap in H as (o & Ho & E).
  destruct o; try discriminate. now injection E as -> ->.
Qed.

(** * The claims *)

(** C10: with an empty path [Jump] returns node id 0 and no error, whatever
    the start node [from] is. *)
Theorem Jump_empty_path (da : Cedar) (from : Z) :
  Jump da [] from = Ret (0, None).
Proof. reflexivity. Qed.

(** C6, as the code has it: [Jump] applies the terminal test at every step.
    When the walk stands on a node with a non-negative value, the start
    node or a node reached after some bytes, and a byte of the path
    remains, [Jump] fails with [ErrNoPath] at that node; a node reached
    with the last byte may be terminal, and [Jump] then succeeds. *)
Theorem Jump_terminal_every_step (da : Cedar) (pre rest : list byte)
    (b : byte) (from mid : Z) (n : node) :
  walk da from pre mid ->
  at_ (array da) mid = Some n ->
  0 <= Value n ->
  Jump da (pre ++ b :: rest) from = Ret (mid, Some ErrNoPath) /\
  (pre <> [] -> Jump da pre from = Ret (mid, None)).
Proof.
  intros Hw Hn Hv. split.
  - unfold Jump. eapply Jump_loop_terminal; eassumption.
  - intros Hne. unfold Jump. apply Jump_loop_walk; assumption.
Qed.

(** C6, counterexample: after [Insert("a", 1)] the walk of "ab" from the
    root passes its first step, reaches the terminal node of "a" at an
    intermediate step and fails there. *)
Lemma Jump_intermediate_terminal_fails :
  exists da n0 n1,
    cedar_a = Ret da /\
    at_ (array da) 0 = Some n0 /\ Value n0 < 0 /\
    at_ (array da) 97 = Some n1 /\ Check n1 = 0 /\ 0 <= Value n1 /\
    Jump da (bytes "a") 0 = Ret (97, None) /\
    Jump da (bytes "ab") 0 = Ret (97, Some ErrNoPath).
Proof.
  eexists _, _, _. split; [vm_compute; reflexivity|].
  vm_compute. repeat split; congruence.
Qed.

Lemma Jump_terminal_every_step_witness :
  exists da n,
    cedar_a = Ret da /\ at_ (array da) 97 = Some n /\
    Jump da ([ "a"%byte ] ++ "b"%byte :: []) 0 = Ret (97, Some ErrNoPath) /\
    ([ "a"%byte ] <> [] -> Jump da [ "a"%byte ] 0 = Ret (97, None)).
Proof.
  eexists _, (mkNode 0 0).
  split; [vm_compute; reflexivity|].
  split; [vm_compute; reflexivity|].
  apply (Jump_terminal_every_step _ [ "a"%byte ] [] "b"%byte 0 97 (mkNode 0 0)).
  - eapply (walk_cons _ 0 "a"%byte [] 97 (mkNode (-1) (-1)) (mkNode 0 0)).
    + vm_compute; reflexivity.
    + vm_compute; reflexivity.
    + vm_compute; reflexivity.
    + reflexivity.
    + apply walk_nil.
  - vm_compute; reflexivity.
  - vm_compute; congruence.
Defined.

(** ** The wildcard scenarios *)

(** C2, on the code: with "aaa*bbb*ccc" (100) and "*" (101) in the cedar,
    [FindOne("aaaabbbbcccc")] returns 101: the first round finds the '*'
    edge of the root, whose node is terminal, and stops there. *)
Theorem FindOne_bare_star_first :
  exists da,
    insert_all [(bytes "aaa*bbb*ccc", IInt 100); (bytes "*", IInt 101)]
               NewCedar = Ret da /\
    forall (extra : Z -> nat) (grown : nat),
      FindOne extra grown 64 da (bytes "aaaabbbbcccc") = Ret (IInt 101, None).
Proof.
  eexists. split; [vm_compute; reflexivity|].
  intros extra grown. unfold FindOne. rewrite getsnidpos_first. cbn [bind].
  generalize (30 + Z.of_nat grown). intros cap.
  vm_compute. reflexivity.
Qed.

(** C3, on the code: with "a*c" (1), "abc" (2) and "a*" (3) in the cedar,
    [FindAll("abc", cb)] calls [cb] for 2 and then for 1, and never for
    3. *)
Theorem FindAll_misses_prefix_pattern :
  exists da,
    insert_all [(bytes "a*c", IInt 1); (bytes "abc", IInt 2);
                (bytes "a*", IInt 3)] NewCedar = Ret da /\
    forall (extra : Z -> nat) (grown : nat),
      FindAll extra grown 64 da (bytes "abc")
      = Ret [(IInt 2, bytes "abc"); (IInt 1, bytes "a*c")].
Proof.
  eexists. split; [vm_compute; reflexivity|].
  intros extra grown. unfold FindAll. rewrite getsnidpos_first. cbn [bind].
  replace (30 + Z.of_nat grown) with (Z.pos (Pos.of_succ_nat (29 + grown))) by lia.
  generalize (Pos.of_succ_nat (29 + grown)). intros cap.
  vm_compute. reflexivity.
Qed.

(** ** Round trips *)

(** C1, as the code has it: in a history of [Insert], [Update] and
    [Delete] calls on keys without a 0 byte that runs to its end (at most
    [valueLimit] calls), after [Insert(k, v)] and with no later call on
    [k], [Get(k)] returns [v] and no error. *)
Theorem Get_after_Insert (fuel : nat) (ops1 ops2 : list op) (k : list byte)
    (v : iface) (da : Cedar) :
  Forall (fun o => NUL ∉ op_key o) (ops1 ++ OpInsert k v :: ops2) ->
  Forall (fun o => op_key o <> k) ops2 ->
  Z.of_nat (length (ops1 ++ OpInsert k v :: ops2)) <= valueLimit ->
  run_ops fuel (ops1 ++ OpInsert k v :: ops2) NewCedar = Ret da ->
  Get da k = Ret (v, None).
Proof.
  intros Hnul Hk Hlen Hrun.
  pose proof (Good_run fuel _ NewCedar _ da Good_NewCedar Hnul Hlen Hrun) as HG.
  assert (Hkn : NUL ∉ k).
  { apply Forall_app in Hnul as [_ H]. apply Forall_cons in H as [H _]. exact H. }
  pose proof (Get_Good da _ k HG Hkn) as HGet.
  fold (model_of (ops1 ++ OpInsert k v :: ops2)) in HGet.
  rewrite (model_after_Insert ops1 ops2 k v Hk) in HGet. exact HGet.
Qed.

(** C1, counterexample: the keys "a" and "a\000" share the leaf that holds
    the value: after [Insert("a", 1)] and [Insert("a\000", 2)], with no
    [Delete] at all, [Get("a")] returns 2. *)
Lemma Get_after_Insert_aliased :
  exists da,
    run_ops 0 [OpInsert (bytes "a") (IInt 1);
               OpInsert (bytes "a" ++ [NUL]) (IInt 2)] NewCedar = Ret da /\
    Get da (bytes "a") = Ret (IInt 2, None).
Proof.
  eexists. split; [vm_compute; reflexivity|].
  vm_compute. reflexivity.
Qed.

Lemma Get_after_Insert_witness :
  exists da,
    run_ops 8 ([OpInsert (bytes "b") (IInt 7); OpInsert (bytes "ab") (IInt 5)]
               ++ OpInsert (bytes "a") (IInt 1)
               :: [OpDelete (bytes "b"); OpUpdate (bytes "ab") 1]) NewCedar
    = Ret da /\
    Get da (bytes "a") = Ret (IInt 1, None).
Proof.
  eexists. split; [vm_compute; reflexivity|].
  apply (Get_after_Insert 8
           [OpInsert (bytes "b") (IInt 7); OpInsert (bytes "ab") (IInt 5)]
           [OpDelete (bytes "b"); OpUpdate (bytes "ab") 1]
           (bytes "a") (IInt 1)).
  - repeat constructor; vm_compute; intros H; repeat (inversion H; subst; clear H;
      match goal with H' : _ ∈ _ |- _ => rename H' into H | _ => idtac end).
  - repeat constructor; vm_compute; congruence.
  - vm_compute. congruence.
  - vm_compute. reflexivity.
Defined.

(** ** Delete *)

(** C4, as the code has it: after Inserts of distinct keys without a 0
    byte and Deletes of keys [S] that leave one of the inserted keys in
    the trie, the history runs to its end, [Get(k)] returns the NoPath or
    the NoValue error for every [k] in [S], and [Get(k)] returns the
    inserted value for every inserted key not in [S]. *)
Theorem Delete_inverse (fuel : nat) (kvs : list (list byte * iface))
    (S : list (list byte)) (k0 : list byte) :
  NoDup kvs.*1 ->
  Forall (fun kv => NUL ∉ kv.1) kvs -> Forall (fun s => NUL ∉ s) S ->
  k0 ∈ kvs.*1 -> k0 ∉ S ->
  Forall (fun s => (length s < fuel)%nat) S ->
  Z.of_nat (length kvs + length S) <= valueLimit ->
  exists da,
    run_ops fuel (map (fun kv => OpInsert kv.1 kv.2) kvs ++ map OpDelete S)
            NewCedar = Ret da /\
    (forall k, k ∈ S ->
       exists x e, Get da k = Ret (x, Some e) /\ (e = ErrNoPath \/ e = ErrNoValue)) /\
    (forall k v, (k, v) ∈ kvs -> k ∉ S -> Get da k = Ret (v, None)).
Proof.
  intros Hnd Hnk HnS Hk0 Hk0S Hfuel Hlen.
  set (ins := map (fun kv : list byte * iface => OpInsert kv.1 kv.2) kvs).
  assert (Hnul_ins : Forall (fun o => NUL ∉ op_key o) ins).
  { unfold ins. apply Forall_forall. intros o Ho.
    apply list_elem_of_In, in_map_iff in Ho. destruct Ho as (kv & <- & Hin).
    cbn [op_key]. rewrite Forall_forall in Hnk. apply Hnk, list_elem_of_In, Hin. }
  assert (Hnul_del : Forall (fun o => NUL ∉ op_key o) (map OpDelete S)).
  { apply Forall_forall. intros o Ho.
    apply list_elem_of_In, in_map_iff in Ho. destruct Ho as (s & <- & Hin).
    cbn [op_key]. rewrite Forall_forall in HnS. apply HnS, list_elem_of_In, Hin. }
  destruct (run_inserts fuel kvs NewCedar _ Good_NewCedar Hnk) as (da1 & Hr1).
  { cbn [vkey NewCedar]. lia. }
  fold ins in Hr1.
  assert (HG1 : Good da1 (model_of ins)).
  { apply (Good_run fuel ins NewCedar _ da1 Good_NewCedar Hnul_ins); [|exact Hr1].
    unfold ins. rewrite length_map. cbn [vkey NewCedar]. lia. }
  apply list_elem_of_fmap in Hk0 as ([k0' v0] & -> & Hin0). cbn [fst] in *.
  assert (Hk0n : NUL ∉ k0').
  { rewrite Forall_forall in Hnk. apply (Hnk (k0', v0)), Hin0. }
  destruct (run_deletes fuel S k0' v0 da1 _ HG1) as (da & Hr2); try assumption.
  { apply model_inserts; assumption. }
  exists da.
  assert (Hrun : run_ops fuel (ins ++ map OpDelete S) NewCedar = Ret da).
  { rewrite run_ops_app, Hr1. exact Hr2. }
  split; [exact Hrun|].
  assert (HG : Good da (model_of (ins ++ map OpDelete S))).
  { apply (Good_run fuel _ NewCedar _ da Good_NewCedar); [|  |exact Hrun].
    - apply Forall_app. auto.
    - rewrite length_app. unfold ins. rewrite !length_map. cbn [vkey NewCedar]. lia. }
  assert (Hno : forall k, model_of ins k <> Unknown).
  { intros k. apply model_inserts_known. discriminate. }
  split.
  - intros k Hk.
    assert (Hkn : NUL ∉ k) by (rewrite Forall_forall in HnS; apply HnS, Hk).
    pose proof (Get_Good da _ k HG Hkn) as HGet.
    unfold model_of in HGet. rewrite foldl_app in HGet.
    pose proof (model_deletes S k (model_of ins) (Hno k)) as HD.
    unfold model_of in HD. rewrite HD in HGet.
    destruct (decide (k ∈ S)); [exact HGet|contradiction].
  - intros k v Hin HkS.
    assert (Hkn : NUL ∉ k) by (rewrite Forall_forall in Hnk; apply (Hnk (k, v)), Hin).
    pose proof (Get_Good da _ k HG Hkn) as HGet.
    unfold model_of in HGet. rewrite foldl_app in HGet.
    pose proof (model_deletes S k (model_of ins) (Hno k)) as HD.
    unfold model_of in HD. rewrite HD in HGet.
    destruct (decide (k ∈ S)); [contradiction|].
    pose proof (model_inserts kvs k v (fun _ => Absent) Hnd Hin) as HM.
    fold ins in HM. rewrite HM in HGet. exact HGet.
Qed.

(** C4, counterexample: "a\000" names the leaf of "a".  After the Inserts
    of "b", "a" and "a\000" and the Delete of "a\000" alone, [Get("a")]
    fails with NoPath, though "a" was inserted and is not deleted. *)
Lemma Delete_inverse_aliased :
  exists da,
    run_ops 8 (map (fun kv => OpInsert kv.1 kv.2)
                   [(bytes "b", IInt 3); (bytes "a", IInt 1);
                    (bytes "a" ++ [NUL], IInt 2)]
               ++ map OpDelete [bytes "a" ++ [NUL]]) NewCedar = Ret da /\
    Get da (bytes "a") = Ret (IInt 0, Some ErrNoPath).
Proof.
  eexists. split; [vm_compute; reflexivity|].
  vm_compute. reflexivity.
Qed.

(** The Delete of the only key climbs to the root and indexes the array at
    the root's check, -1. *)
Lemma Delete_last_key_panics :
  run_ops 8 [OpInsert (bytes "x") (IInt 1); OpDelete (bytes "x")] NewCedar = Crash.
Proof. vm_compute. reflexivity. Qed.

Lemma Delete_inverse_witness :
  exists da,
    run_ops 8 (map (fun kv => OpInsert kv.1 kv.2)
                   [(bytes "a", IInt 1); (bytes "ab", IInt 2); (bytes "b", IInt 3)]
               ++ map OpDelete [bytes "ab"; bytes "b"]) NewCedar = Ret da /\
    (forall k, k ∈ [bytes "ab"; bytes "b"] ->
       exists x e, Get da k = Ret (x, Some e) /\ (e = ErrNoPath \/ e = ErrNoValue)) /\
    (forall k v, (k, v) ∈ [(bytes "a", IInt 1); (bytes "ab", IInt 2); (bytes "b", IInt 3)] ->
       k ∉ [bytes "ab"; bytes "b"] -> Get da k = Ret (v, None)).
Proof.
  apply (Delete_inverse 8
           [(bytes "a", IInt 1); (bytes "ab", IInt 2); (bytes "b", IInt 3)]
           [bytes "ab"; bytes "b"] (bytes "a")).
  - apply (bool_decide_unpack _). vm_compute. exact I.
  - apply (bool_decide_unpack _). vm_compute. exact I.
  - apply (bool_decide_unpack _). vm_compute. exact I.
  - apply (bool_decide_unpack _). vm_compute. exact I.
  - apply (bool_decide_unpack _). vm_compute. exact I.
  - repeat constructor.
  - vm_compute. congruence.
Defined.

(** ** Key inversion *)



(** The empty key can be inserted, [Jump] of it is the root, and [Key] of
    the root is an error. *)
Lemma Key_of_empty_key :
  exists da,
    run_ops 0 [OpInsert [] (IInt 1)] NewCedar = Ret da /\
    Get da [] = Ret (IInt 1, None) /\
    Jump da [] 0 = Ret (0, None) /\
    Key 8 da 0 = Ret ([], Some ErrInvalidKey).
Proof.
  eexists. split; [vm_compute; reflexivity|].
  split; [vm_compute; reflexivity|].
  split; vm_compute; reflexivity.
Qed.


(** ** Update *)




(** C8, as the code has it: [Update] never writes the value table,
    whether it returns nil or an error.  In a state reached by a history of
    calls on keys without a 0 byte, [Update(k, d)] on a key [k] without a
    0 byte returns and leaves [vals] as it is.  When the call returns nil
    and [k] was never passed to [Insert], the integer [s] stored for [k]
    is the integer found for [k] before the call, or [valueLimit] when
    none was found, plus [d]; it is in [0, valueLimit), and [Get(k)]
    returns the NoValue error unless [s] is smaller than the number of
    [Insert] calls of the history: then the table holds under [s] the
    value of the [Insert] call number [s] (counted from 0), a call on
    another key, and [Get(k)] returns that value. *)
Theorem Update_keeps_vals (fuel : nat) (ops : list op) (da : Cedar)
    (k : list byte) (d : Z) :
  Forall (fun o => NUL ∉ op_key o) ops ->
  Z.of_nat (length ops) <= valueLimit ->
  run_ops fuel ops NewCedar = Ret da ->
  NUL ∉ k ->
  exists da' e,
    Update da k d = Ret (da', e) /\
    vals da' = vals da /\
    (e = None ->
     Forall (fun o => forall v, o <> OpInsert k v) ops ->
     exists s p0,
       lookup_key da k = Ret p0 /\ s = wrap64 (default valueLimit p0 + d) /\
       lookup_key da' k = Ret (Some s) /\ 0 <= s < valueLimit /\
       match inserts ops !! Z.to_nat s with
       | Some (k0, v0) => k0 <> k /\ Get da' k = Ret (v0, None)
       | None => Get da' k = Ret (INil, Some ErrNoValue)
       end).
Proof.
  intros Hnul Hlen Hrun Hk.
  pose proof (Good_run fuel ops NewCedar _ da Good_NewCedar Hnul Hlen Hrun) as HG.
  pose proof (run_ops_Table fuel ops NewCedar _ da [] Good_NewCedar Hnul Hlen
                Table_NewCedar Hrun) as [Hvk Htab].
  cbn [app] in Hvk, Htab.
  destruct HG as (T & HI & HS & HN & _ & _ & Hdom & _).
  destruct (Update_spec da T k d HI HS HN Hk)
    as (da1 & T1 & kk & id & p & _ & GP & _ & _ & _ & Hp & Hres).
  destruct ((wrap64 (p + d) <? 0) || (wrap64 (p + d) >=? valueLimit)) eqn:Hc.
  - exists da1, (Some ErrInvalidValue). split; [exact Hres|].
    split; [exact (gp_vals _ _ _ _ _ _ GP)|discriminate].
  - destruct Hres as (da2 & Hr & HI2 & _ & _ & Hst & _ & Hvals & _).
    exists da2, None. split; [exact Hr|]. split; [exact Hvals|]. intros _ Hnever.
    exists (wrap64 (p + d)), (stored da T k).
    split; [exact (lookup_key_stored da T k HI)|].
    split.
    { destruct Hp as [->|[Hsv ->]]; [reflexivity|].
      unfold storedv in Hsv. destruct (stored da T k) as [v0|]; [|reflexivity].
      destruct (decide (v0 = valueLimit)) as [->|]; [reflexivity|discriminate]. }
    split; [rewrite (lookup_key_stored da2 T1 k HI2); now rewrite Hst|].
    apply orb_false_elim in Hc as [Hc1 Hc2]. apply Z.ltb_ge in Hc1.
    assert (Hs : 0 <= wrap64 (p + d) < valueLimit).
    { destruct (Z.geb_spec (wrap64 (p + d)) valueLimit); [discriminate|lia]. }
    split; [exact Hs|].
    pose proof (Get_stored da2 T1 k _ HI2 Hst) as HGet. rewrite Hvals in HGet.
    destruct (inserts ops !! Z.to_nat (wrap64 (p + d))) as [[k0 v0]|] eqn:E.
    + pose proof (Htab _ _ E) as Hv. rewrite Z2Nat.id in Hv by lia.
      rewrite Hv in HGet. cbn [fst snd Val] in HGet. split; [|exact HGet].
      intros ->. apply list_elem_of_lookup_2 in E. apply inserts_elem in E.
      rewrite Forall_forall in Hnever. exact (Hnever _ E v0 eq_refl).
    + apply lookup_ge_None in E.
      destruct (vals da !! wrap64 (p + d)) as [nv|] eqn:Ev; [|exact HGet].
      exfalso. specialize (Hdom _ (mk_is_Some _ _ Ev)). lia.
Qed.

(** C8, counterexample: the key "b" is never inserted; after
    [Insert("a", 1)] the call [Update("b", -valueLimit)] succeeds and
    stores 0, the value-key of "a", and [Get("b")] returns 1. *)
Lemma Update_then_Get_finds_value :
  exists da da',
    run_ops 0 [OpInsert (bytes "a") (IInt 1)] NewCedar = Ret da /\
    Update da (bytes "b") (- valueLimit) = Ret (da', None) /\
    Get da' (bytes "b") = Ret (IInt 1, None).
Proof.
  eexists _, _. split; [vm_compute; reflexivity|].
  split; [vm_compute; reflexivity|].
  vm_compute. reflexivity.
Qed.

Lemma Update_keeps_vals_witness :
  exists da,
    run_ops 0 [OpInsert (bytes "a") (IInt 1)] NewCedar = Ret da /\
    exists da' e,
      Update da (bytes "b") (-5) = Ret (da', e) /\
      vals da' = vals da /\
      (e = None ->
       Forall (fun o => forall v, o <> OpInsert (bytes "b") v)
              [OpInsert (bytes "a") (IInt 1)] ->
       exists s p0,
         lookup_key da (bytes "b") = Ret p0 /\
         s = wrap64 (default valueLimit p0 + -5) /\
         lookup_key da' (bytes "b") = Ret (Some s) /\ 0 <= s < valueLimit /\
         match inserts [OpInsert (bytes "a") (IInt 1)] !! Z.to_nat s with
         | Some (k0, v0) => k0 <> bytes "b" /\ Get da' (bytes "b") = Ret (v0, None)
         | None => Get da' (bytes "b") = Ret (INil, Some ErrNoValue)
         end).
Proof.
  eexists. split; [vm_compute; reflexivity|].
  apply (Update_keeps_vals 0 [OpInsert (bytes "a") (IInt 1)] _ (bytes "b") (-5)).
  - apply (bool_decide_unpack _). vm_compute. exact I.
  - vm_compute. congruence.
  - vm_compute. reflexivity.
  - apply (bool_decide_unpack _). vm_compute. exact I.
Defined.

(** ** Predictive enumeration *)

(** C9, as the code has it: in a state reached by a history of calls on
    keys without a 0 byte, whose array is shorter than 2^63 and, when [k]
    is empty, whose trie stores a key, [PrefixPredict(k, 0)] for a [k]
    without a 0 byte returns the ids of the nodes that hold the values of
    the stored keys with prefix [k], each once, in the lexicographic order
    of the keys.  The node that holds the value of a key is the node the
    key leads to or, when the key is a prefix of another key, the child
    with label 0 of that node; the loops need no more rounds than twice
    the length of the array. *)
Theorem PrefixPredict_stored_keys (fuel fuel' : nat) (ops : list op)
    (da : Cedar) (k : list byte) :
  Forall (fun o => NUL ∉ op_key o) ops ->
  Z.of_nat (length ops) <= valueLimit ->
  run_ops fuel ops NewCedar = Ret da ->
  NUL ∉ k ->
  (k = [] -> exists k0 v, lookup_key da k0 = Ret (Some v)) ->
  Z.of_nat (length (array da)) < 2 ^ 63 ->
  (2 * length (array da) + 1 <= fuel')%nat ->
  exists L : list (list byte * Z),
    PrefixPredict fuel' da k 0 = Ret L.*2 /\
    StronglySorted (fun a b => lex_lt a.1 b.1) L /\
    forall key id,
      (key, id) ∈ L <-> (NUL ∉ key) /\ k `prefix_of` key /\ holds_value da key id.
Proof.
  intros Hnul Hlen Hrun Hk Hne Harr Hfuel.
  destruct (Good_run fuel ops NewCedar _ da Good_NewCedar Hnul Hlen Hrun)
    as (T & HI & HS & HN & _).
  apply (PrefixPredict_keys da T k fuel' HI HS HN Hk); [|exact Harr|exact Hfuel].
  intros E. destruct (Hne E) as (k0 & v & Hl). exists k0, v.
  rewrite (lookup_key_stored da T k0 HI) in Hl. now injection Hl.
Qed.

(** C9, counterexample: in the empty cedar no key is inserted, and
    [PrefixPredict("", 0)] returns the id of the root. *)
Lemma PrefixPredict_empty_cedar :
  PrefixPredict 8 NewCedar [] 0 = Ret [0].
Proof. vm_compute. reflexivity. Qed.

(** With "ab", "a" and "b" in the cedar, the terminal node of "a" is its
    child with label 0: [PrefixPredict("a", 0)] starts with that node, not
    with the node [Jump("a", 0)]. *)
Lemma PrefixPredict_zero_child :
  exists da,
    run_ops 0 [OpInsert (bytes "ab") (IInt 1); OpInsert (bytes "a") (IInt 2);
               OpInsert (bytes "b") (IInt 3)] NewCedar = Ret da /\
    Jump da (bytes "a") 0 = Ret (97, None) /\
    Jump da (bytes "ab") 0 = Ret (99, None) /\
    PrefixPredict 1025 da (bytes "a") 0 = Ret [1; 99].
Proof.
  eexists. split; [vm_compute; reflexivity|].
  split; [vm_compute; reflexivity|].
  split; vm_compute; reflexivity.
Qed.

Lemma PrefixPredict_stored_keys_witness :
  exists da,
    run_ops 0 [OpInsert (bytes "ab") (IInt 1); OpInsert (bytes "a") (IInt 2);
               OpInsert (bytes "b") (IInt 3)] NewCedar = Ret da /\
    exists L : list (list byte * Z),
      PrefixPredict 1025 da [] 0 = Ret L.*2 /\
      StronglySorted (fun a b => lex_lt a.1 b.1) L /\
      forall key id,
        (key, id) ∈ L <->
        (NUL ∉ key) /\ [] `prefix_of` key /\ holds_value da key id.
Proof.
  eexists. split; [vm_compute; reflexivity|].
  apply (PrefixPredict_stored_keys 0 1025
           [OpInsert (bytes "ab") (IInt 1); OpInsert (bytes "a") (IInt 2);
            OpInsert (bytes "b") (IInt 3)]).
  - apply (bool_decide_unpack _). vm_compute. exact I.
  - vm_compute. congruence.
  - vm_compute. reflexivity.
  - inversion 1.
  - intros _. exists (bytes "a"), 1. vm_compute. reflexivity.
  - vm_compute. reflexivity.
  - apply Nat.leb_le. vm_compute. reflexivity.
Defined.

(** * Further properties *)

(** ** [Jump] *)

(** X1 ([Jump]): a walk can be cut in two.  When [Jump(p1, from)] reaches
    the node [mid], [Jump(p1 ++ p2, from)] is [Jump(p2, mid)], for
    non-empty [p1] and [p2]: the same node, or the same error with the same
    node beside it. *)
Theorem Jump_concat (da : Cedar) (p1 p2 : list byte) (from mid : Z) :
  p1 <> [] -> p2 <> [] -> Jump da p1 from = Ret (mid, None) ->
  Jump da (p1 ++ p2) from = Jump da p2 mid.
Proof. intros H1 H2 HJ. unfold Jump in *. now apply Jump_loop_app. Qed.

Lemma Jump_concat_witness :
  exists da,
    run_ops 0 example_ops NewCedar = Ret da /\
    Jump da (bytes "ab" ++ bytes "cd") 0 = Jump da (bytes "cd") 98.
Proof.
  eexists. split; [vm_compute; reflexivity|].
  apply Jump_concat; [discriminate|discriminate|vm_compute; reflexivity].
Defined.

(** X2 ([Jump]): the only error of [Jump] is [ErrNoPath], and the node
    returned with it is the node where the walk stopped: the node reached
    by a proper prefix [pre] of the path, from which the next byte of the
    path cannot be followed. *)
Theorem Jump_stuck (da : Cedar) (path : list byte) (from x : Z) (e : error) :
  Jump da path from = Ret (x, Some e) ->
  e = ErrNoPath /\
  exists pre b rest,
    path = pre ++ b :: rest /\
    (pre = [] /\ x = from \/ pre <> [] /\ Jump da pre from = Ret (x, None)) /\
    forall y, Jump da [b] x <> Ret (y, None).
Proof.
  intros HJ. destruct (Jump_loop_stuck da path from 0 x e HJ)
    as (-> & pre & b & rest & -> & Hw & Hno).
  split; [reflexivity|]. exists pre, b, rest. split; [reflexivity|]. split.
  - destruct pre as [|c pre].
    + left. split; [reflexivity|]. now inversion Hw.
    + right. split; [discriminate|]. apply Jump_loop_walk; [exact Hw|discriminate].
  - intros y Hy. apply (Hno y). apply (Jump_loop_walk_inv da [b] x 0 y); [discriminate|exact Hy].
Qed.

Lemma Jump_stuck_witness :
  exists da,
    run_ops 0 example_ops NewCedar = Ret da /\
    ErrNoPath = ErrNoPath /\
    exists pre b rest,
      bytes "abx" = pre ++ b :: rest /\
      (pre = [] /\ 98 = 0 \/ pre <> [] /\ Jump da pre 0 = Ret (98, None)) /\
      forall y, Jump da [b] 98 <> Ret (y, None).
Proof.
  eexists. split; [vm_compute; reflexivity|].
  apply (Jump_stuck _ (bytes "abx") 0 98 ErrNoPath). vm_compute. reflexivity.
Defined.

(** ** [Key] *)

(** X3 ([Key]): in a state reached by a history of calls on keys without a
    0 byte, [Key] returns for every slot of the array, within as many
    rounds as the array has slots: [ErrNoPath] exactly for the free slots,
    [ErrInvalidKey] exactly for the root and for the node of the empty key
    (the child of the root with label 0), and else a key that is not empty
    and has no 0 byte.  A free slot is a slot other than the root whose
    check is negative. *)
Theorem Key_of_slot (fuel fuel' : nat) (ops : list op) (da : Cedar) (id : Z)
    (n : node) :
  Forall (fun o => NUL ∉ op_key o) ops ->
  Z.of_nat (length ops) <= valueLimit ->
  run_ops fuel ops NewCedar = Ret da ->
  at_ (array da) id = Some n -> (length (array da) <= fuel')%nat ->
  exists key e,
    Key fuel' da id = Ret (key, e) /\
    (e = Some ErrNoPath <-> id <> 0 /\ Check n < 0) /\
    (e = Some ErrInvalidKey <-> id = 0 \/ Jump da [NUL] 0 = Ret (id, None)) /\
    (e = None -> key <> [] /\ NUL ∉ key).
Proof.
  intros Hnul Hlen Hrun Hn Hfuel.
  destruct (Good_run fuel ops NewCedar _ da Good_NewCedar Hnul Hlen Hrun)
    as (T & HI & HS & HN & _).
  assert (Hocc : forall x nx, Jump da [NUL] 0 = Ret (x, None) ->
            at_ (array da) x = Some nx -> 0 <= Check nx).
  { intros x nx HJ Hx. apply (Jump_placed da T _ _ HI) in HJ.
    destruct (inv_placed da T HI _ _ HJ) as (nx' & Hx' & [[? _]|(_ & _ & Hc)]);
      [discriminate|]. congruence. }
  destruct (Key_slot_Inv da T id n fuel' HI Hn Hfuel)
    as [(Hid & Hc & HK)|(ks & Hks & Hor & HK)].
  - exists [], (Some ErrNoPath). split; [exact HK|]. split; [tauto|]. split.
    + split; [discriminate|]. intros [->|HJ]; [contradiction|].
      pose proof (Hocc id n HJ Hn). lia.
    + discriminate.
  - destruct (decide (strip ks = [])) as [E|E].
    + exists [], (Some ErrInvalidKey). split; [exact HK|]. split; [|split].
      * split; [discriminate|]. intros [Hid Hc]. destruct Hor; [contradiction|lia].
      * split; [intros _|reflexivity].
        destruct (nul_only_last da T ks HI HN) as [Hf|(k' & -> & Hf)]; [now rewrite Hks| |].
        -- rewrite (strip_nul_free ks Hf) in E. subst ks. left.
           rewrite (inv_root _ _ HI) in Hks. now injection Hks.
        -- rewrite (strip_snoc_NUL k' Hf) in E. subst k'. cbn [app] in Hks. right.
           pose proof (Jump_spec da T [NUL] HI) as HJ. now rewrite Hks in HJ.
      * discriminate.
    + exists (strip ks), None. split; [exact HK|]. split; [|split].
      * split; [discriminate|]. intros [Hid Hc]. destruct Hor; [contradiction|lia].
      * split; [discriminate|]. intros [->|HJ].
        -- pose proof (inv_inj _ _ HI _ _ _ Hks (inv_root _ _ HI)) as ->. exfalso. now apply E.
        -- apply (Jump_placed da T _ _ HI) in HJ.
           pose proof (inv_inj _ _ HI _ _ _ Hks HJ) as ->. exfalso. now apply E.
      * intros _. split; [exact E|].
        destruct (nul_only_last da T ks HI HN) as [Hf|(k' & -> & Hf)]; [now rewrite Hks| |].
        -- now rewrite (strip_nul_free ks Hf).
        -- now rewrite (strip_snoc_NUL k' Hf).
Qed.

Lemma Key_of_slot_witness :
  exists da,
    run_ops 0 example_ops NewCedar = Ret da /\
    exists key e,
      Key 512 da 98 = Ret (key, e) /\
      (e = Some ErrNoPath <-> 98 <> 0 /\ Check (mkNode (-4) 97) < 0) /\
      (e = Some ErrInvalidKey <-> 98 = 0 \/ Jump da [NUL] 0 = Ret (98, None)) /\
      (e = None -> key <> [] /\ NUL ∉ key).
Proof.
  eexists. split; [vm_compute; reflexivity|].
  apply (Key_of_slot 0 512 example_ops _ 98 (mkNode (-4) 97)).
  - apply (bool_decide_unpack _). vm_compute. exact I.
  - vm_compute. congruence.
  - vm_compute. reflexivity.
  - vm_compute. reflexivity.
  - apply Nat.leb_le. vm_compute. reflexivity.
Defined.

(** X4 ([Key], [Jump]): in a state reached by a history of calls on keys
    without a 0 byte, a key that [Key(id)] returns leads back: [Jump(key,
    0)] reaches the node [id] itself or, when [id] is a child by the label
    0 (the node that holds the value of a key that is a prefix of another
    key), the node above it. *)
Theorem Jump_after_Key (fuel fuel' : nat) (ops : list op) (da : Cedar) (id : Z)
    (key : list byte) :
  Forall (fun o => NUL ∉ op_key o) ops ->
  Z.of_nat (length ops) <= valueLimit ->
  run_ops fuel ops NewCedar = Ret da ->
  Key fuel' da id = Ret (key, None) ->
  exists j, Jump da key 0 = Ret (j, None) /\
            (j = id \/ Jump da [NUL] j = Ret (id, None)).
Proof.
  intros Hnul Hlen Hrun HK.
  destruct (Good_run fuel ops NewCedar _ da Good_NewCedar Hnul Hlen Hrun)
    as (T & HI & HS & HN & _).
  apply (Key_Jump_Inv da T fuel' id key HI HN HK).
Qed.

Lemma Jump_after_Key_witness :
  exists da,
    run_ops 0 example_ops NewCedar = Ret da /\
    exists j, Jump da (bytes "ab") 0 = Ret (j, None) /\
              (j = 3 \/ Jump da [NUL] j = Ret (3, None)).
Proof.
  eexists. split; [vm_compute; reflexivity|].
  apply (Jump_after_Key 0 600 example_ops _ 3 (bytes "ab")).
  - apply (bool_decide_unpack _). vm_compute. exact I.
  - vm_compute. congruence.
  - vm_compute. reflexivity.
  - vm_compute. reflexivity.
Defined.

(** ** [Insert] *)

(** X5 ([Insert]): in a state reached by a history of fewer than
    [valueLimit] calls on keys without a 0 byte, [Insert] of a key without
    a 0 byte returns, with the nil error, whatever the value is: no value,
    the nil interface and the negative integers included, is refused with
    [ErrInvalidValue]. *)
Theorem Insert_always_succeeds (fuel : nat) (ops : list op) (da : Cedar)
    (key : list byte) (value : iface) :
  Forall (fun o => NUL ∉ op_key o) ops ->
  Z.of_nat (length ops) < valueLimit ->
  run_ops fuel ops NewCedar = Ret da ->
  NUL ∉ key ->
  exists da', Insert da key value = Ret (da', None).
Proof.
  intros Hnul Hlen Hrun Hk.
  pose proof (Good_run fuel ops NewCedar _ da Good_NewCedar Hnul ltac:(cbn; lia) Hrun) as HG.
  pose proof (Good_run_vkey fuel ops NewCedar _ da Good_NewCedar Hnul ltac:(cbn; lia) Hrun)
    as Hv. cbn [vkey NewCedar] in Hv.
  destruct (Good_Insert da _ key value HG Hk) as (da' & Hi & _); [lia|].
  now exists da'.
Qed.

Lemma Insert_always_succeeds_witness :
  exists da,
    run_ops 0 example_ops NewCedar = Ret da /\
    exists da', Insert da [] (IInt (-5)) = Ret (da', None).
Proof.
  eexists. split; [vm_compute; reflexivity|].
  apply (Insert_always_succeeds 0 example_ops).
  - apply (bool_decide_unpack _). vm_compute. exact I.
  - vm_compute. reflexivity.
  - vm_compute. reflexivity.
  - inversion 1.
Defined.

(** X6 ([Insert], [Jump]): [Insert] of a key that has a value moves no
    node.  In a state reached by a history of calls on keys without a 0
    byte, when [Jump] and [vKeyOf] find an integer for [k], [Insert(k, v)]
    returns nil and afterwards [Jump] returns for every path, from every
    node, what it returned before. *)
Theorem Insert_overwrite_keeps_ids (fuel : nat) (ops : list op) (da : Cedar)
    (k : list byte) (p : Z) (v : iface) :
  Forall (fun o => NUL ∉ op_key o) ops ->
  Z.of_nat (length ops) <= valueLimit ->
  run_ops fuel ops NewCedar = Ret da ->
  lookup_key da k = Ret (Some p) ->
  exists da',
    Insert da k v = Ret (da', None) /\
    forall path from, Jump da' path from = Jump da path from.
Proof.
  intros Hnul Hlen Hrun Hl.
  destruct (Good_run fuel ops NewCedar _ da Good_NewCedar Hnul Hlen Hrun)
    as (T & HI & _ & _ & _ & Hvk & _).
  rewrite (lookup_key_stored da T k HI) in Hl. injection Hl as Hs.
  apply (Insert_present da T k p v HI Hs). lia.
Qed.

Lemma Insert_overwrite_keeps_ids_witness :
  exists da,
    run_ops 0 example_ops NewCedar = Ret da /\
    exists da',
      Insert da (bytes "ab") (IInt 5) = Ret (da', None) /\
      forall path from, Jump da' path from = Jump da path from.
Proof.
  eexists. split; [vm_compute; reflexivity|].
  apply (Insert_overwrite_keeps_ids 0 example_ops _ (bytes "ab") 1).
  - apply (bool_decide_unpack _). vm_compute. exact I.
  - vm_compute. congruence.
  - vm_compute. reflexivity.
  - vm_compute. reflexivity.
Defined.

(** ** [Update] *)

(** X7 ([Update]): two calls of [Update] add up.  In a state reached by a
    history of calls on keys without a 0 byte, for a key that stores the
    integer [p]: when [p + d1] and [p + d1 + d2] are both in the range
    [0 <= . < valueLimit], [Update(k, d1)] followed by [Update(k, d2)]
    returns nil twice and ends in the state that the single call
    [Update(k, d1 + d2)] ends in. *)
Theorem Update_accumulates (fuel : nat) (ops : list op) (da : Cedar)
    (k : list byte) (p d1 d2 : Z) :
  Forall (fun o => NUL ∉ op_key o) ops ->
  Z.of_nat (length ops) <= valueLimit ->
  run_ops fuel ops NewCedar = Ret da ->
  lookup_key da k = Ret (Some p) ->
  0 <= p + d1 < valueLimit -> 0 <= p + d1 + d2 < valueLimit ->
  exists da1 da2,
    Update da k d1 = Ret (da1, None) /\ Update da1 k d2 = Ret (da2, None) /\
    Update da k (d1 + d2) = Ret (da2, None).
Proof.
  intros Hnul Hlen Hrun Hl H1 H2.
  destruct (Good_run fuel ops NewCedar _ da Good_NewCedar Hnul Hlen Hrun)
    as (T & HI & _).
  rewrite (lookup_key_stored da T k HI) in Hl. injection Hl as Hs.
  apply (Update_twice_Inv da T k p d1 d2 HI Hs H1 H2).
Qed.

Lemma Update_accumulates_witness :
  exists da,
    run_ops 0 example_ops NewCedar = Ret da /\
    exists da1 da2,
      Update da (bytes "ab") 1 = Ret (da1, None) /\
      Update da1 (bytes "ab") (-2) = Ret (da2, None) /\
      Update da (bytes "ab") (1 + -2) = Ret (da2, None).
Proof.
  eexists. split; [vm_compute; reflexivity|].
  apply (Update_accumulates 0 example_ops _ (bytes "ab") 1 1 (-2)).
  - apply (bool_decide_unpack _). vm_compute. exact I.
  - vm_compute. congruence.
  - vm_compute. reflexivity.
  - vm_compute. reflexivity.
  - vm_compute. split; [congruence|reflexivity].
  - vm_compute. split; [congruence|reflexivity].
Defined.

(** ** [Delete] *)

(** X8 ([Delete]): [Delete] leaves the value side-table alone.  Whatever
    it returns, [vals] and the counter of the value-keys are as before:
    the entry of a deleted key stays in [vals]. *)
Theorem Delete_keeps_vals (fuel : nat) (da : Cedar) (key : list byte)
    (da' : Cedar) (e : option error) :
  Delete fuel da key = Ret (da', e) -> vals da' = vals da /\ vkey da' = vkey da.
Proof. apply Delete_vals. Qed.

Lemma Delete_keeps_vals_witness :
  exists da da',
    run_ops 0 example_ops NewCedar = Ret da /\
    Delete 8 da (bytes "ab") = Ret (da', None) /\
    vals da' = vals da /\ vkey da' = vkey da.
Proof.
  eexists _, _. split; [vm_compute; reflexivity|].
  split; [vm_compute; reflexivity|].
  apply (Delete_keeps_vals 8 _ (bytes "ab") _ None). vm_compute. reflexivity.
Defined.

(** X9 ([Delete]): in a state reached by a history of calls on keys
    without a 0 byte, [Delete] of a key that the history knows absent (never
    inserted, or deleted since, and not touched by [Update]) returns
    [ErrNoPath] or [ErrNoValue] and leaves the cedar as it is, whatever the
    fuel; the error is [ErrNoValue] when the key is a prefix of a key that
    the history holds. *)
Theorem Delete_absent (fuel fuel' : nat) (ops : list op) (da : Cedar)
    (k : list byte) :
  Forall (fun o => NUL ∉ op_key o) ops ->
  Z.of_nat (length ops) <= valueLimit ->
  run_ops fuel ops NewCedar = Ret da ->
  NUL ∉ k -> model_of ops k = Absent ->
  (Delete fuel' da k = Ret (da, Some ErrNoPath) \/
   Delete fuel' da k = Ret (da, Some ErrNoValue)) /\
  forall suf v, NUL ∉ (k ++ suf) -> model_of ops (k ++ suf) = Holds v ->
    Delete fuel' da k = Ret (da, Some ErrNoValue).
Proof.
  intros Hnul Hlen Hrun Hk Hab.
  pose proof (Good_run fuel ops NewCedar _ da Good_NewCedar Hnul Hlen Hrun) as HG.
  apply (Delete_absent_Good fuel' da _ k HG Hk Hab).
Qed.

Lemma Delete_absent_witness :
  exists da,
    run_ops 0 example_ops NewCedar = Ret da /\
    (Delete 0 da (bytes "a") = Ret (da, Some ErrNoPath) \/
     Delete 0 da (bytes "a") = Ret (da, Some ErrNoValue)) /\
    forall suf v, NUL ∉ (bytes "a" ++ suf) ->
      model_of example_ops (bytes "a" ++ suf) = Holds v ->
      Delete 0 da (bytes "a") = Ret (da, Some ErrNoValue).
Proof.
  eexists. split; [vm_compute; reflexivity|].
  apply (Delete_absent 0 0 example_ops _ (bytes "a")).
  - apply (bool_decide_unpack _). vm_compute. exact I.
  - vm_compute. congruence.
  - vm_compute. reflexivity.
  - apply (bool_decide_unpack _). vm_compute. exact I.
  - vm_compute. reflexivity.
Defined.

(** X10 ([Delete], [Jump]): [Delete] moves no node.  In a state reached by
    a history of calls on keys without a 0 byte, after a [Delete] that
    returns nil every other key without a 0 byte that had a value is found
    at the same node id, with the same value. *)
Theorem Delete_keeps_ids (fuel fuel' : nat) (ops : list op) (da da' : Cedar)
    (key k' : list byte) (id : Z) (x : iface) :
  Forall (fun o => NUL ∉ op_key o) ops ->
  Z.of_nat (length ops) <= valueLimit ->
  run_ops fuel ops NewCedar = Ret da ->
  NUL ∉ key -> Delete fuel' da key = Ret (da', None) ->
  NUL ∉ k' -> k' <> key ->
  Jump da k' 0 = Ret (id, None) -> Get da k' = Ret (x, None) ->
  Jump da' k' 0 = Ret (id, None) /\ Get da' k' = Ret (x, None).
Proof.
  intros Hnul Hlen Hrun Hk Hd Hk' Hne HJ HG.
  destruct (Good_run fuel ops NewCedar _ da Good_NewCedar Hnul Hlen Hrun)
    as (T & HI & _).
  destruct (Delete_vals fuel' da key da' None Hd) as [Hvals _].
  assert (Hl : exists vk, lookup_key da k' = Ret (Some vk) /\
                          vKeyOf da id = Ret (vk, None)).
  { unfold Get in HG. unfold lookup_key. rewrite HJ in *. cbn [bind] in *.
    destruct (vKeyOf da id) as [[vk [er|]]| |]; cbn [bind] in *; try discriminate.
    now exists vk. }
  destruct Hl as (vk & Hl & Hv).
  destruct (Delete_ids_Inv fuel' da T key da' HI Hk Hd k' id vk Hk' Hne HJ Hl) as [HJ' Hl'].
  split; [exact HJ'|].
  unfold Get in *. unfold lookup_key in Hl'. rewrite HJ in HG. rewrite HJ' in *.
  cbn [bind] in *. rewrite Hv in HG. cbn [bind] in HG.
  destruct (vKeyOf da' id) as [[vk' [er|]]| |]; cbn [bind] in *; try discriminate.
  injection Hl' as ->. now rewrite Hvals.
Qed.

Lemma Delete_keeps_ids_witness :
  exists da da',
    run_ops 0 example_ops NewCedar = Ret da /\
    Delete 8 da (bytes "ab") = Ret (da', None) /\
    Jump da' (bytes "abcd") 0 = Ret (101, None) /\
    Get da' (bytes "abcd") = Ret (IInt 37, None).
Proof.
  eexists _, _. split; [vm_compute; reflexivity|].
  split; [vm_compute; reflexivity|].
  eapply (Delete_keeps_ids 0 8 example_ops _ _ (bytes "ab") (bytes "abcd") 101 (IInt 37)).
  - apply (bool_decide_unpack _). vm_compute. exact I.
  - vm_compute. congruence.
  - vm_compute. reflexivity.
  - apply (bool_decide_unpack _). vm_compute. exact I.
  - vm_compute. reflexivity.
  - apply (bool_decide_unpack _). vm_compute. exact I.
  - discriminate.
  - vm_compute. reflexivity.
  - vm_compute. reflexivity.
Defined.

(** X11 ([Delete]): [Delete] returns.  In a state reached by a history of
    calls on keys without a 0 byte that holds a key other than [k],
    [Delete(k)] neither panics nor runs on: its loop ends within as many
    rounds as [k] has bytes, and one more. *)
Theorem Delete_returns (fuel fuel' : nat) (ops : list op) (da : Cedar)
    (k k0 : list byte) (v0 : iface) :
  Forall (fun o => NUL ∉ op_key o) ops ->
  Z.of_nat (length ops) <= valueLimit ->
  run_ops fuel ops NewCedar = Ret da ->
  NUL ∉ k -> NUL ∉ k0 -> k0 <> k -> model_of ops k0 = Holds v0 ->
  (length k < fuel')%nat ->
  exists da' e, Delete fuel' da k = Ret (da', e).
Proof.
  intros Hnul Hlen Hrun Hk Hk0 Hne Hh Hfuel.
  pose proof (Good_run fuel ops NewCedar _ da Good_NewCedar Hnul Hlen Hrun) as HG.
  apply (Delete_total fuel' da _ k k0 v0 HG Hk Hk0 Hne Hh Hfuel).
Qed.

Lemma Delete_returns_witness :
  exists da,
    run_ops 0 example_ops NewCedar = Ret da /\
    exists da' e, Delete 4 da (bytes "abc") = Ret (da', e).
Proof.
  eexists. split; [vm_compute; reflexivity|].
  apply (Delete_returns 0 4 example_ops _ (bytes "abc") (bytes "ab") (IInt 23)).
  - apply (bool_decide_unpack _). vm_compute. exact I.
  - vm_compute. congruence.
  - vm_compute. reflexivity.
  - apply (bool_decide_unpack _). vm_compute. exact I.
  - apply (bool_decide_unpack _). vm_compute. exact I.
  - discriminate.
  - vm_compute. reflexivity.
  - cbn. lia.
Defined.

(** ** [Get] *)

(** X12 ([Get]): in a state reached by a history of calls on keys without
    a 0 byte, [Get] of a key that the history knows absent returns the
    integer 0 with [ErrNoPath] or the nil interface with [ErrNoValue]; it
    is nil with [ErrNoValue] when the key is a prefix of a key that the
    history holds. *)
Theorem Get_absent (fuel : nat) (ops : list op) (da : Cedar) (k : list byte) :
  Forall (fun o => NUL ∉ op_key o) ops ->
  Z.of_nat (length ops) <= valueLimit ->
  run_ops fuel ops NewCedar = Ret da ->
  NUL ∉ k -> model_of ops k = Absent ->
  (Get da k = Ret (IInt 0, Some ErrNoPath) \/ Get da k = Ret (INil, Some ErrNoValue)) /\
  forall suf v, NUL ∉ (k ++ suf) -> model_of ops (k ++ suf) = Holds v ->
    Get da k = Ret (INil, Some ErrNoValue).
Proof.
  intros Hnul Hlen Hrun Hk Hab.
  pose proof (Good_run fuel ops NewCedar _ da Good_NewCedar Hnul Hlen Hrun) as HG.
  apply (Get_absent_Good da _ k HG Hk Hab).
Qed.

Lemma Get_absent_witness :
  exists da,
    run_ops 0 example_ops NewCedar = Ret da /\
    (Get da (bytes "a") = Ret (IInt 0, Some ErrNoPath) \/
     Get da (bytes "a") = Ret (INil, Some ErrNoValue)) /\
    forall suf v, NUL ∉ (bytes "a" ++ suf) ->
      model_of example_ops (bytes "a" ++ suf) = Holds v ->
      Get da (bytes "a") = Ret (INil, Some ErrNoValue).
Proof.
  eexists. split; [vm_compute; reflexivity|].
  apply (Get_absent 0 example_ops _ (bytes "a")).
  - apply (bool_decide_unpack _). vm_compute. exact I.
  - vm_compute. congruence.
  - vm_compute. reflexivity.
  - apply (bool_decide_unpack _). vm_compute. exact I.
  - vm_compute. reflexivity.
Defined.

(** X13 ([Get]): [Get] does not panic.  In a state reached by a history of
    calls on keys without a 0 byte, [Get] returns for every key, a key
    with 0 bytes included, and its error is nil, [ErrNoPath] or
    [ErrNoValue]. *)
Theorem Get_returns (fuel : nat) (ops : list op) (da : Cedar) (key : list byte) :
  Forall (fun o => NUL ∉ op_key o) ops ->
  Z.of_nat (length ops) <= valueLimit ->
  run_ops fuel ops NewCedar = Ret da ->
  exists x e, Get da key = Ret (x, e) /\
              (e = None \/ e = Some ErrNoPath \/ e = Some ErrNoValue).
Proof.
  intros Hnul Hlen Hrun.
  destruct (Good_run fuel ops NewCedar _ da Good_NewCedar Hnul Hlen Hrun)
    as (T & HI & _).
  pose proof (Jump_spec da T key HI) as HJ. unfold Get.
  destruct (T key) as [t|] eqn:Ht.
  - rewrite HJ. cbn [bind]. rewrite (vKeyOf_spec da T key t HI Ht).
    destruct (stored da T key) as [v|]; cbn [bind]; [|eauto 6].
    destruct (vals da !! v); eauto 6.
  - destruct HJ as (x & ->). cbn [bind]. eauto 6.
Qed.

Lemma Get_returns_witness :
  exists da,
    run_ops 0 example_ops NewCedar = Ret da /\
    exists x e, Get da (bytes "ab" ++ [NUL]) = Ret (x, e) /\
                (e = None \/ e = Some ErrNoPath \/ e = Some ErrNoValue).
Proof.
  eexists. split; [vm_compute; reflexivity|].
  apply (Get_returns 0 example_ops).
  - apply (bool_decide_unpack _). vm_compute. exact I.
  - vm_compute. congruence.
  - vm_compute. reflexivity.
Defined.


(** ** [PrefixMatch] *)

(** X14 ([PrefixMatch]): in a state reached by a history of calls on keys
    without a 0 byte, [PrefixMatch(key, 0)] returns, and what it returns
    are the nodes [Jump(p, 0)] of the non-empty prefixes [p] of [key] on
    which [vKeyOf] succeeds, each once, the shorter prefix first.  The
    empty prefix, the root, is never among them. *)
Theorem PrefixMatch_prefixes (fuel : nat) (ops : list op) (da : Cedar)
    (key : list byte) :
  Forall (fun o => NUL ∉ op_key o) ops ->
  Z.of_nat (length ops) <= valueLimit ->
  run_ops fuel ops NewCedar = Ret da ->
  Z.of_nat (length key) <= 2 ^ 63 ->
  exists L : list (list byte * Z),
    PrefixMatch da key 0 = Ret L.*2 /\
    StronglySorted (fun a b => (length a.1 < length b.1)%nat) L /\
    forall p id, (p, id) ∈ L <->
      p <> [] /\ p `prefix_of` key /\ Jump da p 0 = Ret (id, None) /\
      exists vk, vKeyOf da id = Ret (vk, None).
Proof.
  intros Hnul Hlen Hrun Hkey.
  destruct (Good_run fuel ops NewCedar _ da Good_NewCedar Hnul Hlen Hrun)
    as (T & HI & _).
  destruct (PrefixMatch_Inv da T key HI Hkey) as (L & Hs & HL & Hnum).
  exists L. split; [apply (Hnum 0); lia|]. split; [exact Hs|exact HL].
Qed.

Lemma PrefixMatch_prefixes_witness :
  exists da,
    run_ops 0 example_ops NewCedar = Ret da /\
    exists L : list (list byte * Z),
      PrefixMatch da (bytes "abcd") 0 = Ret L.*2 /\
      StronglySorted (fun a b => (length a.1 < length b.1)%nat) L /\
      forall p id, (p, id) ∈ L <->
        p <> [] /\ p `prefix_of` bytes "abcd" /\ Jump da p 0 = Ret (id, None) /\
        exists vk, vKeyOf da id = Ret (vk, None).
Proof.
  eexists. split; [vm_compute; reflexivity|].
  apply (PrefixMatch_prefixes 0 example_ops).
  - apply (bool_decide_unpack _). vm_compute. exact I.
  - vm_compute. congruence.
  - vm_compute. reflexivity.
  - vm_compute. congruence.
Defined.

(** X15 ([PrefixMatch]): the bound [num].  In a state reached by a history
    of calls on keys without a 0 byte, [PrefixMatch(key, num)] with a
    positive [num] returns the first [num] of the nodes that
    [PrefixMatch(key, 0)] returns, and all of them when there are fewer; a
    negative [num] is no bound at all. *)
Theorem PrefixMatch_at_most_num (fuel : nat) (ops : list op) (da : Cedar)
    (key : list byte) (num : Z) :
  Forall (fun o => NUL ∉ op_key o) ops ->
  Z.of_nat (length ops) <= valueLimit ->
  run_ops fuel ops NewCedar = Ret da ->
  Z.of_nat (length key) <= 2 ^ 63 ->
  - 2 ^ 63 + Z.of_nat (length key) <= num < 2 ^ 63 ->
  exists ids,
    PrefixMatch da key 0 = Ret ids /\
    PrefixMatch da key num
    = Ret (if 0 <? num then take (Z.to_nat num) ids else ids).
Proof.
  intros Hnul Hlen Hrun Hkey Hnum.
  destruct (Good_run fuel ops NewCedar _ da Good_NewCedar Hnul Hlen Hrun)
    as (T & HI & _).
  destruct (PrefixMatch_Inv da T key HI Hkey) as (L & _ & _ & Hrun').
  exists L.*2. split; [apply (Hrun' 0); lia|apply (Hrun' num Hnum)].
Qed.

Lemma PrefixMatch_at_most_num_witness :
  exists da,
    run_ops 0 example_ops NewCedar = Ret da /\
    exists ids,
      PrefixMatch da (bytes "abcd") 0 = Ret ids /\
      PrefixMatch da (bytes "abcd") 2
      = Ret (if 0 <? 2 then take (Z.to_nat 2) ids else ids).
Proof.
  eexists. split; [vm_compute; reflexivity|].
  apply (PrefixMatch_at_most_num 0 example_ops).
  - apply (bool_decide_unpack _). vm_compute. exact I.
  - vm_compute. congruence.
  - vm_compute. reflexivity.
  - vm_compute. congruence.
  - vm_compute. split; congruence.
Defined.

(** X16 ([PrefixMatch], [Get]): in a state reached by a history of calls
    on keys without a 0 byte, [PrefixMatch(key, 0)] reports every key that
    the history holds and that is a non-empty prefix of [key]: the node
    [Jump(p, 0)] of such a key [p] is among the nodes returned, and
    [Get(p)] returns its value. *)
Theorem PrefixMatch_finds_inserted (fuel : nat) (ops : list op) (da : Cedar)
    (key p : list byte) (v : iface) :
  Forall (fun o => NUL ∉ op_key o) ops ->
  Z.of_nat (length ops) <= valueLimit ->
  run_ops fuel ops NewCedar = Ret da ->
  Z.of_nat (length key) <= 2 ^ 63 ->
  p <> [] -> p `prefix_of` key -> NUL ∉ p -> model_of ops p = Holds v ->
  exists ids id,
    PrefixMatch da key 0 = Ret ids /\ Jump da p 0 = Ret (id, None) /\ id ∈ ids /\
    Get da p = Ret (v, None).
Proof.
  intros Hnul Hlen Hrun Hkey Hne Hpre Hp Hh.
  pose proof (Good_run fuel ops NewCedar _ da Good_NewCedar Hnul Hlen Hrun) as HG.
  pose proof (Get_Good da _ p HG Hp) as Hget. fold (model_of ops) in Hget.
  rewrite Hh in Hget.
  destruct HG as (T & HI & _).
  destruct (PrefixMatch_Inv da T key HI Hkey) as (L & _ & HL & Hrun').
  pose proof (Jump_spec da T p HI) as HJ. pose proof Hget as Hget'.
  unfold Get in Hget'.
  destruct (T p) as [id|] eqn:Hid;
    [|destruct HJ as (x & HJ); rewrite HJ in Hget'; discriminate].
  rewrite HJ in Hget'. cbn [bind] in Hget'.
  exists L.*2, id. split; [apply (Hrun' 0); lia|]. split; [exact HJ|]. split; [|exact Hget].
  apply list_elem_of_fmap. exists (p, id). split; [reflexivity|]. apply HL.
  split; [exact Hne|]. split; [exact Hpre|]. split; [exact HJ|].
  destruct (vKeyOf da id) as [[vk [e|]]| |]; cbn [bind] in Hget'; try discriminate.
  now exists vk.
Qed.

Lemma PrefixMatch_finds_inserted_witness :
  exists da,
    run_ops 0 example_ops NewCedar = Ret da /\
    exists ids id,
      PrefixMatch da (bytes "abcd") 0 = Ret ids /\
      Jump da (bytes "ab") 0 = Ret (id, None) /\ id ∈ ids /\
      Get da (bytes "ab") = Ret (IInt 23, None).
Proof.
  eexists. split; [vm_compute; reflexivity|].
  apply (PrefixMatch_finds_inserted 0 example_ops _ (bytes "abcd") (bytes "ab")).
  - apply (bool_decide_unpack _). vm_compute. exact I.
  - vm_compute. congruence.
  - vm_compute. reflexivity.
  - vm_compute. congruence.
  - discriminate.
  - exists (bytes "cd"). reflexivity.
  - apply (bool_decide_unpack _). vm_compute. exact I.
  - vm_compute. reflexivity.
Defined.

(** ** [PrefixPredict] *)

(** X17 ([PrefixPredict]): the bound [num].  In a state reached by a
    history of calls on keys without a 0 byte, whose array is shorter than
    2^63 and, when [k] is empty, whose trie stores a key,
    [PrefixPredict(k, num)] with a positive [num] returns the first [num]
    of the nodes that [PrefixPredict(k, 0)] returns, and all of them when
    there are fewer; a negative [num] is no bound at all. *)
Theorem PrefixPredict_at_most_num (fuel fuel' : nat) (ops : list op)
    (da : Cedar) (k : list byte) (num : Z) :
  Forall (fun o => NUL ∉ op_key o) ops ->
  Z.of_nat (length ops) <= valueLimit ->
  run_ops fuel ops NewCedar = Ret da ->
  (k = [] -> exists k0 v, lookup_key da k0 = Ret (Some v)) ->
  Z.of_nat (length (array da)) < 2 ^ 63 ->
  (2 * length (array da) + 1 <= fuel')%nat ->
  - 2 ^ 63 + Z.of_nat (length (array da)) <= num < 2 ^ 63 ->
  exists ids,
    PrefixPredict fuel' da k 0 = Ret ids /\
    PrefixPredict fuel' da k num
    = Ret (if 0 <? num then take (Z.to_nat num) ids else ids).
Proof.
  intros Hnul Hlen Hrun Hne Harr Hfuel Hnum.
  destruct (Good_run fuel ops NewCedar _ da Good_NewCedar Hnul Hlen Hrun)
    as (T & HI & HS & HN & _).
  destruct (PrefixPredict_num_Inv da T k fuel' HI HS HN) as (ids & H0 & Hgen);
    [|exact Harr|exact Hfuel|].
  - intros E. destruct (Hne E) as (k0 & v & Hl). exists k0, v.
    rewrite (lookup_key_stored da T k0 HI) in Hl. now injection Hl.
  - exists ids. split; [exact H0|apply (Hgen num Hnum)].
Qed.

Lemma PrefixPredict_at_most_num_witness :
  exists da,
    run_ops 0 example_ops NewCedar = Ret da /\
    exists ids,
      PrefixPredict 1025 da (bytes "ab") 0 = Ret ids /\
      PrefixPredict 1025 da (bytes "ab") 2
      = Ret (if 0 <? 2 then take (Z.to_nat 2) ids else ids).
Proof.
  eexists. split; [vm_compute; reflexivity|].
  apply (PrefixPredict_at_most_num 0 1025 example_ops).
  - apply (bool_decide_unpack _). vm_compute. exact I.
  - vm_compute. congruence.
  - vm_compute. reflexivity.
  - discriminate.
  - vm_compute. reflexivity.
  - apply Nat.leb_le. vm_compute. reflexivity.
  - vm_compute. split; congruence.
Defined.

(** ** [FindOne] and [FindAll] *)

(** X18 ([FindOne], [FindAll]): the empty key matches nothing.  Whatever
    the cedar holds, the empty key and the pattern "*" included,
    [FindOne] of the empty key returns [ErrNoPath] and [FindAll] of the
    empty key does not call the callback. *)
Theorem Find_empty_key (extra : Z -> nat) (grown fuel : nat) (da : Cedar) :
  FindOne extra grown (S (S fuel)) da [] = Ret (INil, Some ErrNoPath) /\
  FindAll extra grown (S (S fuel)) da [] = Ret [].
Proof. split; [apply FindOne_nil|apply FindAll_nil]. Qed.

(** X19 ([FindOne]): the bare wildcard comes first.  When the root has a
    child by ['*'] whose terminal flag is set, as after [Insert("*", v)]
    into a cedar without other patterns that start with a ['*'],
    [FindOne] of every non-empty key returns what [Get("*")] returns,
    whatever else the cedar holds. *)
Theorem FindOne_bare_star (extra : Z -> nat) (grown fuel : nat) (da : Cedar)
    (key : list byte) (t : Z) :
  key <> [] -> Jump da [STAR] 0 = Ret (t, None) -> isEnd da t = Ret true ->
  FindOne extra grown (S fuel) da key = Get da [STAR].
Proof. apply FindOne_root_star. Qed.

Lemma FindOne_bare_star_witness :
  exists da,
    run_ops 0 star_ops NewCedar = Ret da /\
    Get da (bytes "abc") = Ret (IInt 19, None) /\
    Get da [STAR] = Ret (IInt 7, None) /\
    FindOne doubling 0 1 da (bytes "abc") = Get da [STAR].
Proof.
  eexists. split; [vm_compute; reflexivity|].
  split; [vm_compute; reflexivity|]. split; [vm_compute; reflexivity|].
  apply (FindOne_bare_star doubling 0 0 _ (bytes "abc") 42).
  - discriminate.
  - vm_compute. reflexivity.
  - vm_compute. reflexivity.
Defined.

(** X20 ([FindAll]): the bare wildcard hides the other patterns.  When the
    root has a child [t] by ['*'] whose terminal flag is set and that
    holds the value [v], [FindAll] of every non-empty key calls the
    callback once, with [v] and the rule [Key(t)], and reports no other
    pattern, whatever else the cedar holds. *)
Theorem FindAll_bare_star (extra : Z -> nat) (grown fuel : nat) (da : Cedar)
    (key : list byte) (t : Z) (v : iface) (rule : list byte)
    (ke : option error) :
  key <> [] -> Jump da [STAR] 0 = Ret (t, None) -> isEnd da t = Ret true ->
  Get da [STAR] = Ret (v, None) -> Key (S (S fuel)) da t = Ret (rule, ke) ->
  FindAll extra grown (S (S fuel)) da key = Ret [(v, rule)].
Proof.
  intros Hne HJ HE HG HK.
  rewrite (FindAll_root_star extra grown fuel da key t Hne HJ HE). unfold report.
  unfold Get in HG. rewrite HJ in HG. cbn [bind] in HG.
  destruct (vKeyOf da t) as [[vk [e|]]| |]; cbn [bind] in *; try discriminate.
  destruct (vals da !! vk) as [nv|]; [|discriminate]. injection HG as <-.
  rewrite HK. reflexivity.
Qed.

Lemma FindAll_bare_star_witness :
  exists da,
    run_ops 0 star_ops NewCedar = Ret da /\
    Get da (bytes "abc") = Ret (IInt 19, None) /\
    FindAll doubling 0 2 da (bytes "abc") = Ret [(IInt 7, bytes "*")].
Proof.
  eexists. split; [vm_compute; reflexivity|].
  split; [vm_compute; reflexivity|].
  apply (FindAll_bare_star doubling 0 0 _ (bytes "abc") 42 (IInt 7) (bytes "*") None).
  - discriminate.
  - vm_compute. reflexivity.
  - vm_compute. reflexivity.
  - vm_compute. reflexivity.
  - vm_compute. reflexivity.
Defined.

(** X21 ([FindOne]): without wildcards [FindOne] is an exact lookup that
    asks for the terminal flag.  In a cedar none of whose slots has an
    edge by ['*'], [FindOne(key)] for a non-empty [key] returns
    [ErrNoPath] when [Jump(key, 0)] fails or reaches a node whose terminal
    flag is not set, and what [Get(key)] returns when the flag is set; it
    needs no more rounds than [key] has bytes, and one more. *)
Theorem FindOne_without_star (extra : Z -> nat) (grown fuel : nat)
    (da : Cedar) (key : list byte) (t : Z) (e : option error) :
  (forall id, 0 <= id < Z.of_nat (length (array da)) ->
     exists x, Jump da [STAR] id = Ret (x, Some ErrNoPath)) ->
  key <> [] -> (length key < fuel)%nat -> Jump da key 0 = Ret (t, e) ->
  (e <> None -> FindOne extra grown fuel da key = Ret (INil, Some ErrNoPath)) /\
  (e = None -> isEnd da t = Ret false ->
   FindOne extra grown fuel da key = Ret (INil, Some ErrNoPath)) /\
  (e = None -> isEnd da t = Ret true ->
   FindOne extra grown fuel da key = Get da key).
Proof.
  intros Hns Hne Hfuel HJ.
  rewrite (FindOne_nostar da extra Hns grown fuel key t e Hne Hfuel HJ).
  split; [|split].
  - intros He. destruct e; [reflexivity|congruence].
  - intros -> HE. now rewrite HE.
  - intros -> HE. now rewrite HE.
Qed.

Lemma FindOne_without_star_witness :
  exists da,
    run_ops 0 example_ops NewCedar = Ret da /\
    Get da (bytes "abc") = Ret (IInt 19, None) /\
    FindOne doubling 0 4 da (bytes "abc") = Get da (bytes "abc").
Proof.
  eexists. split; [vm_compute; reflexivity|].
  split; [vm_compute; reflexivity|].
  refine (proj2 (proj2
            (FindOne_without_star doubling 0 4 _ (bytes "abc") 96 None _ _ _ _))
            eq_refl _).
  - apply no_star_check. vm_compute. reflexivity.
  - discriminate.
  - cbn. lia.
  - vm_compute. reflexivity.
  - vm_compute. reflexivity.
Defined.

(** X22 ([FindAll]): without wildcards [FindAll] reports at most the key
    itself.  In a cedar none of whose slots has an edge by ['*'],
    [FindAll(key)] for a non-empty [key] calls the callback once, with the
    value [Get(key)] and the rule [Key(t)], when [Jump(key, 0)] reaches a
    node [t] whose terminal flag is set and [Get(key)] succeeds; in every
    other case it does not call it. *)
Theorem FindAll_without_star (extra : Z -> nat) (grown fuel f0 : nat)
    (da : Cedar) (key : list byte) (t : Z) (e : option error) :
  (forall id, 0 <= id < Z.of_nat (length (array da)) ->
     exists x, Jump da [STAR] id = Ret (x, Some ErrNoPath)) ->
  key <> [] -> (f0 + length key <= fuel)%nat -> (0 < f0)%nat ->
  Jump da key 0 = Ret (t, e) ->
  (e <> None -> FindAll extra grown fuel da key = Ret []) /\
  (e = None -> isEnd da t = Ret false -> FindAll extra grown fuel da key = Ret []) /\
  (e = None -> isEnd da t = Ret true ->
   forall x er, Get da key = Ret (x, Some er) ->
     FindAll extra grown fuel da key = Ret []) /\
  (e = None -> isEnd da t = Ret true ->
   forall v rule ke, Get da key = Ret (v, None) -> Key f0 da t = Ret (rule, ke) ->
     FindAll extra grown fuel da key = Ret [(v, rule)]).
Proof. intros Hns. apply (FindAll_nostar da extra Hns). Qed.

Lemma FindAll_without_star_witness :
  exists da,
    run_ops 0 example_ops NewCedar = Ret da /\
    isEnd da 96 = Ret true /\
    Get da (bytes "abc") = Ret (IInt 19, None) /\
    Key 4 da 96 = Ret (bytes "abc", None) /\
    FindAll doubling 0 7 da (bytes "abc") = Ret [(IInt 19, bytes "abc")].
Proof.
  eexists. split; [vm_compute; reflexivity|].
  split; [vm_compute; reflexivity|]. split; [vm_compute; reflexivity|].
  split; [vm_compute; reflexivity|].
  refine (proj2 (proj2 (proj2
            (FindAll_without_star doubling 0 7 4 _ (bytes "abc") 96 None _ _ _ _ _)))
            eq_refl _
            (IInt 19) (bytes "abc") None _ _).
  - apply no_star_check. vm_compute. reflexivity.
  - discriminate.
  - cbn. lia.
  - lia.
  - vm_compute. reflexivity.
  - vm_compute. reflexivity.
  - vm_compute. reflexivity.
  - vm_compute. reflexivity.
Defined.

(** X23 ([FindOne]): a pattern that ends in ['*'] matches every key it is
    a proper prefix of.  In a state reached by a history of calls on keys
    without a 0 byte, let [p] have no ['*'], let the node of [p ++ "*"]
    have its terminal flag set and let no node of [q ++ "*"], for a proper
    prefix [q] of [p], have it set.  Then [FindOne] of every key
    [p ++ rest] with a non-empty [rest] returns what [Get(p ++ "*")]
    returns, also when the key itself is stored; it needs no more rounds
    than [p] has bytes, and two more. *)
Theorem FindOne_prefix_wildcard (extra : Z -> nat) (grown fuel fuel' : nat)
    (ops : list op) (da : Cedar) (p rest : list byte) (s : Z) :
  Forall (fun o => NUL ∉ op_key o) ops ->
  Z.of_nat (length ops) <= valueLimit ->
  run_ops fuel ops NewCedar = Ret da ->
  STAR ∉ p -> rest <> [] ->
  Jump da (p ++ [STAR]) 0 = Ret (s, None) -> isEnd da s = Ret true ->
  (forall q s', q `prefix_of` p -> q <> p ->
     Jump da (q ++ [STAR]) 0 = Ret (s', None) -> isEnd da s' = Ret false) ->
  (length p + 1 < fuel')%nat ->
  FindOne extra grown fuel' da (p ++ rest) = Get da (p ++ [STAR]).
Proof.
  intros Hnul Hlen Hrun Hp Hne HJ HE Hq Hfuel.
  destruct (Good_run fuel ops NewCedar _ da Good_NewCedar Hnul Hlen Hrun)
    as (T & HI & _).
  pose proof (Jump_placed da T _ _ HI HJ) as Hs.
  destruct (placed_prefix da T p [STAR] HI) as [t Ht]; [now rewrite Hs|].
  pose proof (Jump_edge da T p STAR t HI Ht) as Hst. rewrite Hs in Hst.
  apply (FindOne_prefix_star da T HI extra p t s Hp Ht Hst HE); [|exact Hne|exact Hfuel].
  intros q u s' Hpre Hqp Hu Hus. apply (Hq q s' Hpre Hqp).
  pose proof (Jump_edge da T q STAR u HI Hu) as Hst'.
  pose proof (Jump_spec da T (q ++ [STAR]) HI) as HJ'.
  destruct (T (q ++ [STAR])) as [s2|]; [congruence|].
  destruct Hst' as (x & Hst'). congruence.
Qed.

Lemma FindOne_prefix_wildcard_witness :
  exists da,
    run_ops 0 prefix_star_ops NewCedar = Ret da /\
    Get da (bytes "abc") = Ret (IInt 2, None) /\
    Get da (bytes "ab*") = Ret (IInt 1, None) /\
    FindOne doubling 0 4 da (bytes "ab" ++ bytes "c") = Get da (bytes "ab" ++ [STAR]).
Proof.
  eexists. split; [vm_compute; reflexivity|].
  split; [vm_compute; reflexivity|]. split; [vm_compute; reflexivity|].
  apply (FindOne_prefix_wildcard doubling 0 0 4 prefix_star_ops _ (bytes "ab")
           (bytes "c") 42).
  - apply (bool_decide_unpack _). vm_compute. exact I.
  - vm_compute. congruence.
  - vm_compute. reflexivity.
  - apply (bool_decide_unpack _). vm_compute. exact I.
  - discriminate.
  - vm_compute. reflexivity.
  - vm_compute. reflexivity.
  - intros q s' [r E] Hne HJ. exfalso.
    destruct q as [|a1 [|a2 [|a3 q]]]; cbn in E.
    + vm_compute in HJ. discriminate.
    + injection E as <- _. vm_compute in HJ. discriminate.
    + injection E as <- <- _. now apply Hne.
    + discriminate.
  - cbn. lia.
Defined.

(** ** [Status] *)

(** X24 ([Status]): when [size] is at most the length of the array,
    [Status] returns without a panic, with [size] and [capacity] as they
    are, and its counts are ordered: [0 <= keys <= nodes <= size]. *)
Theorem Status_counts (da : Cedar) (size capacity : Z) :
  0 <= size <= Z.of_nat (length (array da)) -> size < 2 ^ 63 ->
  exists keys nodes,
    Status da size capacity = Ret (keys, nodes, size, capacity) /\
    0 <= keys <= nodes /\ nodes <= size.
Proof.
  intros Hsize Hlt. unfold Status.
  destruct (Status_loop_bounds (array da) (seqZ 0 size) 0 0) as (k & n & -> & H1 & H2 & H3).
  - apply Forall_forall. intros i Hi. apply elem_of_seqZ in Hi. lia.
  - lia.
  - rewrite length_seqZ. lia.
  - rewrite length_seqZ in H3. exists k, n. split; [reflexivity|lia].
Qed.

Lemma Status_counts_witness :
  exists da,
    run_ops 0 example_ops NewCedar = Ret da /\
    exists keys nodes,
      Status da 512 1024 = Ret (keys, nodes, 512, 1024) /\
      0 <= keys <= nodes /\ nodes <= 512.
Proof.
  eexists. split; [vm_compute; reflexivity|].
  apply (Status_counts _ 512 1024).
  - vm_compute. split; congruence.
  - reflexivity.
Defined.

(** X25 ([Status], [Insert], [Delete]): after any history of [Insert] and
    [Delete] calls on NUL-free keys that starts from a new trie and contains
    no [Update], the [keys] count reported by [Status] over the whole array
    is exactly the number of distinct keys the history currently holds
    (inserted and not deleted since). *)
Theorem Status_keys_live (fuel : nat) (ops : list op) (da : Cedar) (capacity : Z) :
  Forall (fun o => NUL ∉ op_key o) ops -> update_free ops ->
  Z.of_nat (length ops) <= valueLimit ->
  Z.of_nat (length (array da)) < 2 ^ 63 ->
  run_ops fuel ops NewCedar = Ret da ->
  exists nodes,
    Status da (Z.of_nat (length (array da))) capacity
    = Ret (Z.of_nat (length (live_keys ops)), nodes,
           Z.of_nat (length (array da)), capacity).
Proof.
  intros Hnul Hup Hlen Harr Hr.
  apply Status_keys_Good; [| |exact Hnul|exact Hup|exact Harr].
  - exact (Good_run fuel ops NewCedar _ da Good_NewCedar Hnul Hlen Hr).
  - exact (run_ops_NoSent fuel ops NewCedar _ da Good_NewCedar NoSent_NewCedar
             Hnul Hup Hlen Hr).
Qed.

Lemma Status_keys_live_witness :
  exists da,
    run_ops 600 (example_ops ++ [OpDelete (bytes "ab")]) NewCedar = Ret da /\
    exists nodes,
      Status da (Z.of_nat (length (array da))) 512
      = Ret (Z.of_nat (length (live_keys (example_ops ++ [OpDelete (bytes "ab")]))),
             nodes, Z.of_nat (length (array da)), 512).
Proof.
  eexists. split; [vm_compute; reflexivity|].
  apply (Status_keys_live 600 (example_ops ++ [OpDelete (bytes "ab")])).
  - apply (bool_decide_unpack _). vm_compute. exact I.
  - repeat constructor.
  - vm_compute. congruence.
  - vm_compute. reflexivity.
  - vm_compute. reflexivity.
Defined.

(** ** The pooled frame stack *)

(** X26 ([getsnidpos], [FindOne]): the answer of [FindOne] depends on the
    capacity of the pooled stack.  Let the cedar hold the patterns
    [a^k ++ "*x"] for [k] from 1 to 35 and the pattern [a^30 ++ "*" ++ a^9]
    with the value 1000, which matches the key [a^40].  The first round
    pushes 35 frames.  With a new buffer, of capacity 30, the 31st push
    overwrites the 30th frame, the one of the matching pattern, and
    [FindOne(a^40)] returns [ErrNoPath]; with a buffer that an earlier
    call has grown to the capacity 60 the same call returns 1000. *)
Theorem FindOne_depends_on_capacity :
  exists da,
    insert_all (map (fun k => (replicate k "a"%byte ++ [STAR; "x"%byte],
                               IInt (Z.of_nat k))) (seq 1 35)
                ++ [(replicate 30 "a"%byte ++ [STAR] ++ replicate 9 "a"%byte,
                     IInt 1000)]) NewCedar = Ret da /\
    FindOne doubling 0 1000 da (replicate 40 "a"%byte)
    = Ret (INil, Some ErrNoPath) /\
    FindOne doubling 30 1000 da (replicate 40 "a"%byte)
    = Ret (IInt 1000, None).
Proof.
  eexists. split; [vm_compute; reflexivity|].
  split; vm_compute; reflexivity.
Qed.
